(** * mail-scanner: a shallow embedding of the watcher and the analyzer

    The development follows [src/emailAnalyzer.ts], [src/emailWatcher.ts]
    and [src/emailUtils.ts].  JavaScript strings are sequences of UTF-16
    code units; the numbers the code computes with (the delays) are IEEE-754
    doubles, with the rounding of each operation; the numbers it only
    compares (probabilities, thresholds) are rationals; counters and
    instants are integers; and asynchronous methods are programs of a small
    free monad whose [Await] nodes are the suspension points of the
    source.  A method is run on its own ([run]), amid whatever other
    listeners and callbacks do to the watcher while it is suspended
    ([runAmid]), or as one task of the event loop ([exec]). *)

From Stdlib Require Import String Ascii DecimalString.
From Stdlib Require Import List ZArith NArith QArith Qminmax Bool Lia Lqa.
From Stdlib Require Import DecimalPos DecimalZ SpecFloat.
Import ListNotations.

Set Implicit Arguments.

(* ================================================================== *)
(** * Part I: the program *)
(* ================================================================== *)

(** ** JavaScript strings and numbers *)

Module JS.

(** A string is its sequence of UTF-16 code units. *)
Definition str := list N.

(** Literals of the source are ASCII; [lit] reads one. *)
Definition lit (s : string) : str :=
  map N_of_ascii (list_ascii_of_string s).

Definition eqb (a b : str) : bool :=
  if list_eq_dec N.eq_dec a b then true else false.

(** Truthiness of a string value: only the empty string is falsy. *)
Definition truthy (s : str) : bool :=
  match s with [] => false | _ :: _ => true end.

(** [s.endsWith(t)] *)
Definition endsWith (s t : str) : bool :=
  (length t <=? length s)%nat && eqb (skipn (length s - length t) s) t.

(** [s.substring(0, n)]: a negative (or NaN) end index counts as 0. *)
Definition substring0 (s : str) (n : Z) : str := firstn (Z.to_nat n) s.

(** The character class [\s] of a JavaScript regular expression, which is
    also the set that [trim] strips: WhiteSpace and LineTerminator. *)
Definition isWhiteSpace (c : N) : bool :=
  ((c =? 9) || (c =? 10) || (c =? 11) || (c =? 12) || (c =? 13)
   || (c =? 32) || (c =? 160) || (c =? 5760)
   || ((8192 <=? c) && (c <=? 8202))
   || (c =? 8232) || (c =? 8233) || (c =? 8239) || (c =? 8287)
   || (c =? 12288) || (c =? 65279))%N.

Fixpoint trimStart (s : str) : str :=
  match s with
  | [] => []
  | c :: r => if isWhiteSpace c then trimStart r else s
  end.

Fixpoint trimEnd (s : str) : str :=
  match s with
  | [] => []
  | c :: r =>
      match trimEnd r with
      | [] => if isWhiteSpace c then [] else [c]
      | r' => c :: r'
      end
  end.

Definition trim (s : str) : str := trimEnd (trimStart s).

(** ASCII lower-casing; [toLowerCase] agrees with it on ASCII strings. *)
Definition asciiLower (s : str) : str :=
  map (fun c => if ((65 <=? c) && (c <=? 90))%N then (c + 32)%N else c) s.

(** A number is a double: IEEE-754 binary64, every operation rounded to
    the nearest double, ties to even. *)
Definition number := spec_float.
Definition prec : Z := 53.
Definition emax : Z := 1024.

(** The double of an integer literal. *)
Definition ofZ (n : Z) : number := binary_normalize prec emax n 0 false.

(** [a * b] and [a + b] *)
Definition times (a b : number) : number := SFmul prec emax a b.
Definition plus (a b : number) : number := SFadd prec emax a b.

(** [Math.pow(2, k)] for an integer [k]: the power is a double itself, or
    rounds to 0 or to infinity. *)
Definition Math_pow2 (k : Z) : number := binary_normalize prec emax 1 k false.

(** [Math.min(a, b)]: NaN if either is, and [-0] below [+0]. *)
Definition Math_min (a b : number) : number :=
  match SFcompare a b with
  | Some Lt => a
  | Some Gt => b
  | Some Eq => match a with S754_zero false => b | _ => a end
  | None => S754_nan
  end.

(** [a <= b] and [a < b] *)
Definition lessEq (a b : number) : bool := SFleb a b.
Definition lessThan (a b : number) : bool := SFltb a b.

End JS.

(** ** emailAnalyzer.ts *)

Module Analyzer.

(** [/[\u0000-\u0008\u000B\u000C\u000E-\u001F\u007F]/] *)
Definition isStrippedControl (c : N) : bool :=
  ((c <=? 8) || (c =? 11) || (c =? 12)
   || ((14 <=? c) && (c <=? 31)) || (c =? 127))%N.

(** [.replace(/[...]/g, " ")] *)
Definition replaceControls (s : JS.str) : JS.str :=
  map (fun c => if isStrippedControl c then 32%N else c) s.

(** [.replace(/\s+/g, " ")]: every maximal run of white space becomes one
    space.  [inRun] tells that the previous code unit belonged to the run
    being replaced. *)
Fixpoint collapseFrom (inRun : bool) (s : JS.str) : JS.str :=
  match s with
  | [] => []
  | c :: r =>
      if JS.isWhiteSpace c
      then (if inRun then collapseFrom true r else 32%N :: collapseFrom true r)
      else c :: collapseFrom false r
  end.

Definition collapseWhiteSpace (s : JS.str) : JS.str := collapseFrom false s.

Definition sanitizeText (text : JS.str) : JS.str :=
  if JS.truthy text
  then JS.trim (collapseWhiteSpace (replaceControls text))
  else [].

Record EmailAnalyzer := { bodyMaxChars : Z }.

(** The three interpolated fields of the prompt of [isScamEmail]. *)
Record Prompt := { p_from : JS.str; p_subject : JS.str; p_body : JS.str }.

End Analyzer.

(** ** The collaborators: mail transport, parser, classifier, file system *)

Module Imap.

(** A thrown value; [textCode] is the field [startWatching] inspects. *)
Record Exn := { textCode : option JS.str }.

Definition typeError : Exn := {| textCode := None |}.
Definition rangeError : Exn := {| textCode := None |}.

(** A connection handle of [imap-simple]. *)
Definition Conn := nat.

(** A [Dayjs] value: [None] is an invalid date, [Some t] the instant [t]
    in milliseconds since the epoch. *)
Definition Dayjs := option Z.

(** [a.isBefore(b)]: compares the two instants, false when either date is
    invalid. *)
Definition isBefore (a b : Dayjs) : bool :=
  match a, b with
  | Some x, Some y => (x <? y)%Z
  | _, _ => false
  end.

(** The reply of [openBox]; [messages.total] may be missing. *)
Record Box := { messages_total : option Z }.

Record Part := { which : JS.str; body : JS.str }.
Record RawMessage := { parts : list Part; attributes_uid : N }.

(** What [simpleParser] returns, as far as the watcher reads it. *)
Record Parsed := {
  parsed_date : option Dayjs;
  parsed_subject : option JS.str;
  parsed_from_text : option JS.str;
  parsed_text : option JS.str;
  parsed_html : option JS.str
}.

(** The mailbox tree of [getBoxes], in the order of [Object.entries]. *)
Inductive BoxTree :=
| NoBoxes
| BoxEntry (name : JS.str) (node : BoxNode) (rest : BoxTree)
with BoxNode :=
| NullNode
| Node (children : SubTree) (boxes : SubTree)
with SubTree :=
| Absent
| Sub (tree : BoxTree).

(** Search criteria: a sequence range [`${startSeq}:${endSeq}`], or
    [["ALL", ["SINCE", sinceDate]]] where [sinceDate] is the calendar day
    of the given lower bound. *)
Inductive Criteria :=
| SeqRange (startSeq endSeq : Z)
| AllSince (lowerBound : Dayjs).

Inductive ImapState := Disconnected | Connected | Authenticated.

(** The accounts file after [JSON.parse]. *)
Record Account := {
  acc_user : option JS.str;
  acc_label : option JS.str;
  acc_emailsAnalyzedUntil : option Z
}.
Inductive Json :=
| NotAnArray
| Accounts (entries : list (option Account)).

Record ScanResult := { scam_probability : Q; reason : option JS.str }.

(** Awaited operations: the suspension points of the source. *)
Inductive Op :=
| ImapConnect
| OpenBox (c : Conn) (name : JS.str)
| Search (c : Conn) (criteria : Criteria)
| SimpleParser (source : JS.str)
| MessagesCreate (prompt : Analyzer.Prompt)
| GetBoxes (c : Conn)
| AddBox (c : Conn) (name : JS.str)
| MoveMessage (c : Conn) (uid : N) (target : JS.str).

(** [MessagesCreate] stands for [anthropic.messages.create] together with
    the extraction and [JSON.parse] of its answer: an exception of any of
    the three is the exceptional reply. *)
Definition Reply (o : Op) : Type :=
  match o with
  | ImapConnect => Conn
  | OpenBox _ _ => Box
  | Search _ _ => list RawMessage
  | SimpleParser _ => Parsed
  | MessagesCreate _ => ScanResult
  | GetBoxes _ => BoxTree
  | AddBox _ _ => unit
  | MoveMessage _ _ _ => unit
  end.

(** Synchronous calls into the environment. *)
Inductive SyncOp :=
| MathRandom
| DateNow
| ReadFile (path : JS.str)
| JsonParse (raw : JS.str)
| WriteFile (path : JS.str) (data : Json)
| RemoveAllListeners (c : Conn)
| GetState (c : Conn)
| EndConnection (c : Conn).

Definition SyncReply (s : SyncOp) : Type :=
  match s with
  | MathRandom => JS.number
  | DateNow => Z
  | ReadFile _ => JS.str
  | JsonParse _ => Json
  | WriteFile _ _ => unit
  | RemoveAllListeners _ => unit
  | GetState _ => ImapState
  | EndConnection _ => unit
  end.

Inductive Stream := StdOut | StdErr.

(** Console messages, one constructor per template of the source. *)
Inductive Msg :=
| AlreadyWatching | WatcherActive | InvalidCredentials
| FailedToStart (e : Exn)
| Connecting | ConnectedInbox
| InitialCount (n : Z)
| BackfillLowerBound (lowerBound : Dayjs)
| BackfillError (e : Exn)
| NewEmails (n : Z)
| NewMailError (e : Exn)
| ImapError
| ConnectionClosed (hadError : bool)
| CleanupError (e : Exn)
| KeepaliveFailed (e : Exn)
| MaxAttemptsReached
| AttemptingReconnect (attempt : Z)
| Reconnected
| ReconnectFailed (e : Exn)
| SearchingEmails
| ParseError (e : Exn)
| SearchingSince (lowerBound : Dayjs)
| FoundMessages (n : nat)
| Skipping (emailDate : Dayjs) (subject : JS.str)
| Analyzing (subject : JS.str)
| PotentialScam (probability : Q) (subject : JS.str)
| Legitimate (subject : JS.str)
| BackfillMessageError (e : Exn)
| PersistFailed (e : Exn)
| Moved (uid : N) (target : JS.str)
| MoveError (uid : N) (e : Exn).

Inductive TimerCallback := ReconnectCallback | KeepAliveCallback.

(** Effects that need no answer. *)
Inductive Output :=
| Log (stream : Stream) (m : Msg)
| SetTimeout (cb : TimerCallback) (delay : JS.number)
| ClearTimeout
| SetInterval (cb : TimerCallback) (period : JS.number)
| ClearInterval
| OnEvents (c : Conn).

End Imap.

(** ** The watcher object *)

Module State.
Import Imap.

Record Watcher := {
  connection : option Conn;
  isWatching : bool;
  isReconnecting : bool;
  reconnectAttempts : Z;
  reconnectTimer : option JS.number; (* the armed timeout, with its delay *)
  keepAliveTimer : bool;            (* an interval handle is held *)
  emailAnalyzer : Analyzer.EmailAnalyzer;
  scamThreshold : Q;
  label : option JS.str;
  configPath : option JS.str;
  accountUser : option JS.str;
  emailsAnalyzedUntil : option Dayjs;
  isBackfilling : bool
}.

Definition maxReconnectAttempts : Z := 5.
Definition initialReconnectDelay : JS.number := JS.ofZ 1000.

Definition set_connection v w :=
  {| connection := v; isWatching := isWatching w;
     isReconnecting := isReconnecting w;
     reconnectAttempts := reconnectAttempts w;
     reconnectTimer := reconnectTimer w; keepAliveTimer := keepAliveTimer w;
     emailAnalyzer := emailAnalyzer w; scamThreshold := scamThreshold w;
     label := label w; configPath := configPath w;
     accountUser := accountUser w;
     emailsAnalyzedUntil := emailsAnalyzedUntil w;
     isBackfilling := isBackfilling w |}.

Definition set_isWatching v w :=
  {| connection := connection w; isWatching := v;
     isReconnecting := isReconnecting w;
     reconnectAttempts := reconnectAttempts w;
     reconnectTimer := reconnectTimer w; keepAliveTimer := keepAliveTimer w;
     emailAnalyzer := emailAnalyzer w; scamThreshold := scamThreshold w;
     label := label w; configPath := configPath w;
     accountUser := accountUser w;
     emailsAnalyzedUntil := emailsAnalyzedUntil w;
     isBackfilling := isBackfilling w |}.

Definition set_isReconnecting v w :=
  {| connection := connection w; isWatching := isWatching w;
     isReconnecting := v;
     reconnectAttempts := reconnectAttempts w;
     reconnectTimer := reconnectTimer w; keepAliveTimer := keepAliveTimer w;
     emailAnalyzer := emailAnalyzer w; scamThreshold := scamThreshold w;
     label := label w; configPath := configPath w;
     accountUser := accountUser w;
     emailsAnalyzedUntil := emailsAnalyzedUntil w;
     isBackfilling := isBackfilling w |}.

Definition set_reconnectAttempts v w :=
  {| connection := connection w; isWatching := isWatching w;
     isReconnecting := isReconnecting w;
     reconnectAttempts := v;
     reconnectTimer := reconnectTimer w; keepAliveTimer := keepAliveTimer w;
     emailAnalyzer := emailAnalyzer w; scamThreshold := scamThreshold w;
     label := label w; configPath := configPath w;
     accountUser := accountUser w;
     emailsAnalyzedUntil := emailsAnalyzedUntil w;
     isBackfilling := isBackfilling w |}.

Definition set_reconnectTimer v w :=
  {| connection := connection w; isWatching := isWatching w;
     isReconnecting := isReconnecting w;
     reconnectAttempts := reconnectAttempts w;
     reconnectTimer := v; keepAliveTimer := keepAliveTimer w;
     emailAnalyzer := emailAnalyzer w; scamThreshold := scamThreshold w;
     label := label w; configPath := configPath w;
     accountUser := accountUser w;
     emailsAnalyzedUntil := emailsAnalyzedUntil w;
     isBackfilling := isBackfilling w |}.

Definition set_keepAliveTimer v w :=
  {| connection := connection w; isWatching := isWatching w;
     isReconnecting := isReconnecting w;
     reconnectAttempts := reconnectAttempts w;
     reconnectTimer := reconnectTimer w; keepAliveTimer := v;
     emailAnalyzer := emailAnalyzer w; scamThreshold := scamThreshold w;
     label := label w; configPath := configPath w;
     accountUser := accountUser w;
     emailsAnalyzedUntil := emailsAnalyzedUntil w;
     isBackfilling := isBackfilling w |}.

Definition set_emailsAnalyzedUntil v w :=
  {| connection := connection w; isWatching := isWatching w;
     isReconnecting := isReconnecting w;
     reconnectAttempts := reconnectAttempts w;
     reconnectTimer := reconnectTimer w; keepAliveTimer := keepAliveTimer w;
     emailAnalyzer := emailAnalyzer w; scamThreshold := scamThreshold w;
     label := label w; configPath := configPath w;
     accountUser := accountUser w;
     emailsAnalyzedUntil := v;
     isBackfilling := isBackfilling w |}.

Definition set_isBackfilling v w :=
  {| connection := connection w; isWatching := isWatching w;
     isReconnecting := isReconnecting w;
     reconnectAttempts := reconnectAttempts w;
     reconnectTimer := reconnectTimer w; keepAliveTimer := keepAliveTimer w;
     emailAnalyzer := emailAnalyzer w; scamThreshold := scamThreshold w;
     label := label w; configPath := configPath w;
     accountUser := accountUser w;
     emailsAnalyzedUntil := emailsAnalyzedUntil w;
     isBackfilling := v |}.

(** The constructor of [EmailWatcher], from already decoded options. *)
Definition newWatcher (lbl path user : option JS.str) (threshold : Q)
           (analyzedUntil : option Dayjs) (bodyMax : Z) : Watcher :=
  {| connection := None; isWatching := false; isReconnecting := false;
     reconnectAttempts := 0; reconnectTimer := None;
     keepAliveTimer := false;
     emailAnalyzer := {| Analyzer.bodyMaxChars := bodyMax |};
     scamThreshold := threshold;
     label := lbl; configPath := path; accountUser := user;
     emailsAnalyzedUntil := analyzedUntil;
     isBackfilling := false |}.

End State.

(** ** Asynchronous methods as programs *)

Module Async.
Import Imap State.

(** A method body: reads and writes of [this], console and timer effects,
    synchronous calls that may throw, and awaited operations. *)
Inductive Prog (A : Type) : Type :=
| Ret (a : A)
| Raise (e : Exn)
| Get (k : Watcher -> Prog A)
| Put (w : Watcher) (k : Prog A)
| Emit (o : Output) (k : Prog A)
| Call (s : SyncOp) (k : Exn + SyncReply s -> Prog A)
| Await (o : Op) (k : Exn + Reply o -> Prog A).

Arguments Ret {A} a.
Arguments Raise {A} e.
Arguments Get {A} k.
Arguments Put {A} w k.
Arguments Emit {A} o k.
Arguments Call {A} s k.
Arguments Await {A} o k.

Fixpoint bind {A B} (p : Prog A) (f : A -> Prog B) : Prog B :=
  match p with
  | Ret a => f a
  | Raise e => Raise e
  | Get k => Get (fun w => bind (k w) f)
  | Put w k => Put w (bind k f)
  | Emit o k => Emit o (bind k f)
  | Call s k => Call s (fun r => bind (k r) f)
  | Await o k => Await o (fun r => bind (k r) f)
  end.

(** [try { p } catch (e) { h e }] *)
Fixpoint tryCatch {A} (p : Prog A) (h : Exn -> Prog A) : Prog A :=
  match p with
  | Ret a => Ret a
  | Raise e => h e
  | Get k => Get (fun w => tryCatch (k w) h)
  | Put w k => Put w (tryCatch k h)
  | Emit o k => Emit o (tryCatch k h)
  | Call s k => Call s (fun r => tryCatch (k r) h)
  | Await o k => Await o (fun r => tryCatch (k r) h)
  end.

(** [try { p } finally { fin }] *)
Fixpoint tryFinally {A} (p : Prog A) (fin : Prog unit) : Prog A :=
  match p with
  | Ret a => bind fin (fun _ => Ret a)
  | Raise e => bind fin (fun _ => Raise e)
  | Get k => Get (fun w => tryFinally (k w) fin)
  | Put w k => Put w (tryFinally k fin)
  | Emit o k => Emit o (tryFinally k fin)
  | Call s k => Call s (fun r => tryFinally (k r) fin)
  | Await o k => Await o (fun r => tryFinally (k r) fin)
  end.

Definition orThrow {A R} (k : R -> Prog A) (r : Exn + R) : Prog A :=
  match r with inl e => Raise e | inr x => k x end.

(** [await op] and a synchronous call: an exceptional reply is thrown. *)
Definition await (o : Op) : Prog (Reply o) := Await o (orThrow Ret).
Definition call (s : SyncOp) : Prog (SyncReply s) := Call s (orThrow Ret).

Definition modify (f : Watcher -> Watcher) : Prog unit :=
  Get (fun w => Put (f w) (Ret tt)).
Definition emit (o : Output) : Prog unit := Emit o (Ret tt).
Definition log (m : Msg) : Prog unit := emit (Log StdOut m).
Definition logError (m : Msg) : Prog unit := emit (Log StdErr m).

(** [for (const x of l) { body x }] *)
Fixpoint forEach {X} (l : list X) (body : X -> Prog unit) : Prog unit :=
  match l with
  | [] => Ret tt
  | x :: r => bind (body x) (fun _ => forEach r body)
  end.

Declare Scope prog_scope.
Delimit Scope prog_scope with prog.
Bind Scope prog_scope with Prog.
Notation "x <- p ;; k" := (bind p (fun x => k))
  (at level 61, p at next level, right associativity) : prog_scope.
Notation "p ;; k" := (bind p (fun _ => k))
  (at level 61, right associativity) : prog_scope.

End Async.

(** ** The methods *)

Section Program.
Import Imap State Async.
Local Open Scope prog_scope.
Local Open Scope Z_scope.

(** [String.prototype.toLowerCase], left uninterpreted. *)
Variable toLowerCase : JS.str -> JS.str.

Record EmailContent := {
  uid : N;
  subject : JS.str;
  from : JS.str;
  date : Dayjs;
  text : JS.str;
  html : option JS.str
}.

Definition INBOX : JS.str := JS.lit "INBOX".

(** [v || d] on an optional string. *)
Definition orElse (v : option JS.str) (d : JS.str) : JS.str :=
  match v with
  | Some s => if JS.truthy s then s else d
  | None => d
  end.

Definition truthyOpt (v : option JS.str) : bool :=
  match v with Some s => JS.truthy s | None => false end.

(** *** emailAnalyzer.ts: isScamEmail *)

Definition promptFor (a : Analyzer.EmailAnalyzer) (email : EmailContent)
  : Analyzer.Prompt :=
  let bodySanitized := Analyzer.sanitizeText (text email) in
  {| Analyzer.p_from := from email;
     Analyzer.p_subject := subject email;
     Analyzer.p_body :=
       JS.substring0 bodySanitized (Analyzer.bodyMaxChars a) |}.

Definition analysisFailed : ScanResult :=
  {| scam_probability := 0; reason := Some (JS.lit "Analysis failed") |}.

Definition isScamEmail (a : Analyzer.EmailAnalyzer) (email : EmailContent)
  : Prog ScanResult :=
  tryCatch (await (MessagesCreate (promptFor a email)))
           (fun _ => Ret analysisFailed).

(** *** emailUtils.ts *)

Fixpoint flattenBoxes (tree : BoxTree) (prefix : JS.str) : list JS.str :=
  match tree with
  | NoBoxes => []
  | BoxEntry name node rest =>
      let full := if JS.truthy prefix
                  then (prefix ++ JS.lit "/" ++ name)%list else name in
      (full :: flattenNode node full ++ flattenBoxes rest prefix)%list
  end
with flattenNode (node : BoxNode) (full : JS.str) : list JS.str :=
  match node with
  | NullNode => []
  | Node children boxes =>
      (flattenSub children full ++ flattenSub boxes full)%list
  end
with flattenSub (sub : SubTree) (full : JS.str) : list JS.str :=
  match sub with
  | Absent => []
  | Sub tree => flattenBoxes tree full
  end.

(** A [Map] with string keys: [set] overwrites the value of a key that is
    present and appends a new key. *)
Definition JsMap := list (JS.str * JS.str).

Fixpoint mapSet (m : JsMap) (k v : JS.str) : JsMap :=
  match m with
  | [] => [(k, v)]
  | (k', v') :: r =>
      if JS.eqb k' k then (k', v) :: r else (k', v') :: mapSet r k v
  end.

Definition newMap (entries : list (JS.str * JS.str)) : JsMap :=
  fold_left (fun m kv => mapSet m (fst kv) (snd kv)) entries [].

Fixpoint mapGet (m : JsMap) (k : JS.str) : option JS.str :=
  match m with
  | [] => None
  | (k', v) :: r => if JS.eqb k' k then Some v else mapGet r k
  end.

Definition candidates : list JS.str :=
  map JS.lit ["spam"; "junk"; "junk e-mail"; "bulk"; "[gmail]/spam"]%string.

Definition lowerToOriginalOf (allBoxes : list JS.str) : JsMap :=
  newMap (map (fun n => (toLowerCase n, n)) allBoxes).

(** The loop over the candidates, with its two [break]s. *)
Fixpoint pickTarget (allBoxes : list JS.str) (lowerToOriginal : JsMap)
         (cands : list JS.str) : option JS.str :=
  match cands with
  | [] => None
  | cand :: rest =>
      let exact := mapGet lowerToOriginal (toLowerCase cand) in
      if truthyOpt exact then exact
      else
        let found :=
          find (fun b => JS.endsWith (toLowerCase b)
                           (JS.lit "/" ++ toLowerCase cand)%list)
               allBoxes in
        if truthyOpt found then found
        else pickTarget allBoxes lowerToOriginal rest
  end.

(** [connection] is what the caller read from [this.connection]; calling a
    method on [null] throws a TypeError. *)
Definition moveToSpamFolder (connection : option Conn) (uid : N)
  : Prog unit :=
  tryCatch
    (match connection with
     | None => Raise typeError
     | Some c =>
         boxes <- await (GetBoxes c);;
         let allBoxes := flattenBoxes boxes [] in
         let lowerToOriginal := lowerToOriginalOf allBoxes in
         target <-
           match pickTarget allBoxes lowerToOriginal candidates with
           | Some t => Ret t
           | None =>
               tryCatch (await (AddBox c (JS.lit "Spam")))
                        (fun _ => Ret tt);;
               Ret (JS.lit "Spam")
           end;;
         await (MoveMessage c uid target);;
         log (Moved uid target)
     end)
    (fun error => logError (MoveError uid error);; Raise error).

Definition getTotalMessages (c : Conn) : Prog Z :=
  box <- await (OpenBox c INBOX);;
  Ret (match messages_total box with Some t => t | None => 0 end).

(** [dayjs(parsed.date || new Date())] *)
Definition emailDateOf (parsed : Parsed) : Prog Dayjs :=
  match parsed_date parsed with
  | Some d => Ret d
  | None => now <- call DateNow;; Ret (Some now)
  end.

Definition emailOf (message : RawMessage) (parsed : Parsed)
           (emailDate : Dayjs) : EmailContent :=
  {| uid := attributes_uid message;
     subject := orElse (parsed_subject parsed) (JS.lit "(No subject)");
     from := orElse (parsed_from_text parsed) (JS.lit "Unknown sender");
     date := emailDate;
     text := orElse (parsed_text parsed) [];
     html := if truthyOpt (parsed_html parsed)
             then parsed_html parsed else None |}.

(** [message.parts.find((part) => part.which === "")] *)
Definition fullPart (message : RawMessage) : option Part :=
  find (fun part => JS.eqb (which part) []) (parts message).

(** The loop of [fetchEmailsBatch]; [emails] is the array filled so far. *)
Fixpoint parseBatch (messages : list RawMessage)
         (emails : list EmailContent) : Prog (list EmailContent) :=
  match messages with
  | [] => Ret emails
  | message :: rest =>
      emails' <-
        tryCatch
          (match fullPart message with
           | None => Ret emails
           | Some all =>
               parsed <- await (SimpleParser (body all));;
               emailDate <- emailDateOf parsed;;
               Ret (emails ++ [emailOf message parsed emailDate])%list
           end)
          (fun error => logError (ParseError error);; Ret emails);;
      parseBatch rest emails'
  end.

Definition fetchEmailsBatch (c : Conn) (startSeq endSeq : Z)
  : Prog (list EmailContent) :=
  await (OpenBox c INBOX);;
  log SearchingEmails;;
  messages <- await (Search c (SeqRange startSeq endSeq));;
  parseBatch messages [].

(** *** emailWatcher.ts *)

Definition AUTHORIZATION_FAILED_KEY : JS.str := JS.lit "AUTHENTICATIONFAILED".

(** [error?.textCode === AUTHORIZATION_FAILED_KEY] *)
Definition isAuthFailure (error : Exn) : bool :=
  match textCode error with
  | Some code => JS.eqb code AUTHORIZATION_FAILED_KEY
  | None => false
  end.

Definition stopKeepAlive : Prog unit :=
  Get (fun w =>
    if keepAliveTimer w
    then emit ClearInterval;; modify (set_keepAliveTimer false)
    else Ret tt).

Definition startKeepAlive : Prog unit :=
  stopKeepAlive;;
  Get (fun w =>
    match connection w with
    | None => Ret tt
    | Some _ =>
        emit (SetInterval KeepAliveCallback
                (JS.times (JS.ofZ 60) (JS.ofZ 1000)));;
        modify (set_keepAliveTimer true)
    end).

Definition cleanupConnection : Prog unit :=
  Get (fun w =>
    match connection w with
    | Some c =>
        tryCatch
          (call (RemoveAllListeners c);;
           state <- call (GetState c);;
           match state with
           | Disconnected => Ret tt
           | _ => call (EndConnection c)
           end)
          (fun error => logError (CleanupError error));;
        modify (set_connection None)
    | None => Ret tt
    end);;
  stopKeepAlive.

(** The delay of the next attempt, [random] being [Math.random()]:
    [Math.min(this.initialReconnectDelay * Math.pow(2, attempts - 1) +
    Math.random() * 1000, 30000)], in doubles. *)
Definition reconnectDelay (attempts : Z) (random : JS.number) : JS.number :=
  JS.Math_min
    (JS.plus (JS.times initialReconnectDelay (JS.Math_pow2 (attempts - 1)))
             (JS.times random (JS.ofZ 1000)))
    (JS.ofZ 30000).

Definition scheduleReconnection : Prog unit :=
  Get (fun w =>
    if isReconnecting w || (maxReconnectAttempts <=? reconnectAttempts w)
    then
      if maxReconnectAttempts <=? reconnectAttempts w
      then logError MaxAttemptsReached
      else Ret tt
    else
      (* this.isReconnecting = true; this.reconnectAttempts++; *)
      Put (set_reconnectAttempts (reconnectAttempts w + 1)
             (set_isReconnecting true w))
        (random <- call MathRandom;;
         Get (fun w =>
           let delay := reconnectDelay (reconnectAttempts w) random in
           log (AttemptingReconnect (reconnectAttempts w));;
           emit (SetTimeout ReconnectCallback delay);;
           modify (set_reconnectTimer (Some delay))))).

Definition handleConnectionError : Prog unit :=
  Get (fun w =>
    if isReconnecting w then Ret tt
    else cleanupConnection;; scheduleReconnection).

Definition setupConnectionHandlers : Prog unit :=
  Get (fun w =>
    match connection w with
    | None => Ret tt
    | Some c => emit (OnEvents c)
    end).

Definition connect : Prog unit :=
  tryCatch
    (log Connecting;;
     c <- await ImapConnect;;
     modify (set_connection (Some c));;
     setupConnectionHandlers;;
     Get (fun w =>
       match connection w with
       | None => Raise typeError
       | Some c => await (OpenBox c INBOX)
       end);;
     log ConnectedInbox;;
     startKeepAlive;;
     modify (set_reconnectAttempts 0))
    (fun error => Raise error).

(** The callback given to [setTimeout] by [scheduleReconnection]. *)
Definition reconnectCallback : Prog unit :=
  tryCatch
    (connect;;
     modify (set_isReconnecting false);;
     log Reconnected)
    (fun error =>
       logError (ReconnectFailed error);;
       modify (set_isReconnecting false);;
       scheduleReconnection).

(** The callback given to [setInterval] by [startKeepAlive]. *)
Definition keepAliveCallback : Prog unit :=
  tryCatch
    (Get (fun w =>
       match connection w with
       | Some c =>
           state <- call (GetState c);;
           match state with
           | Authenticated => await (OpenBox c INBOX);; Ret tt
           | _ => Ret tt
           end
       | None => Ret tt
       end))
    (fun e =>
       emit (Log StdErr (KeepaliveFailed e));;
       handleConnectionError).

Definition stopWatching : Prog unit :=
  modify (set_isWatching false);;
  Get (fun w =>
    match reconnectTimer w with
    | Some _ => emit ClearTimeout;; modify (set_reconnectTimer None)
    | None => Ret tt
    end);;
  cleanupConnection.

Definition startWatching : Prog unit :=
  Get (fun w =>
    if isWatching w then log AlreadyWatching
    else
      tryCatch
        (connect;;
         modify (set_isWatching true);;
         log WatcherActive)
        (fun error =>
           modify (set_isWatching false);;
           if isAuthFailure error
           then log InvalidCredentials;; stopWatching
           else logError (FailedToStart error);; scheduleReconnection)).

(** [date.toISOString()] throws a RangeError on an invalid date. *)
Definition toISOString (d : Dayjs) : Prog Z :=
  match d with Some t => Ret t | None => Raise rangeError end.

(** The predicate of [findIndex] in [updateAnalyzedUntil]; reading a
    property of a [null] entry throws. *)
Definition matchesAccount (w : Watcher) (acc : option Account)
  : Exn + bool :=
  match (if truthyOpt (accountUser w)
         then match acc with
              | None => inl typeError
              | Some a =>
                  inr (match acc_user a, accountUser w with
                       | Some u, Some v => JS.eqb u v
                       | _, _ => false
                       end)
              end
         else inr false) with
  | inl e => inl e
  | inr true => inr true
  | inr false =>
      if truthyOpt (label w)
      then match acc with
           | None => inl typeError
           | Some a =>
               inr (match acc_label a, label w with
                    | Some u, Some v => JS.eqb u v
                    | _, _ => false
                    end)
           end
      else inr false
  end.

Fixpoint findIndex (w : Watcher) (data : list (option Account)) (i : nat)
  : Exn + option nat :=
  match data with
  | [] => inr None
  | acc :: rest =>
      match matchesAccount w acc with
      | inl e => inl e
      | inr true => inr (Some i)
      | inr false => findIndex w rest (S i)
      end
  end.

(** [data[idx].emailsAnalyzedUntil = iso] *)
Fixpoint setAnalyzedUntil (data : list (option Account)) (idx : nat)
         (iso : Z) : list (option Account) :=
  match data, idx with
  | [], _ => []
  | acc :: rest, O =>
      match acc with
      | Some a =>
          Some {| acc_user := acc_user a; acc_label := acc_label a;
                  acc_emailsAnalyzedUntil := Some iso |}
      | None => None
      end :: rest
  | acc :: rest, S n => acc :: setAnalyzedUntil rest n iso
  end.

Definition updateAnalyzedUntil (date : Dayjs) : Prog unit :=
  tryCatch
    (Get (fun w =>
       if truthyOpt (configPath w) then
         let resolved := orElse (configPath w) [] in
         raw <- call (ReadFile resolved);;
         data <- call (JsonParse raw);;
         match data with
         | NotAnArray => Ret tt
         | Accounts entries =>
             match findIndex w entries 0 with
             | inl e => Raise e
             | inr None => Ret tt
             | inr (Some idx) =>
                 iso <- toISOString date;;
                 call (WriteFile resolved
                         (Accounts (setAnalyzedUntil entries idx iso)));;
                 modify (set_emailsAnalyzedUntil (Some date))
             end
         end
       else Ret tt))
    (fun e => logError (PersistFailed e)).

(** The body of the loop of [onNewMails]. *)
Definition onNewMails_each (email : EmailContent) : Prog unit :=
  log (Analyzing (subject email));;
  result <- Get (fun w => isScamEmail (emailAnalyzer w) email);;
  Get (fun w =>
    if Qle_bool (scamThreshold w) (scam_probability result)
    then
      log (PotentialScam (scam_probability result) (subject email));;
      moveToSpamFolder (connection w) (uid email)
    else log (Legitimate (subject email))).

Definition onNewMails (totalMessages numberOfEmails : Z) : Prog unit :=
  Get (fun w =>
    match connection w with
    | None => Ret tt
    | Some c =>
        emails <- fetchEmailsBatch c (totalMessages - numberOfEmails + 1)
                                   totalMessages;;
        forEach emails onNewMails_each
    end).

(** The body of the loop of [processHistoricalEmails], with its
    [try]/[catch]. *)
Definition processHistoricalEmails_each (lowerBound : Dayjs)
           (message : RawMessage) : Prog unit :=
  tryCatch
    (match fullPart message with
     | None => Ret tt
     | Some all =>
         parsed <- await (SimpleParser (body all));;
         emailDate <- emailDateOf parsed;;
         let email := emailOf message parsed emailDate in
         if isBefore emailDate lowerBound
         then log (Skipping emailDate (subject email))
         else
           log (Analyzing (subject email));;
           result <- Get (fun w => isScamEmail (emailAnalyzer w) email);;
           Get (fun w =>
             if Qle_bool (scamThreshold w) (scam_probability result)
             then
               log (PotentialScam (scam_probability result)
                                  (subject email));;
               moveToSpamFolder (connection w) (uid email)
             else log (Legitimate (subject email)))
     end)
    (fun err => logError (BackfillMessageError err)).

Definition processHistoricalEmails (lowerBound : Dayjs) : Prog unit :=
  Get (fun w =>
    match connection w with
    | None => Ret tt
    | Some c =>
        await (OpenBox c INBOX);;
        log (SearchingSince lowerBound);;
        messages <-
          Get (fun w =>
            match connection w with
            | None => Raise typeError
            | Some c => await (Search c (AllSince lowerBound))
            end);;
        log (FoundMessages (List.length messages));;
        forEach messages (processHistoricalEmails_each lowerBound)
    end).

(** The listener of the ["mail"] event. *)
Definition onMail (numberOfEmails : Z) : Prog unit :=
  Get (fun w =>
    match connection w with
    | None => Ret tt
    | Some c =>
        totalMessages <- getTotalMessages c;;
        if totalMessages =? numberOfEmails
        then
          log (InitialCount numberOfEmails);;
          tryFinally
            (tryCatch
               (Get (fun w =>
                  if negb (isBackfilling w)
                  then
                    modify (set_isBackfilling true);;
                    Get (fun w =>
                      let lowerBound :=
                        match emailsAnalyzedUntil w with
                        | Some d => d
                        | None => Some 0
                        end in
                      log (BackfillLowerBound lowerBound);;
                      processHistoricalEmails lowerBound;;
                      now <- call DateNow;;
                      updateAnalyzedUntil (Some now))
                  else Ret tt))
               (fun err => logError (BackfillError err)))
            (modify (set_isBackfilling false))
        else
          log (NewEmails numberOfEmails);;
          tryCatch
            (onNewMails totalMessages numberOfEmails;;
             now <- call DateNow;;
             updateAnalyzedUntil (Some now))
            (fun error => logError (NewMailError error))
    end).

(** The listeners of ["error"] and ["close"]. *)
Definition onError : Prog unit :=
  logError ImapError;; handleConnectionError.

Definition onClose (hadError : bool) : Prog unit :=
  log (ConnectionClosed hadError);;
  if hadError then handleConnectionError else Ret tt.

End Program.

(** ** Running a method *)

Module Semantics.
Import Imap State Async.

(** What the collaborators answer. *)
Record Env := {
  answer : forall o : Op, Exn + Reply o;
  answerSync : forall s : SyncOp, Exn + SyncReply s
}.

(** What a run does, in order. *)
Inductive Event :=
| Out (o : Output)
| Did (s : SyncOp)
| Awaited (o : Op).

Record Result (A : Type) := {
  final : Watcher;
  trace : list Event;
  outcome : Exn + A
}.

Definition after {A} (ev : Event) (r : Result A) : Result A :=
  {| final := final r; trace := ev :: trace r; outcome := outcome r |}.

(** A method run from start to end with nothing else in between: every
    awaited operation is answered at once. *)
Fixpoint run {A} (env : Env) (p : Prog A) (w : Watcher) : Result A :=
  match p with
  | Ret a => {| final := w; trace := []; outcome := inr a |}
  | Raise e => {| final := w; trace := []; outcome := inl e |}
  | Get k => run env (k w) w
  | Put w' k => run env k w'
  | Emit o k => after (Out o) (run env k w)
  | Call s k => after (Did s) (run env (k (answerSync env s)) w)
  | Await o k => after (Awaited o) (run env (k (answer env o)) w)
  end.

(** A method run while other listeners and callbacks run too.  They run
    only while the method is suspended: [amid n w] is the watcher as they
    have left it when the answer to the [n]-th awaited operation arrives,
    [w] being the watcher at the suspension.  The trace is the method's
    own. *)
Fixpoint runAmid {A} (env : Env) (amid : nat -> Watcher -> Watcher)
         (n : nat) (p : Prog A) (w : Watcher) : Result A :=
  match p with
  | Ret a => {| final := w; trace := []; outcome := inr a |}
  | Raise e => {| final := w; trace := []; outcome := inl e |}
  | Get k => runAmid env amid n (k w) w
  | Put w' k => runAmid env amid n k w'
  | Emit o k => after (Out o) (runAmid env amid n k w)
  | Call s k => after (Did s) (runAmid env amid n (k (answerSync env s)) w)
  | Await o k =>
      after (Awaited o)
            (runAmid env amid (S n) (k (answer env o)) (amid n w))
  end.

(** A method run up to its next suspension point. *)
Inductive Next (A : Type) : Type :=
| Finished (r : Exn + A)
| Suspended (o : Op) (k : Exn + Reply o -> Prog A).

Record Slice (A : Type) := {
  reached : Watcher;
  emitted : list Event;
  next : Next A
}.

Definition afterSlice {A} (ev : Event) (r : Slice A) : Slice A :=
  {| reached := reached r; emitted := ev :: emitted r; next := next r |}.

Fixpoint advance {A} (sync : forall s : SyncOp, Exn + SyncReply s)
         (p : Prog A) (w : Watcher) : Slice A :=
  match p with
  | Ret a => {| reached := w; emitted := []; next := Finished (inr a) |}
  | Raise e => {| reached := w; emitted := []; next := Finished (inl e) |}
  | Get k => advance sync (k w) w
  | Put w' k => advance sync k w'
  | Emit o k => afterSlice (Out o) (advance sync k w)
  | Call s k => afterSlice (Did s) (advance sync (k (sync s)) w)
  | Await o k =>
      {| reached := w; emitted := [Awaited o]; next := Suspended o k |}
  end.

End Semantics.

(** ** The event loop *)

Section EventLoop.
Import Imap State Async Semantics.

Variable toLowerCase : JS.str -> JS.str.

(** A method suspended at an awaited operation. *)
Record Task := {
  pending : Op;
  resume : Exn + Reply pending -> Prog unit
}.

Record World := {
  this : Watcher;
  tasks : list Task;
  history : list Event
}.

(** What the event loop can start: a listener, a timer callback, or a call
    of the public interface. *)
Inductive Entry :=
| MailEvent (numberOfEmails : Z)
| ErrorEvent
| CloseEvent (hadError : bool)
| ReconnectTimer
| KeepAliveTimer
| StartWatching
| StopWatching.

Definition entryProg (e : Entry) : Prog unit :=
  match e with
  | MailEvent n => onMail toLowerCase n
  | ErrorEvent => onError
  | CloseEvent hadError => onClose hadError
  | ReconnectTimer => reconnectCallback
  | KeepAliveTimer => keepAliveCallback
  | StartWatching => startWatching
  | StopWatching => stopWatching
  end.

(** One turn of the loop: an entry starts, or the [i]-th suspended task
    receives its answer; either runs to its next suspension point. *)
Inductive Turn :=
| Fire (e : Entry) (env : Env)
| Resume (i : nat) (env : Env).

Definition suspendedTask (n : Next unit) : list Task :=
  match n with
  | Finished _ => []
  | Suspended o k => [{| pending := o; resume := k |}]
  end.

Definition turn (W : World) (t : Turn) : World :=
  match t with
  | Fire e env =>
      let s := advance (answerSync env) (entryProg e) (this W) in
      {| this := reached s;
         tasks := tasks W ++ suspendedTask (next s);
         history := history W ++ emitted s |}
  | Resume i env =>
      match nth_error (tasks W) i with
      | None => W
      | Some t =>
          let s := advance (answerSync env)
                           (resume t (answer env (pending t))) (this W) in
          {| this := reached s;
             tasks := firstn i (tasks W) ++ suspendedTask (next s)
                      ++ skipn (S i) (tasks W);
             history := history W ++ emitted s |}
      end
  end.

Definition exec (W : World) (turns : list Turn) : World :=
  fold_left turn turns W.

Definition start (w : Watcher) : World :=
  {| this := w; tasks := []; history := [] |}.

End EventLoop.

(** ** Start-up: the accounts file, the watchers, the search date *)

Section StartUp.
Import Imap State.
Local Open Scope Z_scope.

(** An entry of the accounts file as the start-up code reads it: the fields
    [updateAnalyzedUntil] reads as well ([user], [label],
    [emailsAnalyzedUntil]) and the others.  A field that is missing or
    [null] is [None]. *)
Record AccountConfig := {
  identity : Account;
  password : option JS.str;
  host : option JS.str;
  cfg_scamThreshold : option Q
}.

(** The accounts file after [JSON.parse], for [loadAccountsFromFile]. *)
Inductive ConfigJson :=
| ConfigNotAnArray
| ConfigArray (data : list (option AccountConfig)).

(** What [loadAccountsFromFile] throws: the exception of [readFileSync] or
    [JSON.parse], its own two errors, and the TypeError of reading a
    property of a [null] entry. *)
Inductive LoadError :=
| ReadOrParseFailed (e : Exn)
| MustBeAnArray
| MissingRequiredField (idx : nat) (key : JS.str)
| NullEntry (idx : nat).

Definition required : list (JS.str * (AccountConfig -> option JS.str)) :=
  [(JS.lit "user", fun acc => acc_user (identity acc));
   (JS.lit "password", password);
   (JS.lit "host", host)].

(** [for (const key of required) { if (!acc[key]) throw ... }] *)
Fixpoint firstMissing (acc : AccountConfig)
         (keys : list (JS.str * (AccountConfig -> option JS.str)))
  : option JS.str :=
  match keys with
  | [] => None
  | (key, field) :: rest =>
      if truthyOpt (field acc) then firstMissing acc rest else Some key
  end.

(** [data.forEach((acc, idx) => ...)], from index [idx] on; the accounts
    that passed are collected. *)
Fixpoint validateFrom (data : list (option AccountConfig)) (idx : nat)
  : LoadError + list AccountConfig :=
  match data with
  | [] => inr []
  | acc :: rest =>
      match acc with
      | None => inl (NullEntry idx)
      | Some a =>
          match firstMissing a required with
          | Some key => inl (MissingRequiredField idx key)
          | None =>
              match validateFrom rest (S idx) with
              | inl err => inl err
              | inr accounts => inr (a :: accounts)
              end
          end
      end
  end.

(** [parsed] is what [JSON.parse(fs.readFileSync(resolved, "utf-8"))]
    gives. *)
Definition loadAccountsFromFile (parsed : Exn + ConfigJson)
  : LoadError + list AccountConfig :=
  match parsed with
  | inl e => inl (ReadOrParseFailed e)
  | inr ConfigNotAnArray => inl MustBeAnArray
  | inr (ConfigArray data) => validateFrom data 0
  end.

(** [new EmailWatcher({ label: acc.label || acc.user, scamThreshold:
    acc.scamThreshold, configPath: pathToUse, accountUser: acc.user,
    emailsAnalyzedUntil: acc.emailsAnalyzedUntil ?? null, ... })] in
    [startEmailWatchersFromConfig]; [envThreshold] is what the constructor
    falls back to when the account sets no threshold. *)
Definition watcherOfAccount (envThreshold : Q) (bodyMax : Z)
           (pathToUse : JS.str) (acc : AccountConfig) : Watcher :=
  newWatcher
    (if truthyOpt (acc_label (identity acc))
     then acc_label (identity acc) else acc_user (identity acc))
    (Some pathToUse)
    (acc_user (identity acc))
    (match cfg_scamThreshold acc with
     | Some threshold => threshold
     | None => envThreshold
     end)
    (match acc_emailsAnalyzedUntil (identity acc) with
     | Some t => Some (Some t)
     | None => None
     end)
    bodyMax.

(** The entries [updateAnalyzedUntil] finds in the file the accounts were
    loaded from. *)
Definition entriesOf (accounts : list AccountConfig)
  : list (option Account) :=
  map (fun acc => Some (identity acc)) accounts.

(** A [Date], as far as [formatImapDate] reads it: the local calendar
    day. *)
Record JsDate := { getDate : Z; getMonth : Z; getFullYear : Z }.

(** [String(n)] for an integer [n]. *)
Definition numberToString (n : Z) : JS.str :=
  JS.lit (NilZero.string_of_int (Z.to_int n)).

(** [s.padStart(targetLength, fill)] for a one-unit [fill]. *)
Definition padStart (s : JS.str) (targetLength : nat) (fill : N) : JS.str :=
  (repeat fill (targetLength - length s) ++ s)%list.

Definition months : list JS.str :=
  map JS.lit ["Jan"; "Feb"; "Mar"; "Apr"; "May"; "Jun";
              "Jul"; "Aug"; "Sep"; "Oct"; "Nov"; "Dec"]%string.

(** [months[i]] inside a template: ["undefined"] out of range. *)
Definition monthName (i : Z) : JS.str :=
  if (0 <=? i) && (i <? 12)
  then nth (Z.to_nat i) months (JS.lit "undefined")
  else JS.lit "undefined".

Definition formatImapDate (date : JsDate) : JS.str :=
  let day := padStart (numberToString (getDate date)) 2 48%N in
  let mon := monthName (getMonth date) in
  let year := getFullYear date in
  (day ++ JS.lit "-" ++ mon ++ JS.lit "-" ++ numberToString year)%list.

End StartUp.

(* ================================================================== *)
(** * Part II: the vocabulary of the properties *)
(* ================================================================== *)

Section TextVocabulary.
Import JS Analyzer.

Definition isAsciiControl (c : N) : bool := ((c <=? 31) || (c =? 127))%N.

Fixpoint noAdjacentWhiteSpace (s : str) : bool :=
  match s with
  | c :: r =>
      match r with
      | d :: _ => negb (isWhiteSpace c && isWhiteSpace d)
      | [] => true
      end && noAdjacentWhiteSpace r
  | [] => true
  end.

(** What a sanitised text looks like. *)
Record Clean (s : str) : Prop := {
  clean_units : Forall (fun c => isAsciiControl c = false
                                 /\ (isWhiteSpace c = true -> c = 32%N)) s;
  clean_runs : noAdjacentWhiteSpace s = true;
  clean_head : isWhiteSpace (hd 0%N s) = false;
  clean_last : isWhiteSpace (last s 0%N) = false
}.

End TextVocabulary.

Section RunVocabulary.
Import Imap State Async Semantics.

(** A result reached after the events [t]. *)
Definition afterAll {A} (t : list Event) (r : Result A) : Result A :=
  {| final := final r; trace := t ++ trace r; outcome := outcome r |}.

(** Results in sequence, and a result followed by a handler. *)
Definition thenR {A B} (r : Result A) (f : A -> Watcher -> Result B)
  : Result B :=
  match outcome r with
  | inl e => {| final := final r; trace := trace r; outcome := inl e |}
  | inr a => afterAll (trace r) (f a (final r))
  end.

Definition catchR {A} (r : Result A) (h : Exn -> Watcher -> Result A)
  : Result A :=
  match outcome r with
  | inl e => afterAll (trace r) (h e (final r))
  | inr a => {| final := final r; trace := trace r; outcome := inr a |}
  end.

(** A result followed by a [finally] block: the block runs, and unless it
    throws the outcome is the one before it. *)
Definition finallyR {A} (r : Result A) (fin : Watcher -> Result unit)
  : Result A :=
  afterAll (trace r)
    (thenR (fin (final r))
           (fun _ w' => {| final := w'; trace := []; outcome := outcome r |})).

(** The value a key of a [Map] holds after the entries were set in
    order, [acc] being what it held before. *)
Definition lastWith (k : JS.str) (entries : list (JS.str * JS.str))
           (acc : option JS.str) : option JS.str :=
  fold_left (fun acc kv => if JS.eqb (fst kv) k then Some (snd kv) else acc)
            entries acc.

(** The prompts sent to the classifier, the searches issued and the moves
    requested during a run, in order. *)
Definition classifierCalls (t : list Event) : list Analyzer.Prompt :=
  flat_map (fun ev => match ev with
                      | Awaited (MessagesCreate p) => [p]
                      | _ => []
                      end) t.

Definition searches (t : list Event) : list Criteria :=
  flat_map (fun ev => match ev with
                      | Awaited (Search _ crit) => [crit]
                      | _ => []
                      end) t.

Definition moves (t : list Event) : list (N * JS.str) :=
  flat_map (fun ev => match ev with
                      | Awaited (MoveMessage _ uid target) => [(uid, target)]
                      | _ => []
                      end) t.

(** The writes of a file attempted during a run, in order. *)
Definition writes (t : list Event) : list (JS.str * Json) :=
  flat_map (fun ev => match ev with
                      | Did (WriteFile path data) => [(path, data)]
                      | _ => []
                      end) t.

Definition timeouts (t : list Event) : list JS.number :=
  flat_map (fun ev => match ev with
                      | Out (SetTimeout _ delay) => [delay]
                      | _ => []
                      end) t.

(** Every state a program writes satisfies [I], provided every state it
    reads does; every operation it awaits satisfies [P]; every effect it
    emits satisfies [Q]. *)
Inductive Keeps (I : Watcher -> Prop) (P : Op -> Prop) (Q : Output -> Prop)
          {A} : Prog A -> Prop :=
| KeepsRet a : Keeps I P Q (Ret a)
| KeepsRaise e : Keeps I P Q (Raise e)
| KeepsGet k : (forall w, I w -> Keeps I P Q (k w)) -> Keeps I P Q (Get k)
| KeepsPut w k : I w -> Keeps I P Q k -> Keeps I P Q (Put w k)
| KeepsEmit o k : Q o -> Keeps I P Q k -> Keeps I P Q (Emit o k)
| KeepsCall s k : (forall r, Keeps I P Q (k r)) -> Keeps I P Q (Call s k)
| KeepsAwait o k :
    P o -> (forall r, Keeps I P Q (k r)) -> Keeps I P Q (Await o k).

Definition anyOutput (o : Output) : Prop := True.
Definition anyOp (o : Op) : Prop := True.
Definition noOp (o : Op) : Prop := False.
Definition anyState (w : Watcher) : Prop := True.

(** The counter of reconnection attempts is within its bound, and at it. *)
Definition attemptsInRange (w : Watcher) : Prop :=
  (0 <= reconnectAttempts w <= maxReconnectAttempts)%Z.

Definition atBound (w : Watcher) : Prop :=
  (maxReconnectAttempts <= reconnectAttempts w)%Z.

Definition notTimeout (o : Output) : Prop :=
  match o with
  | SetTimeout _ _ => False
  | _ => True
  end.

(** The watcher and every suspended task keep the counter in range. *)
Definition worldInRange (W : World) : Prop :=
  attemptsInRange (this W)
  /\ Forall (fun t => forall r,
               Keeps attemptsInRange anyOp anyOutput (resume t r))
            (tasks W).

(** The failure signals: the ["error"] listener, the ["close"] listener and
    the keepalive callback (whose [openBox] may fail). *)
Definition isFailureSignal (e : Entry) : Prop :=
  match e with
  | ErrorEvent | CloseEvent _ | KeepAliveTimer => True
  | _ => False
  end.

(** What the classifier answers for a message, as [isScamEmail] returns
    it. *)
Definition verdict (env : Env) (a : Analyzer.EmailAnalyzer)
           (email : EmailContent) : ScanResult :=
  match answer env (MessagesCreate (promptFor a email)) with
  | inr result => result
  | inl _ => analysisFailed
  end.

(** What the two loops read out of a fetched message: nothing when the full
    source is missing or does not parse. *)
Definition scanned (env : Env) (message : RawMessage) : option EmailContent :=
  match fullPart message with
  | None => None
  | Some all =>
      match answer env (SimpleParser (body all)) with
      | inl _ => None
      | inr parsed =>
          match parsed_date parsed with
          | Some d => Some (emailOf message parsed d)
          | None =>
              match answerSync env DateNow with
              | inr now => Some (emailOf message parsed (Some now))
              | inl _ => None
              end
          end
      end
  end.

Definition emailsOf (env : Env) (messages : list RawMessage)
  : list EmailContent :=
  flat_map (fun m => match scanned env m with
                     | Some email => [email]
                     | None => []
                     end) messages.

(** The operations of the relocation of a message, and of its
    classification and relocation. *)
Definition relocationOp (o : Op) : Prop :=
  match o with
  | GetBoxes _ | AddBox _ _ | MoveMessage _ _ _ => True
  | _ => False
  end.

Definition pipelineOp (o : Op) : Prop :=
  match o with
  | MessagesCreate _ | GetBoxes _ | AddBox _ _ | MoveMessage _ _ _ => True
  | _ => False
  end.

(** Any operation but the search of a sequence range. *)
Definition notRangeSearch (o : Op) : Prop :=
  match o with
  | Search _ (SeqRange _ _) => False
  | _ => True
  end.

(** What the loop of [processHistoricalEmails] does before the date test. *)
Definition parseTrace (env : Env) (message : RawMessage) : list Event :=
  match fullPart message with
  | None => []
  | Some all =>
      Awaited (SimpleParser (body all))
        :: match answer env (SimpleParser (body all)) with
           | inl _ => []
           | inr parsed =>
               match parsed_date parsed with
               | Some _ => []
               | None => [Did DateNow]
               end
           end
  end.

End RunVocabulary.

Section ResolverVocabulary.
Import JS Imap.

Variable toLowerCase : str -> str.

(** The full path of [b] is the candidate, case-insensitively. *)
Definition isExactMatch (b cand : str) : Prop :=
  toLowerCase b = toLowerCase cand.

(** The path of [b] ends with ["/" + candidate], case-insensitively. *)
Definition isTrailingMatch (b cand : str) : Prop :=
  endsWith (toLowerCase b) (lit "/" ++ toLowerCase cand) = true.

(** The folder [moveToSpamFolder] finds in a mailbox tree, if any. *)
Definition resolveTarget (tree : BoxTree) : option str :=
  let allBoxes := flattenBoxes tree [] in
  pickTarget toLowerCase allBoxes (lowerToOriginalOf toLowerCase allBoxes)
             candidates.

End ResolverVocabulary.

(** A mailbox tree with [INBOX/Spam] and a top-level [Junk]. *)
Definition nestedSpamTree : Imap.BoxTree :=
  Imap.BoxEntry (JS.lit "INBOX")
    (Imap.Node (Imap.Sub (Imap.BoxEntry (JS.lit "Spam")
                            (Imap.Node Imap.Absent Imap.Absent) Imap.NoBoxes))
               Imap.Absent)
    (Imap.BoxEntry (JS.lit "Junk") (Imap.Node Imap.Absent Imap.Absent)
       Imap.NoBoxes).

(** ** Sample inputs *)

Section Samples.
Import Imap State Async Semantics.

(** An environment given by what each collaborator answers. *)
Record Scenario := {
  sc_connect : Exn + Conn;
  sc_total : option Z;
  sc_messages : list RawMessage;
  sc_parse : JS.str -> Exn + Parsed;
  sc_classify : Analyzer.Prompt -> Exn + ScanResult;
  sc_tree : Exn + BoxTree;
  sc_move : N -> Exn + unit;
  sc_random : JS.number;
  sc_now : Z;
  sc_read : Exn + JS.str;
  sc_json : Exn + Json;
  sc_write : Exn + unit
}.

Definition envOf (sc : Scenario) : Env :=
  {| answer := fun o =>
       match o return Exn + Reply o with
       | ImapConnect => sc_connect sc
       | OpenBox _ _ => inr {| messages_total := sc_total sc |}
       | Search _ _ => inr (sc_messages sc)
       | SimpleParser source => sc_parse sc source
       | MessagesCreate prompt => sc_classify sc prompt
       | GetBoxes _ => sc_tree sc
       | AddBox _ _ => inr tt
       | MoveMessage _ uid _ => sc_move sc uid
       end;
     answerSync := fun s =>
       match s return Exn + SyncReply s with
       | MathRandom => inr (sc_random sc)
       | DateNow => inr (sc_now sc)
       | ReadFile _ => sc_read sc
       | JsonParse _ => sc_json sc
       | WriteFile _ _ => sc_write sc
       | RemoveAllListeners _ => inr tt
       | GetState _ => inr Authenticated
       | EndConnection _ => inr tt
       end |}.

Definition failure : Exn := {| textCode := Some (JS.lit "EFAIL") |}.

(** A message whose full source is its own subject line, and the parser
    that reads the instant [t] out of the source ["t"]. *)
Definition rawMessage (id : N) (source : JS.str) : RawMessage :=
  {| parts := [{| which := JS.lit "HEADER"; body := [] |};
               {| which := []; body := source |}];
     attributes_uid := id |}.

Definition parsedAt (source : JS.str) (t : Z) : Parsed :=
  {| parsed_date := Some (Some t);
     parsed_subject := Some source;
     parsed_from_text := Some (JS.lit "sender@example.org");
     parsed_text := Some source;
     parsed_html := None |}.

Definition scam (p : Q) : ScanResult :=
  {| scam_probability := p; reason := None |}.

(** All collaborators answer; two messages, ["old"] dated 100 and
    ["new"] dated 900; the classifier finds everything 92% likely a
    scam; the mailbox tree is [nestedSpamTree]. *)
Definition calm : Scenario :=
  {| sc_connect := inr 1%nat;
     sc_total := Some 5%Z;
     sc_messages := [rawMessage 11 (JS.lit "new"); rawMessage 12 (JS.lit "old")];
     sc_parse := fun source =>
       inr (parsedAt source
              (if JS.eqb source (JS.lit "old") then 100 else 900)%Z);
     sc_classify := fun _ => inr (scam 92);
     sc_tree := inr nestedSpamTree;
     sc_move := fun _ => inr tt;
     sc_random := JS.Math_pow2 (-1);
     sc_now := 5000%Z;
     sc_read := inr (JS.lit "[]");
     sc_json := inr (Accounts [Some {| acc_user := Some (JS.lit "me");
                                       acc_label := None;
                                       acc_emailsAnalyzedUntil := None |}]);
     sc_write := inr tt |}.

(** A watcher of the account ["me"], connected, with threshold 80. *)
Definition watcher : Watcher :=
  set_connection (Some 1%nat)
    (newWatcher (Some (JS.lit "me")) (Some (JS.lit "accounts.json"))
                (Some (JS.lit "me")) 80 None 3000).

Definition withWrite (r : Exn + unit) (sc : Scenario) : Scenario :=
  {| sc_connect := sc_connect sc; sc_total := sc_total sc;
     sc_messages := sc_messages sc; sc_parse := sc_parse sc;
     sc_classify := sc_classify sc; sc_tree := sc_tree sc;
     sc_move := sc_move sc; sc_random := sc_random sc;
     sc_now := sc_now sc; sc_read := sc_read sc; sc_json := sc_json sc;
     sc_write := r |}.

Definition withMove (f : N -> Exn + unit) (sc : Scenario) : Scenario :=
  {| sc_connect := sc_connect sc; sc_total := sc_total sc;
     sc_messages := sc_messages sc; sc_parse := sc_parse sc;
     sc_classify := sc_classify sc; sc_tree := sc_tree sc;
     sc_move := f; sc_random := sc_random sc;
     sc_now := sc_now sc; sc_read := sc_read sc; sc_json := sc_json sc;
     sc_write := sc_write sc |}.

Definition withConnect (r : Exn + Conn) (sc : Scenario) : Scenario :=
  {| sc_connect := r; sc_total := sc_total sc;
     sc_messages := sc_messages sc; sc_parse := sc_parse sc;
     sc_classify := sc_classify sc; sc_tree := sc_tree sc;
     sc_move := sc_move sc; sc_random := sc_random sc;
     sc_now := sc_now sc; sc_read := sc_read sc; sc_json := sc_json sc;
     sc_write := sc_write sc |}.

Definition withClassify (f : Analyzer.Prompt -> Exn + ScanResult)
           (sc : Scenario) : Scenario :=
  {| sc_connect := sc_connect sc; sc_total := sc_total sc;
     sc_messages := sc_messages sc; sc_parse := sc_parse sc;
     sc_classify := f; sc_tree := sc_tree sc;
     sc_move := sc_move sc; sc_random := sc_random sc;
     sc_now := sc_now sc; sc_read := sc_read sc; sc_json := sc_json sc;
     sc_write := sc_write sc |}.

Definition withRandom (r : JS.number) (sc : Scenario) : Scenario :=
  {| sc_connect := sc_connect sc; sc_total := sc_total sc;
     sc_messages := sc_messages sc; sc_parse := sc_parse sc;
     sc_classify := sc_classify sc; sc_tree := sc_tree sc;
     sc_move := sc_move sc; sc_random := r;
     sc_now := sc_now sc; sc_read := sc_read sc; sc_json := sc_json sc;
     sc_write := sc_write sc |}.

(** The double [1 - 2^-52]. *)
Definition almostOne : JS.number :=
  S754_finite false 9007199254740990 (-53).

(** As [calm], but moving message 11 fails. *)
Definition firstMoveFails : Scenario :=
  withMove (fun id => if (id =? 11)%N then inl failure else inr tt) calm.

(** The prompts about the two sample messages. *)
Definition newEmail : EmailContent :=
  emailOf (rawMessage 11 (JS.lit "new")) (parsedAt (JS.lit "new") 900)
          (Some 900%Z).

Definition oldEmail : EmailContent :=
  emailOf (rawMessage 12 (JS.lit "old")) (parsedAt (JS.lit "old") 100)
          (Some 100%Z).

(** The transport refuses every connection. *)
Definition offline : Scenario := withConnect (inl failure) calm.

(** [startWatching] fails, then the five scheduled attempts fail one after
    the other; each activation suspends at [imaps.connect] and is resumed
    with the refusal. *)
Definition fiveFailedAttempts : list Turn :=
  [Fire StartWatching (envOf offline); Resume 0 (envOf offline);
   Fire ReconnectTimer (envOf offline); Resume 0 (envOf offline);
   Fire ReconnectTimer (envOf offline); Resume 0 (envOf offline);
   Fire ReconnectTimer (envOf offline); Resume 0 (envOf offline);
   Fire ReconnectTimer (envOf offline); Resume 0 (envOf offline);
   Fire ReconnectTimer (envOf offline); Resume 0 (envOf offline)].

(** The provider announces the count of the whole mailbox, 5, while the
    watcher [watcher] is connected; the first listener gets the total and
    its scan reaches the search; then a second announcement arrives and its
    listener gets the total. *)
Definition twoAnnouncements : list Turn :=
  [Fire (MailEvent 5) (envOf calm); Resume 0 (envOf calm);
   Resume 0 (envOf calm);
   Fire (MailEvent 5) (envOf calm); Resume 1 (envOf calm)].

(** A third announcement, whose listener gets the total and opens the
    mailbox. *)
Definition thirdAnnouncement : list Turn :=
  [Fire (MailEvent 5) (envOf calm); Resume 1 (envOf calm);
   Resume 1 (envOf calm)].

End Samples.

Section PersistenceVocabulary.
Import Imap State Async Semantics.

(** The three ways in which persisting the watermark [date] throws [e]:
    reading the file, parsing it, or writing it back. *)
Inductive PersistenceFails (env : Env) (w : Watcher) (date : Dayjs)
          (path : JS.str) (e : Exn) : Prop :=
| ReadFails :
    answerSync env (ReadFile path) = inl e ->
    PersistenceFails env w date path e
| ParseFails raw :
    answerSync env (ReadFile path) = inr raw ->
    answerSync env (JsonParse raw) = inl e ->
    PersistenceFails env w date path e
| WriteFails raw entries idx iso :
    answerSync env (ReadFile path) = inr raw ->
    answerSync env (JsonParse raw) = inr (Accounts entries) ->
    findIndex w entries 0 = inr (Some idx) ->
    date = Some iso ->
    answerSync env
      (WriteFile path (Accounts (setAnalyzedUntil entries idx iso)))
    = inl e ->
    PersistenceFails env w date path e.

End PersistenceVocabulary.

Section NumberVocabulary.
Import JS.
Local Open Scope Z_scope.

(** The value of a finite double, in units of [2^-1200]: an integer, since
    no double has an exponent below -1074; the margin leaves room for exact
    products. *)
Definition scaled (f : number) : Z :=
  match f with
  | S754_finite s m e => cond_Zopp s (Zpos m * 2 ^ (e + 1200))
  | _ => 0
  end.

(** A zero, or a positive finite double in its canonical form. *)
Definition proper (f : number) : Prop :=
  match f with
  | S754_zero _ => True
  | S754_finite false m e => bounded prec emax m e = true
  | _ => False
  end.

(** [f] is the rounding of the exact value [x] (in units of [2^-1200]) to
    the multiples of [2^g]: it never crosses such a multiple, and it is off
    by at most half of [2^g]. *)
Definition Rounds (x g : Z) (f : number) : Prop :=
  proper f
  /\ (forall beta, x <= beta * 2 ^ (g + 1200) ->
                   scaled f <= beta * 2 ^ (g + 1200))
  /\ (forall beta, beta * 2 ^ (g + 1200) <= x ->
                   beta * 2 ^ (g + 1200) <= scaled f)
  /\ 2 * scaled f <= 2 * x + 2 ^ (g + 1200)
  /\ 2 * x <= 2 * scaled f + 2 ^ (g + 1200).

(** What [Math.random()] may return: a double of [[0, 1)]. *)
Definition isRandom (r : number) : Prop :=
  valid_binary prec emax r = true
  /\ lessEq (ofZ 0) r = true /\ lessThan r (ofZ 1) = true.

End NumberVocabulary.

(** ** Other listeners at the awaits of a method *)

Section AmidVocabulary.
Import Imap State Async Semantics.

(** The number of operations awaited in a trace. *)
Fixpoint awaits (t : list Event) : nat :=
  match t with
  | [] => 0
  | Awaited _ :: r => S (awaits r)
  | _ :: r => awaits r
  end.

(** Nothing else runs. *)
Definition alone : nat -> Watcher -> Watcher := fun _ w => w.

(** The watcher holds a connection handle. *)
Definition connected (w : Watcher) : bool :=
  match connection w with
  | Some _ => true
  | None => false
  end.

(** The fields that the constructor sets and nothing assigns again. *)
Definition sameSetup (w w' : Watcher) : Prop :=
  emailAnalyzer w' = emailAnalyzer w
  /\ scamThreshold w' = scamThreshold w
  /\ label w' = label w
  /\ configPath w' = configPath w
  /\ accountUser w' = accountUser w.

(** The same, and the connection handle. *)
Definition sameHandle (w w' : Watcher) : Prop :=
  connection w' = connection w /\ sameSetup w w'.

(** What runs in between leaves the handle where it is: no
    [stopWatching], no failure signal, no reconnection meanwhile. *)
Definition keepsHandle (amid : nat -> Watcher -> Watcher) : Prop :=
  forall n w, sameHandle w (amid n w).

(** Two programs that do the same from states related by [R], and leave
    related states. *)
Inductive Alike (R : Watcher -> Watcher -> Prop) {A}
  : Prog A -> Prog A -> Prop :=
| AlikeRet a : Alike R (Ret a) (Ret a)
| AlikeRaise e : Alike R (Raise e) (Raise e)
| AlikeGet k k' :
    (forall w w', R w w' -> Alike R (k w) (k' w')) ->
    Alike R (Get k) (Get k')
| AlikePut w w' k k' :
    R w w' -> Alike R k k' -> Alike R (Put w k) (Put w' k')
| AlikeEmit o k k' : Alike R k k' -> Alike R (Emit o k) (Emit o k')
| AlikeCall s k k' :
    (forall r, Alike R (k r) (k' r)) -> Alike R (Call s k) (Call s k')
| AlikeAwait o k k' :
    (forall r, Alike R (k r) (k' r)) -> Alike R (Await o k) (Await o k').

End AmidVocabulary.

Section AmidSamples.
Import Imap State Async Semantics.

(** [stopWatching] is called while the [k]-th awaited operation of the
    method is pending; nothing else runs at its other awaits. *)
Definition stoppedAt (k : nat) : nat -> Watcher -> Watcher :=
  fun n w =>
    if Nat.eqb n k then final (run (envOf calm) stopWatching w) else w.

End AmidSamples.

Section ListenerVocabulary.
Import Imap State Async Semantics.
Local Open Scope prog_scope.
Local Open Scope Z_scope.

Variable toLowerCase : JS.str -> JS.str.

(** The parts of the listener of ["mail"], cut out of [onMail] as it is
    written: what follows a scan or a batch, the [try] block of the
    backfill branch, and the listener once the total is known.  [onMail]
    asks for the total and goes on with [afterTotal]. *)
Definition afterBatch : Prog unit :=
  now <- call DateNow;; updateAnalyzedUntil (Some now).

Definition backfillBlock : Prog unit :=
  Get (fun w =>
    if negb (isBackfilling w)
    then
      modify (set_isBackfilling true);;
      Get (fun w =>
        let lowerBound :=
          match emailsAnalyzedUntil w with
          | Some d => d
          | None => Some 0
          end in
        log (BackfillLowerBound lowerBound);;
        processHistoricalEmails toLowerCase lowerBound;;
        afterBatch)
    else Ret tt).

Definition afterTotal (totalMessages numberOfEmails : Z) : Prog unit :=
  if totalMessages =? numberOfEmails
  then
    log (InitialCount numberOfEmails);;
    tryFinally
      (tryCatch backfillBlock (fun err => logError (BackfillError err)))
      (modify (set_isBackfilling false))
  else
    log (NewEmails numberOfEmails);;
    tryCatch
      (onNewMails toLowerCase totalMessages numberOfEmails;; afterBatch)
      (fun error => logError (NewMailError error)).

(** The operations of a fetch. *)
Definition fetchOp (o : Op) : Prop :=
  match o with
  | OpenBox _ _ | Search _ _ | SimpleParser _ => True
  | _ => False
  end.

End ListenerVocabulary.

(** ** Vocabulary of the further properties *)

Section TextContent.
Import JS Analyzer.

(** A code unit that the sanitiser neither replaces nor removes. *)
Definition isVisible (c : N) : bool :=
  negb (isWhiteSpace c) && negb (isStrippedControl c).

(** The words of a text: its maximal runs of visible code units. *)
Definition consHead (c : N) (ws : list str) : list str :=
  match ws with
  | word :: rest => (c :: word) :: rest
  | [] => [[c]]
  end.

Fixpoint words (s : str) : list str :=
  match s with
  | [] => []
  | c :: r =>
      if isVisible c
      then match r with
           | d :: _ =>
               if isVisible d then consHead c (words r) else [c] :: words r
           | [] => [[c]]
           end
      else words r
  end.

(** [ws.join(" ")] *)
Fixpoint joinWords (ws : list str) : str :=
  match ws with
  | [] => []
  | word :: rest =>
      match rest with
      | [] => word
      | _ :: _ => word ++ 32%N :: joinWords rest
      end
  end.

End TextContent.

Section TreeVocabulary.
Import JS Imap.

(** The number of mailboxes of a tree, at every depth and under both
    [children] and [boxes]. *)
Fixpoint countBoxes (tree : BoxTree) : nat :=
  match tree with
  | NoBoxes => 0
  | BoxEntry _ node rest => S (countNode node + countBoxes rest)
  end
with countNode (node : BoxNode) : nat :=
  match node with
  | NullNode => 0
  | Node children boxes => countSub children + countSub boxes
  end
with countSub (sub : SubTree) : nat :=
  match sub with
  | Absent => 0
  | Sub tree => countBoxes tree
  end.

(** The names at the top of a tree. *)
Fixpoint topNames (tree : BoxTree) : list str :=
  match tree with
  | NoBoxes => []
  | BoxEntry name _ rest => name :: topNames rest
  end.

(** [s] is [p] followed by ["/"] and something. *)
Definition isUnder (p s : str) : Prop :=
  exists rest, s = (p ++ lit "/" ++ rest)%list.

(** The mailboxes of a tree, each as the names from the top of the tree
    down to it: a mailbox before those below it, those under [children]
    before those under [boxes], in the order of the entries. *)
Fixpoint mailboxes (tree : BoxTree) : list (list str) :=
  match tree with
  | NoBoxes => []
  | BoxEntry name node rest =>
      ([name] :: map (cons name) (belowNode node) ++ mailboxes rest)%list
  end
with belowNode (node : BoxNode) : list (list str) :=
  match node with
  | NullNode => []
  | Node children boxes => (belowSub children ++ belowSub boxes)%list
  end
with belowSub (sub : SubTree) : list (list str) :=
  match sub with
  | Absent => []
  | Sub tree => mailboxes tree
  end.

(** The names joined by ["/"]. *)
Fixpoint joined (names : list str) : str :=
  match names with
  | [] => []
  | [name] => name
  | name :: rest => (name ++ lit "/" ++ joined rest)%list
  end.

(** The path of the mailbox [names] below the path [prefix]: each name is
    appended after a ["/"], except to an empty path. *)
Fixpoint pathBelow (prefix : str) (names : list str) : str :=
  match names with
  | [] => prefix
  | name :: rest =>
      pathBelow (if truthy prefix
                 then (prefix ++ lit "/" ++ name)%list else name) rest
  end.

End TreeVocabulary.

Scheme BoxTree_mut := Induction for Imap.BoxTree Sort Prop
  with BoxNode_mut := Induction for Imap.BoxNode Sort Prop
  with SubTree_mut := Induction for Imap.SubTree Sort Prop.

Combined Scheme boxes_mutind from BoxTree_mut, BoxNode_mut, SubTree_mut.

Section IntervalVocabulary.
Import Imap State Async Semantics.
Local Open Scope Z_scope.

(** The keepalive intervals that are armed after the events [t]. *)
Definition intervalChange (o : Output) : Z :=
  match o with
  | SetInterval _ _ => 1
  | ClearInterval => -1
  | _ => 0
  end.

Fixpoint activeIntervals (t : list Event) : Z :=
  match t with
  | [] => 0
  | Out o :: r => intervalChange o + activeIntervals r
  | _ :: r => activeIntervals r
  end.

(** [holds Inv p w g]: run from the state [w] with [g] intervals armed, the
    program [p] reaches each of its suspension points, and its end, with
    [Inv] holding of the state and of the intervals armed then; it may
    take [Inv] for granted when it resumes. *)
Fixpoint holds (Inv : Watcher -> Z -> Prop) {A} (p : Prog A)
         (w : Watcher) (g : Z) : Prop :=
  match p with
  | Ret _ => Inv w g
  | Raise _ => Inv w g
  | Get k => holds Inv (k w) w g
  | Put w' k => holds Inv k w' g
  | Emit o k => holds Inv k w (g + intervalChange o)
  | Call s k => forall r, holds Inv (k r) w g
  | Await o k =>
      Inv w g /\ forall r w' g', Inv w' g' -> holds Inv (k r) w' g'
  end.

Definition Restores (Inv : Watcher -> Z -> Prop) {A} (p : Prog A) : Prop :=
  forall w g, Inv w g -> holds Inv p w g.

(** One interval is armed exactly when the watcher holds its handle, none
    otherwise; and the handle is held only with a connection. *)
Definition keepAliveInv (w : Watcher) (g : Z) : Prop :=
  g = (if keepAliveTimer w then 1 else 0)
  /\ (keepAliveTimer w = true -> connection w <> None).

Definition worldKeepsAlive (W : World) : Prop :=
  keepAliveInv (this W) (activeIntervals (history W))
  /\ Forall (fun t => forall r, Restores keepAliveInv (resume t r)) (tasks W).

End IntervalVocabulary.

Section AccountsVocabulary.
Import Imap.

(** An account with the three required fields. *)
Definition complete (acc : AccountConfig) : Prop :=
  truthyOpt (acc_user (identity acc)) = true
  /\ truthyOpt (password acc) = true
  /\ truthyOpt (host acc) = true.

End AccountsVocabulary.

Section DateVocabulary.
Import JS.
Local Open Scope Z_scope.

(** Reading back what [formatImapDate] writes: the ASCII string of code
    units, the integer of a decimal numeral, the index of a month name,
    and the date of [DD-Mon-YYYY]. *)
Definition unlit (s : str) : string :=
  string_of_list_ascii (map ascii_of_N s).

Definition readNumber (s : str) : option Z :=
  option_map Z.of_int (NilZero.int_of_string (unlit s)).

Fixpoint indexOf (name : str) (names : list str) (i : Z) : option Z :=
  match names with
  | [] => None
  | n :: rest => if eqb n name then Some i else indexOf name rest (i + 1)
  end.

Definition parseImapDate (s : str) : option JsDate :=
  match s with
  | d1 :: d2 :: 45%N :: m1 :: m2 :: m3 :: 45%N :: year =>
      match readNumber [d1; d2], indexOf [m1; m2; m3] months 0,
            readNumber year with
      | Some d, Some m, Some y =>
          Some {| getDate := d; getMonth := m; getFullYear := y |}
      | _, _, _ => None
      end
  | _ => None
  end.

(** A day, a month and a year that read back from what was written. *)
Definition dayReadsBack (d : Z) : bool :=
  match padStart (numberToString d) 2 48%N with
  | [d1; d2] =>
      match readNumber [d1; d2] with
      | Some d' => d' =? d
      | None => false
      end
  | _ => false
  end.

Definition monthReadsBack (m : Z) : bool :=
  match monthName m with
  | [m1; m2; m3] =>
      match indexOf [m1; m2; m3] months 0 with
      | Some m' => m' =? m
      | None => false
      end
  | _ => false
  end.

Definition hasFourDigits (y : Z) : bool :=
  (length (numberToString y) =? 4)%nat.

End DateVocabulary.

Section StuckVocabulary.
Import Imap State Async Semantics.

(** Any turn but the firing of the reconnection timer. *)
Definition notReconnectTimer (t : Turn) : Prop :=
  match t with
  | Fire ReconnectTimer _ => False
  | _ => True
  end.

Definition reconnecting (w : Watcher) : Prop := isReconnecting w = true.

(** The watcher is marked as reconnecting, so is what every suspended task
    will write, and no reconnection timer was armed so far. *)
Definition worldStuck (W : World) : Prop :=
  reconnecting (this W)
  /\ Forall (fun t => forall r,
               Keeps reconnecting anyOp notTimeout (resume t r))
            (tasks W)
  /\ timeouts (history W) = [].

End StuckVocabulary.

Section CallsVocabulary.
Import Imap State Async Semantics.

(** Every synchronous call a program makes satisfies [S]. *)
Inductive Calls (S : SyncOp -> Prop) {A} : Prog A -> Prop :=
| CallsRet a : Calls S (Ret a)
| CallsRaise e : Calls S (Raise e)
| CallsGet k : (forall w, Calls S (k w)) -> Calls S (Get k)
| CallsPut w k : Calls S k -> Calls S (Put w k)
| CallsEmit o k : Calls S k -> Calls S (Emit o k)
| CallsCall s k : S s -> (forall r, Calls S (k r)) -> Calls S (Call s k)
| CallsAwait o k : (forall r, Calls S (k r)) -> Calls S (Await o k).

(** Reading the clock, and nothing else. *)
Definition clockOnly (s : SyncOp) : Prop := s = DateNow.

End CallsVocabulary.

(** ** Further sample inputs *)

Section FurtherSamples.
Import Imap State Async Semantics.

(** The transport refuses the credentials. *)
Definition badCredentials : Exn :=
  {| textCode := Some AUTHORIZATION_FAILED_KEY |}.

Definition refused : Scenario := withConnect (inl badCredentials) calm.

(** The classifier is out of order. *)
Definition classifierDown : Scenario :=
  withClassify (fun _ => inl failure) calm.

(** Two accounts of an accounts file, the first with a label. *)
Definition workAccount : AccountConfig :=
  {| identity := {| acc_user := Some (JS.lit "work@example.org");
                    acc_label := Some (JS.lit "Work");
                    acc_emailsAnalyzedUntil := None |};
     password := Some (JS.lit "secret");
     host := Some (JS.lit "imap.example.org");
     cfg_scamThreshold := Some 85 |}.

Definition homeAccount : AccountConfig :=
  {| identity := {| acc_user := Some (JS.lit "home@example.org");
                    acc_label := None;
                    acc_emailsAnalyzedUntil := Some 1000%Z |};
     password := Some (JS.lit "secret");
     host := Some (JS.lit "imap.example.org");
     cfg_scamThreshold := None |}.

Definition twoAccounts : list AccountConfig := [workAccount; homeAccount].

(** A watcher whose first reconnection is pending. *)
Definition reconnectingWatcher : Watcher :=
  set_reconnectTimer (Some (JS.ofZ 1500))
    (set_reconnectAttempts 1 (set_isReconnecting true watcher)).

(** After the pending reconnection was cancelled: a new start that the
    transport refuses, then an ["error"] event. *)
Definition restartOffline : list Turn :=
  [Fire StartWatching (envOf offline); Resume 0 (envOf offline);
   Fire ErrorEvent (envOf offline)].

End FurtherSamples.

Section FrameVocabulary.
Import Imap State Async Semantics.

(** The part of the watcher that manages the connection, and the part
    that records the progress through the mail. *)
Definition sameLink (w w' : Watcher) : Prop :=
  connection w' = connection w
  /\ isWatching w' = isWatching w
  /\ isReconnecting w' = isReconnecting w
  /\ reconnectAttempts w' = reconnectAttempts w
  /\ reconnectTimer w' = reconnectTimer w
  /\ keepAliveTimer w' = keepAliveTimer w.

Definition sameProgress (w w' : Watcher) : Prop :=
  emailsAnalyzedUntil w' = emailsAnalyzedUntil w
  /\ isBackfilling w' = isBackfilling w.

(** Console output, as opposed to timers and listeners. *)
Definition logOnly (o : Output) : Prop :=
  match o with
  | Log _ _ => True
  | _ => False
  end.

(** Connecting and opening a mailbox, as opposed to searching, parsing,
    classifying and moving. *)
Definition linkOp (o : Op) : Prop :=
  match o with
  | ImapConnect | OpenBox _ _ => True
  | _ => False
  end.

(** The clock and the accounts file, as opposed to the transport and the
    random source; and the converse. *)
Definition clockOrFile (s : SyncOp) : Prop :=
  match s with
  | DateNow | ReadFile _ | JsonParse _ | WriteFile _ _ => True
  | _ => False
  end.

Definition transportOrRandom (s : SyncOp) : Prop :=
  match s with
  | MathRandom | RemoveAllListeners _ | GetState _ | EndConnection _ => True
  | _ => False
  end.

Definition isMailEvent (e : Entry) : Prop :=
  match e with
  | MailEvent _ => True
  | _ => False
  end.

End FrameVocabulary.

Section RelocationVocabulary.
Import JS Imap.

Variable toLowerCase : str -> str.

(** The folder a message is moved to, given the mailbox tree. *)
Definition targetIn (tree : BoxTree) : str :=
  match resolveTarget toLowerCase tree with
  | Some target => target
  | None => lit "Spam"
  end.

End RelocationVocabulary.

(* ================================================================== *)
(** * Part III: properties *)
(* ================================================================== *)

Unset Implicit Arguments.

Ltac n_bool :=
  repeat rewrite ?orb_true_iff, ?orb_false_iff, ?andb_true_iff,
    ?andb_false_iff, ?N.eqb_eq, ?N.eqb_neq, ?N.leb_le, ?N.leb_gt in *.

(** ** Text sanitisation *)

Section Sanitize.
Import JS Analyzer.

Lemma control_stripped_or_ws c :
  isAsciiControl c = true -> isStrippedControl c = true \/ isWhiteSpace c = true.
Proof.
  unfold isAsciiControl, isStrippedControl, isWhiteSpace; n_bool; lia.
Qed.

Lemma stripped_is_control c :
  isStrippedControl c = true -> isAsciiControl c = true.
Proof. unfold isAsciiControl, isStrippedControl; n_bool; lia. Qed.

Lemma kept_unit_not_control c :
  isStrippedControl c = false -> isWhiteSpace c = false -> isAsciiControl c = false.
Proof.
  intros Hs Hw. destruct (isAsciiControl c) eqn:E; [|reflexivity].
  destruct (control_stripped_or_ws c E); congruence.
Qed.

(** *** Step 1: the control characters *)

Lemma replaceControls_none s :
  Forall (fun c => isStrippedControl c = false) (replaceControls s).
Proof.
  unfold replaceControls. induction s as [|c r IH]; simpl; constructor; auto.
  destruct (isStrippedControl c) eqn:E; [reflexivity | exact E].
Qed.

Lemma replaceControls_fix s :
  Forall (fun c => isAsciiControl c = false) s -> replaceControls s = s.
Proof.
  unfold replaceControls. induction 1 as [|c r Hc _ IH]; simpl; [reflexivity|].
  rewrite IH. destruct (isStrippedControl c) eqn:E; [|reflexivity].
  apply stripped_is_control in E. congruence.
Qed.

(** *** Step 2: the runs of white space *)

Lemma collapseFrom_units b s :
  Forall (fun c => isStrippedControl c = false) s ->
  Forall (fun c => isAsciiControl c = false /\ (isWhiteSpace c = true -> c = 32%N))
         (collapseFrom b s).
Proof.
  intros H. revert b. induction H as [|c r Hc _ IH]; intros b; simpl; [constructor|].
  destruct (isWhiteSpace c) eqn:W.
  - destruct b; [apply IH|]. constructor; [split; reflexivity | apply IH].
  - constructor; [|apply IH]. split; [apply kept_unit_not_control; assumption|].
    congruence.
Qed.

Lemma collapseFrom_runs s :
  forall b,
    noAdjacentWhiteSpace (collapseFrom b s) = true
    /\ (b = true -> isWhiteSpace (hd 0%N (collapseFrom b s)) = false).
Proof.
  induction s as [|c r IH]; intros b; simpl; [split; reflexivity|].
  destruct (isWhiteSpace c) eqn:W.
  - destruct (IH true) as [Hr Hh]. destruct b; [split; auto|].
    split; [|discriminate]. simpl. rewrite Hr.
    specialize (Hh eq_refl). destruct (collapseFrom true r); [reflexivity|].
    simpl in Hh. rewrite Hh. reflexivity.
  - destruct (IH false) as [Hr _]. split; [|intros _; exact W].
    simpl. rewrite Hr, W. destruct (collapseFrom false r); reflexivity.
Qed.

Lemma collapseFrom_fix s :
  forall b,
    Forall (fun c => isWhiteSpace c = true -> c = 32%N) s ->
    noAdjacentWhiteSpace s = true ->
    (b = true -> isWhiteSpace (hd 0%N s) = false) ->
    collapseFrom b s = s.
Proof.
  induction s as [|c r IH]; intros b Hu Hr Hh; simpl; [reflexivity|].
  inversion Hu as [|? ? Hc Hu']; subst. simpl in Hr.
  apply andb_true_iff in Hr. destruct Hr as [Hcd Hr].
  destruct (isWhiteSpace c) eqn:W.
  - destruct b; [specialize (Hh eq_refl); simpl in Hh; congruence|].
    rewrite (Hc eq_refl). f_equal. apply IH; auto.
    intros _. destruct r as [|d t]; [reflexivity|]. simpl in *.
    destruct (isWhiteSpace d); [discriminate | reflexivity].
  - f_equal. apply IH; auto. discriminate.
Qed.

(** *** Step 3: trimming *)

Lemma trimStart_head s : isWhiteSpace (hd 0%N (trimStart s)) = false.
Proof.
  induction s as [|c r IH]; simpl; [reflexivity|].
  destruct (isWhiteSpace c) eqn:W; [exact IH | exact W].
Qed.

Lemma trimStart_Forall (P : N -> Prop) s : Forall P s -> Forall P (trimStart s).
Proof.
  induction 1 as [|c r Hc Hr IH]; simpl; [constructor|].
  destruct (isWhiteSpace c); [exact IH | constructor; assumption].
Qed.

Lemma trimStart_runs s :
  noAdjacentWhiteSpace s = true -> noAdjacentWhiteSpace (trimStart s) = true.
Proof.
  induction s as [|c r IH]; intros H; [reflexivity|].
  simpl trimStart. destruct (isWhiteSpace c); [|exact H].
  apply IH. simpl in H. apply andb_true_iff in H. tauto.
Qed.

Lemma trimStart_fix s : isWhiteSpace (hd 0%N s) = false -> trimStart s = s.
Proof. destruct s as [|c r]; simpl; [reflexivity|]. intros ->. reflexivity. Qed.

Lemma trimEnd_cons c r :
  trimEnd (c :: r) = [] \/ exists t, trimEnd (c :: r) = c :: t.
Proof.
  simpl. destruct (trimEnd r).
  - destruct (isWhiteSpace c); [left | right; exists []]; reflexivity.
  - right. eexists. reflexivity.
Qed.

Lemma trimEnd_hd s : trimEnd s = [] \/ hd 0%N (trimEnd s) = hd 0%N s.
Proof.
  destruct s as [|c r]; [left; reflexivity|].
  destruct (trimEnd_cons c r) as [E|[t E]]; rewrite E; auto.
Qed.

Lemma trimEnd_Forall (P : N -> Prop) s : Forall P s -> Forall P (trimEnd s).
Proof.
  induction 1 as [|c r Hc Hr IH]; simpl; [constructor|].
  destruct (trimEnd r).
  - destruct (isWhiteSpace c); repeat constructor; assumption.
  - constructor; assumption.
Qed.

Lemma trimEnd_runs s :
  noAdjacentWhiteSpace s = true -> noAdjacentWhiteSpace (trimEnd s) = true.
Proof.
  induction s as [|c r IH]; intros H; [reflexivity|].
  simpl in H. apply andb_true_iff in H. destruct H as [Hcd Hr].
  specialize (IH Hr). simpl trimEnd.
  destruct (trimEnd r) as [|d t] eqn:E.
  - destruct (isWhiteSpace c); reflexivity.
  - destruct r as [|d' r']; [discriminate|].
    destruct (trimEnd_cons d' r') as [E'|[t' E']]; rewrite E' in E;
      [discriminate|]. injection E as <- <-.
    change (negb (isWhiteSpace c && isWhiteSpace d')
            && noAdjacentWhiteSpace (d' :: t') = true).
    rewrite Hcd. exact IH.
Qed.

Lemma trimEnd_last s : isWhiteSpace (last (trimEnd s) 0%N) = false.
Proof.
  induction s as [|c r IH]; simpl; [reflexivity|].
  destruct (trimEnd r) as [|d t] eqn:E.
  - destruct (isWhiteSpace c) eqn:W; simpl; auto.
  - exact IH.
Qed.

Lemma trimEnd_fix s : isWhiteSpace (last s 0%N) = false -> trimEnd s = s.
Proof.
  induction s as [|c r IH]; intros H; [reflexivity|].
  destruct r as [|d t].
  - simpl in *. rewrite H. reflexivity.
  - change (last (c :: d :: t) 0%N) with (last (d :: t) 0%N) in H.
    specialize (IH H). simpl trimEnd in *. rewrite IH. reflexivity.
Qed.

(** *** The three steps together *)

Lemma nil_Clean : Clean [].
Proof. split; [constructor | reflexivity ..]. Qed.

Lemma sanitizeText_Clean text : Clean (sanitizeText text).
Proof.
  unfold sanitizeText. destruct (truthy text); [|apply nil_Clean].
  unfold trim, collapseWhiteSpace.
  set (r := replaceControls text).
  pose proof (collapseFrom_units false _ (replaceControls_none text)) as Hu.
  destruct (collapseFrom_runs r false) as [Hr _]. fold r in Hu.
  split.
  - apply trimEnd_Forall, trimStart_Forall, Hu.
  - apply trimEnd_runs, trimStart_runs, Hr.
  - destruct (trimEnd_hd (trimStart (collapseFrom false r))) as [E|E];
      rewrite E; [reflexivity | apply trimStart_head].
  - apply trimEnd_last.
Qed.

Lemma Clean_fixpoint s : Clean s -> sanitizeText s = s.
Proof.
  intros [Hu Hr Hh Hl]. unfold sanitizeText.
  destruct s as [|c r] eqn:Es; [reflexivity|]. rewrite <- Es in *.
  replace (truthy s) with true by (subst s; reflexivity).
  unfold trim, collapseWhiteSpace.
  rewrite replaceControls_fix
    by (eapply Forall_impl; [|exact Hu]; simpl; tauto).
  rewrite collapseFrom_fix; auto; try discriminate.
  - rewrite (trimStart_fix _ Hh). apply trimEnd_fix, Hl.
  - eapply Forall_impl; [|exact Hu]; simpl; tauto.
Qed.

End Sanitize.

(** ** Running programs *)

Section RunLemmas.
Import Imap State Async Semantics.

Variable env : Env.

Lemma thenR_after {A B} ev (r : Result A) (f : A -> Watcher -> Result B) :
  thenR (after ev r) f = after ev (thenR r f).
Proof. destruct r as [w t [e|a]]; reflexivity. Qed.

Lemma catchR_after {A} ev (r : Result A) h :
  catchR (after ev r) h = after ev (catchR r h).
Proof. destruct r as [w t [e|a]]; reflexivity. Qed.

Lemma run_bind {A B} (p : Prog A) (f : A -> Prog B) w :
  run env (bind p f) w = thenR (run env p w) (fun a w' => run env (f a) w').
Proof.
  revert w. induction p as [a|e|k IH|w' k IH|o k IH|s k IH|o k IH];
    intros w; simpl.
  - unfold thenR, afterAll; simpl. destruct (run env (f a) w); reflexivity.
  - reflexivity.
  - apply IH.
  - apply IH.
  - rewrite IH, thenR_after. reflexivity.
  - rewrite IH, thenR_after. reflexivity.
  - rewrite IH, thenR_after. reflexivity.
Qed.

Lemma run_tryCatch {A} (p : Prog A) h w :
  run env (tryCatch p h) w
  = catchR (run env p w) (fun e w' => run env (h e) w').
Proof.
  revert w. induction p as [a|e|k IH|w' k IH|o k IH|s k IH|o k IH];
    intros w; simpl.
  - reflexivity.
  - unfold catchR, afterAll; simpl. destruct (run env (h e) w); reflexivity.
  - apply IH.
  - apply IH.
  - rewrite IH, catchR_after. reflexivity.
  - rewrite IH, catchR_after. reflexivity.
  - rewrite IH, catchR_after. reflexivity.
Qed.

Lemma run_tryFinally {A} (p : Prog A) fin w :
  run env (tryFinally p fin) w
  = finallyR (run env p w) (fun w' => run env fin w').
Proof.
  revert w. induction p as [a|e|k IH|w' k IH|o k IH|s k IH|o k IH];
    intros w; simpl.
  - rewrite run_bind. unfold finallyR, afterAll; simpl.
    destruct (thenR _ _); reflexivity.
  - rewrite run_bind. unfold finallyR, afterAll; simpl.
    destruct (thenR _ _); reflexivity.
  - apply IH.
  - apply IH.
  - rewrite IH. destruct (run env k w) as [w1 t1 o1]; reflexivity.
  - rewrite IH.
    destruct (run env (k (answerSync env s)) w) as [w1 t1 o1]; reflexivity.
  - rewrite IH.
    destruct (run env (k (answer env o)) w) as [w1 t1 o1]; reflexivity.
Qed.

Lemma trace_thenR {A B} (r : Result A) (f : A -> Watcher -> Result B) :
  trace (thenR r f)
  = trace r ++ match outcome r with
               | inr a => trace (f a (final r))
               | inl _ => []
               end.
Proof.
  destruct r as [w t [e|a]]; unfold thenR, afterAll; simpl;
    [rewrite app_nil_r|]; reflexivity.
Qed.

Lemma trace_catchR {A} (r : Result A) h :
  trace (catchR r h)
  = trace r ++ match outcome r with
               | inl e => trace (h e (final r))
               | inr _ => []
               end.
Proof.
  destruct r as [w t [e|a]]; unfold catchR, afterAll; simpl;
    [|rewrite app_nil_r]; reflexivity.
Qed.

Lemma trace_finallyR {A} (r : Result A) fin :
  trace (finallyR r fin) = trace r ++ trace (fin (final r)).
Proof.
  unfold finallyR, afterAll. cbn [trace]. rewrite trace_thenR.
  destruct (outcome (fin (final r))); rewrite app_nil_r; reflexivity.
Qed.

Lemma trace_afterAll {A} t (r : Result A) :
  trace (afterAll t r) = t ++ trace r.
Proof. reflexivity. Qed.

Lemma run_await o w :
  run env (await o) w
  = {| final := w; trace := [Awaited o]; outcome := answer env o |}.
Proof. unfold await. simpl. destruct (answer env o); reflexivity. Qed.

Lemma run_call s w :
  run env (call s) w
  = {| final := w; trace := [Did s]; outcome := answerSync env s |}.
Proof. unfold call. simpl. destruct (answerSync env s); reflexivity. Qed.

Lemma run_Ret {A} (a : A) w :
  run env (Ret a) w = {| final := w; trace := []; outcome := inr a |}.
Proof. reflexivity. Qed.

Lemma run_Raise {A} e w :
  run env (@Raise A e) w = {| final := w; trace := []; outcome := inl e |}.
Proof. reflexivity. Qed.

Lemma run_Get {A} (k : Watcher -> Prog A) w :
  run env (Get k) w = run env (k w) w.
Proof. reflexivity. Qed.

Lemma run_Put {A} w' (k : Prog A) w :
  run env (Put w' k) w = run env k w'.
Proof. reflexivity. Qed.

Lemma run_log m w :
  run env (log m) w
  = {| final := w; trace := [Out (Log StdOut m)]; outcome := inr tt |}.
Proof. reflexivity. Qed.

Lemma run_logError m w :
  run env (logError m) w
  = {| final := w; trace := [Out (Log StdErr m)]; outcome := inr tt |}.
Proof. reflexivity. Qed.

Lemma run_emit o w :
  run env (emit o) w
  = {| final := w; trace := [Out o]; outcome := inr tt |}.
Proof. reflexivity. Qed.

Lemma run_modify f w :
  run env (modify f) w
  = {| final := f w; trace := []; outcome := inr tt |}.
Proof. reflexivity. Qed.

Lemma thenR_ok {A B} w t (a : A) (f : A -> Watcher -> Result B) :
  thenR {| final := w; trace := t; outcome := inr a |} f = afterAll t (f a w).
Proof. reflexivity. Qed.

Lemma thenR_err {A B} w t e (f : A -> Watcher -> Result B) :
  thenR {| final := w; trace := t; outcome := inl e |} f
  = {| final := w; trace := t; outcome := inl e |}.
Proof. reflexivity. Qed.

Lemma catchR_ok {A} w t (a : A) h :
  catchR {| final := w; trace := t; outcome := inr a |} h
  = {| final := w; trace := t; outcome := inr a |}.
Proof. reflexivity. Qed.

Lemma catchR_err {A} w t e (h : Exn -> Watcher -> Result A) :
  catchR {| final := w; trace := t; outcome := inl e |} h
  = afterAll t (h e w).
Proof. reflexivity. Qed.

Lemma afterAll_lit {A} t w t' (o : Exn + A) :
  afterAll t {| final := w; trace := t'; outcome := o |}
  = {| final := w; trace := t ++ t'; outcome := o |}.
Proof. reflexivity. Qed.

Lemma after_lit {A} ev w t (o : Exn + A) :
  after ev {| final := w; trace := t; outcome := o |}
  = {| final := w; trace := ev :: t; outcome := o |}.
Proof. reflexivity. Qed.

Lemma thenR_afterAll {A B} t (r : Result A) (f : A -> Watcher -> Result B) :
  thenR (afterAll t r) f = afterAll t (thenR r f).
Proof.
  destruct r as [w t' [e|a]]; unfold thenR, afterAll; simpl;
    [reflexivity|]. rewrite app_assoc. reflexivity.
Qed.

Lemma catchR_afterAll {A} t (r : Result A) h :
  catchR (afterAll t r) h = afterAll t (catchR r h).
Proof.
  destruct r as [w t' [e|a]]; unfold catchR, afterAll; simpl;
    [|reflexivity]. rewrite app_assoc. reflexivity.
Qed.

Lemma afterAll_afterAll {A} t t' (r : Result A) :
  afterAll t (afterAll t' r) = afterAll (t ++ t') r.
Proof. unfold afterAll; simpl. rewrite app_assoc. reflexivity. Qed.

Lemma run_keeps (I : Watcher -> Prop) (P : Op -> Prop) (Q : Output -> Prop)
      {A} (p : Prog A) :
  Keeps I P Q p ->
  forall w, I w ->
    I (final (run env p w))
    /\ (forall o, In (Awaited o) (trace (run env p w)) -> P o)
    /\ (forall o, In (Out o) (trace (run env p w)) -> Q o).
Proof.
  induction 1 as [a|e|k _ IH|w' k Hw' _ IH|o k Ho _ IH|s k _ IH|o k Ho _ IH];
    intros w Hw; simpl; auto.
  - split; [exact Hw | split; intros o []].
  - split; [exact Hw | split; intros o []].
  - destruct (IH w Hw) as (H1 & H2 & H3). split; [exact H1|]. split.
    + intros o' [F|F]; [discriminate | auto].
    + intros o' [F|F]; [injection F as <-; exact Ho | auto].
  - destruct (IH (answerSync env s) w Hw) as (H1 & H2 & H3).
    split; [exact H1|]. split; intros o' [F|F]; try discriminate; auto.
  - destruct (IH (answer env o) w Hw) as (H1 & H2 & H3).
    split; [exact H1|]. split.
    + intros o' [F|F]; [injection F as <-; exact Ho | auto].
    + intros o' [F|F]; [discriminate | auto].
Qed.

End RunLemmas.

Create Rewrite HintDb run.
#[global] Hint Rewrite @run_bind @run_tryCatch run_await run_call @run_Ret
  @run_Raise run_log run_logError run_emit run_modify @thenR_ok @thenR_err
  @catchR_ok @catchR_err @afterAll_lit @after_lit @thenR_afterAll @catchR_afterAll
  @afterAll_afterAll : run.

(** ** The text sent to the classifier *)

Section AnalyzerProperties.
Import JS Analyzer Imap State Async Semantics.

Lemma run_isScamEmail env a email w :
  run env (isScamEmail a email) w
  = {| final := w;
       trace := [Awaited (MessagesCreate (promptFor a email))];
       outcome := inr match answer env (MessagesCreate (promptFor a email)) with
                      | inr result => result
                      | inl _ => analysisFailed
                      end |}.
Proof.
  unfold isScamEmail. rewrite run_tryCatch, run_await.
  unfold catchR; simpl.
  destruct (answer env (MessagesCreate (promptFor a email))); reflexivity.
Qed.

(** C10. [sanitizeText] is idempotent; its result holds no ASCII control
    character, no two adjacent white-space characters and neither starts
    nor ends with white space; the body that [isScamEmail] sends to the
    classifier is the first [bodyMaxChars] code units of the sanitised
    text, hence at most [bodyMaxChars] long. *)
Theorem sanitizeText_idempotent_clean_truncated :
  forall text : str,
    (let out := sanitizeText text in
     sanitizeText out = out
     /\ Forall (fun c => isAsciiControl c = false) out
     /\ noAdjacentWhiteSpace out = true
     /\ isWhiteSpace (hd 0%N out) = false
     /\ isWhiteSpace (last out 0%N) = false)
    /\ forall env w a id sender subj d h,
        let email := {| uid := id; subject := subj; from := sender;
                        date := d; text := text; html := h |} in
        classifierCalls (trace (run env (isScamEmail a email) w))
        = [{| p_from := sender; p_subject := subj;
              p_body := firstn (Z.to_nat (bodyMaxChars a))
                               (sanitizeText text) |}]
        /\ (List.length (p_body (promptFor a email))
            <= Z.to_nat (bodyMaxChars a))%nat.
Proof.
  intros text. split.
  - pose proof (sanitizeText_Clean text) as [Hu Hr Hh Hl].
    cbv zeta. repeat split; auto.
    + apply Clean_fixpoint, sanitizeText_Clean.
    + eapply Forall_impl; [|exact Hu]. simpl; tauto.
  - intros env w a id sender subj d h email. split.
    + rewrite run_isScamEmail. reflexivity.
    + unfold promptFor, substring0; simpl. apply firstn_le_length.
Qed.

End AnalyzerProperties.

(** ** The quarantine folder *)

Section Resolver.
Import JS Analyzer Imap State Async Semantics.

Lemma eqb_eq (a b : str) : JS.eqb a b = true <-> a = b.
Proof.
  unfold JS.eqb. destruct (list_eq_dec N.eq_dec a b); split; congruence.
Qed.

Lemma eqb_refl (a : str) : JS.eqb a a = true.
Proof. apply eqb_eq. reflexivity. Qed.

Lemma mapGet_mapSet m k v k' :
  mapGet (mapSet m k v) k' = if JS.eqb k k' then Some v else mapGet m k'.
Proof.
  induction m as [|[k0 v0] r IH]; simpl.
  - reflexivity.
  - destruct (JS.eqb k0 k) eqn:E0; simpl.
    + apply eqb_eq in E0. subst k0.
      destruct (JS.eqb k k'); reflexivity.
    + rewrite IH. destruct (JS.eqb k0 k') eqn:E1; [|reflexivity].
      destruct (JS.eqb k k') eqn:E2; [|reflexivity].
      apply eqb_eq in E1, E2. subst. rewrite eqb_refl in E0. discriminate.
Qed.

Lemma mapGet_fold entries :
  forall m k,
    mapGet (fold_left (fun m kv => mapSet m (fst kv) (snd kv)) entries m) k
    = lastWith k entries (mapGet m k).
Proof.
  unfold lastWith.
  induction entries as [|[k0 v0] r IH]; intros m k; simpl; [reflexivity|].
  rewrite IH, mapGet_mapSet. reflexivity.
Qed.

Lemma lastWith_some k entries :
  forall acc v,
    lastWith k entries acc = Some v -> In (k, v) entries \/ acc = Some v.
Proof.
  unfold lastWith.
  induction entries as [|[k0 v0] r IH]; intros acc v H; simpl in *.
  - right. exact H.
  - destruct (IH _ _ H) as [Hin|Hacc]; [left; right; exact Hin|].
    destruct (JS.eqb k0 k) eqn:E; [|right; exact Hacc].
    apply eqb_eq in E. left; left. congruence.
Qed.

Lemma lastWith_none k entries :
  forall acc,
    lastWith k entries acc = None ->
    acc = None /\ forall v, ~ In (k, v) entries.
Proof.
  unfold lastWith.
  induction entries as [|[k0 v0] r IH]; intros acc H; simpl in *.
  - split; [exact H | tauto].
  - destruct (IH _ H) as [Hacc Hr].
    destruct (JS.eqb k0 k) eqn:E; [discriminate|].
    split; [exact Hacc|]. intros v [Heq|Hin]; [|exact (Hr v Hin)].
    injection Heq as -> _. rewrite eqb_refl in E. discriminate.
Qed.

Variable toLowerCase : str -> str.

Hypothesis lower_empty : forall s, toLowerCase s = [] <-> s = [].

Lemma exact_some allBoxes cand b :
  mapGet (lowerToOriginalOf toLowerCase allBoxes) (toLowerCase cand) = Some b ->
  In b allBoxes /\ isExactMatch toLowerCase b cand.
Proof.
  unfold lowerToOriginalOf, newMap. rewrite mapGet_fold. intros H.
  apply lastWith_some in H. destruct H as [H|H]; [|discriminate].
  apply in_map_iff in H. destruct H as [n [E Hn]].
  injection E as E1 E2. subst n. split; [exact Hn | exact E1].
Qed.

Lemma exact_none allBoxes cand :
  mapGet (lowerToOriginalOf toLowerCase allBoxes) (toLowerCase cand) = None ->
  forall b, In b allBoxes -> ~ isExactMatch toLowerCase b cand.
Proof.
  unfold lowerToOriginalOf, newMap, isExactMatch. rewrite mapGet_fold.
  intros H b Hb E. apply lastWith_none in H. destruct H as [_ H].
  apply (H b). apply in_map_iff. exists b. split; [|exact Hb]. congruence.
Qed.

Lemma exact_falsy allBoxes cand :
  cand <> [] ->
  truthyOpt (mapGet (lowerToOriginalOf toLowerCase allBoxes)
                    (toLowerCase cand)) = false ->
  forall b, In b allBoxes -> ~ isExactMatch toLowerCase b cand.
Proof.
  intros Hc H.
  destruct (mapGet (lowerToOriginalOf toLowerCase allBoxes)
                   (toLowerCase cand)) as [e|] eqn:G.
  - destruct e; [|discriminate]. apply exact_some in G.
    destruct G as [_ G]. unfold isExactMatch in G.
    exfalso. apply Hc. apply lower_empty. rewrite <- G.
    apply lower_empty. reflexivity.
  - apply exact_none. exact G.
Qed.

Lemma trailing_falsy allBoxes cand :
  truthyOpt (find (fun b => endsWith (toLowerCase b)
                              (lit "/" ++ toLowerCase cand)) allBoxes)
  = false ->
  forall b, In b allBoxes -> ~ isTrailingMatch toLowerCase b cand.
Proof.
  intros H b Hb. unfold isTrailingMatch.
  destruct (find _ allBoxes) as [f|] eqn:F.
  - destruct f; [|discriminate]. apply find_some in F. destruct F as [_ F].
    replace (toLowerCase []) with (@nil N) in F
      by (symmetry; apply lower_empty; reflexivity).
    discriminate.
  - rewrite (find_none _ _ F b Hb). discriminate.
Qed.

(** The map holds the last folder of the listing with a given lower-cased
    path. *)
Lemma exact_last allBoxes cand b :
  mapGet (lowerToOriginalOf toLowerCase allBoxes) (toLowerCase cand) = Some b ->
  exists pre post,
    allBoxes = (pre ++ b :: post)%list
    /\ isExactMatch toLowerCase b cand
    /\ forall b', In b' post -> ~ isExactMatch toLowerCase b' cand.
Proof.
  unfold lowerToOriginalOf, newMap, isExactMatch. rewrite mapGet_fold.
  unfold lastWith. revert b.
  induction allBoxes as [|x l IH] using rev_ind; intros b H;
    [discriminate|].
  rewrite map_app, fold_left_app in H. cbn [map fold_left fst snd] in H.
  destruct (JS.eqb (toLowerCase x) (toLowerCase cand)) eqn:E.
  - injection H as <-. exists l, []. apply eqb_eq in E.
    split; [reflexivity|]. split; [exact E | intros b' []].
  - destruct (IH b H) as (pre & post & -> & Hb & Hp).
    exists pre, (post ++ [x])%list.
    split; [rewrite <- app_assoc; reflexivity|]. split; [exact Hb|].
    intros b' Hin. apply in_app_or in Hin. destruct Hin as [Hin|[<-|[]]].
    + apply Hp, Hin.
    + intros F. apply eqb_eq in F. congruence.
Qed.

(** [find] gives the first element that passes the test. *)
Lemma find_first {X} (f : X -> bool) l x :
  find f l = Some x ->
  exists pre post,
    l = (pre ++ x :: post)%list /\ f x = true
    /\ forall y, In y pre -> f y = false.
Proof.
  induction l as [|a l IH]; intros H; [discriminate|]. simpl in H.
  destruct (f a) eqn:E.
  - injection H as <-. exists [], l.
    split; [reflexivity|]. split; [exact E | intros y []].
  - destruct (IH H) as (pre & post & -> & Hx & Hp).
    exists (a :: pre), post. split; [reflexivity|]. split; [exact Hx|].
    intros y [<-|Hy]; [exact E | apply Hp, Hy].
Qed.

(** The loop stops at the first candidate with a folder of its own: the
    last folder of the listing that is the candidate, or else the first
    one that ends with it. *)
Lemma pickTarget_some allBoxes cands :
  Forall (fun c => c <> []) cands ->
  forall target,
    pickTarget toLowerCase allBoxes
               (lowerToOriginalOf toLowerCase allBoxes) cands = Some target ->
    exists before cand later pre post,
      cands = before ++ cand :: later
      /\ (forall c b, In c before -> In b allBoxes ->
                      ~ isExactMatch toLowerCase b c
                      /\ ~ isTrailingMatch toLowerCase b c)
      /\ allBoxes = (pre ++ target :: post)%list
      /\ ((isExactMatch toLowerCase target cand
           /\ forall b, In b post -> ~ isExactMatch toLowerCase b cand)
          \/ ((forall b, In b allBoxes -> ~ isExactMatch toLowerCase b cand)
              /\ isTrailingMatch toLowerCase target cand
              /\ forall b, In b pre ->
                           ~ isTrailingMatch toLowerCase b cand)).
Proof.
  induction 1 as [|cand rest Hc _ IH]; intros target H; simpl in H;
    [discriminate|].
  destruct (truthyOpt (mapGet _ (toLowerCase cand))) eqn:X.
  - apply exact_last in H. destruct H as (pre & post & E & Hex & Hp).
    exists [], cand, rest, pre, post.
    split; [reflexivity|]. split; [intros ? ? []|].
    split; [exact E|]. left. split; assumption.
  - destruct (truthyOpt (find _ allBoxes)) eqn:T.
    + apply find_first in H. destruct H as (pre & post & E & Ht & Hp).
      exists [], cand, rest, pre, post.
      split; [reflexivity|]. split; [intros ? ? []|].
      split; [exact E|]. right. split; [|split].
      * apply exact_falsy; assumption.
      * exact Ht.
      * intros b Hb F. unfold isTrailingMatch in F. specialize (Hp b Hb).
        cbv beta in Hp.
        change (lit "/" ++ toLowerCase cand)%list
          with (47%N :: toLowerCase cand) in F.
        congruence.
    + destruct (IH _ H)
        as (before & c & later & pre & post & E & Hb & Hin & Hm).
      exists (cand :: before), c, later, pre, post. subst rest.
      split; [reflexivity|]. split; [|split; assumption].
      intros c0 b [<-|Hc0] Hb0.
      * split; [eapply exact_falsy | eapply trailing_falsy]; eassumption.
      * apply Hb; assumption.
Qed.

Lemma pickTarget_none allBoxes cands :
  Forall (fun c => c <> []) cands ->
  pickTarget toLowerCase allBoxes
             (lowerToOriginalOf toLowerCase allBoxes) cands = None ->
  forall c b, In c cands -> In b allBoxes ->
              ~ isExactMatch toLowerCase b c
              /\ ~ isTrailingMatch toLowerCase b c.
Proof.
  induction 1 as [|cand rest Hc _ IH]; intros H c b Hin Hb; simpl in *;
    [contradiction|].
  destruct (truthyOpt (mapGet _ (toLowerCase cand))) eqn:X.
  - destruct (mapGet _ (toLowerCase cand)); discriminate.
  - destruct (truthyOpt (find _ allBoxes)) eqn:T.
    + destruct (find _ allBoxes); discriminate.
    + destruct Hin as [<-|Hin]; [|apply IH; assumption].
      split; [eapply exact_falsy | eapply trailing_falsy]; eassumption.
Qed.

Lemma candidates_nonempty : Forall (fun c : str => c <> []) candidates.
Proof. repeat constructor; discriminate. Qed.

(** What [moveToSpamFolder] does once the mailbox tree is known. *)
Lemma run_moveToSpamFolder env w c id tree :
  answer env (GetBoxes c) = inr tree ->
  let r := run env (moveToSpamFolder toLowerCase (Some c) id) w in
  final r = w
  /\ match resolveTarget toLowerCase tree with
     | Some target =>
         trace r
         = Awaited (GetBoxes c) :: Awaited (MoveMessage c id target)
             :: match answer env (MoveMessage c id target) with
                | inr _ => [Out (Log StdOut (Moved id target))]
                | inl e => [Out (Log StdErr (MoveError id e))]
                end
     | None =>
         trace r
         = Awaited (GetBoxes c) :: Awaited (AddBox c (lit "Spam"))
             :: Awaited (MoveMessage c id (lit "Spam"))
             :: match answer env (MoveMessage c id (lit "Spam")) with
                | inr _ => [Out (Log StdOut (Moved id (lit "Spam")))]
                | inl e => [Out (Log StdErr (MoveError id e))]
                end
     end.
Proof.
  intros H. unfold moveToSpamFolder, resolveTarget. cbv zeta.
  rewrite run_tryCatch, run_bind, run_await, H, thenR_ok.
  destruct (pickTarget _ _ _ candidates) as [target|].
  - autorewrite with run.
    destruct (answer env (MoveMessage c id target)) as [e|[]];
      autorewrite with run; split; reflexivity.
  - rewrite run_bind, run_bind, run_tryCatch, run_await.
    destruct (answer env (AddBox c _)) as [e|[]]; autorewrite with run;
      destruct (answer env (MoveMessage c id _)) as [e'|[]];
      autorewrite with run; split; reflexivity.
Qed.

(** C7, amended.  The resolver walks the priority list once.  The first
    candidate that has a folder of its own decides: the folder whose full
    path is the candidate (case-insensitively) if there is one, the last of
    the listing if there are several; otherwise the first folder of the
    listing whose path ends with ["/"] and the candidate.  If no candidate
    has a folder either way, a top-level [Spam] is created and used,
    whatever the creation answers. *)
Theorem quarantine_folder_by_candidate_order :
  forall (env : Env) (w : Watcher) (c : Conn) (id : N) (tree : BoxTree),
    answer env (GetBoxes c) = inr tree ->
    let allBoxes := flattenBoxes tree [] in
    let r := run env (moveToSpamFolder toLowerCase (Some c) id) w in
    (exists before cand later target pre post,
        candidates = before ++ cand :: later
        /\ (forall c' b, In c' before -> In b allBoxes ->
                         ~ isExactMatch toLowerCase b c'
                         /\ ~ isTrailingMatch toLowerCase b c')
        /\ allBoxes = (pre ++ target :: post)%list
        /\ ((isExactMatch toLowerCase target cand
             /\ forall b, In b post -> ~ isExactMatch toLowerCase b cand)
            \/ ((forall b, In b allBoxes ->
                           ~ isExactMatch toLowerCase b cand)
                /\ isTrailingMatch toLowerCase target cand
                /\ forall b, In b pre ->
                             ~ isTrailingMatch toLowerCase b cand))
        /\ resolveTarget toLowerCase tree = Some target
        /\ moves (trace r) = [(id, target)]
        /\ forall name, ~ In (Awaited (AddBox c name)) (trace r))
    \/ ((forall cand b, In cand candidates -> In b allBoxes ->
                        ~ isExactMatch toLowerCase b cand
                        /\ ~ isTrailingMatch toLowerCase b cand)
        /\ resolveTarget toLowerCase tree = None
        /\ exists rest,
            trace r = Awaited (GetBoxes c)
                        :: Awaited (AddBox c (lit "Spam"))
                        :: Awaited (MoveMessage c id (lit "Spam")) :: rest).
Proof.
  intros env w c id tree H allBoxes r.
  destruct (run_moveToSpamFolder env w c id tree H) as [_ Ht]. fold r in Ht.
  destruct (resolveTarget toLowerCase tree) as [target|] eqn:R.
  - left. unfold resolveTarget in R.
    destruct (pickTarget_some _ _ candidates_nonempty _ R)
      as (before & cand & later & pre & post & E & Hb & Hin & Hm).
    exists before, cand, later, target, pre, post.
    repeat (split; [assumption|]). split; [reflexivity|].
    rewrite Ht. split.
    + destruct (answer env (MoveMessage c id target)); reflexivity.
    + intros name [F|[F|F]]; try discriminate.
      destruct (answer env (MoveMessage c id target));
        destruct F as [F|[]]; discriminate.
  - right. unfold resolveTarget in R. split; [|split; [reflexivity|]].
    + intros cand b Hc Hb.
      apply (pickTarget_none _ _ candidates_nonempty R); assumption.
    + rewrite Ht. eexists. reflexivity.
Qed.

End Resolver.

Lemma asciiLower_empty : forall s, JS.asciiLower s = [] <-> s = [].
Proof.
  intros s. destruct s; simpl; split; intros H;
    try reflexivity; discriminate.
Qed.

(** C7 as stated fails on [INBOX/Spam] next to a top-level [Junk]: the
    folder [Junk] is the candidate "junk" exactly, yet the resolver settles
    on [INBOX/Spam], which is no candidate's full path. *)
Lemma exact_match_not_tried_on_whole_list_first :
  let allBoxes := flattenBoxes nestedSpamTree [] in
  (exists cand b, In cand candidates /\ In b allBoxes
                  /\ isExactMatch JS.asciiLower b cand)
  /\ resolveTarget JS.asciiLower nestedSpamTree = Some (JS.lit "INBOX/Spam")
  /\ forall cand, In cand candidates ->
                  ~ isExactMatch JS.asciiLower (JS.lit "INBOX/Spam") cand.
Proof.
  cbv zeta. split; [|split].
  - exists (JS.lit "junk"), (JS.lit "Junk").
    split; [|split]; [vm_compute; tauto | vm_compute; tauto | reflexivity].
  - vm_compute. reflexivity.
  - intros cand Hc. unfold isExactMatch.
    repeat (destruct Hc as [<-|Hc]; [vm_compute; discriminate|]).
    destruct Hc.
Qed.

Lemma quarantine_folder_witness :
  (forall s, JS.asciiLower s = [] <-> s = [])
  /\ Semantics.answer (envOf calm) (Imap.GetBoxes 1%nat) = inr nestedSpamTree
  /\ moves (Semantics.trace
              (Semantics.run (envOf calm)
                 (moveToSpamFolder JS.asciiLower (Some 1%nat) 7%N) watcher))
     = [(7%N, JS.lit "INBOX/Spam")].
Proof.
  split; [exact asciiLower_empty|]. split; [reflexivity|].
  destruct (quarantine_folder_by_candidate_order JS.asciiLower
              asciiLower_empty (envOf calm) watcher 1%nat 7%N nestedSpamTree
              eq_refl)
    as [(b & c & l & t & pre & post & _ & _ & _ & _ & R & M & _)
       | (_ & R & _)].
  - vm_compute in R. injection R as <-. exact M.
  - vm_compute in R. discriminate R.
Defined.

(** ** Double precision *)

Section Doubles.
Import JS.
Local Open Scope Z_scope.

Lemma digits2_size p : digits2_pos p = Pos.size p.
Proof. induction p; simpl; congruence. Qed.

Lemma size_bounds p :
  2 ^ (Zpos (Pos.size p) - 1) <= Zpos p < 2 ^ Zpos (Pos.size p).
Proof.
  split.
  - pose proof (Pos.size_le p) as H.
    assert (H' : 2 ^ Zpos (Pos.size p) <= 2 * Zpos p).
    { change 2 with (Zpos 2) at 1. rewrite <- Pos2Z.inj_pow.
      change (2 * Zpos p) with (Zpos p~0). apply Pos2Z.pos_le_pos. exact H. }
    replace (Zpos (Pos.size p)) with (Z.succ (Zpos (Pos.size p) - 1)) in H'
      by lia.
    rewrite Z.pow_succ_r in H' by lia. lia.
  - pose proof (Pos.size_gt p) as H.
    change 2 with (Zpos 2). rewrite <- Pos2Z.inj_pow.
    apply Pos2Z.pos_lt_pos. exact H.
Qed.

Lemma iter_pos_nat {A} (f : A -> A) p :
  forall x, iter_pos f p x = Nat.iter (Pos.to_nat p) f x.
Proof.
  induction p as [p IH|p IH|]; intros x; cbn [iter_pos].
  - rewrite !IH. rewrite Pos2Nat.inj_xI.
    rewrite <- Nat.iter_add. rewrite <- Nat.iter_succ_r.
    f_equal. lia.
  - rewrite !IH. rewrite Pos2Nat.inj_xO. rewrite <- Nat.iter_add.
    f_equal. lia.
  - reflexivity.
Qed.

Lemma shr_1_nonneg m r s :
  0 <= m ->
  shr_1 {| shr_m := m; shr_r := r; shr_s := s |}
  = {| shr_m := m / 2; shr_r := Z.odd m; shr_s := r || s |}.
Proof.
  intros H. destruct m as [|p|p]; [reflexivity| |lia].
  destruct p as [p|p|]; cbn [shr_1].
  - rewrite Pos2Z.inj_xI.
    replace ((2 * Zpos p + 1) / 2) with (Zpos p)
      by (apply Z.div_unique with 1; lia).
    reflexivity.
  - rewrite Pos2Z.inj_xO.
    replace ((2 * Zpos p) / 2) with (Zpos p)
      by (apply Z.div_unique with 0; lia).
    reflexivity.
  - reflexivity.
Qed.

(** After [n >= 1] shifts of an exact mantissa [m]: the quotient, the bit
    below it and whether anything lies below that bit. *)
Lemma shr_iter m n :
  0 <= m ->
  exists hi b lo,
    Nat.iter (S n) shr_1 {| shr_m := m; shr_r := false; shr_s := false |}
    = {| shr_m := hi; shr_r := b; shr_s := negb (lo =? 0) |}
    /\ m = (2 * hi + (if b then 1 else 0)) * 2 ^ Z.of_nat n + lo
    /\ 0 <= lo < 2 ^ Z.of_nat n /\ 0 <= hi.
Proof.
  intros Hm. induction n as [|n IH].
  - exists (m / 2), (Z.odd m), 0. cbn [Nat.iter]. rewrite shr_1_nonneg by lia.
    split; [reflexivity|]. change (2 ^ Z.of_nat 0) with 1.
    pose proof (Z.div_mod m 2 ltac:(lia)) as D.
    pose proof (Z.mod_pos_bound m 2 ltac:(lia)) as B.
    rewrite Zmod_odd in D. 
    assert (0 <= m / 2) by (apply Z.div_pos; lia).
    destruct (Z.odd m); lia.
  - destruct IH as (hi & b & lo & E & Hd & Hlo & Hhi).
    rewrite Nat.iter_succ, E. rewrite shr_1_nonneg by lia.
    exists (hi / 2), (Z.odd hi),
      ((if b then 1 else 0) * 2 ^ Z.of_nat n + lo).
    assert (P : 0 < 2 ^ Z.of_nat n) by (apply Z.pow_pos_nonneg; lia).
    rewrite Nat2Z.inj_succ, Z.pow_succ_r by lia.
    pose proof (Z.div_mod hi 2 ltac:(lia)) as D.
    rewrite Zmod_odd in D.
    assert (0 <= hi / 2) by (apply Z.div_pos; lia).
    split; [|split; [|split]].
    + f_equal. destruct b; cbn [orb].
      * symmetry. apply negb_true_iff. apply Z.eqb_neq. lia.
      * rewrite Z.mul_0_l, Z.add_0_l. reflexivity.
    + destruct (Z.odd hi), b; nia.
    + destruct b; lia.
    + lia.
Qed.

Lemma fexp_eq e : fexp prec emax e = Z.max (e - 53) (-1074).
Proof. reflexivity. Qed.

(** Rounding the quotient left by [S n] shifts. *)
Lemma shr_round m n :
  0 <= m ->
  let mrs := Nat.iter (S n) shr_1
               {| shr_m := m; shr_r := false; shr_s := false |} in
  let k := round_nearest_even (shr_m mrs) (loc_of_shr_record mrs) in
  exists q rem,
    m = q * 2 ^ Z.of_nat (S n) + rem
    /\ 0 <= rem < 2 ^ Z.of_nat (S n) /\ 0 <= q
    /\ q <= k <= q + 1
    /\ (rem = 0 -> k = q)
    /\ (2 * rem < 2 ^ Z.of_nat (S n) -> k = q)
    /\ (2 ^ Z.of_nat (S n) < 2 * rem -> k = q + 1).
Proof.
  intros Hm mrs k. subst k mrs.
  destruct (shr_iter m n Hm) as (hi & b & lo & E & Hd & Hlo & Hhi).
  rewrite E. cbn [shr_m loc_of_shr_record].
  exists hi, ((if b then 1 else 0) * 2 ^ Z.of_nat n + lo).
  rewrite Nat2Z.inj_succ, Z.pow_succ_r by lia.
  assert (P : 0 < 2 ^ Z.of_nat n) by (apply Z.pow_pos_nonneg; lia).
  destruct b, (Z.eqb_spec lo 0) as [Q|Q]; cbn [negb round_nearest_even];
    try destruct (Z.even hi); repeat split; try lia; try nia.
Qed.

(** The second normalisation of [binary_round_aux]. *)
Lemma renormalise k g :
  0 <= k <= 2 ^ 53 -> -1074 <= g <= 970 ->
  (-1074 < g -> 2 ^ 52 <= k) ->
  exists f,
    (let '(mrs, e) := shr_fexp prec emax k g loc_Exact in
     match shr_m mrs with
     | Z0 => S754_zero false
     | Zpos m => if e <=? emax - prec then S754_finite false m e
                 else S754_infinity false
     | Zneg _ => S754_nan
     end) = f
    /\ proper f /\ scaled f = k * 2 ^ (g + 1200).
Proof.
  intros Hk Hg Hc. eexists. split; [reflexivity|].
  unfold shr_fexp.
  destruct k as [|p|p]; [| |lia].
  - (* zero *)
    cbn [Zdigits2]. rewrite Z.add_0_l, fexp_eq.
    unfold shr. destruct (Z.max (g - 53) (-1074) - g) eqn:S; try lia;
      cbn [shr_record_of_loc shr_m]; split; try exact I; reflexivity.
  - cbn [Zdigits2]. rewrite digits2_size, fexp_eq.
    pose proof (size_bounds p) as B.
    set (d := Zpos (Pos.size p)) in *.
    destruct (Pos.eq_dec p 9007199254740992) as [T|T].
    + (* the mantissa overflowed to 2^53 *)
      subst p. subst d.
      change (Zpos (Pos.size 9007199254740992)) with 54.
      replace (Z.max (54 + g - 53) (-1074) - g) with 1 by lia.
      cbn [shr iter_pos shr_record_of_loc shr_1 shr_m].
      replace (g + 1 <=? emax - prec) with true
        by (symmetry; apply Z.leb_le; unfold emax, prec; lia).
      split.
      * cbn [proper]. unfold bounded, canonical_mantissa.
        rewrite digits2_size, fexp_eq.
        change (Zpos (Pos.size 4503599627370496)) with 53.
        apply andb_true_intro. split; [apply Z.eqb_eq; lia|].
        apply Z.leb_le. unfold emax, prec. lia.
      * cbn [scaled cond_Zopp].
        replace (g + 1 + 1200) with (Z.succ (g + 1200)) by lia.
        rewrite Z.pow_succ_r by lia. lia.
    + assert (T' : Zpos p <> 2 ^ 53) by (intros F; apply T; lia).
      assert (Hd : d <= 53).
      { destruct (Z_le_gt_dec d 53) as [L|G]; [exact L|].
        assert (2 ^ 53 <= 2 ^ (d - 1)) by (apply Z.pow_le_mono_r; lia).
        lia. }
      assert (Hs : Z.max (d + g - 53) (-1074) - g <= 0) by lia.
      unfold shr.
      assert (R : (let '(mrs, e) :=
                     match Z.max (d + g - 53) (-1074) - g with
                     | Zpos p0 =>
                         (iter_pos shr_1 p0
                            (shr_record_of_loc (Zpos p) loc_Exact),
                          g + (Z.max (d + g - 53) (-1074) - g))
                     | _ => (shr_record_of_loc (Zpos p) loc_Exact, g)
                     end in
                   match shr_m mrs with
                   | 0 => S754_zero false
                   | Zpos m =>
                       if e <=? emax - prec then S754_finite false m e
                       else S754_infinity false
                   | Zneg _ => S754_nan
                   end) = S754_finite false p g).
      { destruct (Z.max (d + g - 53) (-1074) - g) eqn:S; try lia;
          cbn [shr_record_of_loc shr_m];
          replace (g <=? emax - prec) with true
            by (symmetry; apply Z.leb_le; unfold emax, prec; lia);
          reflexivity. }
      rewrite R. split; [|reflexivity].
      cbn [proper]. unfold bounded, canonical_mantissa.
      rewrite digits2_size, fexp_eq. fold d.
      apply andb_true_intro. split.
      * apply Z.eqb_eq.
        destruct (Z.eq_dec g (-1074)) as [G|G]; [lia|].
        assert (2 ^ 52 <= Zpos p) by (apply Hc; lia).
        assert (52 < d).
        { destruct (Z_lt_ge_dec 52 d) as [L|L]; [exact L|].
          assert (2 ^ d <= 2 ^ 52) by (apply Z.pow_le_mono_r; lia).
          lia. }
        lia.
      * apply Z.leb_le. unfold emax, prec. lia.
Qed.

Lemma pow2_pos e : 0 <= e -> 0 < 2 ^ e.
Proof. intros. apply Z.pow_pos_nonneg; lia. Qed.

Lemma pow2_add a b : 0 <= a -> 0 <= b -> 2 ^ (a + b) = 2 ^ a * 2 ^ b.
Proof. intros. apply Z.pow_add_r; assumption. Qed.

(** What [binary_round_aux] makes of the exact value [M * 2^E], when the
    exponent [g] of the result is not below [E]: a multiple [k] of [2^g],
    one of the two neighbours of the value, the nearer one. *)
Lemma round_aux_spec M E :
  let d := Zpos (Pos.size M) in
  let g := fexp prec emax (d + E) in
  E <= g -> -1200 <= E -> d + E <= 1023 ->
  let f := binary_round_aux prec emax false (Zpos M) E loc_Exact in
  proper f
  /\ exists k q rem,
      scaled f = k * 2 ^ (g + 1200)
      /\ Zpos M = q * 2 ^ (g - E) + rem
      /\ 0 <= rem < 2 ^ (g - E)
      /\ q <= k <= q + 1
      /\ (rem = 0 -> k = q)
      /\ (2 * rem < 2 ^ (g - E) -> k = q)
      /\ (2 ^ (g - E) < 2 * rem -> k = q + 1).
Proof.
  intros d g Hs HE Hd f.
  pose proof (size_bounds M) as B. fold d in B.
  assert (G : g = Z.max (d + E - 53) (-1074)) by reflexivity.
  (* the first shift and the rounding *)
  assert (R : exists k q rem,
             (let '(mrs, e) := shr_fexp prec emax (Zpos M) E loc_Exact in
              (round_nearest_even (shr_m mrs) (loc_of_shr_record mrs), e))
             = (k, g)
             /\ Zpos M = q * 2 ^ (g - E) + rem
             /\ 0 <= rem < 2 ^ (g - E) /\ 0 <= q
             /\ q <= k <= q + 1
             /\ (rem = 0 -> k = q)
             /\ (2 * rem < 2 ^ (g - E) -> k = q)
             /\ (2 ^ (g - E) < 2 * rem -> k = q + 1)).
  { unfold shr_fexp. cbn [Zdigits2]. rewrite digits2_size. fold d g.
    unfold shr. destruct (g - E) as [|p|p] eqn:Sh; [| |lia].
    - exists (Zpos M), (Zpos M), 0. cbn [shr_record_of_loc shr_m
        loc_of_shr_record round_nearest_even].
      replace g with E by lia. change (2 ^ 0) with 1.
      repeat split; lia.
    - cbn [shr_record_of_loc]. rewrite iter_pos_nat.
      destruct (Pos2Nat.is_succ p) as [n Hn]. rewrite Hn.
      destruct (shr_round (Zpos M) n ltac:(lia))
        as (q & rem & A1 & A2 & A3 & A4 & A5 & A6 & A7).
      replace (Z.of_nat (S n)) with (Zpos p) in * by lia.
      eexists _, q, rem. split; [f_equal; lia|].
      repeat split; assumption || lia. }
  destruct R as (k & q & rem & R & A1 & A2 & A3 & A4 & A5 & A6 & A7).
  assert (P : 0 < 2 ^ (g - E)) by (apply pow2_pos; lia).
  assert (Hk : 0 <= k <= 2 ^ 53).
  { split; [lia|].
    assert (2 ^ d <= 2 ^ (g - E + 53)) by (apply Z.pow_le_mono_r; lia).
    rewrite pow2_add in H by lia. nia. }
  assert (Hg : -1074 <= g <= 970) by lia.
  assert (Hc : -1074 < g -> 2 ^ 52 <= k).
  { intros L. assert (Sd : d - 1 = 52 + (g - E)) by lia.
    rewrite Sd, pow2_add in B by lia. nia. }
  destruct (renormalise k g Hk Hg Hc) as (f' & F1 & F2 & F3).
  assert (E' : f = f').
  { subst f. unfold binary_round_aux.
    destruct (shr_fexp prec emax (Zpos M) E loc_Exact) as [mrs e].
    injection R as R1 R2. rewrite R1, R2. exact F1. }
  rewrite E'. split; [exact F2|].
  exists k, q, rem. repeat split; assumption || lia.
Qed.

Lemma round_aux_rounds M E :
  let d := Zpos (Pos.size M) in
  let g := fexp prec emax (d + E) in
  E <= g -> -1200 <= E -> d + E <= 1023 ->
  Rounds (Zpos M * 2 ^ (E + 1200)) g
         (binary_round_aux prec emax false (Zpos M) E loc_Exact).
Proof.
  intros d g Hs HE Hd.
  destruct (round_aux_spec M E Hs HE Hd)
    as (Hp & k & q & rem & V & A1 & A2 & A4 & A5 & A6 & A7).
  fold d g in V, A1, A2, A5, A6, A7.
  assert (P : 0 < 2 ^ (g - E)) by (apply pow2_pos; lia).
  assert (U : 0 < 2 ^ (E + 1200)) by (apply pow2_pos; lia).
  assert (PU : 2 ^ (g + 1200) = 2 ^ (g - E) * 2 ^ (E + 1200)).
  { rewrite <- pow2_add by lia. f_equal. lia. }
  set (f := binary_round_aux prec emax false (Zpos M) E loc_Exact) in *.
  clearbody f.
  unfold Rounds. rewrite V, PU, A1.
  set (p := 2 ^ (g - E)) in *. set (u := 2 ^ (E + 1200)) in *.
  split; [exact Hp|].
  assert (K : k = q \/ (k = q + 1 /\ 0 < rem)).
  { destruct (Z.eq_dec rem 0) as [Z|Z]; [left; auto|].
    destruct (Z.eq_dec k q); [left; auto | right; lia]. }
  assert (N1 : 2 * k * p <= 2 * (q * p + rem) + p).
  { destruct (Z_lt_le_dec (2 * rem) p) as [L|L].
    - rewrite (A6 L). nia.
    - nia. }
  assert (N2 : 2 * (q * p + rem) <= 2 * k * p + p).
  { destruct (Z_lt_le_dec p (2 * rem)) as [L|L].
    - rewrite (A7 L). nia.
    - nia. }
  split; [|split; [|split]].
  - intros beta Hb.
    assert (q * p + rem <= beta * p) by nia.
    assert (k <= beta) by (destruct K as [->|[-> Hr]]; nia).
    nia.
  - intros beta Hb.
    assert (beta * p <= q * p + rem) by nia.
    assert (beta <= k) by nia.
    nia.
  - nia.
  - nia.
Qed.

Lemma iter_xO m d :
  Zpos (Pos.iter xO m d) = Zpos m * 2 ^ Zpos d
  /\ Zpos (Pos.size (Pos.iter xO m d)) = Zpos (Pos.size m) + Zpos d.
Proof.
  induction d as [|d IH] using Pos.peano_ind.
  - cbn [Pos.iter Pos.size]. split; lia.
  - rewrite Pos.iter_succ. destruct IH as [I1 I2].
    cbn [Pos.size]. rewrite Pos2Z.inj_succ, Pos2Z.inj_xO, I1.
    rewrite Pos2Z.inj_succ, I2, Z.pow_succ_r by lia. split; lia.
Qed.

Lemma shl_align_spec m e e' :
  let '(m', e'') := shl_align m e e' in
  e'' = Z.min e e'
  /\ Zpos m' = Zpos m * 2 ^ (e - e'')
  /\ Zpos (Pos.size m') + e'' = Zpos (Pos.size m) + e.
Proof.
  unfold shl_align. destruct (e' - e) as [|p|p] eqn:D.
  - replace (e - e) with 0 by lia. change (2 ^ 0) with 1. lia.
  - replace (e - e) with 0 by lia. change (2 ^ 0) with 1. lia.
  - destruct (iter_xO m p) as [I1 I2].
    replace (e - e') with (Zpos p) by lia. lia.
Qed.

Lemma round_rounds M E :
  let d := Zpos (Pos.size M) in
  -1200 <= E -> d + E <= 1023 ->
  Rounds (Zpos M * 2 ^ (E + 1200)) (fexp prec emax (d + E))
         (binary_round prec emax false M E).
Proof.
  intros d HE Hd. unfold binary_round. rewrite digits2_size. fold d.
  pose proof (shl_align_spec M E (fexp prec emax (d + E))) as A.
  destruct (shl_align M E (fexp prec emax (d + E))) as [mz ez].
  destruct A as (A1 & A2 & A3). fold d in A3.
  assert (G : fexp prec emax (d + E) = Z.max (d + E - 53) (-1074))
    by reflexivity.
  rewrite G in A1.
  replace (Zpos M * 2 ^ (E + 1200)) with (Zpos mz * 2 ^ (ez + 1200)).
  2: { rewrite A2. replace (E + 1200) with ((E - ez) + (ez + 1200)) by lia.
       rewrite (pow2_add (E - ez) (ez + 1200)) by lia. ring. }
  rewrite <- A3.
  apply round_aux_rounds; rewrite ?A3, ?G; lia.
Qed.

(** Doubles that are proper compare as their values do. *)
Lemma bounded_canonical m e :
  bounded prec emax m e = true ->
  e = Z.max (Zpos (Pos.size m) + e - 53) (-1074) /\ e <= 971.
Proof.
  unfold bounded, canonical_mantissa. rewrite digits2_size.
  intros H. apply andb_true_iff in H. destruct H as [H1 H2].
  apply Z.eqb_eq in H1. apply Z.leb_le in H2.
  change (fexp prec emax (Zpos (Pos.size m) + e))
    with (Z.max (Zpos (Pos.size m) + e - 53) (-1074)) in H1.
  unfold emax, prec in H2. lia.
Qed.

Lemma scaled_finite_pos m e : 
  -1200 <= e -> 0 < scaled (S754_finite false m e).
Proof.
  intros H. cbn [scaled cond_Zopp].
  assert (0 < 2 ^ (e + 1200)) by (apply pow2_pos; lia). nia.
Qed.

Lemma compare_proper x y :
  proper x -> proper y ->
  SFcompare x y = Some (scaled x ?= scaled y).
Proof.
  intros Hx Hy.
  destruct x as [sx| |  |sx mx ex]; try contradiction;
    destruct y as [sy| | |sy my ey]; try contradiction.
  - reflexivity.
  - destruct sy; [contradiction|]. cbn [proper] in Hy.
    destruct (bounded_canonical _ _ Hy) as [C _].
    pose proof (scaled_finite_pos my ey ltac:(lia)) as P.
    cbn [SFcompare]. change (scaled (S754_zero sx)) with 0.
    symmetry. f_equal. apply Z.compare_lt_iff. exact P.
  - destruct sx; [contradiction|]. cbn [proper] in Hx.
    destruct (bounded_canonical _ _ Hx) as [C _].
    pose proof (scaled_finite_pos mx ex ltac:(lia)) as P.
    cbn [SFcompare]. change (scaled (S754_zero sy)) with 0.
    symmetry. f_equal. apply Z.compare_gt_iff. exact P.
  - destruct sx; [contradiction|]. destruct sy; [contradiction|].
    cbn [proper] in Hx, Hy.
    destruct (bounded_canonical _ _ Hx) as [Cx _].
    destruct (bounded_canonical _ _ Hy) as [Cy _].
    pose proof (size_bounds mx) as Bx. pose proof (size_bounds my) as By.
    set (dx := Zpos (Pos.size mx)) in *.
    set (dy := Zpos (Pos.size my)) in *.
    cbn [SFcompare scaled cond_Zopp]. f_equal.
    assert (L : forall m1 e1 d1 m2 e2 d2,
               e1 = Z.max (d1 + e1 - 53) (-1074) ->
               e2 = Z.max (d2 + e2 - 53) (-1074) ->
               2 ^ (d1 - 1) <= m1 < 2 ^ d1 ->
               2 ^ (d2 - 1) <= m2 < 2 ^ d2 ->
               0 < d1 -> 0 < d2 ->
               e1 < e2 ->
               m1 * 2 ^ (e1 + 1200) < m2 * 2 ^ (e2 + 1200)).
    { intros m1 e1 d1 m2 e2 d2 C1 C2 B1 B2 D1 D2 Hlt.
      assert (d2 = 53) by lia. subst d2.
      assert (d1 <= 53) by lia.
      assert (2 ^ d1 <= 2 ^ 53) by (apply Z.pow_le_mono_r; lia).
      assert (U : 0 < 2 ^ (e1 + 1200)) by (apply pow2_pos; lia).
      assert (2 * 2 ^ (e1 + 1200) <= 2 ^ (e2 + 1200)).
      { rewrite <- Z.pow_succ_r by lia. apply Z.pow_le_mono_r; lia. }
      change (2 ^ (53 - 1)) with 4503599627370496 in B2.
      change (2 ^ 53) with 9007199254740992 in *.
      nia. }
    destruct (Z.compare_spec ex ey) as [Q|Q|Q].
    + subst ey. rewrite Pos.compare_cont_spec.
      assert (U : 0 < 2 ^ (ex + 1200)) by (apply pow2_pos; lia).
      destruct (Pos.compare_spec mx my) as [T|T|T];
        cbn [Pos.switch_Eq]; symmetry.
      * apply Z.compare_eq_iff. rewrite T. reflexivity.
      * apply Z.compare_lt_iff. nia.
      * apply Z.compare_gt_iff. nia.
    + symmetry. apply Z.compare_lt_iff.
      apply (L _ _ dx _ _ dy); assumption || (subst dx dy; lia).
    + symmetry. apply Z.compare_gt_iff.
      apply (L _ _ dy _ _ dx); assumption || (subst dx dy; lia).
Qed.

Lemma size_from_value M E t :
  -1200 <= E ->
  Zpos M * 2 ^ (E + 1200) < 2 ^ (t + 1200) ->
  Zpos (Pos.size M) + E <= t.
Proof.
  intros HE H. pose proof (size_bounds M) as B.
  set (d := Zpos (Pos.size M)) in *.
  assert (0 < d) by (subst d; lia).
  assert (U : 0 < 2 ^ (E + 1200)) by (apply pow2_pos; lia).
  assert (2 ^ (d - 1 + (E + 1200)) < 2 ^ (t + 1200)).
  { rewrite pow2_add by lia. nia. }
  destruct (Z_le_gt_dec (d + E) t) as [L|G]; [exact L|].
  assert (2 ^ (t + 1200) <= 2 ^ (d - 1 + (E + 1200))).
  { apply Z.pow_le_mono_r; lia. }
  lia.
Qed.

Lemma random_proper r :
  isRandom r ->
  proper r /\ 0 <= scaled r <= 2 ^ 1200 - 2 ^ 1147.
Proof.
  intros (Hv & H0 & H1).
  destruct r as [s| | |s m e].
  - split; [exact I|]. cbn [scaled]. lia.
  - destruct s; discriminate.
  - discriminate.
  - destruct s; [discriminate|]. cbn [valid_binary] in Hv.
    assert (Hp : proper (S754_finite false m e)) by exact Hv.
    split; [exact Hp|].
    assert (P1 : proper (ofZ 1)) by (vm_compute; reflexivity).
    unfold lessThan, SFltb in H1. rewrite (compare_proper _ _ Hp P1) in H1.
    destruct (Z.compare_spec (scaled (S754_finite false m e))
                             (scaled (ofZ 1))) as [Q|Q|Q];
      try discriminate.
    change (scaled (ofZ 1)) with (2 ^ 52 * 2 ^ (-52 + 1200)) in Q.
    change (-52 + 1200) with 1148 in Q.
    destruct (bounded_canonical _ _ Hv) as [C _].
    pose proof (size_bounds m) as B.
    set (d := Zpos (Pos.size m)) in *.
    cbn [scaled cond_Zopp] in *.
    assert (0 < d) by (subst d; lia).
    assert (U : 0 < 2 ^ (e + 1200)) by (apply pow2_pos; lia).
    split; [nia|].
    assert (Hd : d <= 53) by lia.
    assert (2 ^ d <= 2 ^ 53) by (apply Z.pow_le_mono_r; lia).
    assert (He : e <= -53).
    { destruct (Z_le_gt_dec e (-53)) as [L|G]; [exact L|].
      assert (d = 53) by lia.
      assert (2 ^ 1148 <= 2 ^ (e + 1200)) by (apply Z.pow_le_mono_r; lia).
      replace (d - 1) with 52 in B by lia. nia. }
    assert (2 ^ (e + 1200) <= 2 ^ 1147) by (apply Z.pow_le_mono_r; lia).
    assert (Zpos m <= 2 ^ 53 - 1) by lia.
    replace (2 ^ 1200) with (2 ^ 53 * 2 ^ 1147) by reflexivity.
    nia.
Qed.

(** The jitter [Math.random() * 1000]. *)
Lemma jitter_bounds r :
  isRandom r ->
  proper (times r (ofZ 1000))
  /\ 0 <= scaled (times r (ofZ 1000)) < 1000 * 2 ^ 1200.
Proof.
  intros Hr. destruct (random_proper r Hr) as [Hp Hs].
  destruct r as [s| | |s m e]; try contradiction.
  - destruct s; (split; [exact I|]); vm_compute;
      (split; [discriminate | reflexivity]).
  - destruct s; [contradiction|].
    destruct (bounded_canonical _ _ Hp) as [C _].
    change (times (S754_finite false m e) (ofZ 1000))
      with (binary_round_aux prec emax false
              (Zpos (m * 8796093022208000)) (e + -43) loc_Exact).
    cbn [scaled cond_Zopp] in Hs.
    assert (U : 0 < 2 ^ (e + 1200)) by (apply pow2_pos; lia).
    assert (X : Zpos (m * 8796093022208000) * 2 ^ (e + -43 + 1200)
                = 1000 * (Zpos m * 2 ^ (e + 1200))).
    { rewrite Pos2Z.inj_mul.
      replace (e + 1200) with (43 + (e + -43 + 1200)) by lia.
      rewrite (pow2_add 43) by lia.
      change (Zpos 8796093022208000) with (1000 * 2 ^ 43). ring. }
    assert (T : Zpos (Pos.size (m * 8796093022208000)) + (e + -43) <= 10).
    { apply size_from_value; [lia|]. rewrite X.
      assert (1000 * 2 ^ 1200 < 2 ^ (10 + 1200)) by reflexivity. lia. }
    pose proof (size_bounds (m * 8796093022208000)) as B.
    set (d := Zpos (Pos.size (m * 8796093022208000))) in *.
    assert (D : 53 <= d).
    { destruct (Z_le_gt_dec 53 d) as [L|G]; [exact L|].
      assert (2 ^ d <= 2 ^ 52) by (apply Z.pow_le_mono_r; lia).
      rewrite Pos2Z.inj_mul in B.
      change (Zpos 8796093022208000) with (1000 * 2 ^ 43) in B.
      assert (1 <= Zpos m) by lia.
      assert (2 ^ 52 < 1000 * 2 ^ 43) by reflexivity. nia. }
    assert (G : fexp prec emax (d + (e + -43))
                = Z.max (d + (e + -43) - 53) (-1074)) by reflexivity.
    destruct (round_aux_rounds (m * 8796093022208000) (e + -43))
      as (R1 & R2 & R3 & R4 & R5); fold d; rewrite ?G; try lia.
    fold d in R2, R3, R4, R5. rewrite G, X in *.
    set (g := Z.max (d + (e + -43) - 53) (-1074)) in *.
    set (j := binary_round_aux prec emax false
                (Zpos (m * 8796093022208000)) (e + -43) loc_Exact) in *.
    split; [exact R1|]. split.
    + specialize (R3 0). rewrite Z.mul_0_l in R3. apply R3. nia.
    + assert (2 ^ (g + 1200) <= 2 ^ 1157)
        by (apply Z.pow_le_mono_r; lia).
      assert (2 ^ 1157 = 1024 * 2 ^ 1147) by reflexivity.
      assert (2 ^ 1200 = 2 ^ 53 * 2 ^ 1147) by reflexivity.
      lia.
Qed.

(** The sum of two proper doubles. *)
Lemma add_rounds x y t :
  proper x -> proper y ->
  0 < scaled x -> 0 < scaled y ->
  scaled x + scaled y < 2 ^ (t + 1200) -> t <= 1023 ->
  exists g, -1074 <= g <= Z.max (t - 53) (-1074)
            /\ Rounds (scaled x + scaled y) g (plus x y).
Proof.
  intros Hx Hy Px Py Hs Ht.
  destruct x as [sx| | |sx mx ex]; try contradiction;
    [cbn [scaled] in Px; lia|].
  destruct y as [sy| | |sy my ey]; try contradiction;
    [cbn [scaled] in Py; lia|].
  destruct sx; [contradiction|]. destruct sy; [contradiction|].
  destruct (bounded_canonical _ _ Hx) as [Cx _].
  destruct (bounded_canonical _ _ Hy) as [Cy _].
  unfold plus, SFadd. cbn [cond_Zopp].
  pose proof (shl_align_spec mx ex (Z.min ex ey)) as Ax.
  pose proof (shl_align_spec my ey (Z.min ex ey)) as Ay.
  destruct (shl_align mx ex (Z.min ex ey)) as [mx' ex'].
  destruct (shl_align my ey (Z.min ex ey)) as [my' ey'].
  destruct Ax as (Ax1 & Ax2 & _). destruct Ay as (Ay1 & Ay2 & _).
  cbn [fst]. change (Zpos mx' + Zpos my') with (Zpos (mx' + my')).
  cbn [binary_normalize].
  set (ez := Z.min ex ey) in *.
  assert (Ex : ex' = ez) by lia. assert (Ey : ey' = ez) by lia.
  subst ex' ey'.
  assert (X : scaled (S754_finite false mx ex)
              + scaled (S754_finite false my ey)
              = Zpos (mx' + my') * 2 ^ (ez + 1200)).
  { cbn [scaled cond_Zopp]. rewrite Pos2Z.inj_add, Ax2, Ay2.
    replace (ex + 1200) with ((ex - ez) + (ez + 1200)) by lia.
    replace (ey + 1200) with ((ey - ez) + (ez + 1200)) by lia.
    rewrite (pow2_add (ex - ez)), (pow2_add (ey - ez)) by lia.
    replace (Z.min ex ez) with ez by lia.
    replace (Z.min ey ez) with ez by lia. ring. }
  rewrite X in *.
  assert (T : Zpos (Pos.size (mx' + my')) + ez <= t)
    by (apply size_from_value; [lia|exact Hs]).
  exists (fexp prec emax (Zpos (Pos.size (mx' + my')) + ez)).
  split.
  - change (fexp prec emax (Zpos (Pos.size (mx' + my')) + ez))
      with (Z.max (Zpos (Pos.size (mx' + my')) + ez - 53) (-1074)). lia.
  - apply round_rounds; lia.
Qed.

Lemma leb_proper x y :
  proper x -> proper y -> (SFleb x y = true <-> scaled x <= scaled y).
Proof.
  intros Hx Hy. unfold SFleb. rewrite (compare_proper x y Hx Hy).
  destruct (Z.compare_spec (scaled x) (scaled y)); split; intros;
    try reflexivity; try discriminate; lia.
Qed.

Lemma ltb_proper x y :
  proper x -> proper y -> (SFltb x y = true <-> scaled x < scaled y).
Proof.
  intros Hx Hy. unfold SFltb. rewrite (compare_proper x y Hx Hy).
  destruct (Z.compare_spec (scaled x) (scaled y)); split; intros;
    try reflexivity; try discriminate; lia.
Qed.

Lemma min_below x y :
  proper x -> proper y -> scaled x < scaled y -> Math_min x y = x.
Proof.
  intros Hx Hy H. unfold Math_min. rewrite (compare_proper x y Hx Hy).
  apply Z.compare_lt_iff in H. rewrite H. reflexivity.
Qed.

(** The delay of attempts 1 to 5: the base is exact, the cap is not
    reached, and the rounded sum stays between the base and the base plus
    1000. *)
Lemma reconnectDelay_bounds n r :
  1 <= n <= 5 -> isRandom r ->
  reconnectDelay n r = plus (ofZ (1000 * 2 ^ (n - 1))) (times r (ofZ 1000))
  /\ proper (reconnectDelay n r)
  /\ (1000 * 2 ^ (n - 1)) * 2 ^ 1200 <= scaled (reconnectDelay n r)
     <= (1000 * 2 ^ (n - 1) + 1000) * 2 ^ 1200.
Proof.
  intros Hn Hr.
  destruct (jitter_bounds r Hr) as (Jp & J0 & J1).
  set (j := times r (ofZ 1000)) in *.
  assert (B : exists b,
             times (ofZ 1000) (Math_pow2 (n - 1)) = ofZ b
             /\ 1000 * 2 ^ (n - 1) = b
             /\ proper (ofZ b) /\ scaled (ofZ b) = b * 2 ^ 1200
             /\ 1000 <= b <= 16000).
  { assert (C : n = 1 \/ n = 2 \/ n = 3 \/ n = 4 \/ n = 5) by lia.
    destruct C as [->|[->|[->|[->| ->]]]];
      [exists 1000|exists 2000|exists 4000|exists 8000|exists 16000];
      (split; [vm_compute; reflexivity|]);
      (split; [reflexivity|]);
      (split; [vm_compute; reflexivity|]);
      (split; [vm_compute; reflexivity | lia]). }
  destruct B as (b & B1 & B2 & B3 & B4 & B5).
  unfold reconnectDelay, State.initialReconnectDelay. fold j.
  rewrite B1, B2.
  assert (P30 : proper (ofZ 30000)) by (vm_compute; reflexivity).
  assert (S30 : scaled (ofZ 30000) = 30000 * 2 ^ 1200)
    by (vm_compute; reflexivity).
  assert (U : 0 < 2 ^ 1200) by reflexivity.
  assert (D : proper (plus (ofZ b) j)
              /\ b * 2 ^ 1200 <= scaled (plus (ofZ b) j)
                 <= (b + 1000) * 2 ^ 1200).
  { destruct (Z.eq_dec (scaled j) 0) as [Z|Z].
    - (* no jitter: the sum is the base *)
      assert (E : plus (ofZ b) j = ofZ b).
      { destruct j as [s| | |s m e]; try contradiction.
        - destruct (ofZ b) as [s'| | |s' m' e'] eqn:Q; try contradiction.
          + cbn [scaled] in B4. lia.
          + reflexivity.
        - destruct s; [contradiction|].
          destruct (bounded_canonical _ _ Jp) as [C _].
          pose proof (scaled_finite_pos m e ltac:(lia)). lia. }
      rewrite E. split; [exact B3|]. lia.
    - assert (17000 * 2 ^ 1200 < 2 ^ (15 + 1200)) by reflexivity.
      destruct (add_rounds (ofZ b) j 15 B3 Jp) as (g & G & R);
        rewrite ?B4; try nia.
      destruct R as (R1 & R2 & R3 & _).
      split; [exact R1|]. rewrite B4 in R2, R3.
      assert (V : 2 ^ 1200 = 2 ^ (- g) * 2 ^ (g + 1200)).
      { rewrite <- pow2_add by lia. f_equal. lia. }
      split.
      + specialize (R3 (b * 2 ^ (- g))).
        rewrite V at 1. rewrite Z.mul_assoc. apply R3.
        rewrite <- Z.mul_assoc, <- V. lia.
      + specialize (R2 ((b + 1000) * 2 ^ (- g))).
        rewrite V at 1. rewrite Z.mul_assoc. apply R2.
        rewrite <- Z.mul_assoc, <- V. lia. }
  destruct D as (D1 & D2 & D3).
  rewrite min_below; try assumption; [|rewrite S30; lia].
  split; [reflexivity|]. split; [exact D1|]. lia.
Qed.

(** An integer below [2^53] is a double. *)
Lemma ofZ_exact n :
  0 <= n < 2 ^ 53 -> proper (ofZ n) /\ scaled (ofZ n) = n * 2 ^ 1200.
Proof.
  intros Hn. destruct n as [|p|p]; [split; [exact I|reflexivity]| |lia].
  unfold ofZ. cbn [binary_normalize].
  pose proof (size_bounds p) as B.
  set (d := Zpos (Pos.size p)) in *.
  assert (0 < d) by (subst d; lia).
  assert (Hd : d <= 53).
  { destruct (Z_le_gt_dec d 53) as [L|G]; [exact L|].
    assert (2 ^ 53 <= 2 ^ (d - 1)) by (apply Z.pow_le_mono_r; lia). lia. }
  destruct (round_rounds p 0) as (R1 & R2 & R3 & _); fold d; try lia.
  fold d in R2, R3.
  change (fexp prec emax (d + 0)) with (Z.max (d + 0 - 53) (-1074)) in *.
  set (g := Z.max (d + 0 - 53) (-1074)) in *.
  split; [exact R1|].
  change (0 + 1200) with 1200 in *.
  assert (V : 2 ^ 1200 = 2 ^ (- g) * 2 ^ (g + 1200)).
  { rewrite <- pow2_add by lia. f_equal. lia. }
  specialize (R2 (Zpos p * 2 ^ (- g))).
  specialize (R3 (Zpos p * 2 ^ (- g))).
  rewrite <- Z.mul_assoc, <- V in R2, R3. lia.
Qed.

End Doubles.

(** ** Reconnection *)

(** Writes the result type of an awaited operation or of a call as the
    reply type of the operation, the form the equations are stated for. *)
Ltac retype :=
  repeat match goal with
         | |- context [@Semantics.run ?A ?env (Async.await ?o) ?w] =>
             lazymatch A with
             | Imap.Reply o => fail
             | _ => change (@Semantics.run A env (Async.await o) w)
                      with (@Semantics.run (Imap.Reply o) env
                                           (Async.await o) w)
             end
         | |- context [@Semantics.run ?A ?env (Async.call ?s) ?w] =>
             lazymatch A with
             | Imap.SyncReply s => fail
             | _ => change (@Semantics.run A env (Async.call s) w)
                      with (@Semantics.run (Imap.SyncReply s) env
                                           (Async.call s) w)
             end
         end.

Ltac runs :=
  repeat (progress (retype; autorewrite with run;
                    rewrite ?run_Get, ?run_Put; cbv beta)).

(** The same, reading the fields of a state that was just written. *)
Ltac runs_state :=
  repeat (progress
            (runs;
             cbn [State.connection State.isWatching State.isReconnecting
                  State.reconnectAttempts State.reconnectTimer
                  State.keepAliveTimer State.emailAnalyzer
                  State.scamThreshold State.label State.configPath
                  State.accountUser State.emailsAnalyzedUntil
                  State.isBackfilling
                  State.set_connection State.set_isWatching
                  State.set_isReconnecting State.set_reconnectAttempts
                  State.set_reconnectTimer State.set_keepAliveTimer
                  State.set_emailsAnalyzedUntil State.set_isBackfilling])).

(** Answers the next awaited operation with the hypothesis [H]. *)
Ltac await_with H :=
  first
    [ rewrite H
    | unfold Async.await at 1; cbn [Semantics.run]; rewrite H;
      cbn [Async.orThrow Semantics.run Semantics.after Semantics.final
           Semantics.trace Semantics.outcome] ].

Section Reconnection.
Import JS Analyzer Imap State Async Semantics.
Local Open Scope Z_scope.

Variable env : Env.

(** At the bound the scheduler only reports that it gives up. *)
Lemma run_scheduleReconnection_exhausted w :
  maxReconnectAttempts <= reconnectAttempts w ->
  run env scheduleReconnection w
  = {| final := w; trace := [Out (Log StdErr MaxAttemptsReached)];
       outcome := inr tt |}.
Proof.
  intros H. unfold scheduleReconnection. rewrite run_Get.
  apply Z.leb_le in H. rewrite H, orb_true_r. reflexivity.
Qed.

(** While an attempt is pending below the bound it does nothing. *)
Lemma run_scheduleReconnection_pending w :
  isReconnecting w = true ->
  reconnectAttempts w < maxReconnectAttempts ->
  run env scheduleReconnection w
  = {| final := w; trace := []; outcome := inr tt |}.
Proof.
  intros H1 H2. unfold scheduleReconnection. rewrite run_Get.
  apply Z.leb_gt in H2. rewrite H1, H2. reflexivity.
Qed.

(** Otherwise it arms one timer. *)
Lemma run_scheduleReconnection_arms w random :
  isReconnecting w = false ->
  reconnectAttempts w < maxReconnectAttempts ->
  answerSync env MathRandom = inr random ->
  let attempt := reconnectAttempts w + 1 in
  let delay := reconnectDelay attempt random in
  run env scheduleReconnection w
  = {| final := set_reconnectTimer (Some delay)
                  (set_reconnectAttempts attempt
                     (set_isReconnecting true w));
       trace := [Did MathRandom;
                 Out (Log StdOut (AttemptingReconnect attempt));
                 Out (SetTimeout ReconnectCallback delay)];
       outcome := inr tt |}.
Proof.
  intros H1 H2 H3. unfold scheduleReconnection. rewrite run_Get.
  apply Z.leb_gt in H2. rewrite H1, H2. cbn [orb].
  runs. rewrite H3. runs. reflexivity.
Qed.

(** C6, amended.  The [n]-th attempt, [1 <= n <= 5], is scheduled after
    the double [1000 * 2^(n-1) + j], where the jitter [j] is the double
    [Math.random() * 1000]: the base is exact, [0 <= j < 1000], and the
    rounded sum lies between the base and the base plus 1000, both
    included; it is below 30000, so the cap leaves it as it is. *)
Theorem reconnect_delay_backoff_with_jitter :
  forall w n random,
    1 <= n <= 5 ->
    isReconnecting w = false ->
    reconnectAttempts w = n - 1 ->
    answerSync env MathRandom = inr random ->
    isRandom random ->
    let r := run env scheduleReconnection w in
    let j := times random (ofZ 1000) in
    let delay := plus (ofZ (1000 * 2 ^ (n - 1))) j in
    timeouts (trace r) = [delay]
    /\ reconnectTimer (final r) = Some delay
    /\ reconnectAttempts (final r) = n
    /\ lessEq (ofZ 0) j = true /\ lessThan j (ofZ 1000) = true
    /\ lessEq (ofZ (1000 * 2 ^ (n - 1))) delay = true
    /\ lessEq delay (ofZ (1000 * 2 ^ (n - 1) + 1000)) = true
    /\ lessThan delay (ofZ 30000) = true.
Proof.
  intros w n random Hn Hr Ha Hrand Hran r j delay.
  subst r. rewrite (run_scheduleReconnection_arms w random Hr)
    by (unfold maxReconnectAttempts; lia || assumption).
  replace (reconnectAttempts w + 1) with n by lia.
  destruct (reconnectDelay_bounds n random Hn Hran) as (E & P & L & U).
  destruct (jitter_bounds random Hran) as (Jp & J0 & J1).
  fold j in E, Jp, J0, J1. fold delay in E. rewrite E in *.
  assert (B : 1000 <= 1000 * 2 ^ (n - 1) <= 16000).
  { assert (C : n = 1 \/ n = 2 \/ n = 3 \/ n = 4 \/ n = 5) by lia.
    destruct C as [->|[->|[->|[->| ->]]]]; cbn; lia. }
  set (b := 1000 * 2 ^ (n - 1)) in *.
  assert (T : 2 ^ 53 = 9007199254740992) by reflexivity.
  destruct (ofZ_exact 0) as [Z1 Z2]; [lia|].
  destruct (ofZ_exact 1000) as [K1 K2]; [lia|].
  destruct (ofZ_exact b) as [B1 B2]; [lia|].
  destruct (ofZ_exact (b + 1000)) as [C1 C2]; [lia|].
  destruct (ofZ_exact 30000) as [D1 D2]; [lia|].
  assert (V : 0 < 2 ^ 1200) by reflexivity.
  cbn [final trace]. unfold timeouts. cbn [flat_map app reconnectTimer
    reconnectAttempts set_reconnectTimer set_reconnectAttempts].
  unfold lessEq, lessThan.
  repeat split.
  - apply leb_proper; [assumption..|]. rewrite Z2. lia.
  - apply ltb_proper; [assumption..|]. rewrite K2. lia.
  - apply leb_proper; [assumption..|]. rewrite B2. lia.
  - apply leb_proper; [assumption..|]. rewrite C2. lia.
  - apply ltb_proper; [assumption..|]. rewrite D2. nia.
Qed.

End Reconnection.

(** C6 as stated fails at the fifth attempt when [Math.random()] returns
    [1 - 2^-52]: the jitter is the double just below 1000, and the sum with
    16000 rounds to 17000 exactly, which no jitter below 1000 gives. *)
Lemma fifth_delay_reaches_17000 :
  let r := Semantics.run (envOf (withRandom almostOne calm))
             scheduleReconnection (State.set_reconnectAttempts 4%Z watcher) in
  JS.lessEq (JS.ofZ 0) almostOne = true
  /\ JS.lessThan almostOne (JS.ofZ 1) = true
  /\ JS.lessThan (JS.times almostOne (JS.ofZ 1000)) (JS.ofZ 1000) = true
  /\ timeouts (Semantics.trace r) = [JS.ofZ 17000]
  /\ forall j : Q, (0 <= j)%Q -> (j < 1000)%Q ->
                   ~ (Qmin (1000 * inject_Z (2 ^ (5 - 1)) + j) 30000
                      == 17000)%Q.
Proof.
  cbv zeta. repeat split; try (vm_compute; reflexivity).
  intros j H0 H1 E.
  change (inject_Z (2 ^ (5 - 1))) with 16%Q in E.
  rewrite Q.min_l in E by lra. lra.
Qed.

Lemma reconnect_delay_witness :
  (1 <= 3 <= 5)%Z
  /\ isRandom (JS.Math_pow2 (-1))
  /\ timeouts (Semantics.trace
                 (Semantics.run (envOf calm) scheduleReconnection
                    (State.set_reconnectAttempts 2%Z watcher)))
     = [JS.plus (JS.ofZ (1000 * 2 ^ (3 - 1)))
                (JS.times (JS.Math_pow2 (-1)) (JS.ofZ 1000))]
  /\ JS.lessEq (JS.plus (JS.ofZ (1000 * 2 ^ (3 - 1)))
                        (JS.times (JS.Math_pow2 (-1)) (JS.ofZ 1000)))
               (JS.ofZ (1000 * 2 ^ (3 - 1) + 1000)) = true.
Proof.
  assert (Hn : (1 <= 3 <= 5)%Z) by lia.
  assert (Hr : isRandom (JS.Math_pow2 (-1)))
    by (repeat split; vm_compute; reflexivity).
  destruct (reconnect_delay_backoff_with_jitter (envOf calm)
              (State.set_reconnectAttempts 2%Z watcher) 3%Z
              (JS.Math_pow2 (-1)) Hn eq_refl eq_refl eq_refl Hr)
    as (Ht & _ & _ & _ & _ & _ & Hu & _).
  split; [exact Hn|]. split; [exact Hr|]. split; [exact Ht | exact Hu].
Defined.

(** ** The watermark *)

Section Watermark.
Import JS Analyzer Imap State Async Semantics.

Variable env : Env.

(** C3, amended.  When reading, parsing or writing the accounts file
    throws, [updateAnalyzedUntil] logs the failure and returns normally,
    and the watcher, its in-memory watermark included, is as before.  The
    record on disk is not advanced either: no write of the file completes,
    for at most one write is attempted, and when one is, it is the write
    that throws. *)
Theorem persistence_failure_keeps_watermark :
  forall w date path e,
    configPath w = Some path ->
    truthy path = true ->
    PersistenceFails env w date path e ->
    let r := run env (updateAnalyzedUntil date) w in
    outcome r = inr tt
    /\ In (Out (Log StdErr (PersistFailed e))) (trace r)
    /\ final r = w
    /\ emailsAnalyzedUntil (final r) = emailsAnalyzedUntil w
    /\ (length (writes (trace r)) <= 1)%nat
    /\ (forall file data,
           In (file, data) (writes (trace r)) ->
           answerSync env (WriteFile file data) = inl e)
    /\ (answerSync env (ReadFile path) = inl e \/
        (exists raw, answerSync env (ReadFile path) = inr raw
                     /\ answerSync env (JsonParse raw) = inl e) ->
        writes (trace r) = []).
Proof.
  intros w date path e Hp Ht Hf r. subst r.
  unfold updateAnalyzedUntil. rewrite run_tryCatch, run_Get.
  unfold truthyOpt, orElse. rewrite Hp, Ht.
  destruct Hf as [Hr | raw Hr Hj | raw entries idx iso Hr Hj Hi Hd Hw].
  - runs. rewrite Hr. runs. simpl.
    repeat split; auto 8; intros ? ? [].
  - runs. rewrite Hr. runs. rewrite Hj. runs. simpl.
    repeat split; auto 8; intros ? ? [].
  - runs. rewrite Hr. runs. rewrite Hj. runs. rewrite Hi, Hd.
    unfold toISOString. runs. rewrite Hw. runs. simpl.
    repeat split; auto 8.
    + intros file data [F|[]]. injection F as <- <-. exact Hw.
    + intros [F|(raw' & F & G)]; [discriminate|].
      injection F as <-. rewrite Hj in G. discriminate.
Qed.

(** When nothing throws and the account is found, the watermark moves. *)
Lemma persistence_success_moves_watermark w iso path raw entries idx :
  configPath w = Some path ->
  truthy path = true ->
  answerSync env (ReadFile path) = inr raw ->
  answerSync env (JsonParse raw) = inr (Accounts entries) ->
  findIndex w entries 0 = inr (Some idx) ->
  answerSync env
    (WriteFile path (Accounts (setAnalyzedUntil entries idx iso))) = inr tt ->
  final (run env (updateAnalyzedUntil (Some iso)) w)
  = set_emailsAnalyzedUntil (Some (Some iso)) w.
Proof.
  intros Hp Ht Hr Hj Hi Hw.
  unfold updateAnalyzedUntil. rewrite run_tryCatch, run_Get.
  unfold truthyOpt, orElse. rewrite Hp, Ht.
  runs. rewrite Hr. runs. rewrite Hj. runs. rewrite Hi.
  unfold toISOString. runs. rewrite Hw. runs. reflexivity.
Qed.

End Watermark.

(** C3 as stated fails when the write throws: the failure is logged, and the
    in-memory watermark, absent before, is still absent instead of being the
    new instant 5000. *)
Lemma failed_write_leaves_memory_stale :
  let r := Semantics.run (envOf (withWrite (inl failure) calm))
             (updateAnalyzedUntil (Some 5000%Z)) watcher in
  In (Semantics.Out (Imap.Log Imap.StdErr (Imap.PersistFailed failure)))
     (Semantics.trace r)
  /\ State.emailsAnalyzedUntil (Semantics.final r) <> Some (Some 5000%Z).
Proof.
  split.
  - vm_compute. auto 8.
  - vm_compute. discriminate.
Qed.

Lemma persistence_failure_witness :
  State.configPath watcher = Some (JS.lit "accounts.json")
  /\ JS.truthy (JS.lit "accounts.json") = true
  /\ PersistenceFails (envOf (withWrite (inl failure) calm)) watcher
       (Some 5000%Z) (JS.lit "accounts.json") failure
  /\ State.emailsAnalyzedUntil
       (Semantics.final
          (Semantics.run (envOf (withWrite (inl failure) calm))
             (updateAnalyzedUntil (Some 5000%Z)) watcher))
     = State.emailsAnalyzedUntil watcher
  /\ forall file data,
       In (file, data)
          (writes (Semantics.trace
                     (Semantics.run (envOf (withWrite (inl failure) calm))
                        (updateAnalyzedUntil (Some 5000%Z)) watcher))) ->
       Semantics.answerSync (envOf (withWrite (inl failure) calm))
                            (Imap.WriteFile file data) = inl failure.
Proof.
  assert (F : PersistenceFails (envOf (withWrite (inl failure) calm)) watcher
                (Some 5000%Z) (JS.lit "accounts.json") failure).
  { eapply WriteFails with (idx := 0%nat); reflexivity. }
  split; [reflexivity|]. split; [reflexivity|]. split; [exact F|].
  destruct (persistence_failure_keeps_watermark
              (envOf (withWrite (inl failure) calm)) watcher (Some 5000%Z)
              (JS.lit "accounts.json") failure eq_refl eq_refl F)
    as (_ & _ & _ & M & _ & D & _).
  split; [exact M | exact D].
Defined.

(** ** What programs write and await *)

Section KeepsLemmas.
Import Imap State Async Semantics.

Variable I : Watcher -> Prop.
Variable P : Op -> Prop.
Variable Q : Output -> Prop.

Lemma keeps_bind {A B} (p : Prog A) (f : A -> Prog B) :
  Keeps I P Q p -> (forall a, Keeps I P Q (f a)) -> Keeps I P Q (bind p f).
Proof.
  intros Hp Hf. induction Hp; simpl; try (constructor; auto); auto.
Qed.

Lemma keeps_tryCatch {A} (p : Prog A) h :
  Keeps I P Q p -> (forall e, Keeps I P Q (h e)) -> Keeps I P Q (tryCatch p h).
Proof.
  intros Hp Hh. induction Hp; simpl; try (constructor; auto); auto.
Qed.

Lemma keeps_tryFinally {A} (p : Prog A) fin :
  Keeps I P Q p -> Keeps I P Q fin -> Keeps I P Q (tryFinally p fin).
Proof.
  intros Hp Hf. induction Hp; simpl; try (constructor; auto).
  - apply keeps_bind; [exact Hf | constructor].
  - apply keeps_bind; [exact Hf | constructor].
Qed.

Lemma keeps_forEach {X} (l : list X) body :
  (forall x, Keeps I P Q (body x)) -> Keeps I P Q (forEach l body).
Proof.
  intros Hb. induction l as [|x r IH]; simpl; [constructor|].
  apply keeps_bind; auto.
Qed.

Lemma keeps_await o : P o -> Keeps I P Q (await o).
Proof.
  intros Ho. constructor; [exact Ho|]. intros [e|x]; constructor.
Qed.

Lemma keeps_call s : Keeps I P Q (call s).
Proof. constructor. intros [e|x]; constructor. Qed.

Lemma keeps_emit o : Q o -> Keeps I P Q (emit o).
Proof. intros H. constructor; [exact H | constructor]. Qed.

Lemma keeps_log m : Q (Log StdOut m) -> Keeps I P Q (log m).
Proof. apply keeps_emit. Qed.

Lemma keeps_logError m : Q (Log StdErr m) -> Keeps I P Q (logError m).
Proof. apply keeps_emit. Qed.

Lemma keeps_modify f : (forall w, I w -> I (f w)) -> Keeps I P Q (modify f).
Proof. intros H. constructor. intros w Hw. constructor; [auto | constructor]. Qed.

End KeepsLemmas.

(** Decomposes a [Keeps] goal along the structure of the program. *)
Ltac keeps_step :=
  match goal with
  | |- Keeps _ _ _ (Async.bind _ _) => apply keeps_bind; [|intro]
  | |- Keeps _ _ _ (Async.tryCatch _ _) => apply keeps_tryCatch; [|intro]
  | |- Keeps _ _ _ (Async.tryFinally _ _) => apply keeps_tryFinally
  | |- Keeps _ _ _ (Async.forEach _ _) => apply keeps_forEach; intro
  | |- Keeps _ _ _ (Async.await _) =>
      first [ apply keeps_await
            | unfold Async.await; apply KeepsAwait;
              [|intros [?|?]; constructor] ]
  | |- Keeps _ _ _ (Async.call _) =>
      first [ apply keeps_call
            | unfold Async.call; apply KeepsCall; intros [?|?]; constructor ]
  | |- Keeps _ _ _ (Async.emit _) => apply keeps_emit
  | |- Keeps _ _ _ (Async.log _) => apply keeps_log
  | |- Keeps _ _ _ (Async.logError _) => apply keeps_logError
  | |- Keeps _ _ _ (Async.modify _) => apply keeps_modify; intros ? ?
  | |- Keeps _ _ _ (Async.Get _) => apply KeepsGet; intros ? ?
  | |- Keeps _ _ _ (Async.Put _ _) => apply KeepsPut
  | |- Keeps _ _ _ (Async.Ret _) => apply KeepsRet
  | |- Keeps _ _ _ (Async.Raise _) => apply KeepsRaise
  | |- Keeps _ _ _ (match ?x with _ => _ end) => destruct x eqn:?
  end.

Ltac keeps := repeat keeps_step.

Section ReadOnly.
Import JS Analyzer Imap State Async Semantics.

Variable toLowerCase : str -> str.

Lemma keeps_moveToSpamFolder w0 conn id :
  Keeps (eq w0) relocationOp anyOutput (moveToSpamFolder toLowerCase conn id).
Proof. unfold moveToSpamFolder. keeps; exact I. Qed.

Lemma run_moveToSpamFolder_readonly env w conn id :
  final (run env (moveToSpamFolder toLowerCase conn id) w) = w
  /\ forall o, In (Awaited o)
                  (trace (run env (moveToSpamFolder toLowerCase conn id) w)) ->
               relocationOp o.
Proof.
  destruct (run_keeps env (eq w) relocationOp anyOutput _
              (keeps_moveToSpamFolder w conn id) w eq_refl) as (H1 & H2 & _).
  split; [symmetry; exact H1 | exact H2].
Qed.

(** The body of the loop of [onNewMails], step by step. *)
Lemma run_onNewMails_each env w email :
  run env (onNewMails_each toLowerCase email) w
  = afterAll
      [Out (Log StdOut (Analyzing (subject email)));
       Awaited (MessagesCreate (promptFor (emailAnalyzer w) email))]
      (let result := verdict env (emailAnalyzer w) email in
       if Qle_bool (scamThreshold w) (scam_probability result)
       then afterAll
              [Out (Log StdOut (PotentialScam (scam_probability result)
                                              (subject email)))]
              (run env (moveToSpamFolder toLowerCase (connection w)
                                         (uid email)) w)
       else {| final := w;
               trace := [Out (Log StdOut (Legitimate (subject email)))];
               outcome := inr tt |}).
Proof.
  unfold onNewMails_each. runs. rewrite run_isScamEmail. runs.
  fold (verdict env (emailAnalyzer w) email). cbv zeta.
  destruct (Qle_bool _ _); runs; reflexivity.
Qed.

(** The body of the loop of [processHistoricalEmails]: a message that
    yields no email, or one dated before the lower bound, is passed over;
    any other goes through the steps of [onNewMails_each], and what they
    throw is logged. *)
Lemma run_processHistoricalEmails_each env w lowerBound message :
  let r := run env (processHistoricalEmails_each toLowerCase lowerBound
                      message) w in
  match scanned env message with
  | None =>
      final r = w /\ outcome r = inr tt
      /\ forall o, In (Awaited o) (trace r) -> exists src, o = SimpleParser src
  | Some email =>
      if isBefore (date email) lowerBound
      then r = {| final := w;
                  trace := parseTrace env message
                           ++ [Out (Log StdOut (Skipping (date email)
                                                         (subject email)))];
                  outcome := inr tt |}
      else r = afterAll (parseTrace env message)
                 (catchR (run env (onNewMails_each toLowerCase email) w)
                    (fun err w' =>
                       run env (logError (BackfillMessageError err)) w'))
  end.
Proof.
  unfold processHistoricalEmails_each, scanned, parseTrace. cbv zeta.
  rewrite run_tryCatch.
  destruct (fullPart message) as [all|].
  2: { runs. simpl. repeat split; auto. intros o []. }
  rewrite run_bind, run_await.
  destruct (answer env (SimpleParser (body all))) as [e|parsed].
  { runs. simpl. repeat split; auto.
    intros o [F|[F|[]]]; [|discriminate]. injection F as <-. eauto. }
  rewrite thenR_ok. unfold emailDateOf.
  destruct (parsed_date parsed) as [d|].
  - runs. simpl date.
    destruct (isBefore d lowerBound); [runs; reflexivity|].
    unfold onNewMails_each. runs. reflexivity.
  - runs. destruct (answerSync env DateNow) as [e|now].
    { runs. simpl. repeat split; auto.
      intros o [F|[F|[F|[]]]]; try discriminate. injection F as <-. eauto. }
    runs. simpl date. cbn [SyncReply] in *.
    destruct (isBefore (Some now) lowerBound); [runs; reflexivity|].
    unfold onNewMails_each. runs. reflexivity.
Qed.

End ReadOnly.

(** ** The threshold *)

Section Threshold.
Import JS Analyzer Imap State Async Semantics.

Variable toLowerCase : str -> str.
Variable env : Env.

Lemma moves_app a b : moves (a ++ b) = moves a ++ moves b.
Proof. apply flat_map_app. Qed.

Lemma classifierCalls_app a b :
  classifierCalls (a ++ b) = classifierCalls a ++ classifierCalls b.
Proof. apply flat_map_app. Qed.

Lemma searches_app a b : searches (a ++ b) = searches a ++ searches b.
Proof. apply flat_map_app. Qed.

Lemma parseTrace_only_parses message :
  moves (parseTrace env message) = []
  /\ classifierCalls (parseTrace env message) = []
  /\ searches (parseTrace env message) = []
  /\ forall o, In (Awaited o) (parseTrace env message) ->
               exists src, o = SimpleParser src.
Proof.
  unfold parseTrace. destruct (fullPart message) as [all|]; simpl.
  - destruct (answer env (SimpleParser (body all))) as [e|parsed];
      [|destruct (parsed_date parsed)]; simpl; repeat split; auto;
      intros o H; repeat (destruct H as [H|H]; try discriminate);
      try (injection H as <-; eauto); destruct H.
  - repeat split; auto. intros o [].
Qed.


Lemma moveToSpamFolder_starts env' w c id :
  exists rest,
    trace (run env' (moveToSpamFolder toLowerCase (Some c) id) w)
    = Awaited (GetBoxes c) :: rest.
Proof.
  unfold moveToSpamFolder. rewrite run_tryCatch, run_bind, run_await.
  destruct (answer env' (GetBoxes c)) as [e|tree]; runs.
  - eexists. reflexivity.
  - unfold afterAll. simpl. eexists. reflexivity.
Qed.




End Threshold.


(** The scenario of the specification: with threshold 80, a verdict of 92
    moves the message and a verdict of 50 leaves it in place. *)
Lemma verdict_92_moves_verdict_50_stays :
  let email := emailOf (rawMessage 11 (JS.lit "new"))
                       (parsedAt (JS.lit "new") 900) (Some 900%Z) in
  moves (Semantics.trace
           (Semantics.run (envOf calm)
              (onNewMails_each JS.asciiLower email) watcher))
  = [(11%N, JS.lit "INBOX/Spam")]
  /\ moves (Semantics.trace
              (Semantics.run
                 (envOf (withClassify (fun _ => inr (scam 50)) calm))
                 (onNewMails_each JS.asciiLower email) watcher))
     = [].
Proof. split; vm_compute; reflexivity. Qed.

(** ** The backfill scan *)

Section Backfill.
Import JS Analyzer Imap State Async Semantics.

Variable toLowerCase : str -> str.
Variable env : Env.

Lemma run_forEach_total {X} (body : X -> Prog unit) w (l : list X) :
  (forall x, In x l ->
             final (run env (body x) w) = w
             /\ outcome (run env (body x) w) = inr tt) ->
  run env (forEach l body) w
  = {| final := w;
       trace := flat_map (fun x => trace (run env (body x) w)) l;
       outcome := inr tt |}.
Proof.
  induction l as [|x r IH]; intros H; simpl forEach; [reflexivity|].
  rewrite run_bind.
  destruct (H x (or_introl eq_refl)) as [Hf Ho].
  destruct (run env (body x) w) as [w1 t1 o1] eqn:E. simpl in Hf, Ho.
  subst w1 o1. rewrite thenR_ok, IH by (intros y Hy; apply H; right; exact Hy).
  rewrite afterAll_lit. simpl. rewrite E. reflexivity.
Qed.

Lemma no_classifierCalls t :
  (forall o, In (Awaited o) t -> forall p, o <> MessagesCreate p) ->
  classifierCalls t = [].
Proof.
  induction t as [|ev t IH]; intros H; [reflexivity|].
  simpl. rewrite IH by (intros o Ho; apply H; right; exact Ho).
  destruct ev as [o|s|o]; try reflexivity.
  destruct o; try reflexivity.
  exfalso. eapply (H _ (or_introl eq_refl)). reflexivity.
Qed.

Lemma no_searches t :
  (forall o, In (Awaited o) t -> forall c crit, o <> Search c crit) ->
  searches t = [].
Proof.
  induction t as [|ev t IH]; intros H; [reflexivity|].
  simpl. rewrite IH by (intros o Ho; apply H; right; exact Ho).
  destruct ev as [o|s|o]; try reflexivity.
  destruct o; try reflexivity.
  exfalso. eapply (H _ (or_introl eq_refl)). reflexivity.
Qed.

(** One message of the live loop: the state is left as it was, and the
    classifier is asked once, about this message. *)
Lemma onNewMails_each_calls w email :
  final (run env (onNewMails_each toLowerCase email) w) = w
  /\ classifierCalls (trace (run env (onNewMails_each toLowerCase email) w))
     = [promptFor (emailAnalyzer w) email]
  /\ searches (trace (run env (onNewMails_each toLowerCase email) w)) = [].
Proof.
  rewrite run_onNewMails_each. cbv zeta.
  destruct (run_moveToSpamFolder_readonly toLowerCase env w (connection w)
              (uid email)) as [Hf Ho].
  destruct (Qle_bool _ _); unfold afterAll; cbn [final trace outcome].
  - split; [exact Hf|].
    rewrite !classifierCalls_app, !searches_app.
    rewrite (no_classifierCalls (trace (run env (moveToSpamFolder _ _ _) w))),
            (no_searches (trace (run env (moveToSpamFolder _ _ _) w))).
    + split; reflexivity.
    + intros o H c crit ->. exact (Ho _ H).
    + intros o H p ->. exact (Ho _ H).
  - repeat split; reflexivity.
Qed.

(** One message of the scan: the classifier is asked about it exactly when
    it yields an email that is not dated before the lower bound. *)
Lemma processHistoricalEmails_each_calls w lowerBound message :
  let r := run env (processHistoricalEmails_each toLowerCase lowerBound
                      message) w in
  final r = w /\ outcome r = inr tt
  /\ classifierCalls (trace r)
     = match scanned env message with
       | Some email =>
           if isBefore (date email) lowerBound then []
           else [promptFor (emailAnalyzer w) email]
       | None => []
       end
  /\ searches (trace r) = [].
Proof.
  pose proof (run_processHistoricalEmails_each toLowerCase env w lowerBound
                message) as R.
  cbv zeta in *.
  destruct (parseTrace_only_parses env message) as (_ & Pc & Ps & _).
  destruct (scanned env message) as [email|].
  - destruct (isBefore (date email) lowerBound); rewrite R; clear R.
    + cbn [final trace outcome].
      rewrite classifierCalls_app, searches_app, Pc, Ps.
      repeat split; reflexivity.
    + destruct (onNewMails_each_calls w email) as (Hf & Hc & Hs).
      destruct (run env (onNewMails_each toLowerCase email) w)
        as [w1 t1 [e|[]]]; cbn [final trace] in Hf, Hc, Hs; subst w1;
        runs; cbn [final trace outcome];
        rewrite !classifierCalls_app, !searches_app, Pc, Ps, Hc, Hs;
        repeat split; reflexivity.
  - destruct R as (Hf & Ho & Ha). repeat split; auto.
    + apply no_classifierCalls. intros o H p ->.
      destruct (Ha _ H) as [src F]. discriminate.
    + apply no_searches. intros o H c crit ->.
      destruct (Ha _ H) as [src F]. discriminate.
Qed.

(** The scan, when the mailbox opens and the search answers. *)
Lemma run_processHistoricalEmails w c lowerBound box messages :
  connection w = Some c ->
  answer env (OpenBox c INBOX) = inr box ->
  answer env (Search c (AllSince lowerBound)) = inr messages ->
  run env (processHistoricalEmails toLowerCase lowerBound) w
  = {| final := w;
       trace := [Awaited (OpenBox c INBOX);
                 Out (Log StdOut (SearchingSince lowerBound));
                 Awaited (Search c (AllSince lowerBound));
                 Out (Log StdOut (FoundMessages (length messages)))]
                ++ flat_map
                     (fun m => trace (run env
                        (processHistoricalEmails_each toLowerCase
                           lowerBound m) w)) messages;
       outcome := inr tt |}.
Proof.
  intros Hc Hb Hs. unfold processHistoricalEmails. rewrite run_Get, Hc.
  runs. rewrite Hb. runs. rewrite Hc. runs. await_with Hs. runs.
  rewrite run_forEach_total.
  - runs. reflexivity.
  - intros m _.
    destruct (processHistoricalEmails_each_calls w lowerBound m)
      as (Hf & Ho & _). split; assumption.
Qed.

Lemma scan_calls w watermark messages :
  classifierCalls
    (flat_map (fun m => trace (run env (processHistoricalEmails_each
                                          toLowerCase (Some watermark) m) w))
              messages)
  = map (promptFor (emailAnalyzer w))
        (filter (fun email => match date email with
                              | Some t => (watermark <=? t)%Z
                              | None => true
                              end)
                (emailsOf env messages))
  /\ searches
       (flat_map (fun m => trace (run env (processHistoricalEmails_each
                                             toLowerCase (Some watermark) m) w))
                 messages) = [].
Proof.
  induction messages as [|m rest [IHc IHs]]; [split; reflexivity|].
  destruct (processHistoricalEmails_each_calls w (Some watermark) m)
    as (_ & _ & Hc & Hs). cbv zeta in Hc, Hs.
  cbn [flat_map]. rewrite classifierCalls_app, searches_app, Hc, Hs, IHc, IHs.
  split; [|reflexivity].
  unfold emailsOf. cbn [flat_map]. fold (emailsOf env rest).
  destruct (scanned env m) as [email|]; [|reflexivity].
  cbn [app filter]. cbv beta.
  destruct (date email) as [t|]; cbn [isBefore]; [|reflexivity].
  rewrite Z.leb_antisym. destruct (t <? watermark)%Z; reflexivity.
Qed.

(** C8.  In a backfill scan from the watermark [watermark], the messages
    the classifier is asked about are, in order, exactly the fetched
    messages whose timestamp is not strictly before [watermark]: a message
    dated [t < watermark] is passed over before classification although the
    day-granular search returned it, a message dated [t >= watermark] is
    classified. *)
Theorem backfill_skips_messages_before_watermark :
  forall (w : Watcher) (c : Conn) (watermark : Z) (box : Box)
         (messages : list RawMessage),
    connection w = Some c ->
    answer env (OpenBox c INBOX) = inr box ->
    answer env (Search c (AllSince (Some watermark))) = inr messages ->
    let r := run env (processHistoricalEmails toLowerCase (Some watermark)) w in
    searches (trace r) = [AllSince (Some watermark)]
    /\ classifierCalls (trace r)
       = map (promptFor (emailAnalyzer w))
             (filter (fun email => match date email with
                                   | Some t => (watermark <=? t)%Z
                                   | None => true
                                   end)
                     (emailsOf env messages))
    /\ forall message email t,
        In message messages ->
        scanned env message = Some email ->
        date email = Some t ->
        let each := trace (run env (processHistoricalEmails_each toLowerCase
                                      (Some watermark) message) w) in
        ((t < watermark)%Z -> classifierCalls each = [])
        /\ ((watermark <= t)%Z ->
            classifierCalls each = [promptFor (emailAnalyzer w) email]).
Proof.
  intros w c watermark box messages Hc Hb Hs r.
  pose proof (run_processHistoricalEmails w c (Some watermark) box messages
                Hc Hb Hs) as R.
  fold r in R.
  destruct (scan_calls w watermark messages) as [Sc Ss].
  rewrite R. cbn [trace]. rewrite classifierCalls_app, searches_app, Sc, Ss.
  split; [reflexivity|]. split; [reflexivity|].
  intros message email t _ Hm Hd.
  destruct (processHistoricalEmails_each_calls w (Some watermark) message)
    as (_ & _ & Hcalls & _). cbv zeta in Hcalls.
  rewrite Hcalls, Hm, Hd. cbn [isBefore].
  split; intros Ht.
  - apply Z.ltb_lt in Ht. rewrite Ht. reflexivity.
  - apply Z.ltb_ge in Ht. rewrite Ht. reflexivity.
Qed.

End Backfill.

Lemma backfill_watermark_witness :
  State.connection watcher = Some 1%nat
  /\ Semantics.answer (envOf calm)
       (Imap.Search 1%nat (Imap.AllSince (Some 500%Z)))
     = inr [rawMessage 11 (JS.lit "new"); rawMessage 12 (JS.lit "old")]
  /\ classifierCalls
       (Semantics.trace
          (Semantics.run (envOf calm)
             (processHistoricalEmails JS.asciiLower (Some 500%Z)) watcher))
     = [promptFor (State.emailAnalyzer watcher)
          (emailOf (rawMessage 11 (JS.lit "new"))
                   (parsedAt (JS.lit "new") 900) (Some 900%Z))].
Proof.
  split; [reflexivity|]. split; [reflexivity|].
  destruct (backfill_skips_messages_before_watermark JS.asciiLower
              (envOf calm) watcher 1%nat 500%Z
              {| Imap.messages_total := Some 5%Z |}
              [rawMessage 11 (JS.lit "new"); rawMessage 12 (JS.lit "old")]
              eq_refl eq_refl eq_refl) as (_ & H & _).
  rewrite H. vm_compute. reflexivity.
Defined.

(** ** The mail notification *)

Section Notification.
Import JS Analyzer Imap State Async Semantics.
Local Open Scope Z_scope.

Variable toLowerCase : str -> str.
Variable env : Env.

Lemma no_awaits t :
  (forall o, ~ In (Awaited o) t) ->
  searches t = [] /\ classifierCalls t = [] /\ moves t = [].
Proof.
  induction t as [|ev t IH]; intros H; [repeat split|].
  destruct IH as (I1 & I2 & I3);
    [intros o Ho; apply (H o); right; exact Ho|].
  destruct ev as [o|s|o]; simpl; try (repeat split; assumption).
  exfalso. apply (H o). left. reflexivity.
Qed.

(** [updateAnalyzedUntil] awaits nothing and never throws. *)
Lemma updateAnalyzedUntil_quiet w d :
  outcome (run env (updateAnalyzedUntil d) w) = inr tt
  /\ forall o, ~ In (Awaited o) (trace (run env (updateAnalyzedUntil d) w)).
Proof.
  split.
  - unfold updateAnalyzedUntil. rewrite run_tryCatch.
    destruct (run env (Get _) w) as [w1 t1 [e|[]]]; reflexivity.
  - assert (K : Keeps anyState noOp anyOutput (updateAnalyzedUntil d)).
    { unfold updateAnalyzedUntil, toISOString. keeps; exact I. }
    intros o Ho.
    exact (proj1 (proj2 (run_keeps env _ _ _ _ K w I)) o Ho).
Qed.

Lemma parseBatch_cons message rest emails :
  parseBatch (message :: rest) emails
  = bind (tryCatch
            (match fullPart message with
             | None => Ret emails
             | Some all =>
                 bind (await (SimpleParser (body all))) (fun parsed =>
                 bind (emailDateOf parsed) (fun emailDate =>
                 Ret (emails ++ [emailOf message parsed emailDate])%list))
             end)
            (fun error => bind (logError (ParseError error))
                               (fun _ => Ret emails)))
         (fun emails' => parseBatch rest emails').
Proof. reflexivity. Qed.

(** The loop of [fetchEmailsBatch] collects what [scanned] reads. *)
Lemma run_parseBatch w messages :
  forall acc,
    final (run env (parseBatch messages acc) w) = w
    /\ outcome (run env (parseBatch messages acc) w)
       = inr (acc ++ emailsOf env messages)
    /\ forall o, In (Awaited o) (trace (run env (parseBatch messages acc) w)) ->
                 exists src, o = SimpleParser src.
Proof.
  induction messages as [|m rest IH]; intros acc.
  - simpl. rewrite app_nil_r. repeat split. intros o [].
  - rewrite parseBatch_cons, run_bind, run_tryCatch.
    unfold emailsOf; cbn [flat_map].
    fold (emailsOf env rest). unfold scanned.
    destruct (fullPart m) as [all|].
    2: { runs. destruct (IH acc) as (H1 & H2 & H3).
         destruct (run env (parseBatch rest acc) w) as [w1 t1 o1].
         simpl in *. repeat split; auto. }
    rewrite run_bind, run_await.
    destruct (answer env (SimpleParser (body all))) as [e|parsed].
    { runs. destruct (IH acc) as (H1 & H2 & H3).
      destruct (run env (parseBatch rest acc) w) as [w1 t1 o1].
      simpl in *. repeat split; auto.
      intros o [F|[F|F]]; [injection F as <-; eauto | discriminate | auto]. }
    rewrite thenR_ok. unfold emailDateOf.
    destruct (parsed_date parsed) as [d|].
    + runs.
      destruct (IH (acc ++ [emailOf m parsed d])%list) as (H1 & H2 & H3).
      destruct (run env (parseBatch rest _) w) as [w1 t1 o1].
      simpl in *. rewrite <- app_assoc in H2. repeat split; auto.
      intros o [F|F]; [injection F as <-; eauto | auto].
    + runs. destruct (answerSync env DateNow) as [e|now].
      { runs. destruct (IH acc) as (H1 & H2 & H3).
        destruct (run env (parseBatch rest acc) w) as [w1 t1 o1].
        simpl in *. repeat split; auto.
        intros o [F|[F|[F|F]]]; try discriminate;
          [injection F as <-; eauto | auto]. }
      runs.
      destruct (IH (acc ++ [emailOf m parsed (Some now)])%list)
        as (H1 & H2 & H3).
      destruct (run env (parseBatch rest _) w) as [w1 t1 o1].
      simpl in *. rewrite <- app_assoc in H2. repeat split; auto.
      intros o [F|[F|F]]; try discriminate;
        [injection F as <-; eauto | auto].
Qed.

Lemma run_fetchEmailsBatch w c a b box messages :
  answer env (OpenBox c INBOX) = inr box ->
  answer env (Search c (SeqRange a b)) = inr messages ->
  let r := run env (fetchEmailsBatch c a b) w in
  final r = w
  /\ outcome r = inr (emailsOf env messages)
  /\ searches (trace r) = [SeqRange a b]
  /\ classifierCalls (trace r) = [].
Proof.
  intros Hb Hs r. subst r. unfold fetchEmailsBatch.
  runs. rewrite Hb. runs. await_with Hs. runs.
  destruct (run_parseBatch w messages []) as (H1 & H2 & H3).
  destruct (run env (parseBatch messages []) w) as [w1 t1 o1].
  cbn [final trace outcome] in *. rewrite afterAll_lit.
  cbn [final trace outcome app]. repeat split; auto.
  - change (SeqRange a b :: searches t1 = [SeqRange a b]).
    rewrite (no_searches t1); [reflexivity|].
    intros o Ho c' crit ->. destruct (H3 _ Ho) as [src F]. discriminate.
  - change (classifierCalls t1 = []).
    rewrite (no_classifierCalls t1); [reflexivity|].
    intros o Ho p ->. destruct (H3 _ Ho) as [src F]. discriminate.
Qed.

Lemma keeps_onNewMails_each w0 email :
  Keeps (eq w0) pipelineOp anyOutput (onNewMails_each toLowerCase email).
Proof.
  unfold onNewMails_each, isScamEmail, moveToSpamFolder. keeps; exact I.
Qed.

Lemma forEach_calls w emails :
  classifierCalls
    (flat_map (fun email => trace (run env (onNewMails_each toLowerCase email)
                                       w)) emails)
  = map (promptFor (emailAnalyzer w)) emails.
Proof.
  induction emails as [|email rest IH]; [reflexivity|].
  cbn [flat_map map]. rewrite classifierCalls_app, IH.
  destruct (onNewMails_each_calls toLowerCase env w email) as (_ & Hc & _).
  rewrite Hc. reflexivity.
Qed.

(** [onNewMails]: one search, of the sequence range; and when no relocation
    throws, the classifier is asked about every message of the batch, in
    the order of the fetch. *)
Lemma run_onNewMails w c total count box messages :
  connection w = Some c ->
  answer env (OpenBox c INBOX) = inr box ->
  answer env (Search c (SeqRange (total - count + 1) total)) = inr messages ->
  let r := run env (onNewMails toLowerCase total count) w in
  final r = w
  /\ searches (trace r) = [SeqRange (total - count + 1) total]
  /\ ((forall email, In email (emailsOf env messages) ->
         outcome (run env (onNewMails_each toLowerCase email) w) = inr tt) ->
      outcome r = inr tt
      /\ classifierCalls (trace r)
         = map (promptFor (emailAnalyzer w)) (emailsOf env messages)).
Proof.
  intros Hc Hb Hs r. subst r. unfold onNewMails. rewrite run_Get, Hc.
  rewrite run_bind.
  destruct (run_fetchEmailsBatch w c _ _ box messages Hb Hs)
    as (F1 & F2 & F3 & F4).
  destruct (run env (fetchEmailsBatch c _ _) w) as [w1 t1 o1].
  cbn [final trace outcome] in F1, F2, F3, F4. subst w1 o1.
  rewrite thenR_ok.
  assert (K : Keeps (eq w) pipelineOp anyOutput
                (forEach (emailsOf env messages)
                         (onNewMails_each toLowerCase))).
  { apply keeps_forEach. intros email. apply keeps_onNewMails_each. }
  destruct (run_keeps env _ _ _ _ K w eq_refl) as (K1 & K2 & _).
  unfold afterAll. cbn [final trace outcome].
  split; [symmetry; exact K1|]. split.
  - rewrite searches_app, F3, no_searches; [reflexivity|].
    intros o Ho c' crit ->. exact (K2 _ Ho).
  - intros Hok. rewrite run_forEach_total.
    + cbn [trace outcome]. split; [reflexivity|].
      rewrite classifierCalls_app, F4, forEach_calls. reflexivity.
    + intros email He. split; [|exact (Hok email He)].
      destruct (onNewMails_each_calls toLowerCase env w email) as (Hf & _).
      exact Hf.
Qed.

Lemma no_range_search t :
  (forall o, In (Awaited o) t -> notRangeSearch o) ->
  forall a b, ~ In (SeqRange a b) (searches t).
Proof.
  intros H a b Hin. unfold searches in Hin. apply in_flat_map in Hin.
  destruct Hin as [ev [Hev Hc]].
  destruct ev as [o|s|o]; simpl in Hc; try contradiction.
  destruct o; simpl in Hc; try contradiction.
  destruct Hc as [Hc|[]]. subst criteria. exact (H _ Hev).
Qed.

(** After the batch: the clock is read and the watermark updated, with no
    awaited operation. *)
Lemma after_batch_quiet w :
  forall o, ~ In (Awaited o)
                 (trace (run env (bind (call DateNow) (fun now =>
                                    updateAnalyzedUntil (Some now))) w)).
Proof.
  assert (K : Keeps anyState noOp anyOutput
                (bind (call DateNow) (fun now =>
                   updateAnalyzedUntil (Some now)))).
  { unfold updateAnalyzedUntil, toISOString. keeps; exact I. }
  intros o Ho. exact (proj1 (proj2 (run_keeps env _ _ _ _ K w I)) o Ho).
Qed.

(** The backfill branch of the listener never searches a sequence range. *)
Lemma keeps_backfill_branch count :
  Keeps anyState notRangeSearch anyOutput
    (bind (log (InitialCount count)) (fun _ =>
     tryFinally
       (tryCatch
          (Get (fun w =>
             if negb (isBackfilling w)
             then
               bind (modify (set_isBackfilling true)) (fun _ =>
               Get (fun w =>
                 let lowerBound :=
                   match emailsAnalyzedUntil w with
                   | Some d => d
                   | None => Some 0
                   end in
                 bind (log (BackfillLowerBound lowerBound)) (fun _ =>
                 bind (processHistoricalEmails toLowerCase lowerBound)
                      (fun _ =>
                 bind (call DateNow) (fun now =>
                 updateAnalyzedUntil (Some now))))))
             else Ret tt))
          (fun err => logError (BackfillError err)))
       (modify (set_isBackfilling false)))).
Proof.
  unfold processHistoricalEmails, processHistoricalEmails_each, isScamEmail,
    moveToSpamFolder, updateAnalyzedUntil, toISOString, emailDateOf.
  keeps; exact I.
Qed.

(** The listener, once the total is known. *)
Lemma run_onMail_total w c count box :
  connection w = Some c ->
  answer env (OpenBox c INBOX) = inr box ->
  let total := match messages_total box with Some t => t | None => 0 end in
  run env (onMail toLowerCase count) w
  = afterAll [Awaited (OpenBox c INBOX)]
      (run env
         (if total =? count
          then
            bind (log (InitialCount count)) (fun _ =>
            tryFinally
              (tryCatch
                 (Get (fun w =>
                    if negb (isBackfilling w)
                    then
                      bind (modify (set_isBackfilling true)) (fun _ =>
                      Get (fun w =>
                        let lowerBound :=
                          match emailsAnalyzedUntil w with
                          | Some d => d
                          | None => Some 0
                          end in
                        bind (log (BackfillLowerBound lowerBound)) (fun _ =>
                        bind (processHistoricalEmails toLowerCase lowerBound)
                             (fun _ =>
                        bind (call DateNow) (fun now =>
                        updateAnalyzedUntil (Some now))))))
                    else Ret tt))
                 (fun err => logError (BackfillError err)))
              (modify (set_isBackfilling false)))
          else
            bind (log (NewEmails count)) (fun _ =>
            tryCatch
              (bind (onNewMails toLowerCase total count) (fun _ =>
               bind (call DateNow) (fun now =>
               updateAnalyzedUntil (Some now))))
              (fun error => logError (NewMailError error))))
         w).
Proof.
  intros Hc Hb total. unfold onMail. rewrite run_Get, Hc.
  unfold getTotalMessages. rewrite run_bind, run_bind, run_await, Hb.
  runs. reflexivity.
Qed.

End Notification.

(** ** Running amid other listeners *)

Section AmidLemmas.
Import Imap State Async Semantics.

Variable env : Env.
Variable amid : nat -> Watcher -> Watcher.

Lemma awaits_app t1 t2 : awaits (t1 ++ t2) = (awaits t1 + awaits t2)%nat.
Proof.
  induction t1 as [|[o|s|o] t IH]; cbn [awaits app]; rewrite ?IH;
    reflexivity.
Qed.

(** With nothing else running, the method runs as on its own. *)
Lemma runAmid_alone {A} (p : Prog A) :
  forall n w, runAmid env alone n p w = run env p w.
Proof.
  induction p as [a|e|k IH|w' k IH|o k IH|s k IH|o k IH]; intros n w;
    cbn [runAmid run]; rewrite ?IH; reflexivity.
Qed.

(** The run is the sequence of the slices that the event loop runs: each
    slice goes on from the watcher as it was left meanwhile. *)
Lemma runAmid_slices {A} (p : Prog A) :
  forall n w,
    runAmid env amid n p w
    = let s := advance (answerSync env) p w in
      match next s with
      | Finished r =>
          {| final := reached s; trace := emitted s; outcome := r |}
      | Suspended o k =>
          afterAll (emitted s)
            (runAmid env amid (S n) (k (answer env o)) (amid n (reached s)))
      end.
Proof.
  induction p as [a|e|k IH|w' k IH|o k IH|s k IH|o k IH]; intros n w;
    cbn [runAmid advance].
  - reflexivity.
  - reflexivity.
  - apply IH.
  - apply IH.
  - rewrite IH. cbv zeta.
    destruct (advance (answerSync env) k w) as [w1 t1 [r|o' k']];
      reflexivity.
  - rewrite IH. cbv zeta.
    destruct (advance (answerSync env) (k (answerSync env s)) w)
      as [w1 t1 [r|o' k']]; reflexivity.
  - reflexivity.
Qed.

Lemma runAmid_bind {A B} (p : Prog A) (f : A -> Prog B) :
  forall n w,
    runAmid env amid n (bind p f) w
    = thenR (runAmid env amid n p w)
        (fun a w' =>
           runAmid env amid (n + awaits (trace (runAmid env amid n p w)))
                   (f a) w').
Proof.
  induction p as [a|e|k IH|w' k IH|o k IH|s k IH|o k IH]; intros n w;
    cbn [bind runAmid].
  - unfold thenR, afterAll. cbn [outcome trace final awaits app].
    rewrite Nat.add_0_r.
    destruct (runAmid env amid n (f a) w); reflexivity.
  - reflexivity.
  - apply IH.
  - apply IH.
  - rewrite IH. unfold thenR, after, afterAll. cbn [outcome trace final awaits].
    destruct (outcome (runAmid env amid n k w)); reflexivity.
  - rewrite IH. unfold thenR, after, afterAll. cbn [outcome trace final awaits].
    destruct (outcome (runAmid env amid n (k (answerSync env s)) w));
      reflexivity.
  - rewrite IH. unfold thenR, after, afterAll. cbn [outcome trace final awaits].
    rewrite Nat.add_succ_r.
    destruct (outcome (runAmid env amid (S n) (k (answer env o)) (amid n w)));
      reflexivity.
Qed.

Lemma runAmid_tryCatch {A} (p : Prog A) (h : Exn -> Prog A) :
  forall n w,
    runAmid env amid n (tryCatch p h) w
    = catchR (runAmid env amid n p w)
        (fun e w' =>
           runAmid env amid (n + awaits (trace (runAmid env amid n p w)))
                   (h e) w').
Proof.
  induction p as [a|e|k IH|w' k IH|o k IH|s k IH|o k IH]; intros n w;
    cbn [tryCatch runAmid].
  - reflexivity.
  - unfold catchR, afterAll. cbn [outcome trace final awaits app].
    rewrite Nat.add_0_r.
    destruct (runAmid env amid n (h e) w); reflexivity.
  - apply IH.
  - apply IH.
  - rewrite IH. unfold catchR, after, afterAll. cbn [outcome trace final awaits].
    destruct (outcome (runAmid env amid n k w)); reflexivity.
  - rewrite IH. unfold catchR, after, afterAll. cbn [outcome trace final awaits].
    destruct (outcome (runAmid env amid n (k (answerSync env s)) w));
      reflexivity.
  - rewrite IH. unfold catchR, after, afterAll. cbn [outcome trace final awaits].
    rewrite Nat.add_succ_r.
    destruct (outcome (runAmid env amid (S n) (k (answer env o)) (amid n w)));
      reflexivity.
Qed.

Lemma runAmid_tryFinally {A} (p : Prog A) (fin : Prog unit) :
  forall n w,
    runAmid env amid n (tryFinally p fin) w
    = finallyR (runAmid env amid n p w)
        (fun w' =>
           runAmid env amid (n + awaits (trace (runAmid env amid n p w)))
                   fin w').
Proof.
  induction p as [a|e|k IH|w' k IH|o k IH|s k IH|o k IH]; intros n w;
    cbn [tryFinally runAmid].
  - rewrite runAmid_bind. unfold finallyR, afterAll, thenR.
    cbn [outcome trace final awaits app]. rewrite Nat.add_0_r.
    destruct (runAmid env amid n fin w) as [w1 t1 [e|[]]];
      cbn [outcome trace final runAmid]; rewrite ?app_nil_r; reflexivity.
  - rewrite runAmid_bind. unfold finallyR, afterAll, thenR.
    cbn [outcome trace final awaits app]. rewrite Nat.add_0_r.
    destruct (runAmid env amid n fin w) as [w1 t1 [e'|[]]];
      cbn [outcome trace final runAmid]; rewrite ?app_nil_r; reflexivity.
  - apply IH.
  - apply IH.
  - rewrite IH. unfold finallyR, after, afterAll. reflexivity.
  - rewrite IH. unfold finallyR, after, afterAll. reflexivity.
  - rewrite IH. unfold finallyR, after, afterAll.
    cbn [outcome trace final awaits]. rewrite Nat.add_succ_r. reflexivity.
Qed.

Lemma runAmid_await o n w :
  runAmid env amid n (await o) w
  = {| final := amid n w; trace := [Awaited o]; outcome := answer env o |}.
Proof.
  unfold await. cbn [runAmid]. destruct (answer env o); reflexivity.
Qed.

(** Every state a program writes amid others satisfies [I], provided what
    runs in between keeps [I]. *)
Lemma runAmid_keeps (I : Watcher -> Prop) (P : Op -> Prop)
      (Q : Output -> Prop) {A} (p : Prog A) :
  (forall n w, I w -> I (amid n w)) ->
  Keeps I P Q p ->
  forall n w, I w ->
    I (final (runAmid env amid n p w))
    /\ (forall o, In (Awaited o) (trace (runAmid env amid n p w)) -> P o)
    /\ (forall o, In (Out o) (trace (runAmid env amid n p w)) -> Q o).
Proof.
  intros Ha K. induction K as [a|e|k Hk IH|w' k Hw Hk IH|o k Ho Hk IH
                              |s k Hk IH|o k Ho Hk IH];
    intros n w Hw0; cbn [runAmid after final trace].
  - repeat split; auto; intros ? [].
  - repeat split; auto; intros ? [].
  - apply IH; assumption.
  - apply IH; assumption.
  - destruct (IH n w Hw0) as (I1 & I2 & I3). repeat split; auto.
    + intros o' [F|F]; [discriminate | auto].
    + intros o' [F|F]; [injection F as <-; exact Ho | auto].
  - destruct (IH (answerSync env s) n w Hw0) as (I1 & I2 & I3).
    repeat split; auto; intros o' [F|F]; try discriminate; auto.
  - destruct (IH (answer env o) (S n) (amid n w) (Ha n w Hw0))
      as (I1 & I2 & I3).
    repeat split; auto.
    + intros o' [F|F]; [injection F as <-; exact Ho | auto].
    + intros o' [F|F]; [discriminate | auto].
Qed.

(** A program that awaits nothing runs as on its own. *)
Lemma runAmid_sync {A} (p : Prog A) :
  Keeps anyState noOp anyOutput p ->
  forall n w, runAmid env amid n p w = run env p w.
Proof.
  intros K. induction K as [a|e|k Hk IH|w' k Hw Hk IH|o k Ho Hk IH
                           |s k Hk IH|o k Ho Hk IH];
    intros n w; cbn [runAmid run]; rewrite ?IH; try reflexivity.
  contradiction.
Qed.

Lemma awaits_none t : (forall o, ~ In (Awaited o) t) -> awaits t = 0%nat.
Proof.
  induction t as [|[o|s|o] t IH]; intros H; cbn [awaits];
    try reflexivity; try (apply IH; intros o' Ho'; apply (H o'); right;
                          exact Ho').
  exfalso. apply (H o). left. reflexivity.
Qed.

Lemma run_sync_awaits {A} (p : Prog A) w :
  Keeps anyState noOp anyOutput p -> awaits (trace (run env p w)) = 0%nat.
Proof.
  intros K. apply awaits_none. intros o Ho.
  exact (proj1 (proj2 (run_keeps env _ _ _ _ K w I)) o Ho).
Qed.

(** Sequences, handlers and [finally] blocks whose one part awaits
    nothing. *)
Lemma runAmid_bind_sync {A B} (p : Prog A) (f : A -> Prog B) n w :
  Keeps anyState noOp anyOutput p ->
  runAmid env amid n (bind p f) w
  = thenR (run env p w) (fun a w' => runAmid env amid n (f a) w').
Proof.
  intros K. rewrite runAmid_bind, (runAmid_sync _ K), (run_sync_awaits _ w K).
  rewrite Nat.add_0_r. reflexivity.
Qed.

Lemma runAmid_bind_then_sync {A B} (p : Prog A) (f : A -> Prog B) n w :
  (forall a, Keeps anyState noOp anyOutput (f a)) ->
  runAmid env amid n (bind p f) w
  = thenR (runAmid env amid n p w) (fun a w' => run env (f a) w').
Proof.
  intros K. rewrite runAmid_bind. unfold thenR.
  destruct (outcome (runAmid env amid n p w)) as [e|a]; [reflexivity|].
  rewrite (runAmid_sync _ (K a)). reflexivity.
Qed.

Lemma runAmid_tryCatch_sync {A} (p : Prog A) (h : Exn -> Prog A) n w :
  (forall e, Keeps anyState noOp anyOutput (h e)) ->
  runAmid env amid n (tryCatch p h) w
  = catchR (runAmid env amid n p w) (fun e w' => run env (h e) w').
Proof.
  intros K. rewrite runAmid_tryCatch. unfold catchR.
  destruct (outcome (runAmid env amid n p w)) as [e|a]; [|reflexivity].
  rewrite (runAmid_sync _ (K e)). reflexivity.
Qed.

Lemma runAmid_tryFinally_sync {A} (p : Prog A) (fin : Prog unit) n w :
  Keeps anyState noOp anyOutput fin ->
  runAmid env amid n (tryFinally p fin) w
  = finallyR (runAmid env amid n p w) (fun w' => run env fin w').
Proof.
  intros K. rewrite runAmid_tryFinally. unfold finallyR.
  rewrite (runAmid_sync _ K). reflexivity.
Qed.

Variable R : Watcher -> Watcher -> Prop.
Hypothesis R_trans : forall a b c, R a b -> R b c -> R a c.
Hypothesis amid_R : forall n w, R w (amid n w).

(** Programs that are alike do amid others what they do on their own,
    when what runs in between keeps the relation. *)
Lemma runAmid_alike {A} (p p' : Prog A) :
  Alike R p p' ->
  forall n w w', R w w' ->
    trace (runAmid env amid n p' w') = trace (run env p w)
    /\ outcome (runAmid env amid n p' w') = outcome (run env p w)
    /\ R (final (run env p w)) (final (runAmid env amid n p' w')).
Proof.
  intros K. induction K as [a|e|k k' Hk IH|w1 w1' k k' Hw Hk IH
                           |o k k' Hk IH|s k k' Hk IH|o k k' Hk IH];
    intros n w w' Hw0; cbn [runAmid run after final trace outcome].
  - repeat split; auto.
  - repeat split; auto.
  - apply IH; assumption.
  - apply IH; assumption.
  - destruct (IH n w w' Hw0) as (I1 & I2 & I3).
    rewrite I1. repeat split; auto.
  - destruct (IH (answerSync env s) n w w' Hw0) as (I1 & I2 & I3).
    rewrite I1. repeat split; auto.
  - destruct (IH (answer env o) (S n) w (amid n w')
                 (R_trans _ _ _ Hw0 (amid_R n w'))) as (I1 & I2 & I3).
    rewrite I1. repeat split; auto.
Qed.

Lemma alike_bind {A B} (p p' : Prog A) (f f' : A -> Prog B) :
  Alike R p p' -> (forall a, Alike R (f a) (f' a)) ->
  Alike R (bind p f) (bind p' f').
Proof.
  intros K Hf. induction K; cbn [bind]; try (constructor; auto); auto.
Qed.

Lemma alike_tryCatch {A} (p p' : Prog A) (h h' : Exn -> Prog A) :
  Alike R p p' -> (forall e, Alike R (h e) (h' e)) ->
  Alike R (tryCatch p h) (tryCatch p' h').
Proof.
  intros K Hh. induction K; cbn [tryCatch]; try (constructor; auto); auto.
Qed.

Lemma alike_forEach {X} (l : list X) (body body' : X -> Prog unit) :
  (forall x, Alike R (body x) (body' x)) ->
  Alike R (forEach l body) (forEach l body').
Proof.
  intros H. induction l as [|x r IH]; cbn [forEach]; [constructor|].
  apply alike_bind; [apply H | intros _; exact IH].
Qed.

Lemma alike_await o : Alike R (await o) (await o).
Proof.
  unfold await. constructor. intros [e|x]; constructor.
Qed.

Lemma alike_call s : Alike R (call s) (call s).
Proof.
  unfold call. constructor. intros [e|x]; constructor.
Qed.

Lemma alike_emit o : Alike R (emit o) (emit o).
Proof. unfold emit. repeat constructor. Qed.

End AmidLemmas.

(** Decomposes an [Alike] goal along the structure of the program; at a
    read of [this], the two states agree on the fields of the relation. *)
Ltac alike_step :=
  match goal with
  | |- Alike _ (Async.bind _ _) (Async.bind _ _) =>
      apply alike_bind; [|intro]
  | |- Alike _ (Async.tryCatch _ _) (Async.tryCatch _ _) =>
      apply alike_tryCatch; [|intro]
  | |- Alike _ (Async.forEach _ _) (Async.forEach _ _) =>
      apply alike_forEach; intro
  | |- Alike _ (Async.await _) _ =>
      first [ apply alike_await
            | unfold Async.await; apply AlikeAwait; intros [?|?];
              constructor ]
  | |- Alike _ (Async.call _) _ =>
      first [ apply alike_call
            | unfold Async.call; apply AlikeCall; intros [?|?];
              constructor ]
  | |- Alike _ (Async.emit _) _ => apply alike_emit
  | |- Alike _ (Async.log _) _ => apply alike_emit
  | |- Alike _ (Async.logError _) _ => apply alike_emit
  | |- Alike _ (Async.Get _) (Async.Get _) =>
      apply AlikeGet;
      let H := fresh "HR" in
      intros ? ? H; unfold sameHandle, sameSetup in H;
      decompose [and] H; clear H;
      repeat match goal with
             | E : ?f ?w' = ?f ?w |- _ => rewrite ?E; clear E
             end
  | |- Alike _ (Async.Ret _) _ => apply AlikeRet
  | |- Alike _ (Async.Raise _) _ => apply AlikeRaise
  | |- Alike _ (match ?x with _ => _ end) _ => destruct x eqn:?
  end.

Ltac alike := repeat alike_step.

Section AlikePrograms.
Import JS Analyzer Imap State Async Semantics.

Variable toLowerCase : str -> str.

Lemma sameHandle_trans a b c :
  sameHandle a b -> sameHandle b c -> sameHandle a c.
Proof.
  unfold sameHandle, sameSetup. intros H1 H2.
  decompose [and] H1. decompose [and] H2. repeat split; congruence.
Qed.

Lemma sameHandle_refl a : sameHandle a a.
Proof. unfold sameHandle, sameSetup. repeat split. Qed.

Lemma alike_parseBatch (R : Watcher -> Watcher -> Prop) messages :
  forall emails,
    Alike R (parseBatch messages emails) (parseBatch messages emails).
Proof.
  induction messages as [|m rest IH]; intros emails; [constructor|].
  rewrite parseBatch_cons. unfold emailDateOf. alike. apply IH.
Qed.

Lemma alike_moveToSpamFolder (R : Watcher -> Watcher -> Prop) conn id :
  Alike R (moveToSpamFolder toLowerCase conn id)
          (moveToSpamFolder toLowerCase conn id).
Proof. unfold moveToSpamFolder. alike. Qed.

Lemma alike_onNewMails_each email :
  Alike sameHandle (onNewMails_each toLowerCase email)
                   (onNewMails_each toLowerCase email).
Proof.
  unfold onNewMails_each, isScamEmail. alike;
    apply alike_moveToSpamFolder.
Qed.

Lemma alike_onNewMails total count :
  Alike sameHandle (onNewMails toLowerCase total count)
                   (onNewMails toLowerCase total count).
Proof.
  unfold onNewMails, fetchEmailsBatch. alike.
  - apply alike_parseBatch.
  - apply alike_onNewMails_each.
Qed.

Lemma alike_processHistoricalEmails lowerBound :
  Alike sameHandle (processHistoricalEmails toLowerCase lowerBound)
                   (processHistoricalEmails toLowerCase lowerBound).
Proof.
  unfold processHistoricalEmails, processHistoricalEmails_each, isScamEmail,
    emailDateOf.
  alike; apply alike_moveToSpamFolder.
Qed.

End AlikePrograms.

(** ** The mail notification amid other listeners *)

Section NotificationAmid.
Import JS Analyzer Imap State Async Semantics.
Local Open Scope Z_scope.

Variable toLowerCase : str -> str.
Variable env : Env.

Lemma onMail_afterTotal count :
  onMail toLowerCase count
  = Get (fun w =>
      match connection w with
      | None => Ret tt
      | Some c =>
          bind (getTotalMessages c) (fun total =>
            afterTotal toLowerCase total count)
      end).
Proof. reflexivity. Qed.

(** The listener amid others, once the total is known: it goes on from the
    watcher as the others left it. *)
Lemma runAmid_onMail_total amid n w c count box :
  connection w = Some c ->
  answer env (OpenBox c INBOX) = inr box ->
  let total := match messages_total box with Some t => t | None => 0 end in
  runAmid env amid n (onMail toLowerCase count) w
  = afterAll [Awaited (OpenBox c INBOX)]
      (runAmid env amid (S n) (afterTotal toLowerCase total count)
               (amid n w)).
Proof.
  intros Hc Hb total. rewrite onMail_afterTotal. cbn [runAmid]. rewrite Hc.
  unfold getTotalMessages.
  rewrite runAmid_bind, runAmid_bind, runAmid_await, Hb.
  rewrite !thenR_ok. cbn [trace awaits runAmid]. rewrite afterAll_lit.
  cbn [trace awaits app]. rewrite thenR_ok.
  replace (n + 1)%nat with (S n) by lia. reflexivity.
Qed.

Lemma keeps_afterBatch : Keeps anyState noOp anyOutput afterBatch.
Proof.
  unfold afterBatch, updateAnalyzedUntil, toISOString. keeps; exact I.
Qed.

Lemma keeps_fetchEmailsBatch c a b :
  Keeps anyState fetchOp anyOutput (fetchEmailsBatch c a b).
Proof.
  unfold fetchEmailsBatch. keeps; try exact I.
  match goal with |- Keeps _ _ _ (parseBatch ?m ?e) =>
    generalize e; induction m as [|x rest IH]; intros acc;
      [constructor|] end.
  rewrite parseBatch_cons. unfold emailDateOf. keeps; try exact I.
  apply IH.
Qed.

Lemma no_moves t :
  (forall o, In (Awaited o) t -> forall c id target,
                                   o <> MoveMessage c id target) ->
  moves t = [].
Proof.
  induction t as [|ev t IH]; intros H; [reflexivity|].
  simpl. rewrite IH by (intros o Ho; apply H; right; exact Ho).
  destruct ev as [o|s|o]; try reflexivity.
  destruct o; try reflexivity.
  exfalso. eapply (H _ (or_introl eq_refl)). reflexivity.
Qed.

Lemma moves_flat_map {X} (f : X -> list Event) l :
  moves (flat_map f l) = flat_map (fun x => moves (f x)) l.
Proof.
  induction l as [|x r IH]; [reflexivity|].
  cbn [flat_map]. rewrite moves_app, IH. reflexivity.
Qed.

Lemma searches_flat_map {X} (f : X -> list Event) l :
  (forall x, searches (f x) = []) -> searches (flat_map f l) = [].
Proof.
  intros H. induction l as [|x r IH]; [reflexivity|].
  cbn [flat_map]. rewrite searches_app, H, IH. reflexivity.
Qed.

(** [onNewMails] on its own: the moves are those of the messages, in the
    order of the fetch. *)
Lemma run_onNewMails_moves w c total count box messages :
  connection w = Some c ->
  answer env (OpenBox c INBOX) = inr box ->
  answer env (Search c (SeqRange (total - count + 1) total)) = inr messages ->
  (forall email, In email (emailsOf env messages) ->
     outcome (run env (onNewMails_each toLowerCase email) w) = inr tt) ->
  moves (trace (run env (onNewMails toLowerCase total count) w))
  = flat_map (fun email =>
                moves (trace (run env (onNewMails_each toLowerCase email) w)))
             (emailsOf env messages).
Proof.
  intros Hc Hb Hs Hok. unfold onNewMails. rewrite run_Get, Hc, run_bind.
  destruct (run_fetchEmailsBatch env w c _ _ box messages Hb Hs)
    as (F1 & F2 & _).
  destruct (run_keeps env _ _ _ _
              (keeps_fetchEmailsBatch c (total - count + 1) total) w I)
    as (_ & K & _).
  destruct (run env (fetchEmailsBatch c _ _) w) as [w1 t1 o1].
  cbn [final trace outcome] in F1, F2, K. subst w1 o1.
  rewrite thenR_ok, run_forEach_total.
  - cbn [afterAll trace]. rewrite moves_app, moves_flat_map.
    rewrite (no_moves t1); [reflexivity|].
    intros o Ho c' id target ->. exact (K _ Ho).
  - intros email He. split; [|exact (Hok email He)].
    destruct (onNewMails_each_calls toLowerCase env w email) as (Hf & _).
    exact Hf.
Qed.

(** What the listener awaits besides the total, when the count differs:
    what [onNewMails] awaits. *)
Lemma live_branch_awaits amid n w total count :
  (total =? count) = false ->
  let r := runAmid env amid n (afterTotal toLowerCase total count) w in
  let live := runAmid env amid n (onNewMails toLowerCase total count) w in
  searches (trace r) = searches (trace live)
  /\ classifierCalls (trace r) = classifierCalls (trace live)
  /\ moves (trace r) = moves (trace live).
Proof.
  intros E r live. subst r. unfold afterTotal. rewrite E.
  rewrite runAmid_bind. change (runAmid env amid n (log (NewEmails count)) w)
    with {| final := w; trace := [Out (Log StdOut (NewEmails count))];
            outcome := inr tt |}.
  rewrite thenR_ok. cbn [trace awaits]. rewrite Nat.add_0_r.
  rewrite runAmid_tryCatch, runAmid_bind. fold live.
  rewrite trace_afterAll, trace_catchR, trace_thenR.
  assert (Q : forall m w' (X : list Event),
             X = [] \/ X = trace (runAmid env amid m afterBatch w') ->
             searches X = [] /\ classifierCalls X = [] /\ moves X = []).
  { intros m w' X [->| ->]; [repeat split|].
    apply no_awaits. intros o Ho.
    exact (proj1 (proj2 (runAmid_keeps env amid _ _ _ _ (fun _ _ _ => I)
                           keeps_afterBatch m w' I)) o Ho). }
  assert (H : forall m e w' (X : list Event),
             X = [] \/ X = trace (runAmid env amid m
                                    (logError (NewMailError e)) w') ->
             searches X = [] /\ classifierCalls X = [] /\ moves X = []).
  { intros m e w' X [->| ->]; repeat split. }
  rewrite !searches_app, !classifierCalls_app, !moves_app.
  cbn [searches classifierCalls moves flat_map app].
  match goal with
  | |- context [match outcome live with
                | inl _ => []
                | inr a => trace (runAmid env amid ?m afterBatch ?w')
                end] =>
      destruct (Q m w' (match outcome live with
                        | inl _ => []
                        | inr a => trace (runAmid env amid m afterBatch w')
                        end)) as (Q1 & Q2 & Q3);
        [destruct (outcome live); auto|]
  end.
  rewrite Q1, Q2, Q3, !app_nil_r.
  match goal with
  | |- context [match ?o with
                | inl e => trace (runAmid env amid ?m _ ?w')
                | inr _ => []
                end] =>
      destruct o as [e|[]]; cbn [runAmid logError emit trace after
        searches classifierCalls moves flat_map app];
        rewrite ?app_nil_r; repeat split; reflexivity
  end.
Qed.

Lemma sync_log m : Keeps anyState noOp anyOutput (log m).
Proof. unfold log. keeps; exact I. Qed.

Lemma sync_logError m : Keeps anyState noOp anyOutput (logError m).
Proof. unfold logError. keeps; exact I. Qed.

Lemma sync_modify f : Keeps anyState noOp anyOutput (modify f).
Proof. unfold modify. keeps; exact I. Qed.

(** The two branches amid other listeners: the block runs from the watcher
    as it is left at each await, the handler and the [finally] block run
    at once. *)
Lemma runAmid_afterTotal_live amid n w total count :
  (total =? count) = false ->
  runAmid env amid n (afterTotal toLowerCase total count) w
  = afterAll [Out (Log StdOut (NewEmails count))]
      (catchR (runAmid env amid n
                 (bind (onNewMails toLowerCase total count)
                       (fun _ => afterBatch)) w)
              (fun e w' => run env (logError (NewMailError e)) w')).
Proof.
  intros E. unfold afterTotal. rewrite E.
  rewrite (runAmid_bind_sync env amid _ _ _ _ (sync_log _)), run_log,
    thenR_ok.
  rewrite (runAmid_tryCatch_sync env amid _ _ _ _
             (fun e => sync_logError _)).
  reflexivity.
Qed.

Lemma runAmid_afterTotal_backfill amid n w total count :
  (total =? count) = true ->
  runAmid env amid n (afterTotal toLowerCase total count) w
  = afterAll [Out (Log StdOut (InitialCount count))]
      (finallyR
         (catchR (runAmid env amid n (backfillBlock toLowerCase) w)
                 (fun e w' => run env (logError (BackfillError e)) w'))
         (fun w' => run env (modify (set_isBackfilling false)) w')).
Proof.
  intros E. unfold afterTotal. rewrite E.
  rewrite (runAmid_bind_sync env amid _ _ _ _ (sync_log _)), run_log,
    thenR_ok.
  rewrite (runAmid_tryFinally_sync env amid _ _ _ _ (sync_modify _)).
  rewrite (runAmid_tryCatch_sync env amid _ _ _ _
             (fun e => sync_logError _)).
  reflexivity.
Qed.

(** The block of the backfill branch, when no backfill is marked in
    flight. *)
Lemma runAmid_backfillBlock amid n w :
  isBackfilling w = false ->
  let lowerBound := match emailsAnalyzedUntil w with
                    | Some d => d
                    | None => Some 0
                    end in
  runAmid env amid n (backfillBlock toLowerCase) w
  = afterAll [Out (Log StdOut (BackfillLowerBound lowerBound))]
      (thenR (runAmid env amid n
                (processHistoricalEmails toLowerCase lowerBound)
                (set_isBackfilling true w))
             (fun _ w' => run env afterBatch w')).
Proof.
  intros Hf lowerBound. unfold backfillBlock. cbn [runAmid]. rewrite Hf.
  cbn [negb].
  rewrite (runAmid_bind_sync env amid _ _ _ _ (sync_modify _)), run_modify,
    thenR_ok.
  cbn [runAmid app afterAll].
  change (emailsAnalyzedUntil (set_isBackfilling true w))
    with (emailsAnalyzedUntil w).
  fold lowerBound.
  rewrite (runAmid_bind_sync env amid _ _ _ _ (sync_log _)), run_log,
    thenR_ok.
  rewrite (runAmid_bind_then_sync env amid _ _ _ _
             (fun _ => keeps_afterBatch)).
  destruct (thenR _ _) as [w' t' o']. reflexivity.
Qed.

(** What follows a batch, when the clock, the file and the parser answer
    and the account is found: four calls, and the watermark is the instant
    read first. *)
Lemma run_afterBatch_ok w now path raw entries idx :
  configPath w = Some path ->
  truthy path = true ->
  answerSync env DateNow = inr now ->
  answerSync env (ReadFile path) = inr raw ->
  answerSync env (JsonParse raw) = inr (Accounts entries) ->
  findIndex w entries 0 = inr (Some idx) ->
  answerSync env
    (WriteFile path (Accounts (setAnalyzedUntil entries idx now))) = inr tt ->
  run env afterBatch w
  = {| final := set_emailsAnalyzedUntil (Some (Some now)) w;
       trace := [Did DateNow; Did (ReadFile path); Did (JsonParse raw);
                 Did (WriteFile path
                        (Accounts (setAnalyzedUntil entries idx now)))];
       outcome := inr tt |}.
Proof.
  intros Hp Ht Hnow Hr Hj Hi Hw. unfold afterBatch.
  rewrite run_bind. retype. rewrite run_call, Hnow, thenR_ok. cbv beta.
  unfold updateAnalyzedUntil. rewrite run_tryCatch, run_Get.
  unfold truthyOpt, orElse. rewrite Hp, Ht.
  runs. rewrite Hr. runs. rewrite Hj. runs. rewrite Hi.
  unfold toISOString. runs. rewrite Hw. runs. reflexivity.
Qed.

(** The same when the count is the total and no backfill is marked in
    flight: what the scan awaits. *)
Lemma backfill_branch_awaits amid n w total count :
  (total =? count) = true ->
  isBackfilling w = false ->
  let lowerBound := match emailsAnalyzedUntil w with
                    | Some d => d
                    | None => Some 0
                    end in
  let r := runAmid env amid n (afterTotal toLowerCase total count) w in
  let scan := runAmid env amid n
                (processHistoricalEmails toLowerCase lowerBound)
                (set_isBackfilling true w) in
  searches (trace r) = searches (trace scan)
  /\ classifierCalls (trace r) = classifierCalls (trace scan)
  /\ moves (trace r) = moves (trace scan).
Proof.
  intros E Hf lowerBound r scan. subst r. unfold afterTotal. rewrite E.
  assert (KL : forall m, Keeps anyState noOp anyOutput (logError m))
    by (intros m; unfold logError; keeps; exact I).
  assert (Kl : forall m, Keeps anyState noOp anyOutput (log m))
    by (intros m; unfold log; keeps; exact I).
  assert (Km : forall f, Keeps anyState noOp anyOutput (modify f))
    by (intros f; unfold modify; keeps; exact I).
  rewrite (runAmid_bind_sync env amid _ _ _ _ (Kl _)), run_log, thenR_ok.
  rewrite (runAmid_tryFinally_sync env amid _ _ _ _ (Km _)).
  rewrite (runAmid_tryCatch_sync env amid _ _ _ _ (fun e => KL _)).
  unfold backfillBlock. cbn [runAmid]. rewrite Hf. cbn [negb].
  rewrite (runAmid_bind_sync env amid _ _ _ _ (Km _)), run_modify, thenR_ok.
  cbn [runAmid].
  change (emailsAnalyzedUntil (set_isBackfilling true w))
    with (emailsAnalyzedUntil w).
  fold lowerBound.
  rewrite (runAmid_bind_sync env amid _ _ _ _ (Kl _)), run_log, thenR_ok.
  rewrite (runAmid_bind_then_sync env amid _ _ _ _ (fun _ => keeps_afterBatch)).
  fold scan.
  rewrite trace_afterAll, trace_finallyR, trace_catchR, !trace_afterAll,
    trace_thenR.
  rewrite !searches_app, !classifierCalls_app, !moves_app.
  cbn [searches classifierCalls moves flat_map app].
  assert (Q : forall (X : list Event),
             (forall o, ~ In (Awaited o) X) ->
             searches X = [] /\ classifierCalls X = [] /\ moves X = [])
    by (intros X; apply no_awaits).
  match goal with
  | |- context [match outcome scan with
                | inl _ => []
                | inr a => trace (run env afterBatch ?w')
                end] =>
      destruct (Q (match outcome scan with
                   | inl _ => []
                   | inr a => trace (run env afterBatch w')
                   end)) as (Q1 & Q2 & Q3)
  end.
  { destruct (outcome scan); [intros o []|]. intros o Ho.
    exact (proj1 (proj2 (run_keeps env _ _ _ _ keeps_afterBatch _ I)) o Ho). }
  rewrite Q1, Q2, Q3, !app_nil_r.
  match goal with
  | |- context [match ?o with
                | inl e => trace (run env (logError (BackfillError e)) ?w')
                | inr _ => []
                end] =>
      destruct (Q (match o with
                   | inl e => trace (run env (logError (BackfillError e)) w')
                   | inr _ => []
                   end)) as (H1 & H2 & H3)
  end.
  { match goal with
    | |- forall o, ~ In _ (match ?x with _ => _ end) => destruct x
    end; intros o Ho; simpl in Ho; try contradiction.
    destruct Ho as [F|[]]. discriminate. }
  rewrite H1, H2, H3, !app_nil_r. repeat split; reflexivity.
Qed.

Lemma keeps_backfill total count :
  (total =? count) = true ->
  Keeps anyState notRangeSearch anyOutput (afterTotal toLowerCase total count).
Proof.
  intros E. unfold afterTotal. rewrite E.
  unfold backfillBlock, afterBatch, processHistoricalEmails,
    processHistoricalEmails_each, isScamEmail, moveToSpamFolder,
    updateAnalyzedUntil, toISOString, emailDateOf.
  keeps; exact I.
Qed.

(** C4, amended.  A notification that finds the connection handle released
    does nothing.  Otherwise the listener first asks for the current total
    [total], and goes on when it arrives, from the watcher [w1] as the other
    listeners and callbacks have left it meanwhile.  If the handle was
    released meanwhile, nothing is searched, classified or moved.  If the
    count equals the total, no sequence range is fetched: the announcement
    is logged and, unless a backfill is marked in flight, the scan from the
    watermark is started.  If the count differs and the handle stays where
    it is, exactly the range [[total - count + 1, total]] is searched and,
    when no relocation throws, every message of that batch goes through
    the classification and the relocation, in the order of the fetch,
    before the listener returns. *)
Theorem mail_notification_routes_by_count :
  forall (amid : nat -> Watcher -> Watcher) (w : Watcher) (count : Z),
    let r := runAmid env amid 0 (onMail toLowerCase count) w in
    (connection w = None -> trace r = [] /\ final r = w)
    /\ forall (c : Conn) (box : Box),
        connection w = Some c ->
        answer env (OpenBox c INBOX) = inr box ->
        let total := match messages_total box with
                     | Some t => t
                     | None => 0
                     end in
        let w1 := amid 0%nat w in
        (exists rest, trace r = Awaited (OpenBox c INBOX) :: rest)
        /\ (connection w1 = None ->
            searches (trace r) = [] /\ classifierCalls (trace r) = []
            /\ moves (trace r) = [])
        /\ (count = total ->
            In (Out (Log StdOut (InitialCount count))) (trace r)
            /\ (forall a b, ~ In (SeqRange a b) (searches (trace r)))
            /\ (isBackfilling w1 = true ->
                searches (trace r) = [] /\ classifierCalls (trace r) = []
                /\ moves (trace r) = [])
            /\ (isBackfilling w1 = false ->
                forall (c1 : Conn) (box1 : Box) (messages : list RawMessage),
                  let lowerBound := match emailsAnalyzedUntil w1 with
                                    | Some d => d
                                    | None => Some 0
                                    end in
                  connection w1 = Some c1 ->
                  keepsHandle amid ->
                  answer env (OpenBox c1 INBOX) = inr box1 ->
                  answer env (Search c1 (AllSince lowerBound)) = inr messages ->
                  searches (trace r) = [AllSince lowerBound]))
        /\ (count <> total ->
            forall (c1 : Conn) (box1 : Box) (messages : list RawMessage),
              connection w1 = Some c1 ->
              keepsHandle amid ->
              answer env (OpenBox c1 INBOX) = inr box1 ->
              answer env (Search c1 (SeqRange (total - count + 1) total))
              = inr messages ->
              searches (trace r) = [SeqRange (total - count + 1) total]
              /\ ((forall email,
                      In email (emailsOf env messages) ->
                      outcome (run env (onNewMails_each toLowerCase email) w1)
                      = inr tt) ->
                  classifierCalls (trace r)
                  = map (promptFor (emailAnalyzer w1))
                        (emailsOf env messages)
                  /\ moves (trace r)
                     = flat_map
                         (fun email =>
                            moves (trace (run env (onNewMails_each
                                                     toLowerCase email) w1)))
                         (emailsOf env messages))).
Proof.
  intros amid w count r. split.
  { intros Hn. subst r. rewrite onMail_afterTotal. cbn [runAmid].
    rewrite Hn. split; reflexivity. }
  intros c box Hc Hb total w1.
  pose proof (runAmid_onMail_total amid 0%nat w c count box Hc Hb) as R.
  cbv zeta in R. fold total w1 r in R.
  set (rest := runAmid env amid 1 (afterTotal toLowerCase total count) w1)
    in *.
  assert (T : searches (trace r) = searches (trace rest)
              /\ classifierCalls (trace r) = classifierCalls (trace rest)
              /\ moves (trace r) = moves (trace rest)).
  { rewrite R, trace_afterAll. repeat split. }
  destruct T as (T1 & T2 & T3). rewrite T1, T2, T3.
  split; [rewrite R; eexists; reflexivity|].
  (* what the two branches await *)
  assert (Live : (total =? count) = false ->
                 searches (trace rest)
                 = searches (trace (runAmid env amid 1
                      (onNewMails toLowerCase total count) w1))
                 /\ classifierCalls (trace rest)
                    = classifierCalls (trace (runAmid env amid 1
                         (onNewMails toLowerCase total count) w1))
                 /\ moves (trace rest)
                    = moves (trace (runAmid env amid 1
                         (onNewMails toLowerCase total count) w1)))
    by (intros E; exact (live_branch_awaits amid 1 w1 total count E)).
  assert (Back : (total =? count) = true -> isBackfilling w1 = false ->
                 searches (trace rest)
                 = searches (trace (runAmid env amid 1
                      (processHistoricalEmails toLowerCase
                         match emailsAnalyzedUntil w1 with
                         | Some d => d
                         | None => Some 0
                         end)
                      (set_isBackfilling true w1)))
                 /\ classifierCalls (trace rest)
                    = classifierCalls (trace (runAmid env amid 1
                         (processHistoricalEmails toLowerCase
                            match emailsAnalyzedUntil w1 with
                            | Some d => d
                            | None => Some 0
                            end)
                         (set_isBackfilling true w1)))
                 /\ moves (trace rest)
                    = moves (trace (runAmid env amid 1
                         (processHistoricalEmails toLowerCase
                            match emailsAnalyzedUntil w1 with
                            | Some d => d
                            | None => Some 0
                            end)
                         (set_isBackfilling true w1))))
    by (intros E Hf;
        exact (backfill_branch_awaits amid 1 w1 total count E Hf)).
  assert (Marked : (total =? count) = true -> isBackfilling w1 = true ->
                   trace rest = [Out (Log StdOut (InitialCount count))]).
  { intros E Hf. subst rest. unfold afterTotal. rewrite E.
    unfold backfillBlock. cbn [runAmid bind tryCatch tryFinally log emit].
    rewrite Hf. reflexivity. }
  split; [|split].
  - (* the handle was released meanwhile *)
    intros Hn.
    assert (N : forall lowerBound w',
               connection w' = None ->
               trace (runAmid env amid 1
                        (processHistoricalEmails toLowerCase lowerBound) w')
               = []).
    { intros lowerBound w' Hw'. unfold processHistoricalEmails.
      cbn [runAmid]. rewrite Hw'. reflexivity. }
    destruct (total =? count) eqn:E.
    + destruct (isBackfilling w1) eqn:Hf.
      * rewrite (Marked eq_refl eq_refl). repeat split.
      * destruct (Back eq_refl eq_refl) as (B1 & B2 & B3).
        rewrite B1, B2, B3, N by exact Hn. repeat split.
    + destruct (Live eq_refl) as (L1 & L2 & L3). rewrite L1, L2, L3.
      unfold onNewMails. cbn [runAmid]. rewrite Hn. repeat split.
  - (* the count is the total *)
    intros ->. assert (E : (total =? total) = true) by apply Z.eqb_refl.
    split; [|split; [|split]].
    + rewrite R, trace_afterAll. right. subst rest. unfold afterTotal.
      rewrite E. cbn [runAmid bind log emit after trace]. left. reflexivity.
    + apply no_range_search. intros o Ho.
      exact (proj1 (proj2 (runAmid_keeps env amid _ _ _ _ (fun _ _ _ => I)
                             (keeps_backfill total total E) 1 w1 I)) o Ho).
    + intros Hf. rewrite (Marked E Hf). repeat split.
    + intros Hf c1 box1 messages lowerBound Hc1 Hk Hb1 Hs.
      destruct (Back E Hf) as (B1 & _). rewrite B1. fold lowerBound.
      destruct (runAmid_alike env amid sameHandle sameHandle_trans Hk _ _
                  (alike_processHistoricalEmails toLowerCase lowerBound)
                  1 (set_isBackfilling true w1) (set_isBackfilling true w1)
                  (sameHandle_refl _)) as (A1 & _).
      rewrite A1.
      rewrite (run_processHistoricalEmails toLowerCase env
                 (set_isBackfilling true w1) c1 lowerBound box1 messages
                 Hc1 Hb1 Hs).
      cbn [trace]. rewrite searches_app, searches_flat_map; [reflexivity|].
      intros m.
      exact (proj2 (proj2 (proj2
               (processHistoricalEmails_each_calls toLowerCase env
                  (set_isBackfilling true w1) lowerBound m)))).
  - (* the count differs *)
    intros Hne c1 box1 messages Hc1 Hk Hb1 Hs.
    assert (E : (total =? count) = false)
      by (apply Z.eqb_neq; congruence).
    destruct (Live E) as (L1 & L2 & L3). rewrite L1, L2, L3.
    destruct (runAmid_alike env amid sameHandle sameHandle_trans Hk _ _
                (alike_onNewMails toLowerCase total count)
                1 w1 w1 (sameHandle_refl _)) as (A1 & _).
    rewrite A1.
    destruct (run_onNewMails toLowerCase env w1 c1 total count box1 messages
                Hc1 Hb1 Hs) as (_ & N2 & N3).
    split; [exact N2|]. intros Hok. split.
    + exact (proj2 (N3 Hok)).
    + exact (run_onNewMails_moves w1 c1 total count box1 messages
               Hc1 Hb1 Hs Hok).
Qed.

End NotificationAmid.

(** The sample interleavings are runs of the event loop: [stopWatching]
    called between the notification and the answer about the total, and
    between the two answers to [connect]. *)
Lemma stoppedAt_on_the_event_loop :
  (let W := exec JS.asciiLower (start watcher)
              [Fire (MailEvent 2) (envOf calm); Fire StopWatching (envOf calm);
               Resume 0 (envOf calm)] in
   tasks W = []
   /\ this W
      = Semantics.final
          (Semantics.runAmid (envOf calm) (stoppedAt 0) 0
             (onMail JS.asciiLower 2) watcher))
  /\ (let W := exec JS.asciiLower (start reconnectingWatcher)
                 [Fire ReconnectTimer (envOf calm); Resume 0 (envOf calm);
                  Fire StopWatching (envOf calm); Resume 0 (envOf calm)] in
      tasks W = []
      /\ this W
         = Semantics.final
             (Semantics.runAmid (envOf calm) (stoppedAt 1) 0
                reconnectCallback reconnectingWatcher)).
Proof. vm_compute. repeat split. Qed.

(** C4 as stated fails when the handle was released: with a mailbox of 5
    messages and a notified count of 2 the listener neither asks for the
    total nor fetches the range [4, 5]. *)
Lemma notification_without_connection_is_dropped :
  let r := Semantics.run (envOf calm) (onMail JS.asciiLower 2)
             (State.set_connection None watcher) in
  Semantics.trace r = []
  /\ ~ In (Imap.SeqRange 4 5) (searches (Semantics.trace r)).
Proof. split; [reflexivity | intros []]. Qed.

Lemma mail_notification_witness :
  State.connection watcher = Some 1%nat
  /\ Semantics.answer (envOf calm) (Imap.OpenBox 1%nat INBOX)
     = inr {| Imap.messages_total := Some 5%Z |}
  /\ (2 <> 5)%Z
  /\ keepsHandle alone
  /\ (forall email,
         In email (emailsOf (envOf calm) (sc_messages calm)) ->
         Semantics.outcome
           (Semantics.run (envOf calm) (onNewMails_each JS.asciiLower email)
                          watcher) = inr tt)
  /\ searches (Semantics.trace
                 (Semantics.runAmid (envOf calm) alone 0
                    (onMail JS.asciiLower 2) watcher))
     = [Imap.SeqRange 4 5]
  /\ classifierCalls
       (Semantics.trace
          (Semantics.runAmid (envOf calm) alone 0
             (onMail JS.asciiLower 2) watcher))
     = [promptFor (State.emailAnalyzer watcher) newEmail;
        promptFor (State.emailAnalyzer watcher) oldEmail]
  /\ moves
       (Semantics.trace
          (Semantics.runAmid (envOf calm) alone 0
             (onMail JS.asciiLower 2) watcher))
     = [(11%N, JS.lit "INBOX/Spam"); (12%N, JS.lit "INBOX/Spam")]
  /\ State.connection (stoppedAt 0 0%nat watcher) = None
  /\ searches (Semantics.trace
                 (Semantics.runAmid (envOf calm) (stoppedAt 0) 0
                    (onMail JS.asciiLower 2) watcher))
     = [].
Proof.
  assert (Hok : forall email,
             In email (emailsOf (envOf calm) (sc_messages calm)) ->
             Semantics.outcome
               (Semantics.run (envOf calm)
                  (onNewMails_each JS.asciiLower email) watcher) = inr tt).
  { intros email [<-|[<-|[]]]; vm_compute; reflexivity. }
  assert (Hne : (2 <> 5)%Z) by discriminate.
  assert (Hk : keepsHandle alone) by (intros n w; repeat split).
  destruct (mail_notification_routes_by_count JS.asciiLower (envOf calm)
              alone watcher 2%Z) as [_ H].
  destruct (H 1%nat {| Imap.messages_total := Some 5%Z |} eq_refl eq_refl)
    as (_ & _ & _ & L).
  destruct (L Hne 1%nat {| Imap.messages_total := Some 5%Z |}
              (sc_messages calm) eq_refl Hk eq_refl eq_refl) as [S C].
  destruct (mail_notification_routes_by_count JS.asciiLower (envOf calm)
              (stoppedAt 0) watcher 2%Z) as [_ H'].
  destruct (H' 1%nat {| Imap.messages_total := Some 5%Z |} eq_refl eq_refl)
    as (_ & N & _).
  split; [reflexivity|]. split; [reflexivity|]. split; [exact Hne|].
  split; [exact Hk|]. split; [exact Hok|]. split; [exact S|].
  split; [rewrite (proj1 (C Hok)); reflexivity|].
  split; [rewrite (proj2 (C Hok)); reflexivity|].
  split; [reflexivity|]. exact (proj1 (N eq_refl)).
Defined.

(** ** Failures inside a batch *)

(** C2 fails on the live path.  Two new messages, both above the threshold;
    moving the first one throws.  The loop of [onNewMails] has no [try]
    around a message: the exception leaves the loop, the second message is
    never classified, and the watermark is not written.  The backfill scan,
    whose loop has the [try], goes on to the second message on the same
    input. *)
Theorem live_batch_stops_at_failed_relocation :
  let env := envOf firstMoveFails in
  let live := Semantics.trace
                (Semantics.run env (onMail JS.asciiLower 2) watcher) in
  let scan := Semantics.trace
                (Semantics.run env
                   (processHistoricalEmails JS.asciiLower (Some 0%Z))
                   watcher) in
  classifierCalls live = [promptFor (State.emailAnalyzer watcher) newEmail]
  /\ moves live = [(11%N, JS.lit "INBOX/Spam")]
  /\ In (Semantics.Out (Imap.Log Imap.StdErr (Imap.NewMailError failure)))
        live
  /\ ~ In (Semantics.Did Imap.DateNow) live
  /\ classifierCalls scan
     = [promptFor (State.emailAnalyzer watcher) newEmail;
        promptFor (State.emailAnalyzer watcher) oldEmail]
  /\ moves scan = [(11%N, JS.lit "INBOX/Spam"); (12%N, JS.lit "INBOX/Spam")].
Proof.
  cbv zeta. repeat split; try (vm_compute; reflexivity).
  - vm_compute. auto 20.
  - vm_compute. intros H.
    repeat (destruct H as [H|H]; [discriminate H|]). exact H.
Qed.

(** ** Overlapping backfill scans *)

(** C1 fails on the code.  The [finally] block of the listener clears
    [isBackfilling] also in the listener that found the flag set and started
    nothing.  While the first scan waits for its search, a second
    announcement is passed over but clears the flag; a third one then finds
    it clear and starts a second scan: two scans wait for their search at
    the same time. *)
Theorem ignored_announcement_clears_flag_of_running_scan :
  let W1 := exec JS.asciiLower (start watcher) (firstn 3 twoAnnouncements) in
  let W2 := exec JS.asciiLower (start watcher) twoAnnouncements in
  let W3 := exec JS.asciiLower (start watcher)
              (twoAnnouncements ++ thirdAnnouncement) in
  (map pending (tasks W1)
   = [Imap.Search 1%nat (Imap.AllSince (Some 0%Z))]
   /\ State.isBackfilling (this W1) = true)
  /\ (map pending (tasks W2)
      = [Imap.Search 1%nat (Imap.AllSince (Some 0%Z))]
      /\ State.isBackfilling (this W2) = false)
  /\ map pending (tasks W3)
     = [Imap.Search 1%nat (Imap.AllSince (Some 0%Z));
        Imap.Search 1%nat (Imap.AllSince (Some 0%Z))].
Proof. cbv zeta. repeat split; vm_compute; reflexivity. Qed.

(** ** The bound on reconnection attempts *)

(** Closes the side conditions of a [Keeps] goal about the counter. *)
Ltac counter_side :=
  match goal with
  | |- anyOp _ => exact I
  | |- anyOutput _ => exact I
  | |- notTimeout _ => first [exact I | exfalso]
  | |- _ => idtac
  end;
  unfold attemptsInRange, atBound, State.maxReconnectAttempts in *;
  cbn [State.reconnectAttempts State.isReconnecting State.set_connection
       State.set_isWatching State.set_isReconnecting
       State.set_reconnectAttempts State.set_reconnectTimer
       State.set_keepAliveTimer State.set_emailsAnalyzedUntil
       State.set_isBackfilling] in *;
  repeat match goal with
         | H : (_ || _)%bool = false |- _ =>
             apply orb_false_iff in H; destruct H
         | H : (_ <=? _)%Z = false |- _ => apply Z.leb_gt in H
         | H : (_ <=? _)%Z = true |- _ => apply Z.leb_le in H
         end;
  try lia.

Section Counter.
Import JS Analyzer Imap State Async Semantics.
Local Open Scope Z_scope.

Variable toLowerCase : str -> str.

Lemma keeps_scheduleReconnection_range :
  Keeps attemptsInRange anyOp anyOutput scheduleReconnection.
Proof. unfold scheduleReconnection. keeps; counter_side. Qed.

Lemma keeps_connect_range :
  Keeps attemptsInRange anyOp anyOutput connect.
Proof.
  unfold connect, setupConnectionHandlers, startKeepAlive, stopKeepAlive.
  keeps; counter_side.
Qed.

(** Whatever the event loop starts keeps the counter within its bound. *)
Lemma keeps_entry_range e :
  Keeps attemptsInRange anyOp anyOutput (entryProg toLowerCase e).
Proof.
  destruct e; unfold entryProg.
  - unfold onMail, getTotalMessages, onNewMails, fetchEmailsBatch,
      processHistoricalEmails, processHistoricalEmails_each,
      onNewMails_each, isScamEmail, moveToSpamFolder, updateAnalyzedUntil,
      toISOString, emailDateOf.
    keeps; counter_side.
    (* the loop of fetchEmailsBatch *)
    match goal with |- Keeps _ _ _ (parseBatch ?l ?acc) =>
      generalize acc; induction l as [|m rest IH]; intros acc';
      [constructor | rewrite parseBatch_cons; unfold emailDateOf;
                     keeps; counter_side; apply IH]
    end.
  - unfold onError, handleConnectionError, cleanupConnection, stopKeepAlive,
      scheduleReconnection. keeps; counter_side.
  - unfold onClose, handleConnectionError, cleanupConnection, stopKeepAlive,
      scheduleReconnection. keeps; counter_side.
  - unfold reconnectCallback. keeps;
      try apply keeps_connect_range;
      try apply keeps_scheduleReconnection_range; counter_side.
  - unfold keepAliveCallback, handleConnectionError, cleanupConnection,
      stopKeepAlive, scheduleReconnection. keeps; counter_side.
  - unfold startWatching, stopWatching, cleanupConnection, stopKeepAlive.
    keeps; try apply keeps_connect_range;
      try apply keeps_scheduleReconnection_range; counter_side.
  - unfold stopWatching, cleanupConnection, stopKeepAlive.
    keeps; counter_side.
Qed.

(** Up to the next suspension point. *)
Lemma advance_keeps (I : Watcher -> Prop) P Q {A} (p : Prog A) sync :
  Keeps I P Q p ->
  forall w, I w ->
    I (reached (advance sync p w))
    /\ match next (advance sync p w) with
       | Suspended o k => forall r, Keeps I P Q (k r)
       | Finished _ => True
       end.
Proof.
  induction 1 as [a|e|k _ IH|w' k Hw' _ IH|o k Ho _ IH|s k _ IH|o k Ho Hk _];
    intros w Hw; simpl; auto.
Qed.

Lemma suspendedTask_inRange (n : Next unit) :
  match n with
  | Suspended o k => forall r, Keeps attemptsInRange anyOp anyOutput (k r)
  | Finished _ => True
  end ->
  Forall (fun t => forall r,
            Keeps attemptsInRange anyOp anyOutput (resume t r))
         (suspendedTask n).
Proof.
  destruct n as [r|o k]; intros H; simpl; constructor; [exact H|constructor].
Qed.

Lemma turn_inRange W t :
  worldInRange W -> worldInRange (turn toLowerCase W t).
Proof.
  intros [Hw Ht]. destruct t as [e env|i env]; simpl.
  - destruct (advance_keeps _ _ _ _ (answerSync env) (keeps_entry_range e)
                (this W) Hw) as [H1 H2].
    split; [exact H1|]. apply Forall_app. split; [exact Ht|].
    apply suspendedTask_inRange. exact H2.
  - destruct (nth_error (tasks W) i) as [t|] eqn:E; [|split; assumption].
    assert (Kt : forall r, Keeps attemptsInRange anyOp anyOutput (resume t r)).
    { apply nth_error_In in E. rewrite Forall_forall in Ht. exact (Ht t E). }
    destruct (advance_keeps _ _ _ _ (answerSync env)
                (Kt (answer env (pending t))) (this W) Hw) as [H1 H2].
    split; [exact H1|]. simpl.
    apply Forall_app. split.
    + rewrite Forall_forall in *. intros x Hx. apply Ht.
      rewrite <- (firstn_skipn i (tasks W)). apply in_or_app. left. exact Hx.
    + apply Forall_app. split; [apply suspendedTask_inRange; exact H2|].
      rewrite Forall_forall in *. intros x Hx. apply Ht.
      rewrite <- (firstn_skipn (S i) (tasks W)). apply in_or_app. right.
      exact Hx.
Qed.

Lemma exec_inRange turns :
  forall W, worldInRange W -> worldInRange (exec toLowerCase W turns).
Proof.
  unfold exec. induction turns as [|t rest IH]; intros W H; simpl;
    [exact H|]. apply IH. apply turn_inRange. exact H.
Qed.

(** [connect] resets the counter when it succeeds and leaves it when it
    throws; it arms no reconnection timer. *)
Lemma connect_counter env w :
  (outcome (run env connect w) = inr tt ->
   reconnectAttempts (final (run env connect w)) = 0)
  /\ (forall e, outcome (run env connect w) = inl e ->
                reconnectAttempts (final (run env connect w))
                = reconnectAttempts w)
  /\ timeouts (trace (run env connect w)) = [].
Proof.
  unfold connect, setupConnectionHandlers, startKeepAlive, stopKeepAlive.
  rewrite run_tryCatch. runs.
  destruct (answer env ImapConnect) as [e|c]; runs_state.
  { cbn [outcome final trace]. repeat split; intros; try discriminate;
      reflexivity. }
  destruct (answer env (OpenBox c INBOX)) as [e|box]; runs_state.
  { cbn [outcome final trace]. repeat split; intros; try discriminate;
      reflexivity. }
  destruct (keepAliveTimer w); runs_state;
    cbn [outcome final trace]; repeat split; intros; try discriminate;
    reflexivity.
Qed.

Lemma no_timeouts t :
  (forall o, In (Out o) t -> notTimeout o) -> timeouts t = [].
Proof.
  induction t as [|ev t IH]; intros H; [reflexivity|].
  simpl. rewrite IH by (intros o Ho; apply H; right; exact Ho).
  destruct ev as [o|s|o]; try reflexivity.
  destruct o; try reflexivity.
  exfalso. exact (H _ (or_introl eq_refl)).
Qed.

Lemma timeouts_app a b : timeouts (a ++ b) = timeouts a ++ timeouts b.
Proof. apply flat_map_app. Qed.

(** At the bound a failure signal arms no timer and leaves the counter at
    the bound. *)
Lemma keeps_failure_signal_at_bound e :
  isFailureSignal e ->
  Keeps atBound anyOp notTimeout (entryProg toLowerCase e).
Proof.
  destruct e; intros []; unfold entryProg, onError, onClose,
    keepAliveCallback, handleConnectionError, cleanupConnection,
    stopKeepAlive, scheduleReconnection; keeps; counter_side.
Qed.

(** A failed attempt at the bound: exhaustion is logged, no timer armed. *)
Lemma reconnectCallback_exhausted env w e :
  atBound w ->
  outcome (run env connect w) = inl e ->
  timeouts (trace (run env reconnectCallback w)) = []
  /\ In (Out (Log StdErr MaxAttemptsReached))
        (trace (run env reconnectCallback w))
  /\ reconnectAttempts (final (run env reconnectCallback w))
     = reconnectAttempts w.
Proof.
  intros Hb Ho. destruct (connect_counter env w) as (_ & Hkeep & Ht).
  specialize (Hkeep e Ho).
  unfold reconnectCallback. rewrite run_tryCatch, run_bind.
  destruct (run env connect w) as [w1 t1 o1].
  cbn [final trace outcome] in *. subst o1.
  rewrite thenR_err, catchR_err. runs.
  rewrite run_scheduleReconnection_exhausted
    by (unfold atBound in Hb; cbn [reconnectAttempts set_isReconnecting];
        lia).
  runs. cbn [final trace outcome]. split; [|split].
  - rewrite !timeouts_app, Ht. reflexivity.
  - apply in_or_app. right. simpl. auto.
  - exact Hkeep.
Qed.

(** C5.  Along every sequence of listener and timer activations, calls of
    the interface and answers of the collaborators, the counter of
    reconnection attempts stays within [0, 5].  [connect] sets it to zero
    when it succeeds and leaves it alone when it throws, and neither the
    scheduler nor a failure signal ever lowers it.  Once it is at the bound
    the scheduler only logs exhaustion; a failure signal arms no timer, and
    neither does a reconnection attempt that fails. *)
Theorem reconnect_attempts_bounded_reset_on_connect :
  forall lbl path user threshold analyzedUntil bodyMax,
    (forall turns,
        let W := exec toLowerCase
                   (start (newWatcher lbl path user threshold analyzedUntil
                                      bodyMax)) turns in
        0 <= reconnectAttempts (this W) <= maxReconnectAttempts)
    /\ maxReconnectAttempts = 5
    /\ (forall env w,
           (outcome (run env connect w) = inr tt ->
            reconnectAttempts (final (run env connect w)) = 0)
           /\ (forall e, outcome (run env connect w) = inl e ->
                         reconnectAttempts (final (run env connect w))
                         = reconnectAttempts w)
           /\ reconnectAttempts w
              <= reconnectAttempts (final (run env scheduleReconnection w))
           /\ reconnectAttempts w
              <= reconnectAttempts (final (run env handleConnectionError w)))
    /\ (forall env w,
           maxReconnectAttempts <= reconnectAttempts w ->
           run env scheduleReconnection w
           = {| final := w; trace := [Out (Log StdErr MaxAttemptsReached)];
                outcome := inr tt |}
           /\ (forall e,
                  isFailureSignal e ->
                  timeouts (trace (run env (entryProg toLowerCase e) w)) = []
                  /\ maxReconnectAttempts
                     <= reconnectAttempts
                          (final (run env (entryProg toLowerCase e) w)))
           /\ (forall e,
                  outcome (run env connect w) = inl e ->
                  timeouts (trace (run env reconnectCallback w)) = []
                  /\ In (Out (Log StdErr MaxAttemptsReached))
                        (trace (run env reconnectCallback w)))).
Proof.
  intros lbl path user threshold analyzedUntil bodyMax.
  split; [|split; [reflexivity|split]].
  - intros turns W.
    assert (H0 : worldInRange
                   (start (newWatcher lbl path user threshold analyzedUntil
                                      bodyMax))).
    { split; [|constructor].
      unfold attemptsInRange, maxReconnectAttempts. simpl. lia. }
    destruct (exec_inRange turns _ H0) as [H _]. exact H.
  - intros env w. destruct (connect_counter env w) as (C1 & C2 & _).
    split; [exact C1|]. split; [exact C2|].
    assert (K1 : Keeps (fun w' => reconnectAttempts w <= reconnectAttempts w')
                       anyOp anyOutput scheduleReconnection).
    { unfold scheduleReconnection. keeps; counter_side. }
    assert (K2 : Keeps (fun w' => reconnectAttempts w <= reconnectAttempts w')
                       anyOp anyOutput handleConnectionError).
    { unfold handleConnectionError, cleanupConnection, stopKeepAlive,
        scheduleReconnection. keeps; counter_side. }
    split.
    + exact (proj1 (run_keeps env _ _ _ _ K1 w (Z.le_refl _))).
    + exact (proj1 (run_keeps env _ _ _ _ K2 w (Z.le_refl _))).
  - intros env w Hb. split; [|split].
    + apply run_scheduleReconnection_exhausted. exact Hb.
    + intros e He.
      destruct (run_keeps env _ _ _ _ (keeps_failure_signal_at_bound e He)
                  w Hb) as (H1 & _ & H3).
      split; [apply no_timeouts; exact H3 | exact H1].
    + intros e He.
      destruct (reconnectCallback_exhausted env w e Hb He) as (H1 & H2 & _).
      split; assumption.
Qed.

End Counter.

Lemma reconnect_attempts_witness :
  let w5 := State.set_reconnectAttempts 5%Z watcher in
  (State.maxReconnectAttempts <= State.reconnectAttempts w5)%Z
  /\ isFailureSignal ErrorEvent
  /\ Semantics.outcome (Semantics.run (envOf offline) connect w5) = inl failure
  /\ Semantics.outcome (Semantics.run (envOf calm) connect w5) = inr tt
  /\ timeouts (Semantics.trace
                 (Semantics.run (envOf offline)
                    (entryProg JS.asciiLower ErrorEvent) w5)) = []
  /\ timeouts (Semantics.trace
                 (Semantics.run (envOf offline) reconnectCallback w5)) = []
  /\ State.reconnectAttempts
       (Semantics.final (Semantics.run (envOf calm) connect w5)) = 0%Z.
Proof.
  intros w5.
  destruct (reconnect_attempts_bounded_reset_on_connect JS.asciiLower
              None None None 80 None 3000%Z) as (_ & _ & R & B).
  assert (Hb : (State.maxReconnectAttempts <= State.reconnectAttempts w5)%Z)
    by (vm_compute; discriminate).
  assert (Hf : Semantics.outcome
                 (Semantics.run (envOf offline) connect w5) = inl failure)
    by reflexivity.
  assert (Hs : Semantics.outcome
                 (Semantics.run (envOf calm) connect w5) = inr tt)
    by reflexivity.
  destruct (B (envOf offline) w5 Hb) as (_ & S & C).
  split; [exact Hb|]. split; [exact I|]. split; [exact Hf|].
  split; [exact Hs|]. split; [exact (proj1 (S ErrorEvent I))|].
  split; [exact (proj1 (C failure Hf))|].
  exact (proj1 (R (envOf calm) w5) Hs).
Defined.

(** The scenario of the specification: after [startWatching] failed and
    five attempts failed in a row the counter is 5, five timers were armed,
    exhaustion was logged; a sixth failure signal arms no further timer. *)
Lemma five_failures_then_no_timer :
  let W := exec JS.asciiLower
             (start (State.newWatcher None None None 80 None 3000))
             fiveFailedAttempts in
  let W' := turn JS.asciiLower W (Fire ErrorEvent (envOf offline)) in
  State.reconnectAttempts (this W) = 5%Z
  /\ List.length (timeouts (history W)) = 5%nat
  /\ In (Semantics.Out (Imap.Log Imap.StdErr Imap.MaxAttemptsReached))
        (history W)
  /\ List.length (timeouts (history W')) = 5%nat.
Proof.
  cbv zeta. repeat split; try (vm_compute; reflexivity).
  vm_compute. auto 60.
Qed.

(* ================================================================== *)
(** * Part IV: further properties *)
(* ================================================================== *)

(** ** The words of a sanitised text *)

Section Words.
Import JS Analyzer.

Lemma visible_not_ws c : isVisible c = true -> isWhiteSpace c = false.
Proof.
  unfold isVisible. intros H. apply andb_true_iff in H.
  destruct (isWhiteSpace c); [destruct H; discriminate | reflexivity].
Qed.

Lemma ws_not_visible c : isWhiteSpace c = true -> isVisible c = false.
Proof. unfold isVisible. intros ->. reflexivity. Qed.

Lemma words_drop c r : isVisible c = false -> words (c :: r) = words r.
Proof. intros H. simpl. rewrite H. reflexivity. Qed.

(** The words of a text depend on its head only through its visibility. *)
Lemma words_cons c r r' :
  words r = words r' ->
  isVisible (hd 0%N r) = isVisible (hd 0%N r') ->
  (r = [] <-> r' = []) ->
  words (c :: r) = words (c :: r').
Proof.
  intros Hw Hh He. simpl. destruct (isVisible c); [|exact Hw].
  destruct r as [|d t], r' as [|d' t']; try reflexivity.
  - exfalso. assert (F : d' :: t' = []) by (apply He; reflexivity).
    discriminate.
  - exfalso. assert (F : d :: t = []) by (apply He; reflexivity).
    discriminate.
  - simpl in Hh. rewrite <- Hh, Hw. reflexivity.
Qed.

Lemma words_replaceControls s : words (replaceControls s) = words s.
Proof.
  unfold replaceControls. induction s as [|c r IH]; [reflexivity|].
  cbn [map]. destruct (isStrippedControl c) eqn:E.
  - rewrite (words_drop 32 _ eq_refl), IH. symmetry. apply words_drop.
    unfold isVisible. rewrite E, andb_false_r. reflexivity.
  - apply words_cons; [exact IH | | destruct r; simpl; split; congruence].
    destruct r as [|d t]; [reflexivity|]. cbn [map hd].
    destruct (isStrippedControl d) eqn:D; [|reflexivity].
    unfold isVisible at 2. rewrite D, andb_false_r. reflexivity.
Qed.

Lemma collapseFrom_head c r :
  isWhiteSpace c = false ->
  isVisible (hd 0%N (collapseFrom false r)) = isVisible (hd 0%N r)
  /\ (collapseFrom false r = [] <-> r = []).
Proof.
  intros _. destruct r as [|d t]; [simpl; tauto|]. simpl.
  destruct (isWhiteSpace d) eqn:D; simpl.
  - rewrite (ws_not_visible d D). split; [reflexivity | split; discriminate].
  - split; [reflexivity | split; discriminate].
Qed.

Lemma words_collapseFrom s : forall b, words (collapseFrom b s) = words s.
Proof.
  induction s as [|c r IH]; intros b; [reflexivity|]. simpl collapseFrom.
  destruct (isWhiteSpace c) eqn:W.
  - rewrite (words_drop c r (ws_not_visible c W)).
    destruct b; [apply IH|]. rewrite (words_drop 32 _ eq_refl). apply IH.
  - destruct (collapseFrom_head c r W) as [Hh He].
    apply words_cons; [apply IH | exact Hh | exact He].
Qed.

Lemma words_trimStart s : words (trimStart s) = words s.
Proof.
  induction s as [|c r IH]; [reflexivity|]. simpl trimStart.
  destruct (isWhiteSpace c) eqn:W; [|reflexivity].
  rewrite IH. symmetry. apply words_drop, ws_not_visible, W.
Qed.

Lemma trimEnd_nil_ws c r : trimEnd (c :: r) = [] -> isWhiteSpace c = true.
Proof.
  simpl. destruct (trimEnd r); [|discriminate].
  destruct (isWhiteSpace c); [reflexivity | discriminate].
Qed.

Lemma words_trimEnd s : words (trimEnd s) = words s.
Proof.
  induction s as [|c r IH]; [reflexivity|]. simpl trimEnd.
  destruct (trimEnd r) as [|d t] eqn:E.
  - destruct (isWhiteSpace c) eqn:W.
    + rewrite (words_drop c r (ws_not_visible c W)), <- IH. reflexivity.
    + destruct r as [|d t]; [reflexivity|].
      pose proof (trimEnd_nil_ws d t E) as D.
      change (words (c :: d :: t))
        with (if isVisible c
              then if isVisible d then consHead c (words (d :: t))
                   else [c] :: words (d :: t)
              else words (d :: t)).
      rewrite (ws_not_visible d D), <- IH. simpl.
      destruct (isVisible c); reflexivity.
  - apply words_cons; [exact IH | |].
    + destruct (trimEnd_hd r) as [F|F]; [congruence|]. rewrite E in F.
      rewrite <- F. reflexivity.
    + split; [discriminate|]. intros ->. discriminate.
Qed.

Lemma words_sanitizeText text : words (sanitizeText text) = words text.
Proof.
  unfold sanitizeText, trim, collapseWhiteSpace.
  destruct text as [|c r]; [reflexivity|]. cbn [truthy].
  rewrite words_trimEnd, words_trimStart, words_collapseFrom.
  apply words_replaceControls.
Qed.

Lemma joinWords_consHead c ws :
  ws <> [] -> joinWords (consHead c ws) = c :: joinWords ws.
Proof. destruct ws as [|w [|w' r]]; [congruence | reflexivity ..]. Qed.

(** A text with single spaces between its words, and none around them, is
    its words joined by spaces. *)
Lemma joinWords_words s :
  Forall (fun c => isAsciiControl c = false
                   /\ (isWhiteSpace c = true -> c = 32%N)) s ->
  noAdjacentWhiteSpace s = true ->
  isWhiteSpace (last s 0%N) = false ->
  joinWords (words s) = trimStart s /\ (trimStart s <> [] -> words s <> []).
Proof.
  induction s as [|c r IH]; intros Hu Hr Hl; [split; [reflexivity | tauto]|].
  inversion Hu as [|? ? [Hc Hs] Hu']; subst.
  assert (Hr' : noAdjacentWhiteSpace r = true).
  { simpl in Hr. apply andb_true_iff in Hr. tauto. }
  destruct (isWhiteSpace c) eqn:W.
  - (* a space before the first word *)
    destruct r as [|d t]; [simpl in Hl; congruence|].
    rewrite (words_drop c _ (ws_not_visible c W)). simpl trimStart. rewrite W.
    apply IH; auto.
  - assert (V : isVisible c = true).
    { unfold isVisible. rewrite W. simpl.
      destruct (isStrippedControl c) eqn:S; [|reflexivity].
      apply stripped_is_control in S. congruence. }
    simpl trimStart. rewrite W. simpl words. rewrite V.
    destruct r as [|d t]; [split; [reflexivity | discriminate]|].
    assert (Hl' : isWhiteSpace (last (d :: t) 0%N) = false) by exact Hl.
    destruct (IH Hu' Hr' Hl') as [IHj IHn].
    destruct (isVisible d) eqn:D.
    + pose proof (visible_not_ws d D) as Wd.
      simpl trimStart in IHj, IHn. rewrite Wd in IHj, IHn.
      assert (N : words (d :: t) <> []) by (apply IHn; discriminate).
      split; [|destruct (words (d :: t)); [congruence | discriminate]].
      rewrite joinWords_consHead by exact N. rewrite IHj. reflexivity.
    + (* [d] is the space after the word [c] *)
      assert (Wd : isWhiteSpace d = true).
      { inversion Hu' as [|? ? [Hd _] _]; subst.
        destruct (isWhiteSpace d) eqn:Wd; [reflexivity|].
        unfold isVisible in D. rewrite Wd in D. simpl in D.
        apply negb_false_iff in D. apply stripped_is_control in D.
        congruence. }
      inversion Hu' as [|? ? [_ Hd] _]; subst. specialize (Hd Wd). subst d.
      destruct t as [|e t']; [simpl in Hl; discriminate|].
      assert (We : isWhiteSpace e = false).
      { simpl in Hr'. apply andb_true_iff in Hr'. destruct Hr' as [Hr' _].
        simpl in Hr'. destruct (isWhiteSpace e); [discriminate | reflexivity]. }
      simpl trimStart in IHj, IHn. rewrite We in IHj, IHn.
      assert (N : words (32%N :: e :: t') <> []) by (apply IHn; discriminate).
      split; [|discriminate].
      cbn [joinWords]. destruct (words (32%N :: e :: t')); [congruence|].
      rewrite IHj. reflexivity.
Qed.

Lemma words_visible s :
  concat (words s) = filter isVisible s
  /\ Forall (fun word => word <> [] /\ forallb isVisible word = true)
            (words s).
Proof.
  induction s as [|c r [IHc IHf]]; [split; [reflexivity | constructor]|].
  simpl words. simpl filter. destruct (isVisible c) eqn:V; [|split; assumption].
  destruct r as [|d t].
  - split; [reflexivity|]. repeat constructor; [discriminate|].
    simpl. rewrite V. reflexivity.
  - destruct (isVisible d) eqn:D.
    + destruct (words (d :: t)) as [|w ws] eqn:E.
      * simpl in *. rewrite D in IHc. discriminate.
      * simpl consHead. split; [rewrite <- IHc; reflexivity|].
        inversion IHf as [|? ? [_ Hw] Hws]; subst.
        constructor; [|exact Hws]. split; [discriminate|].
        simpl. rewrite V. exact Hw.
    + split; [rewrite <- IHc; reflexivity|].
      constructor; [|exact IHf]. split; [discriminate|].
      simpl. rewrite V. reflexivity.
Qed.

(** X1.  [sanitizeText] returns the words of the text, in order, joined by
    single spaces, a word being a maximal run of code units that are
    neither white space nor stripped control characters: no visible code
    unit is lost, added or moved. *)
Theorem sanitizeText_joins_the_words :
  forall text : str,
    sanitizeText text = joinWords (words text)
    /\ words (sanitizeText text) = words text
    /\ filter isVisible (sanitizeText text) = filter isVisible text
    /\ concat (words text) = filter isVisible text
    /\ Forall (fun word => word <> [] /\ forallb isVisible word = true)
              (words text).
Proof.
  intros text.
  destruct (sanitizeText_Clean text) as [Hu Hr Hh Hl].
  destruct (joinWords_words _ Hu Hr Hl) as [J _].
  rewrite (trimStart_fix _ Hh), words_sanitizeText in J.
  destruct (words_visible text) as [Hc Hf].
  split; [symmetry; exact J|]. split; [apply words_sanitizeText|].
  split; [|split; assumption].
  rewrite <- (proj1 (words_visible (sanitizeText text))), words_sanitizeText.
  exact Hc.
Qed.

End Words.

(** ** The list of mailboxes *)

Section Flatten.
Import JS Imap.

Lemma pathBelow_joined names :
  forall prefix,
    truthy prefix = true -> names <> [] ->
    pathBelow prefix names = (prefix ++ lit "/" ++ joined names)%list.
Proof.
  induction names as [|name rest IH]; intros prefix T N; [contradiction|].
  cbn [pathBelow]. rewrite T. destruct rest as [|next rest].
  - reflexivity.
  - rewrite IH; [|destruct prefix; [discriminate | reflexivity]
                 |discriminate].
    cbn [joined]. rewrite <- !app_assoc. reflexivity.
Qed.

Lemma pathBelow_top name rest :
  truthy name = true -> pathBelow [] (name :: rest) = joined (name :: rest).
Proof.
  intros T. cbn [pathBelow truthy]. destruct rest as [|next rest];
    [reflexivity|].
  rewrite pathBelow_joined; [reflexivity | exact T | discriminate].
Qed.

Lemma mailboxes_mutual :
  (forall tree,
      (forall prefix,
          flattenBoxes tree prefix = map (pathBelow prefix) (mailboxes tree))
      /\ length (mailboxes tree) = countBoxes tree)
  /\ (forall node,
         (forall full,
             flattenNode node full = map (pathBelow full) (belowNode node))
         /\ length (belowNode node) = countNode node)
  /\ (forall sub,
         (forall full,
             flattenSub sub full = map (pathBelow full) (belowSub sub))
         /\ length (belowSub sub) = countSub sub).
Proof.
  apply boxes_mutind.
  - split; reflexivity.
  - intros name node [IHn Ln] rest [IHr Lr]. split.
    + intros prefix. cbn [flattenBoxes mailboxes map]. cbv zeta.
      rewrite map_app, map_map, IHn, IHr. reflexivity.
    + cbn [mailboxes countBoxes length].
      rewrite length_app, length_map, Ln, Lr. reflexivity.
  - split; reflexivity.
  - intros children [IHc Lc] boxes [IHb Lb]. split.
    + intros full. cbn [flattenNode belowNode].
      rewrite map_app, IHc, IHb. reflexivity.
    + cbn [belowNode countNode]. rewrite length_app, Lc, Lb. reflexivity.
  - split; reflexivity.
  - intros tree [IH L]. split; [exact IH | exact L].
Qed.

Lemma mailboxes_named :
  (forall tree names, In names (mailboxes tree) -> names <> [])
  /\ (forall node names, In names (belowNode node) -> names <> [])
  /\ (forall sub names, In names (belowSub sub) -> names <> []).
Proof.
  apply boxes_mutind.
  - intros names [].
  - intros name node IHn rest IHr names. cbn [mailboxes].
    intros [<-|H]; [discriminate|].
    apply in_app_or in H. destruct H as [H|H]; [|exact (IHr _ H)].
    apply in_map_iff in H. destruct H as (x & <- & _). discriminate.
  - intros names [].
  - intros children IHc boxes IHb names H. cbn [belowNode] in H.
    apply in_app_or in H. destruct H as [H|H]; eauto.
  - intros names [].
  - intros tree IH names H. exact (IH _ H).
Qed.

Lemma isUnder_trans p name s :
  isUnder (p ++ lit "/" ++ name) s -> isUnder p s.
Proof.
  intros [rest ->]. exists (name ++ lit "/" ++ rest).
  rewrite <- !app_assoc. reflexivity.
Qed.

Lemma topNames_listed tree :
  incl (topNames tree) (flattenBoxes tree []).
Proof.
  induction tree as [|name node rest IH]; [intros x []|].
  cbn [flattenBoxes topNames truthy]. cbv zeta.
  intros x [<-|Hx]; [left; reflexivity|].
  right. apply in_or_app. right. apply IH, Hx.
Qed.

(** X2.  [flattenBoxes] lists the mailboxes of the tree, each once, at
    every depth and whether its parent keeps it under [children] or under
    [boxes]: a mailbox before those below it, those under [children]
    before those under [boxes], in the order of the entries.  Each is
    listed by its full path: the names from the top of the tree down to
    it, joined by ["/"], after the prefix and a ["/"] when the prefix is
    not empty. *)
Theorem flattenBoxes_lists_every_mailbox :
  forall (tree : BoxTree) (prefix : str),
    flattenBoxes tree prefix = map (pathBelow prefix) (mailboxes tree)
    /\ length (mailboxes tree) = countBoxes tree
    /\ (forall names, In names (mailboxes tree) -> names <> [])
    /\ (forall names,
           truthy prefix = true -> names <> [] ->
           pathBelow prefix names = (prefix ++ lit "/" ++ joined names)%list)
    /\ (forall name rest,
           truthy name = true ->
           pathBelow [] (name :: rest) = joined (name :: rest))
    /\ length (flattenBoxes tree prefix) = countBoxes tree
    /\ (truthy prefix = true ->
        Forall (isUnder prefix) (flattenBoxes tree prefix))
    /\ incl (topNames tree) (flattenBoxes tree []).
Proof.
  intros tree prefix. destruct mailboxes_mutual as (Ht & _ & _).
  destruct (Ht tree) as [F L].
  split; [exact (F prefix)|]. split; [exact L|].
  split; [exact (proj1 mailboxes_named tree)|].
  split; [intros names T N; exact (pathBelow_joined names prefix T N)|].
  split; [exact pathBelow_top|].
  split; [rewrite F, length_map; exact L|].
  split; [|apply topNames_listed].
  intros T. rewrite F. apply Forall_forall. intros s Hs.
  apply in_map_iff in Hs. destruct Hs as (names & <- & Hn).
  exists (joined names).
  apply pathBelow_joined; [exact T | exact (proj1 mailboxes_named tree _ Hn)].
Qed.

End Flatten.

Lemma flattenBoxes_witness :
  JS.truthy (JS.lit "INBOX") = true
  /\ flattenBoxes nestedSpamTree []
     = [JS.lit "INBOX"; JS.lit "INBOX/Spam"; JS.lit "Junk"]
  /\ mailboxes nestedSpamTree
     = [[JS.lit "INBOX"]; [JS.lit "INBOX"; JS.lit "Spam"]; [JS.lit "Junk"]]
  /\ flattenBoxes
       (Imap.BoxEntry (JS.lit "A")
          (Imap.Node
             (Imap.Sub
                (Imap.BoxEntry (JS.lit "B")
                   (Imap.Node Imap.Absent
                      (Imap.Sub
                         (Imap.BoxEntry (JS.lit "Spam") Imap.NullNode
                            Imap.NoBoxes)))
                   Imap.NoBoxes))
             Imap.Absent)
          Imap.NoBoxes) []
     = [JS.lit "A"; JS.lit "A/B"; JS.lit "A/B/Spam"]
  /\ Forall (isUnder (JS.lit "INBOX"))
            (flattenBoxes
               (Imap.BoxEntry (JS.lit "Spam")
                  (Imap.Node Imap.Absent Imap.Absent) Imap.NoBoxes)
               (JS.lit "INBOX")).
Proof.
  split; [reflexivity|].
  split; [rewrite (proj1 (flattenBoxes_lists_every_mailbox nestedSpamTree
                            [])); reflexivity|].
  split; [reflexivity|].
  split; [match goal with
          | |- flattenBoxes ?t [] = _ =>
              rewrite (proj1 (flattenBoxes_lists_every_mailbox t []))
          end; reflexivity|].
  exact (proj1 (proj2 (proj2 (proj2 (proj2 (proj2 (proj2
           (flattenBoxes_lists_every_mailbox
              (Imap.BoxEntry (JS.lit "Spam")
                 (Imap.Node Imap.Absent Imap.Absent) Imap.NoBoxes)
              (JS.lit "INBOX")))))))) eq_refl).
Defined.

(** ** The map from lower-cased names to mailboxes *)

Section LowerToOriginal.
Import JS Imap.

Variable toLowerCase : str -> str.

Lemma lastWith_app k l1 l2 acc :
  lastWith k (l1 ++ l2) acc = lastWith k l2 (lastWith k l1 acc).
Proof. unfold lastWith. apply fold_left_app. Qed.

Lemma lastWith_other k l :
  forall acc,
    (forall kv, In kv l -> fst kv <> k) -> lastWith k l acc = acc.
Proof.
  unfold lastWith. induction l as [|[k0 v0] r IH]; intros acc H;
    [reflexivity|]. simpl.
  destruct (JS.eqb k0 k) eqn:E.
  - apply eqb_eq in E. exfalso. apply (H (k0, v0)); [left; reflexivity|].
    exact E.
  - apply IH. intros kv Hkv. apply H. right. exact Hkv.
Qed.

Lemma lowerToOriginal_get allBoxes key :
  mapGet (lowerToOriginalOf toLowerCase allBoxes) key
  = lastWith key (map (fun n => (toLowerCase n, n)) allBoxes) None.
Proof. unfold lowerToOriginalOf, newMap. apply mapGet_fold. Qed.

Lemma lowerToOriginal_last before b after :
  (forall b', In b' after -> toLowerCase b' <> toLowerCase b) ->
  mapGet (lowerToOriginalOf toLowerCase (before ++ b :: after))
         (toLowerCase b) = Some b.
Proof.
  intros H. rewrite lowerToOriginal_get, map_app, lastWith_app.
  cbn [map]. unfold lastWith at 1. cbn [fold_left fst snd].
  rewrite eqb_refl. apply lastWith_other.
  intros kv Hkv. apply in_map_iff in Hkv. destruct Hkv as [n [<- Hn]].
  apply H, Hn.
Qed.

(** X3.  The map [lowerToOriginal] gives, for a lower-cased name, the last
    mailbox of the listing that has this name up to case, and nothing when
    there is none.  So when several mailboxes are a candidate up to case,
    the resolver settles on the last of them, while among the mailboxes
    that only end with the candidate it takes the first. *)
Theorem lowerToOriginal_keeps_the_last_mailbox :
  forall (before after : list str) (b : str),
    (forall b', In b' after -> toLowerCase b' <> toLowerCase b) ->
    let allBoxes := (before ++ b :: after)%list in
    mapGet (lowerToOriginalOf toLowerCase allBoxes) (toLowerCase b) = Some b
    /\ (forall key,
           (forall n, In n allBoxes -> toLowerCase n <> key) ->
           mapGet (lowerToOriginalOf toLowerCase allBoxes) key = None)
    /\ (forall cand rest,
           toLowerCase cand = toLowerCase b -> truthy b = true ->
           pickTarget toLowerCase allBoxes
                      (lowerToOriginalOf toLowerCase allBoxes) (cand :: rest)
           = Some b).
Proof.
  intros before after b H allBoxes. subst allBoxes.
  pose proof (lowerToOriginal_last before b after H) as L.
  split; [exact L|]. split.
  - intros key Hk. rewrite lowerToOriginal_get. apply lastWith_other.
    intros kv Hkv. apply in_map_iff in Hkv. destruct Hkv as [n [<- Hn]].
    apply Hk, Hn.
  - intros cand rest Hc Hb. cbn [pickTarget]. cbv zeta.
    rewrite Hc, L. cbn [truthyOpt]. rewrite Hb. reflexivity.
Qed.

End LowerToOriginal.

Lemma lowerToOriginal_witness :
  (forall b', In b' [JS.lit "INBOX"] ->
              JS.asciiLower b' <> JS.asciiLower (JS.lit "SPAM"))
  /\ pickTarget JS.asciiLower
       [JS.lit "Spam"; JS.lit "SPAM"; JS.lit "INBOX"]
       (lowerToOriginalOf JS.asciiLower
          [JS.lit "Spam"; JS.lit "SPAM"; JS.lit "INBOX"])
       candidates
     = Some (JS.lit "SPAM").
Proof.
  assert (H : forall b', In b' [JS.lit "INBOX"] ->
                         JS.asciiLower b' <> JS.asciiLower (JS.lit "SPAM")).
  { intros b' [<-|[]]. vm_compute. discriminate. }
  split; [exact H|].
  exact (proj2 (proj2 (lowerToOriginal_keeps_the_last_mailbox JS.asciiLower
                         [JS.lit "Spam"] [JS.lit "INBOX"] (JS.lit "SPAM") H))
           (JS.lit "spam") _ eq_refl eq_refl).
Defined.

(** ** Failures of the relocation, the classifier and the parser *)

Section Failures.
Import JS Analyzer Imap State Async Semantics.
Local Open Scope Z_scope.

Variable toLowerCase : str -> str.
Variable env : Env.

(** [moveToSpamFolder] once the mailbox tree is known: the result of the
    move is the result of the whole. *)
Lemma outcome_moveToSpamFolder w c id tree :
  answer env (GetBoxes c) = inr tree ->
  let r := run env (moveToSpamFolder toLowerCase (Some c) id) w in
  let target := targetIn toLowerCase tree in
  outcome r = match answer env (MoveMessage c id target) with
              | inl e => inl e
              | inr _ => inr tt
              end
  /\ moves (trace r) = [(id, target)]
  /\ In (Out (match answer env (MoveMessage c id target) with
              | inl e => Log StdErr (MoveError id e)
              | inr _ => Log StdOut (Moved id target)
              end)) (trace r)
  /\ (In (Awaited (AddBox c (lit "Spam"))) (trace r)
      <-> resolveTarget toLowerCase tree = None).
Proof.
  intros H. unfold moveToSpamFolder, targetIn, resolveTarget. cbv zeta.
  rewrite run_tryCatch, run_bind, run_await, H, thenR_ok.
  destruct (pickTarget _ _ _ candidates) as [target|].
  - autorewrite with run.
    destruct (answer env (MoveMessage c id target)) as [e|[]];
      autorewrite with run; cbn [outcome trace moves flat_map app];
      (split; [reflexivity|]); (split; [reflexivity|]);
      (split; [simpl; auto|]); (split; [|discriminate]);
      intros [F|[F|[F|[]]]]; discriminate.
  - rewrite run_bind, run_bind, run_tryCatch, run_await.
    destruct (answer env (AddBox c _)) as [e|[]]; autorewrite with run;
      destruct (answer env (MoveMessage c id _)) as [e'|[]];
      autorewrite with run; cbn [outcome trace moves flat_map app];
      (split; [reflexivity|]); (split; [reflexivity|]);
      (split; [simpl; auto|]); (split; [reflexivity|]);
      intros _; simpl; auto.
Qed.

(** X4.  [moveToSpamFolder] reports every failure to its caller: without a
    connection handle it throws a TypeError before any mailbox operation;
    when the mailbox tree cannot be obtained it throws that error without
    requesting a move; otherwise it requests one move, to the folder the
    resolver found (or to [Spam], after trying to create it, the failure
    of which is ignored), and throws exactly when the move does.  Every
    failure is logged first, and the watcher is left as it was. *)
Theorem relocation_failure_is_logged_and_rethrown :
  forall (w : Watcher) (id : N),
    run env (moveToSpamFolder toLowerCase None id) w
    = {| final := w;
         trace := [Out (Log StdErr (MoveError id typeError))];
         outcome := inl typeError |}
    /\ forall c : Conn,
        (forall e, answer env (GetBoxes c) = inl e ->
           run env (moveToSpamFolder toLowerCase (Some c) id) w
           = {| final := w;
                trace := [Awaited (GetBoxes c);
                          Out (Log StdErr (MoveError id e))];
                outcome := inl e |})
        /\ (forall tree, answer env (GetBoxes c) = inr tree ->
              let r := run env (moveToSpamFolder toLowerCase (Some c) id) w in
              let target := targetIn toLowerCase tree in
              final r = w
              /\ moves (trace r) = [(id, target)]
              /\ (In (Awaited (AddBox c (lit "Spam"))) (trace r)
                  <-> resolveTarget toLowerCase tree = None)
              /\ (forall e,
                     answer env (MoveMessage c id target) = inl e ->
                     outcome r = inl e
                     /\ In (Out (Log StdErr (MoveError id e))) (trace r))
              /\ (answer env (MoveMessage c id target) = inr tt ->
                  outcome r = inr tt
                  /\ In (Out (Log StdOut (Moved id target))) (trace r))).
Proof.
  intros w id. split; [reflexivity|]. intros c. split.
  - intros e He. unfold moveToSpamFolder.
    rewrite run_tryCatch, run_bind, run_await, He. runs. reflexivity.
  - intros tree Ht r target.
    destruct (outcome_moveToSpamFolder w c id tree Ht) as (O & M & L & A).
    fold r target in O, M, L, A.
    split; [apply (run_moveToSpamFolder_readonly toLowerCase env w)|].
    split; [exact M|]. split; [exact A|]. split.
    + intros e He. rewrite He in O, L. split; assumption.
    + intros He. rewrite He in O, L. split; assumption.
Qed.

(** X5.  A classification that throws counts as probability 0:
    [isScamEmail] returns normally, and with a positive threshold the
    message is reported legitimate and left where it is, in the live loop
    and in the backfill scan alike.  With a threshold of 0 or less the same
    failure sends the message to the relocation. *)
Theorem classifier_failure_counts_as_probability_zero :
  forall (w : Watcher) (email : EmailContent) (e : Exn),
    answer env (MessagesCreate (promptFor (emailAnalyzer w) email)) = inl e ->
    outcome (run env (isScamEmail (emailAnalyzer w) email) w)
    = inr analysisFailed
    /\ ((0 < scamThreshold w)%Q ->
        run env (onNewMails_each toLowerCase email) w
        = {| final := w;
             trace := [Out (Log StdOut (Analyzing (subject email)));
                       Awaited (MessagesCreate
                                  (promptFor (emailAnalyzer w) email));
                       Out (Log StdOut (Legitimate (subject email)))];
             outcome := inr tt |}
        /\ forall lowerBound message,
            scanned env message = Some email ->
            isBefore (date email) lowerBound = false ->
            let r := run env (processHistoricalEmails_each toLowerCase
                                lowerBound message) w in
            moves (trace r) = [] /\ outcome r = inr tt
            /\ In (Out (Log StdOut (Legitimate (subject email)))) (trace r))
    /\ ((scamThreshold w <= 0)%Q ->
        forall c, connection w = Some c ->
          In (Awaited (GetBoxes c))
             (trace (run env (onNewMails_each toLowerCase email) w))).
Proof.
  intros w email e He.
  assert (V : verdict env (emailAnalyzer w) email = analysisFailed).
  { unfold verdict. rewrite He. reflexivity. }
  split; [rewrite run_isScamEmail, He; reflexivity|].
  assert (L : (0 < scamThreshold w)%Q ->
              run env (onNewMails_each toLowerCase email) w
              = {| final := w;
                   trace := [Out (Log StdOut (Analyzing (subject email)));
                             Awaited (MessagesCreate
                                        (promptFor (emailAnalyzer w) email));
                             Out (Log StdOut (Legitimate (subject email)))];
                   outcome := inr tt |}).
  { intros Hq. rewrite run_onNewMails_each. cbv zeta. rewrite V.
    cbn [scam_probability analysisFailed].
    destruct (Qle_bool (scamThreshold w) 0) eqn:Q.
    - apply Qle_bool_iff in Q. exfalso. lra.
    - rewrite afterAll_lit. reflexivity. }
  split.
  - intros Hq. split; [exact (L Hq)|].
    intros lowerBound message Hs Hb r. subst r.
    pose proof (run_processHistoricalEmails_each toLowerCase env w lowerBound
                  message) as R.
    cbv zeta in R. rewrite Hs, Hb in R. rewrite R, (L Hq). clear R.
    rewrite catchR_ok, afterAll_lit. cbn [trace outcome].
    destruct (parseTrace_only_parses env message) as (Pm & _).
    rewrite moves_app, Pm. split; [reflexivity|]. split; [reflexivity|].
    apply in_or_app. right. simpl. auto.
  - intros Hq c Hc. rewrite run_onNewMails_each. cbv zeta. rewrite V.
    cbn [scam_probability analysisFailed].
    apply Qle_bool_iff in Hq. rewrite Hq, Hc.
    destruct (moveToSpamFolder_starts toLowerCase env w c (uid email))
      as [rest E].
    unfold afterAll. cbn [trace]. rewrite E. simpl. auto.
Qed.

End Failures.

Lemma relocation_failure_witness :
  Semantics.answer (envOf firstMoveFails) (Imap.GetBoxes 1%nat)
  = inr nestedSpamTree
  /\ Semantics.answer (envOf firstMoveFails)
       (Imap.MoveMessage 1%nat 11%N (targetIn JS.asciiLower nestedSpamTree))
     = inl failure
  /\ Semantics.outcome
       (Semantics.run (envOf firstMoveFails)
          (moveToSpamFolder JS.asciiLower (Some 1%nat) 11%N) watcher)
     = inl failure.
Proof.
  split; [reflexivity|]. split; [reflexivity|].
  destruct (relocation_failure_is_logged_and_rethrown JS.asciiLower
              (envOf firstMoveFails) watcher 11%N) as [_ H].
  destruct (H 1%nat) as [_ H'].
  destruct (H' nestedSpamTree eq_refl) as (_ & _ & _ & F & _).
  exact (proj1 (F failure eq_refl)).
Defined.

Lemma classifier_failure_witness :
  let env := envOf classifierDown in
  Semantics.answer env
    (Imap.MessagesCreate (promptFor (State.emailAnalyzer watcher) newEmail))
  = inl failure
  /\ (0 < State.scamThreshold watcher)%Q
  /\ moves (Semantics.trace
              (Semantics.run env (onNewMails_each JS.asciiLower newEmail)
                             watcher)) = [].
Proof.
  intros env.
  assert (Hq : (0 < State.scamThreshold watcher)%Q) by reflexivity.
  split; [reflexivity|]. split; [exact Hq|].
  destruct (classifier_failure_counts_as_probability_zero JS.asciiLower env
              watcher newEmail failure eq_refl) as (_ & L & _).
  rewrite (proj1 (L Hq)). reflexivity.
Defined.

(** ** Batches and scans *)

Section Batches.
Import JS Analyzer Imap State Async Semantics.
Local Open Scope Z_scope.

Variable toLowerCase : str -> str.
Variable env : Env.

Lemma scanned_uid message email :
  scanned env message = Some email -> uid email = attributes_uid message.
Proof.
  unfold scanned. destruct (fullPart message); [|discriminate].
  destruct (answer env (SimpleParser _)) as [e|parsed]; [discriminate|].
  destruct (parsed_date parsed).
  - intros E. injection E as <-. reflexivity.
  - destruct (answerSync env DateNow); [discriminate|].
    intros E. injection E as <-. reflexivity.
Qed.

Lemma emailsOf_uids messages :
  map uid (emailsOf env messages)
  = map attributes_uid
        (filter (fun m => match scanned env m with
                          | Some _ => true
                          | None => false
                          end) messages)
  /\ (length (emailsOf env messages) <= length messages)%nat.
Proof.
  unfold emailsOf. induction messages as [|m rest [IHu IHl]];
    [split; [reflexivity | apply Nat.le_refl]|].
  cbn [flat_map filter]. destruct (scanned env m) as [email|] eqn:E.
  - cbn [app map length]. rewrite IHu, (scanned_uid m email E).
    split; [reflexivity | lia].
  - cbn [app length]. split; [exact IHu | lia].
Qed.

(** X6.  [fetchEmailsBatch] throws only when opening the mailbox or the
    search throws.  A message without a full source, or whose source the
    parser rejects, is dropped, and the messages that can be read come
    back in the order of the search, each with the uid of its message. *)
Theorem fetchEmailsBatch_drops_unreadable_messages :
  forall (w : Watcher) (c : Conn) (startSeq endSeq : Z),
    let r := run env (fetchEmailsBatch c startSeq endSeq) w in
    (forall e, answer env (OpenBox c INBOX) = inl e ->
       r = {| final := w; trace := [Awaited (OpenBox c INBOX)];
              outcome := inl e |})
    /\ forall box, answer env (OpenBox c INBOX) = inr box ->
        (forall e,
            answer env (Search c (SeqRange startSeq endSeq)) = inl e ->
            r = {| final := w;
                   trace := [Awaited (OpenBox c INBOX);
                             Out (Log StdOut SearchingEmails);
                             Awaited (Search c (SeqRange startSeq endSeq))];
                   outcome := inl e |})
        /\ (forall messages,
               answer env (Search c (SeqRange startSeq endSeq))
               = inr messages ->
               outcome r = inr (emailsOf env messages)
               /\ final r = w
               /\ map uid (emailsOf env messages)
                  = map attributes_uid
                        (filter (fun m => match scanned env m with
                                          | Some _ => true
                                          | None => false
                                          end) messages)
               /\ (length (emailsOf env messages) <= length messages)%nat).
Proof.
  intros w c startSeq endSeq r. split.
  - intros e He. subst r. unfold fetchEmailsBatch.
    rewrite run_bind, run_await, He. reflexivity.
  - intros box Hb. split.
    + intros e He. subst r. unfold fetchEmailsBatch.
      runs. rewrite Hb. runs. await_with He. runs. reflexivity.
    + intros messages Hs.
      destruct (run_fetchEmailsBatch env w c startSeq endSeq box messages
                  Hb Hs) as (F1 & F2 & _).
      destruct (emailsOf_uids messages) as [U L].
      repeat split; assumption.
Qed.


End Batches.


Lemma fetchEmailsBatch_witness :
  Semantics.answer (envOf calm) (Imap.OpenBox 1%nat INBOX)
  = inr {| Imap.messages_total := Some 5%Z |}
  /\ Semantics.answer (envOf calm) (Imap.Search 1%nat (Imap.SeqRange 4 5))
     = inr (sc_messages calm)
  /\ Semantics.outcome
       (Semantics.run (envOf calm) (fetchEmailsBatch 1%nat 4 5) watcher)
     = inr [newEmail; oldEmail].
Proof.
  split; [reflexivity|]. split; [reflexivity|].
  destruct (fetchEmailsBatch_drops_unreadable_messages (envOf calm) watcher
              1%nat 4%Z 5%Z) as [_ H].
  destruct (H {| Imap.messages_total := Some 5%Z |} eq_refl) as [_ H'].
  exact (proj1 (H' (sc_messages calm) eq_refl)).
Defined.

(** ** The listener contains what its branches throw *)

Section Listener.
Import JS Analyzer Imap State Async Semantics.
Local Open Scope Z_scope.

Variable toLowerCase : str -> str.
Variable env : Env.

Lemma outcome_catchR_log (r : Result unit) (m : Exn -> Msg) :
  outcome (catchR r (fun e w' => run env (logError (m e)) w')) = inr tt.
Proof. destruct r as [w t [e|[]]]; reflexivity. Qed.

Lemma final_catchR_log (r : Result unit) (m : Exn -> Msg) :
  final (catchR r (fun e w' => run env (logError (m e)) w')) = final r.
Proof. destruct r as [w t [e|[]]]; reflexivity. Qed.

Lemma trace_catchR_logError (r : Result unit) (m : Exn -> Msg) :
  trace (catchR r (fun e w' => run env (logError (m e)) w'))
  = trace r ++ match outcome r with
               | inl e => [Out (Log StdErr (m e))]
               | inr _ => []
               end.
Proof. destruct r as [w t [e|[]]]; rewrite trace_catchR; reflexivity. Qed.

(** X8.  The listener of ["mail"], amid whatever else runs at its awaits,
    rejects only when asking for the total throws, and then it has done
    nothing else.  Once the total is known it returns normally: whatever
    the batch and the persistence after it throw on the live branch is
    caught and logged as the last event, as a failure of the new mail;
    whatever the scan and the persistence after it throw on the backfill
    branch is caught and logged as a failure of the backfill, and
    [isBackfilling] is false afterwards, whether this listener had set it
    or not. *)
Theorem mail_listener_contains_failures :
  forall (amid : nat -> Watcher -> Watcher) (w : Watcher) (count : Z)
         (c : Conn),
    connection w = Some c ->
    let r := runAmid env amid 0 (onMail toLowerCase count) w in
    (forall e, answer env (OpenBox c INBOX) = inl e ->
       r = {| final := amid 0%nat w; trace := [Awaited (OpenBox c INBOX)];
              outcome := inl e |})
    /\ forall box, answer env (OpenBox c INBOX) = inr box ->
        let total := match messages_total box with
                     | Some t => t
                     | None => 0
                     end in
        let w1 := amid 0%nat w in
        outcome r = inr tt
        /\ (count <> total ->
            let block := runAmid env amid 1
                           (bind (onNewMails toLowerCase total count)
                                 (fun _ => afterBatch)) w1 in
            final r = final block
            /\ trace r
               = Awaited (OpenBox c INBOX)
                 :: Out (Log StdOut (NewEmails count))
                 :: trace block
                 ++ match outcome block with
                    | inl e => [Out (Log StdErr (NewMailError e))]
                    | inr _ => []
                    end)
        /\ (count = total ->
            let block := runAmid env amid 1 (backfillBlock toLowerCase) w1 in
            final r = set_isBackfilling false (final block)
            /\ isBackfilling (final r) = false
            /\ trace r
               = Awaited (OpenBox c INBOX)
                 :: Out (Log StdOut (InitialCount count))
                 :: trace block
                 ++ match outcome block with
                    | inl e => [Out (Log StdErr (BackfillError e))]
                    | inr _ => []
                    end).
Proof.
  intros amid w count c Hc r. split.
  - intros e He. subst r. rewrite onMail_afterTotal. cbn [runAmid].
    rewrite Hc. unfold getTotalMessages.
    rewrite runAmid_bind, runAmid_bind, runAmid_await, He. reflexivity.
  - intros box Hb total w1.
    pose proof (runAmid_onMail_total toLowerCase env amid 0%nat w c count box
                  Hc Hb) as R.
    cbv zeta in R. fold total w1 r in R. rewrite R. clear R.
    destruct (total =? count) eqn:E.
    + rewrite (runAmid_afterTotal_backfill toLowerCase env amid 1 w1 total
                 count E).
      split; [|split].
      * unfold finallyR. rewrite run_modify, thenR_ok.
        cbn [afterAll outcome]. apply outcome_catchR_log.
      * intros Hne. apply Z.eqb_eq in E. congruence.
      * intros _ block. unfold finallyR. rewrite run_modify, thenR_ok.
        cbn [afterAll final trace outcome app].
        rewrite final_catchR_log, trace_catchR_logError.
        fold block. rewrite app_nil_r. repeat split.
    + rewrite (runAmid_afterTotal_live toLowerCase env amid 1 w1 total
                 count E).
      split; [|split].
      * cbn [afterAll outcome]. apply outcome_catchR_log.
      * intros _ block. cbn [afterAll final trace outcome app].
        rewrite final_catchR_log, trace_catchR_logError.
        fold block. repeat split.
      * intros ->. rewrite Z.eqb_refl in E. discriminate.
Qed.

End Listener.

Lemma mail_listener_witness :
  State.connection watcher = Some 1%nat
  /\ Semantics.outcome
       (Semantics.runAmid (envOf firstMoveFails) alone 0
          (onMail JS.asciiLower 2) watcher)
     = inr tt
  /\ last (Semantics.trace
             (Semantics.runAmid (envOf firstMoveFails) alone 0
                (onMail JS.asciiLower 2) watcher))
          (Semantics.Did Imap.DateNow)
     = Semantics.Out (Imap.Log Imap.StdErr (Imap.NewMailError failure))
  /\ State.isBackfilling
       (Semantics.final
          (Semantics.runAmid (envOf calm) (stoppedAt 0) 0
             (onMail JS.asciiLower 5)
             (State.set_isBackfilling true watcher)))
     = false.
Proof.
  split; [reflexivity|].
  destruct (mail_listener_contains_failures JS.asciiLower
              (envOf firstMoveFails) alone watcher 2%Z 1%nat eq_refl)
    as [_ H].
  destruct (H {| Imap.messages_total := Some 5%Z |} eq_refl)
    as (O & L & _).
  destruct (L ltac:(discriminate)) as [_ T].
  split; [exact O|]. split.
  - rewrite T. reflexivity.
  - destruct (mail_listener_contains_failures JS.asciiLower (envOf calm)
                (stoppedAt 0) (State.set_isBackfilling true watcher) 5%Z
                1%nat eq_refl) as [_ H'].
    destruct (H' {| Imap.messages_total := Some 5%Z |} eq_refl)
      as (_ & _ & B).
    exact (proj1 (proj2 (B eq_refl))).
Defined.

(** ** The life of a connection *)

Section Lifecycle.
Import JS Analyzer Imap State Async Semantics.
Local Open Scope Z_scope.

Lemma run_stopKeepAlive env w :
  run env stopKeepAlive w
  = if keepAliveTimer w
    then {| final := set_keepAliveTimer false w;
            trace := [Out ClearInterval]; outcome := inr tt |}
    else {| final := w; trace := []; outcome := inr tt |}.
Proof.
  unfold stopKeepAlive. rewrite run_Get.
  destruct (keepAliveTimer w); runs; reflexivity.
Qed.

(** The three ways [connect] ends. *)
Lemma run_connect env w :
  run env connect w
  = match answer env ImapConnect with
    | inl e =>
        {| final := w;
           trace := [Out (Log StdOut Connecting); Awaited ImapConnect];
           outcome := inl e |}
    | inr c =>
        match answer env (OpenBox c INBOX) with
        | inl e =>
            {| final := set_connection (Some c) w;
               trace := [Out (Log StdOut Connecting); Awaited ImapConnect;
                         Out (OnEvents c); Awaited (OpenBox c INBOX)];
               outcome := inl e |}
        | inr _ =>
            {| final :=
                 set_reconnectAttempts 0
                   (set_keepAliveTimer true
                      (final (run env stopKeepAlive
                                (set_connection (Some c) w))));
               trace := [Out (Log StdOut Connecting); Awaited ImapConnect;
                         Out (OnEvents c); Awaited (OpenBox c INBOX);
                         Out (Log StdOut ConnectedInbox)]
                        ++ trace (run env stopKeepAlive
                                    (set_connection (Some c) w))
                        ++ [Out (SetInterval KeepAliveCallback
                                   (JS.times (JS.ofZ 60) (JS.ofZ 1000)))];
               outcome := inr tt |}
        end
    end.
Proof.
  unfold connect, setupConnectionHandlers, startKeepAlive.
  rewrite run_tryCatch. runs.
  destruct (answer env ImapConnect) as [e|c]; runs_state; [reflexivity|].
  destruct (answer env (OpenBox c INBOX)) as [e|box]; runs_state;
    [reflexivity|].
  rewrite !run_stopKeepAlive. cbn [keepAliveTimer set_connection].
  destruct (keepAliveTimer w); runs_state; reflexivity.
Qed.

(** What [cleanupConnection] leaves behind. *)
Lemma run_cleanupConnection env w :
  let r := run env cleanupConnection w in
  outcome r = inr tt
  /\ connection (final r) = None
  /\ keepAliveTimer (final r) = false
  /\ isWatching (final r) = isWatching w
  /\ isReconnecting (final r) = isReconnecting w
  /\ reconnectAttempts (final r) = reconnectAttempts w
  /\ reconnectTimer (final r) = reconnectTimer w
  /\ emailsAnalyzedUntil (final r) = emailsAnalyzedUntil w
  /\ isBackfilling (final r) = isBackfilling w
  /\ timeouts (trace r) = []
  /\ activeIntervals (trace r) = (if keepAliveTimer w then -1 else 0)
  /\ (connection w = None -> forall s, ~ In (Did s) (trace r))
  /\ (forall c, In (Did (EndConnection c)) (trace r) ->
                connection w = Some c
                /\ exists state, answerSync env (GetState c) = inr state
                                 /\ state <> Disconnected).
Proof.
  unfold cleanupConnection. cbv zeta.
  rewrite run_bind, run_Get.
  destruct (connection w) as [c|] eqn:C.
  - rewrite run_bind, run_tryCatch, run_bind, run_call.
    destruct (answerSync env (RemoveAllListeners c)) as [e|[]];
      [|rewrite thenR_ok, run_bind, run_call;
        destruct (answerSync env (GetState c)) as [e|state] eqn:G;
        [|rewrite thenR_ok; cbn [SyncReply] in *;
          destruct state; runs;
          try (destruct (answerSync env (EndConnection c)) as [e|[]])]];
      runs_state; rewrite run_stopKeepAlive;
      cbn [keepAliveTimer set_connection];
      destruct (keepAliveTimer w) eqn:K; runs_state;
      cbn [final trace outcome keepAliveTimer set_connection];
      repeat split; try reflexivity; try discriminate; try assumption;
      match goal with
      | H : In _ _ |- _ =>
          simpl in H;
          repeat (destruct H as [H|H]; [try discriminate H|]);
          try contradiction; injection H as <-
      end;
      first [ reflexivity
            | eexists; split; [exact G | discriminate] ].
  - runs. rewrite run_stopKeepAlive.
    destruct (keepAliveTimer w) eqn:K; runs_state; cbn [final trace outcome];
      repeat split; auto; try discriminate;
      intros; try intros F;
      match goal with
      | H : In _ _ |- _ =>
          simpl in H;
          repeat (destruct H as [H|H]; [try discriminate H|]);
          try contradiction
      end.
Qed.

(** X10.  [cleanupConnection] never throws, whatever removing the
    listeners, reading the state or ending the connection throw: the handle
    is released and the keepalive interval cleared in every case, and
    nothing else of the watcher changes.  The connection is ended only if
    its state is not ["disconnected"], and without a handle the transport
    is not touched. *)
Theorem cleanupConnection_releases_whatever_the_transport_throws :
  forall (env : Env) (w : Watcher),
    let r := run env cleanupConnection w in
    outcome r = inr tt
    /\ connection (final r) = None
    /\ keepAliveTimer (final r) = false
    /\ isWatching (final r) = isWatching w
    /\ isReconnecting (final r) = isReconnecting w
    /\ reconnectAttempts (final r) = reconnectAttempts w
    /\ reconnectTimer (final r) = reconnectTimer w
    /\ emailsAnalyzedUntil (final r) = emailsAnalyzedUntil w
    /\ isBackfilling (final r) = isBackfilling w
    /\ activeIntervals (trace r) = (if keepAliveTimer w then -1 else 0)
    /\ (connection w = None -> forall s, ~ In (Did s) (trace r))
    /\ (forall c, In (Did (EndConnection c)) (trace r) ->
                  connection w = Some c
                  /\ exists state, answerSync env (GetState c) = inr state
                                   /\ state <> Disconnected).
Proof.
  intros env w r. subst r.
  destruct (run_cleanupConnection env w)
    as (H1 & H2 & H3 & H4 & H5 & H6 & H7 & H8 & H9 & _ & H11 & H12 & H13).
  repeat (split; [assumption|]). assumption.
Qed.

(** Nothing to release: [cleanupConnection] does nothing. *)
Lemma run_cleanupConnection_idle env w :
  connection w = None -> keepAliveTimer w = false ->
  run env cleanupConnection w = {| final := w; trace := []; outcome := inr tt |}.
Proof.
  intros C K. unfold cleanupConnection.
  rewrite run_bind, run_Get, C. runs. rewrite run_stopKeepAlive, K. runs.
  reflexivity.
Qed.

Lemma run_stopWatching env w :
  let r := run env stopWatching w in
  outcome r = inr tt
  /\ isWatching (final r) = false
  /\ connection (final r) = None
  /\ reconnectTimer (final r) = None
  /\ keepAliveTimer (final r) = false
  /\ isReconnecting (final r) = isReconnecting w
  /\ reconnectAttempts (final r) = reconnectAttempts w
  /\ timeouts (trace r) = []
  /\ (In (Out ClearTimeout) (trace r) -> reconnectTimer w <> None).
Proof.
  unfold stopWatching. cbv zeta.
  rewrite run_bind, run_modify, thenR_ok, run_bind, run_Get.
  cbn [reconnectTimer set_isWatching].
  destruct (reconnectTimer w) as [d|] eqn:T; runs_state.
  - destruct (run_cleanupConnection env
                (set_reconnectTimer None (set_isWatching false w)))
      as (H1 & H2 & H3 & H4 & H5 & H6 & H7 & _ & _ & H10 & _).
    destruct (run env cleanupConnection _) as [w1 t1 o1].
    cbn [final trace outcome afterAll] in *.
    cbn [isWatching isReconnecting reconnectAttempts reconnectTimer
         set_reconnectTimer set_isWatching] in *.
    rewrite timeouts_app, H10.
    repeat split; auto. discriminate.
  - destruct (run_cleanupConnection env (set_isWatching false w))
      as (H1 & H2 & H3 & H4 & H5 & H6 & H7 & _ & _ & H10 & _ & _ & _).
    assert (NoClear : ~ In (Out ClearTimeout)
                        (trace (run env cleanupConnection
                                  (set_isWatching false w)))).
    { assert (K : Keeps anyState anyOp
                    (fun o => o <> ClearTimeout) cleanupConnection).
      { unfold cleanupConnection, stopKeepAlive. keeps;
          try exact I; discriminate. }
      intros F.
      exact (proj2 (proj2 (run_keeps env _ _ _ _ K _ I)) _ F eq_refl). }
    destruct (run env cleanupConnection _) as [w1 t1 o1].
    cbn [final trace outcome afterAll app] in *.
    cbn [isWatching isReconnecting reconnectAttempts reconnectTimer
         set_reconnectTimer set_isWatching] in *.
    repeat split; auto; try congruence.
Qed.

(** X11.  [stopWatching] never throws and leaves no connection, no
    reconnection timer and no keepalive interval, with [isWatching] false;
    it arms nothing.  A second call right after it does nothing at all.
    It leaves [isReconnecting] and the attempt counter as they were. *)
Theorem stopWatching_releases_everything_and_is_idempotent :
  forall (env env' : Env) (w : Watcher),
    let r := run env stopWatching w in
    let r' := run env' stopWatching (final r) in
    (outcome r = inr tt
     /\ isWatching (final r) = false
     /\ connection (final r) = None
     /\ reconnectTimer (final r) = None
     /\ keepAliveTimer (final r) = false
     /\ timeouts (trace r) = []
     /\ isReconnecting (final r) = isReconnecting w
     /\ reconnectAttempts (final r) = reconnectAttempts w)
    /\ r' = {| final := set_isWatching false (final r); trace := [];
               outcome := inr tt |}.
Proof.
  intros env env' w r r'.
  destruct (run_stopWatching env w)
    as (H1 & H2 & H3 & H4 & H5 & H6 & H7 & H8 & _).
  fold r in H1, H2, H3, H4, H5, H6, H7, H8.
  split; [repeat split; assumption|].
  subst r'. unfold stopWatching.
  rewrite run_bind, run_modify, thenR_ok, run_bind, run_Get.
  cbn [reconnectTimer set_isWatching]. rewrite H4.
  rewrite run_Ret, thenR_ok, run_cleanupConnection_idle by assumption.
  reflexivity.
Qed.

(** A failed [connect] armed nothing and changed at most the handle. *)
Lemma connect_failure env w e :
  outcome (run env connect w) = inl e ->
  timeouts (trace (run env connect w)) = []
  /\ activeIntervals (trace (run env connect w)) = 0
  /\ isReconnecting (final (run env connect w)) = isReconnecting w
  /\ reconnectAttempts (final (run env connect w)) = reconnectAttempts w
  /\ reconnectTimer (final (run env connect w)) = reconnectTimer w
  /\ keepAliveTimer (final (run env connect w)) = keepAliveTimer w
  /\ isWatching (final (run env connect w)) = isWatching w.
Proof.
  rewrite run_connect.
  destruct (answer env ImapConnect) as [e1|c];
    [|destruct (answer env (OpenBox c INBOX)) as [e2|box]];
    cbn [outcome final trace]; intros H; try discriminate;
    repeat split; reflexivity.
Qed.

Lemma connect_success env w :
  outcome (run env connect w) = inr tt ->
  timeouts (trace (run env connect w)) = []
  /\ isReconnecting (final (run env connect w)) = isReconnecting w
  /\ reconnectAttempts (final (run env connect w)) = 0
  /\ keepAliveTimer (final (run env connect w)) = true
  /\ connection (final (run env connect w)) <> None.
Proof.
  rewrite run_connect.
  destruct (answer env ImapConnect) as [e1|c];
    [|destruct (answer env (OpenBox c INBOX)) as [e2|box]];
    cbn [outcome final trace]; intros H; try discriminate.
  rewrite run_stopKeepAlive. cbn [keepAliveTimer set_connection].
  destruct (keepAliveTimer w); cbn [final trace];
    repeat split; try reflexivity; discriminate.
Qed.

(** X12.  [startWatching] does nothing but log when the watcher is
    already watching.  Otherwise it never rejects: when [connect] succeeds
    the watcher is watching with a zero attempt counter; when [connect]
    throws an authentication failure the watcher is stopped, with no
    connection and no timer of either kind, and no retry is scheduled;
    when it throws anything else one retry is scheduled (if none is
    pending and the bound is not reached). *)
Theorem startWatching_retries_unless_credentials_are_refused :
  forall (env : Env) (w : Watcher),
    (isWatching w = true ->
     run env startWatching w
     = {| final := w; trace := [Out (Log StdOut AlreadyWatching)];
          outcome := inr tt |})
    /\ (isWatching w = false ->
        let r := run env startWatching w in
        (outcome (run env connect w) = inr tt ->
         outcome r = inr tt
         /\ isWatching (final r) = true
         /\ reconnectAttempts (final r) = 0
         /\ timeouts (trace r) = [])
        /\ forall e,
            outcome (run env connect w) = inl e ->
            isWatching (final r) = false
            /\ (isAuthFailure e = true ->
                outcome r = inr tt
                /\ In (Out (Log StdOut InvalidCredentials)) (trace r)
                /\ timeouts (trace r) = []
                /\ connection (final r) = None
                /\ reconnectTimer (final r) = None
                /\ keepAliveTimer (final r) = false)
            /\ (isAuthFailure e = false ->
                isReconnecting w = false ->
                reconnectAttempts w < maxReconnectAttempts ->
                forall random,
                  answerSync env MathRandom = inr random ->
                  outcome r = inr tt
                  /\ timeouts (trace r)
                     = [reconnectDelay (reconnectAttempts w + 1) random]
                  /\ isReconnecting (final r) = true
                  /\ reconnectAttempts (final r) = reconnectAttempts w + 1)).
Proof.
  intros env w. split.
  - intros H. unfold startWatching. rewrite run_Get, H. reflexivity.
  - intros H r. subst r. unfold startWatching. rewrite run_Get, H.
    rewrite run_tryCatch, run_bind. split.
    + intros Ho. destruct (connect_success env w Ho) as (T & _ & A & _).
      destruct (run env connect w) as [w1 t1 o1].
      cbn [outcome final trace] in *. subst o1.
      runs_state. cbn [outcome final trace]. rewrite !timeouts_app, T.
      repeat split; assumption.
    + intros e Ho.
      destruct (connect_failure env w e Ho) as (T & _ & R & A & RT & K & _).
      destruct (run env connect w) as [w1 t1 o1].
      cbn [outcome final trace] in *. subst o1.
      rewrite thenR_err, catchR_err, run_bind, run_modify, thenR_ok.
      destruct (isAuthFailure e) eqn:Auth.
      * rewrite run_bind, run_log, thenR_ok.
        destruct (run_stopWatching env (set_isWatching false w1))
          as (S1 & S2 & S3 & S4 & S5 & _ & _ & S8 & _).
        destruct (run env stopWatching _) as [w2 t2 o2].
        cbn [outcome final trace afterAll] in *.
        split; [exact S2|]. split; [|discriminate].
        intros _. rewrite !timeouts_app, T, S8.
        repeat split; auto. apply in_or_app. right. simpl. auto.
      * rewrite run_bind, run_logError, thenR_ok.
        split; [|split; [discriminate|]].
        { assert (Kp : Keeps (fun w' => isWatching w' = false) anyOp anyOutput
                         scheduleReconnection).
          { unfold scheduleReconnection. keeps; try exact I; assumption. }
          rewrite !afterAll_afterAll. unfold afterAll. cbn [final].
          exact (proj1 (run_keeps env _ _ _ _ Kp
                          (set_isWatching false w1) eq_refl)). }
        intros _ Hr Ha random Hrand.
        rewrite (run_scheduleReconnection_arms env
                   (set_isWatching false w1) random)
          by (cbn [isReconnecting reconnectAttempts set_isWatching];
              congruence || assumption).
        cbn [isReconnecting reconnectAttempts set_isWatching].
        rewrite !afterAll_lit. cbn [outcome final trace].
        rewrite !timeouts_app, T, A.
        cbn [reconnectAttempts isReconnecting set_reconnectTimer
             set_reconnectAttempts set_isReconnecting].
        repeat split; reflexivity.
Qed.

(** [handleConnectionError] when no reconnection is pending. *)
Lemma run_handleConnectionError_arms env w random :
  isReconnecting w = false ->
  reconnectAttempts w < maxReconnectAttempts ->
  answerSync env MathRandom = inr random ->
  let r := run env handleConnectionError w in
  outcome r = inr tt
  /\ timeouts (trace r) = [reconnectDelay (reconnectAttempts w + 1) random]
  /\ connection (final r) = None
  /\ keepAliveTimer (final r) = false
  /\ isReconnecting (final r) = true
  /\ reconnectAttempts (final r) = reconnectAttempts w + 1.
Proof.
  intros Hr Ha Hrand. unfold handleConnectionError. cbv zeta.
  rewrite run_Get, Hr, run_bind.
  destruct (run_cleanupConnection env w)
    as (C1 & C2 & C3 & _ & C5 & C6 & _ & _ & _ & C10 & _).
  destruct (run env cleanupConnection w) as [w1 t1 o1].
  cbn [outcome final trace] in *. subst o1. rewrite thenR_ok.
  rewrite (run_scheduleReconnection_arms env w1 random)
    by (congruence || assumption).
  rewrite afterAll_lit. cbn [outcome final trace].
  rewrite timeouts_app, C10, C6.
  cbn [connection keepAliveTimer reconnectAttempts isReconnecting
       set_reconnectTimer set_reconnectAttempts set_isReconnecting].
  repeat split; auto.
Qed.

Lemma run_handleConnectionError_pending env w :
  isReconnecting w = true ->
  run env handleConnectionError w
  = {| final := w; trace := []; outcome := inr tt |}.
Proof.
  intros H. unfold handleConnectionError. rewrite run_Get, H. reflexivity.
Qed.

(** X13.  Of failure signals that follow one another only the first acts:
    it releases the connection and arms one reconnection timer; until the
    timer fires, a further ["error"] event, ["close"] event with error or
    keepalive failure changes nothing and arms nothing.  A ["close"]
    event without error never starts a reconnection. *)
Theorem only_the_first_failure_signal_schedules :
  forall (toLowerCase : str -> str) (env env' : Env) (w : Watcher)
         (random : JS.number),
    isReconnecting w = false ->
    reconnectAttempts w < maxReconnectAttempts ->
    answerSync env MathRandom = inr random ->
    let r := run env onError w in
    (timeouts (trace r) = [reconnectDelay (reconnectAttempts w + 1) random]
     /\ connection (final r) = None
     /\ isReconnecting (final r) = true
     /\ reconnectAttempts (final r) = reconnectAttempts w + 1)
    /\ (forall e,
           isFailureSignal e ->
           let r' := run env' (entryProg toLowerCase e) (final r) in
           final r' = final r
           /\ timeouts (trace r') = []
           /\ activeIntervals (trace r') = 0
           /\ forall s, ~ In (Did s) (trace r'))
    /\ run env' (onClose false) w
       = {| final := w;
            trace := [Out (Log StdOut (ConnectionClosed false))];
            outcome := inr tt |}.
Proof.
  intros toLowerCase env env' w random Hr Ha Hrand r.
  destruct (run_handleConnectionError_arms env w random Hr Ha Hrand)
    as (H1 & H2 & H3 & H4 & H5 & H6).
  assert (E : r = afterAll [Out (Log StdErr ImapError)]
                    (run env handleConnectionError w)).
  { subst r. unfold onError. rewrite run_bind, run_logError, thenR_ok.
    reflexivity. }
  assert (S : timeouts (trace r)
              = [reconnectDelay (reconnectAttempts w + 1) random]
              /\ connection (final r) = None
              /\ keepAliveTimer (final r) = false
              /\ isReconnecting (final r) = true
              /\ reconnectAttempts (final r) = reconnectAttempts w + 1).
  { rewrite E. unfold afterAll. cbn [final trace].
    rewrite timeouts_app, H2. repeat split; assumption. }
  destruct S as (S1 & S2 & S3 & S4 & S5).
  split; [repeat split; assumption|]. split; [|reflexivity].
  intros e He r'. subst r'.
  destruct e; try contradiction; unfold entryProg.
  - unfold onError. rewrite run_bind, run_logError, thenR_ok,
      (run_handleConnectionError_pending env' _ S4).
    rewrite afterAll_lit. cbn [final trace].
    repeat split; try reflexivity.
    intros s [F|[]]. discriminate.
  - unfold onClose. rewrite run_bind, run_log, thenR_ok.
    destruct hadError;
      [rewrite (run_handleConnectionError_pending env' _ S4)
      |rewrite run_Ret];
      rewrite afterAll_lit; cbn [final trace];
      repeat split; try reflexivity; intros s [F|[]]; discriminate.
  - unfold keepAliveCallback. rewrite run_tryCatch, run_Get, S2.
    rewrite run_Ret, catchR_ok. cbn [final trace].
    repeat split; try reflexivity. intros s [].
Qed.

End Lifecycle.

Lemma startWatching_witness :
  State.isWatching watcher = false
  /\ Semantics.outcome (Semantics.run (envOf offline) connect watcher)
     = inl failure
  /\ isAuthFailure failure = false
  /\ isAuthFailure badCredentials = true
  /\ timeouts (Semantics.trace
                 (Semantics.run (envOf offline) startWatching watcher))
     = [reconnectDelay 1 (JS.Math_pow2 (-1))]
  /\ timeouts (Semantics.trace
                 (Semantics.run (envOf refused) startWatching watcher))
     = [].
Proof.
  split; [reflexivity|]. split; [reflexivity|]. split; [reflexivity|].
  split; [reflexivity|]. split.
  - destruct (startWatching_retries_unless_credentials_are_refused
                (envOf offline) watcher) as [_ H].
    destruct (H eq_refl) as [_ H'].
    destruct (H' failure eq_refl) as (_ & _ & R).
    exact (proj1 (proj2 (R eq_refl eq_refl eq_refl (JS.Math_pow2 (-1)) eq_refl))).
  - destruct (startWatching_retries_unless_credentials_are_refused
                (envOf refused) watcher) as [_ H].
    destruct (H eq_refl) as [_ H'].
    destruct (H' badCredentials eq_refl) as (_ & A & _).
    exact (proj1 (proj2 (proj2 (A eq_refl)))).
Defined.

Lemma first_failure_signal_witness :
  State.isReconnecting watcher = false
  /\ (State.reconnectAttempts watcher < State.maxReconnectAttempts)%Z
  /\ timeouts (Semantics.trace (Semantics.run (envOf calm) onError watcher))
     = [reconnectDelay 1 (JS.Math_pow2 (-1))]
  /\ timeouts
       (Semantics.trace
          (Semantics.run (envOf offline) (entryProg JS.asciiLower ErrorEvent)
             (Semantics.final (Semantics.run (envOf calm) onError watcher))))
     = [].
Proof.
  assert (Ha : (State.reconnectAttempts watcher
                < State.maxReconnectAttempts)%Z) by reflexivity.
  destruct (only_the_first_failure_signal_schedules JS.asciiLower
              (envOf calm) (envOf offline) watcher (JS.Math_pow2 (-1)) eq_refl Ha eq_refl)
    as ((T & _) & S & _).
  split; [reflexivity|]. split; [exact Ha|]. split; [exact T|].
  exact (proj1 (proj2 (S ErrorEvent I))).
Defined.

(** ** The life of a connection, amid other listeners *)

Section LifecycleAmid.
Import JS Analyzer Imap State Async Semantics.
Local Open Scope Z_scope.

Variable env : Env.
Variable amid : nat -> Watcher -> Watcher.

Lemma keeps_startKeepAlive : Keeps anyState noOp anyOutput startKeepAlive.
Proof. unfold startKeepAlive, stopKeepAlive. keeps; exact I. Qed.

Lemma keeps_setupConnectionHandlers :
  Keeps anyState noOp anyOutput setupConnectionHandlers.
Proof. unfold setupConnectionHandlers. keeps; exact I. Qed.

Lemma keeps_scheduleReconnection :
  Keeps anyState noOp anyOutput scheduleReconnection.
Proof. unfold scheduleReconnection. keeps; exact I. Qed.

Lemma run_setupConnectionHandlers w c :
  connection w = Some c ->
  run env setupConnectionHandlers w
  = {| final := w; trace := [Out (OnEvents c)]; outcome := inr tt |}.
Proof.
  intros H. unfold setupConnectionHandlers. rewrite run_Get, H.
  reflexivity.
Qed.

(** [startKeepAlive] clears the interval that is held and arms one if the
    watcher holds a connection handle. *)
Lemma run_startKeepAlive w :
  let r := run env startKeepAlive w in
  outcome r = inr tt
  /\ final r = set_keepAliveTimer (connected w)
                 (final (run env stopKeepAlive w))
  /\ timeouts (trace r) = []
  /\ activeIntervals (trace r)
     = (if connected w then 1 else 0) - (if keepAliveTimer w then 1 else 0)
  /\ forall o, In (Out o) (trace r) ->
               o = ClearInterval
               \/ o = SetInterval KeepAliveCallback
                        (JS.times (JS.ofZ 60) (JS.ofZ 1000)).
Proof.
  unfold startKeepAlive. cbv zeta. rewrite run_bind, run_stopKeepAlive.
  destruct w as [c ? ? ? ? k ? ? ? ? ? ? ?].
  unfold connected. cbn [keepAliveTimer connection].
  destruct k, c; runs_state; cbn [outcome final trace];
    repeat split; try reflexivity;
    intros o F; simpl in F;
    repeat (destruct F as [F|F]; [injection F as <-; auto|]);
    contradiction.
Qed.

Lemma run_stopKeepAlive_startKeepAlive w :
  run env startKeepAlive w
  = let r := run env stopKeepAlive w in
    match connection w with
    | None => r
    | Some _ =>
        {| final := set_keepAliveTimer true (final r);
           trace := trace r
                    ++ [Out (SetInterval KeepAliveCallback
                               (JS.times (JS.ofZ 60) (JS.ofZ 1000)))];
           outcome := inr tt |}
    end.
Proof.
  unfold startKeepAlive. rewrite run_bind, run_stopKeepAlive.
  destruct w as [c ? ? ? ? k ? ? ? ? ? ? ?].
  cbn [keepAliveTimer connection].
  destruct k, c; runs_state; reflexivity.
Qed.

(** The ways [connect] ends amid other listeners: the handle is stored in
    the watcher as it is when the transport answers, and the keepalive is
    started in the watcher as it is when the mailbox has opened. *)
Lemma runAmid_connect n w :
  runAmid env amid n connect w
  = match answer env ImapConnect with
    | inl e =>
        {| final := amid n w;
           trace := [Out (Log StdOut Connecting); Awaited ImapConnect];
           outcome := inl e |}
    | inr c =>
        let w2 := amid (S n) (set_connection (Some c) (amid n w)) in
        match answer env (OpenBox c INBOX) with
        | inl e =>
            {| final := w2;
               trace := [Out (Log StdOut Connecting); Awaited ImapConnect;
                         Out (OnEvents c); Awaited (OpenBox c INBOX)];
               outcome := inl e |}
        | inr _ =>
            {| final := set_reconnectAttempts 0
                          (final (run env startKeepAlive w2));
               trace := [Out (Log StdOut Connecting); Awaited ImapConnect;
                         Out (OnEvents c); Awaited (OpenBox c INBOX);
                         Out (Log StdOut ConnectedInbox)]
                        ++ trace (run env startKeepAlive w2);
               outcome := inr tt |}
        end
    end.
Proof.
  unfold connect.
  rewrite (runAmid_tryCatch_sync env amid _ _ n w
             (fun e => KeepsRaise _ _ _ e)).
  rewrite (runAmid_bind_sync env amid _ _ n w (sync_log _)), run_log,
    thenR_ok.
  rewrite runAmid_bind, runAmid_await.
  destruct (answer env ImapConnect) as [e|c]; [reflexivity|].
  rewrite thenR_ok. cbn [trace awaits]. 
  replace (n + 1)%nat with (S n) by lia.
  rewrite (runAmid_bind_sync env amid _ _ _ _ (sync_modify _)), run_modify,
    thenR_ok.
  rewrite (runAmid_bind_sync env amid _ _ _ _ keeps_setupConnectionHandlers).
  rewrite (run_setupConnectionHandlers
             (set_connection (Some c) (amid n w)) c eq_refl), thenR_ok.
  assert (K : forall a : Box,
             Keeps anyState noOp anyOutput
               (bind (log ConnectedInbox)
                  (fun _ => bind startKeepAlive
                     (fun _ => modify (set_reconnectAttempts 0))))).
  { intros _. unfold log, modify, startKeepAlive, stopKeepAlive.
    keeps; exact I. }
  rewrite (runAmid_bind_then_sync env amid _ _ _ _ K).
  cbn [runAmid]. cbn [connection set_connection].
  unfold await. cbn [runAmid].
  destruct (answer env (OpenBox c INBOX)) as [e|box];
    cbn [orThrow runAmid]; rewrite after_lit; [reflexivity|].
  rewrite thenR_ok, run_bind, run_log, thenR_ok, run_bind.
  destruct (run_startKeepAlive
              (amid (S n) (set_connection (Some c) (amid n w))))
    as (S1 & _).
  destruct (run env startKeepAlive _) as [w3 t3 o3].
  cbn [outcome] in S1. subst o3.
  rewrite thenR_ok, run_modify.
  rewrite !afterAll_lit, catchR_ok. cbn [final trace app].
  rewrite app_nil_r. reflexivity.
Qed.

(** X9.  [connect], amid whatever else runs at its two awaits, ends in one
    of three ways.  If the transport refuses, the error is thrown and the
    watcher is as the others left it.  If the transport accepts but the
    mailbox does not open, the error is thrown with the new handle stored
    and its listeners registered before the mailbox was asked for, and
    with no keepalive armed by this call.  If both succeed, the listeners
    were registered before the mailbox was opened, the attempt counter is
    zero, the interval that was held is cleared, and a keepalive interval
    is armed exactly when the watcher still holds a handle once the
    mailbox has opened: the handle it stored, unless it was released or
    replaced meanwhile. *)
Theorem connect_ends_in_one_of_three_ways :
  forall (n : nat) (w : Watcher),
    let r := runAmid env amid n connect w in
    (forall e, answer env ImapConnect = inl e ->
       outcome r = inl e /\ final r = amid n w
       /\ forall o, In (Out o) (trace r) -> o = Log StdOut Connecting)
    /\ forall c, answer env ImapConnect = inr c ->
        let stored := set_connection (Some c) (amid n w) in
        let w2 := amid (S n) stored in
        (forall e, answer env (OpenBox c INBOX) = inl e ->
           outcome r = inl e
           /\ final r = w2
           /\ trace r = [Out (Log StdOut Connecting); Awaited ImapConnect;
                         Out (OnEvents c); Awaited (OpenBox c INBOX)]
           /\ activeIntervals (trace r) = 0)
        /\ (forall box, answer env (OpenBox c INBOX) = inr box ->
              outcome r = inr tt
              /\ connection (final r) = connection w2
              /\ keepAliveTimer (final r) = connected w2
              /\ reconnectAttempts (final r) = 0
              /\ isReconnecting (final r) = isReconnecting w2
              /\ isWatching (final r) = isWatching w2
              /\ (exists rest,
                     trace r = [Out (Log StdOut Connecting);
                                Awaited ImapConnect; Out (OnEvents c);
                                Awaited (OpenBox c INBOX);
                                Out (Log StdOut ConnectedInbox)] ++ rest
                     /\ forall ev, In ev rest ->
                          ev = Out ClearInterval
                          \/ ev = Out (SetInterval KeepAliveCallback
                                         (JS.times (JS.ofZ 60)
                                                   (JS.ofZ 1000))))
              /\ activeIntervals (trace r)
                 = (if connected w2 then 1 else 0)
                   - (if keepAliveTimer w2 then 1 else 0)
              /\ (w2 = stored ->
                  connection (final r) = Some c
                  /\ keepAliveTimer (final r) = true)).
Proof.
  intros n w r. subst r. rewrite runAmid_connect. split.
  - intros e He. rewrite He. cbn [outcome final trace].
    split; [reflexivity|]. split; [reflexivity|].
    intros o [F|[F|[]]]; [injection F as <-; reflexivity | discriminate].
  - intros c Hc stored w2. rewrite Hc. cbv zeta. fold stored. fold w2.
    split.
    + intros e He. rewrite He. cbn [outcome final trace].
      repeat split.
    + intros box Hb. rewrite Hb. cbn [outcome final trace].
      rewrite (run_stopKeepAlive_startKeepAlive w2).
      assert (Q : connected w2 = true -> w2 = stored -> True) by auto.
      clear Q.
      destruct w2 as [c2 ? ? ? ? k2 ? ? ? ? ? ? ?] eqn:W2.
      unfold connected.
      cbn [connection keepAliveTimer reconnectAttempts isReconnecting
           isWatching].
      destruct k2, c2 as [c2|];
        cbn [final trace connection keepAliveTimer reconnectAttempts
             isReconnecting isWatching set_keepAliveTimer
             set_reconnectAttempts app activeIntervals intervalChange];
        (split; [reflexivity|]); (split; [reflexivity|]);
        (split; [reflexivity|]); (split; [reflexivity|]);
        (split; [reflexivity|]); (split; [reflexivity|]);
        (split; [eexists; split; [reflexivity|];
                 intros ev F; simpl in F;
                 repeat (destruct F as [F|F]; [subst ev; auto|]);
                 contradiction|]);
        (split; [reflexivity|]);
        intros F; unfold stored in F; try discriminate F;
          injection F as -> _; split; reflexivity.
Qed.

(** A [connect] that failed amid other listeners armed nothing, and left
    the watcher as the others left it, the handle apart. *)
Lemma connect_amid_failure n w e :
  outcome (runAmid env amid n connect w) = inl e ->
  timeouts (trace (runAmid env amid n connect w)) = []
  /\ activeIntervals (trace (runAmid env amid n connect w)) = 0
  /\ (final (runAmid env amid n connect w) = amid n w
      \/ exists c,
          answer env ImapConnect = inr c
          /\ final (runAmid env amid n connect w)
             = amid (S n) (set_connection (Some c) (amid n w))).
Proof.
  rewrite runAmid_connect.
  destruct (answer env ImapConnect) as [e1|c];
    [|cbv zeta; destruct (answer env (OpenBox c INBOX)) as [e2|box]];
    cbn [outcome final trace]; intros H; try discriminate;
    repeat split; try reflexivity; [left|right; exists c; split];
    reflexivity.
Qed.

Lemma connect_amid_success n w :
  outcome (runAmid env amid n connect w) = inr tt ->
  exists c,
    answer env ImapConnect = inr c
    /\ let w2 := amid (S n) (set_connection (Some c) (amid n w)) in
       timeouts (trace (runAmid env amid n connect w)) = []
       /\ isReconnecting (final (runAmid env amid n connect w))
          = isReconnecting w2
       /\ reconnectAttempts (final (runAmid env amid n connect w)) = 0
       /\ keepAliveTimer (final (runAmid env amid n connect w))
          = connected w2
       /\ connection (final (runAmid env amid n connect w))
          = connection w2.
Proof.
  rewrite runAmid_connect.
  destruct (answer env ImapConnect) as [e1|c];
    [|cbv zeta; destruct (answer env (OpenBox c INBOX)) as [e2|box]];
    cbn [outcome final trace]; intros H; try discriminate.
  exists c. split; [reflexivity|].
  rewrite run_stopKeepAlive_startKeepAlive. cbv zeta.
  rewrite run_stopKeepAlive. unfold connected.
  destruct (amid (S n) (set_connection (Some c) (amid n w)))
    as [c2 ? ? ? ? k2 ? ? ? ? ? ? ?].
  cbn [connection keepAliveTimer].
  destruct k2, c2; cbn [final trace]; repeat split; reflexivity.
Qed.

(** X14.  The callback of the reconnection timer, amid whatever else runs
    at the awaits of its [connect].  When [connect] succeeds the watcher
    is no longer reconnecting, its attempt counter is zero and no timer is
    armed; it holds the handle it held once the mailbox had opened, and a
    keepalive exactly when it holds one: connected again, unless the
    handle was released meanwhile.  When [connect] throws, the failure is
    logged and, the counter being below the bound in the watcher as it is
    then, the next attempt is scheduled at once with the next delay. *)
Theorem reconnect_attempt_resets_or_reschedules :
  forall (n : nat) (w : Watcher),
    let r := runAmid env amid n reconnectCallback w in
    let tried := runAmid env amid n connect w in
    (outcome tried = inr tt ->
     outcome r = inr tt
     /\ isReconnecting (final r) = false
     /\ reconnectAttempts (final r) = 0
     /\ timeouts (trace r) = []
     /\ keepAliveTimer (final r) = connected (final r)
     /\ exists c,
         answer env ImapConnect = inr c
         /\ connection (final r)
            = connection (amid (S n) (set_connection (Some c) (amid n w))))
    /\ forall e,
        outcome tried = inl e ->
        reconnectAttempts (final tried) < maxReconnectAttempts ->
        forall random,
          answerSync env MathRandom = inr random ->
          outcome r = inr tt
          /\ In (Out (Log StdErr (ReconnectFailed e))) (trace r)
          /\ timeouts (trace r)
             = [reconnectDelay (reconnectAttempts (final tried) + 1) random]
          /\ isReconnecting (final r) = true
          /\ reconnectAttempts (final r)
             = reconnectAttempts (final tried) + 1
          /\ connection (final r) = connection (final tried)
          /\ (final tried = amid n w
              \/ exists c,
                  answer env ImapConnect = inr c
                  /\ final tried
                     = amid (S n) (set_connection (Some c) (amid n w))).
Proof.
  intros n w r tried. subst r. unfold reconnectCallback.
  assert (Kh : forall error,
             Keeps anyState noOp anyOutput
               (bind (logError (ReconnectFailed error))
                  (fun _ => bind (modify (set_isReconnecting false))
                     (fun _ => scheduleReconnection)))).
  { intros error. unfold logError, modify, scheduleReconnection.
    keeps; exact I. }
  assert (Kr : forall a : unit,
             Keeps anyState noOp anyOutput
               (bind (modify (set_isReconnecting false))
                  (fun _ => log Reconnected))).
  { intros _. unfold log, modify. keeps; exact I. }
  rewrite (runAmid_tryCatch_sync env amid _ _ n w Kh).
  rewrite (runAmid_bind_then_sync env amid _ _ n w Kr).
  fold tried. split.
  - intros Ho. destruct (connect_amid_success n w Ho)
      as (c & Hc & T & _ & A & K & C).
    fold tried in T, A, K, C.
    destruct tried as [w1 t1 o1].
    cbn [outcome final trace] in *. subst o1.
    runs_state. cbn [outcome final trace]. rewrite !timeouts_app, T.
    unfold connected.
    cbn [connection keepAliveTimer set_isReconnecting].
    rewrite K, C. unfold connected.
    repeat split; try reflexivity; try assumption.
    exists c. split; [exact Hc | reflexivity].
  - intros e Ho Ha random Hrand.
    destruct (connect_amid_failure n w e Ho) as (T & _ & F).
    fold tried in T, F.
    destruct tried as [w1 t1 o1].
    cbn [outcome final trace] in *. subst o1.
    rewrite thenR_err, catchR_err, run_bind, run_logError, thenR_ok,
      run_bind, run_modify, thenR_ok.
    rewrite (run_scheduleReconnection_arms env
               (set_isReconnecting false w1) random)
      by (cbn [isReconnecting reconnectAttempts set_isReconnecting];
          congruence || reflexivity || assumption).
    cbn [isReconnecting reconnectAttempts set_isReconnecting].
    rewrite !afterAll_lit. cbn [outcome final trace].
    rewrite !timeouts_app, T.
    cbn [reconnectAttempts isReconnecting connection set_reconnectTimer
         set_reconnectAttempts set_isReconnecting].
    repeat split; try reflexivity; try assumption.
    apply in_or_app. right. simpl. auto.
Qed.

End LifecycleAmid.

Lemma connect_witness :
  Semantics.answer (envOf calm) Imap.ImapConnect = inr 1%nat
  /\ State.keepAliveTimer
       (Semantics.final
          (Semantics.runAmid (envOf calm) alone 0 connect
             (State.newWatcher None None None 80 None 3000))) = true
  /\ activeIntervals
       (Semantics.trace
          (Semantics.runAmid (envOf calm) alone 0 connect
             (State.newWatcher None None None 80 None 3000))) = 1%Z
  /\ State.connection
       (Semantics.final
          (Semantics.runAmid (envOf calm) (stoppedAt 1) 0 connect
             (State.newWatcher None None None 80 None 3000))) = None
  /\ State.keepAliveTimer
       (Semantics.final
          (Semantics.runAmid (envOf calm) (stoppedAt 1) 0 connect
             (State.newWatcher None None None 80 None 3000))) = false.
Proof.
  split; [reflexivity|].
  destruct (connect_ends_in_one_of_three_ways (envOf calm) alone 0%nat
              (State.newWatcher None None None 80 None 3000)) as [_ H].
  destruct (H 1%nat eq_refl) as [_ H'].
  destruct (H' {| Imap.messages_total := Some 5%Z |} eq_refl)
    as (_ & _ & K & _ & _ & _ & _ & A & _).
  destruct (connect_ends_in_one_of_three_ways (envOf calm) (stoppedAt 1)
              0%nat (State.newWatcher None None None 80 None 3000))
    as [_ G].
  destruct (G 1%nat eq_refl) as [_ G'].
  destruct (G' {| Imap.messages_total := Some 5%Z |} eq_refl)
    as (_ & C & K' & _).
  split; [exact K|]. split; [exact A|]. split; [exact C | exact K'].
Defined.

Lemma reconnect_attempt_witness :
  Semantics.outcome
    (Semantics.runAmid (envOf offline) alone 0 connect reconnectingWatcher)
  = inl failure
  /\ (State.reconnectAttempts reconnectingWatcher
      < State.maxReconnectAttempts)%Z
  /\ timeouts (Semantics.trace
                 (Semantics.runAmid (envOf offline) alone 0 reconnectCallback
                                    reconnectingWatcher))
     = [reconnectDelay 2 (JS.Math_pow2 (-1))]
  /\ State.isReconnecting
       (Semantics.final
          (Semantics.runAmid (envOf calm) (stoppedAt 1) 0 reconnectCallback
             reconnectingWatcher))
     = false
  /\ State.keepAliveTimer
       (Semantics.final
          (Semantics.runAmid (envOf calm) (stoppedAt 1) 0 reconnectCallback
             reconnectingWatcher))
     = false.
Proof.
  assert (Ha : (State.reconnectAttempts reconnectingWatcher
                < State.maxReconnectAttempts)%Z) by reflexivity.
  split; [reflexivity|]. split; [exact Ha|]. split.
  - destruct (reconnect_attempt_resets_or_reschedules (envOf offline) alone
                0%nat reconnectingWatcher) as [_ H].
    exact (proj1 (proj2 (proj2 (H failure eq_refl Ha (JS.Math_pow2 (-1))
                                  eq_refl)))).
  - destruct (reconnect_attempt_resets_or_reschedules (envOf calm)
                (stoppedAt 1) 0%nat reconnectingWatcher) as [H _].
    destruct (H eq_refl) as (_ & R & _ & _ & K & _).
    split; [exact R|]. rewrite K. reflexivity.
Defined.

(** ** The backoff never reaches its cap *)

Section Backoff.
Import JS State.
Local Open Scope Z_scope.

(** X15.  For the attempts the bound allows, [1 <= n <= 5], the delay is
    at most 17000, so the cap of 30000 is never applied.  No attempt waits
    less than the one before, whatever the two jitters, and from the
    second attempt on each waits longer; the first two attempts can wait
    exactly as long, 2000 both, since the rounded sum reaches the base plus
    1000. *)
Theorem reconnect_delay_grows_below_the_cap :
  forall (n : Z) (random random' : number),
    1 <= n <= 5 ->
    isRandom random -> isRandom random' ->
    (lessEq (reconnectDelay n random) (ofZ 17000) = true
     /\ reconnectDelay n random
        = plus (ofZ (1000 * 2 ^ (n - 1))) (times random (ofZ 1000))
     /\ (n < 5 ->
         lessEq (reconnectDelay n random) (reconnectDelay (n + 1) random')
         = true)
     /\ (2 <= n < 5 ->
         lessThan (reconnectDelay n random) (reconnectDelay (n + 1) random')
         = true))
    /\ exists r1 r2,
        isRandom r1 /\ isRandom r2
        /\ reconnectDelay 1 r1 = ofZ 2000
        /\ reconnectDelay 2 r2 = ofZ 2000.
Proof.
  intros n random random' Hn Hr Hr'. split.
  - destruct (reconnectDelay_bounds n random Hn Hr) as (E & P & L & U).
    assert (B : 1000 <= 1000 * 2 ^ (n - 1) <= 16000).
    { assert (C : n = 1 \/ n = 2 \/ n = 3 \/ n = 4 \/ n = 5) by lia.
      destruct C as [->|[->|[->|[->| ->]]]]; cbn; lia. }
    assert (T : 2 ^ 53 = 9007199254740992) by reflexivity.
    assert (V : 0 < 2 ^ 1200) by reflexivity.
    destruct (ofZ_exact 17000) as [D1 D2]; [lia|].
    unfold lessEq, lessThan.
    split; [|split; [exact E|split]].
    + apply leb_proper; [assumption..|]. rewrite D2. nia.
    + intros H5.
      destruct (reconnectDelay_bounds (n + 1) random' ltac:(lia) Hr')
        as (_ & P' & L' & _).
      apply leb_proper; [assumption..|].
      replace (n + 1 - 1) with (Z.succ (n - 1)) in L' by lia.
      rewrite Z.pow_succ_r in L' by lia. nia.
    + intros H5.
      destruct (reconnectDelay_bounds (n + 1) random' ltac:(lia) Hr')
        as (_ & P' & L' & _).
      apply ltb_proper; [assumption..|].
      replace (n + 1 - 1) with (Z.succ (n - 1)) in L' by lia.
      rewrite Z.pow_succ_r in L' by lia.
      assert (2 <= 2 ^ (n - 1)).
      { change 2 with (2 ^ 1) at 1. apply Z.pow_le_mono_r; lia. }
      nia.
  - exists (S754_finite false 9007199254740991 (-53)), (ofZ 0).
    repeat split; vm_compute; reflexivity.
Qed.

End Backoff.

Lemma reconnect_delay_growth_witness :
  (1 <= 4 <= 5)%Z
  /\ isRandom almostOne /\ isRandom (JS.ofZ 0)
  /\ JS.lessThan (reconnectDelay 4 almostOne) (reconnectDelay 5 (JS.ofZ 0))
     = true
  /\ JS.lessEq (reconnectDelay 4 almostOne) (JS.ofZ 17000) = true.
Proof.
  assert (Hn : (1 <= 4 <= 5)%Z) by lia.
  assert (H1 : isRandom almostOne) by (repeat split; vm_compute; reflexivity).
  assert (H0 : isRandom (JS.ofZ 0))
    by (repeat split; vm_compute; reflexivity).
  destruct (reconnect_delay_grows_below_the_cap 4 almostOne (JS.ofZ 0)
              Hn H1 H0) as ((C & _ & _ & G) & _).
  split; [exact Hn|]. split; [exact H1|]. split; [exact H0|].
  split; [apply G; lia | exact C].
Defined.

(** ** The accounts file *)

Section AccountsFile.
Import JS Analyzer Imap State Async Semantics.

(** [findIndex] gives the first entry that matches. *)
Lemma findIndex_first w entries :
  forall i idx,
    findIndex w entries i = inr (Some idx) ->
    (i <= idx)%nat
    /\ (exists a, nth_error entries (idx - i) = Some (Some a)
                  /\ matchesAccount w (Some a) = inr true)
    /\ forall j acc, (j < idx - i)%nat -> nth_error entries j = Some acc ->
                     matchesAccount w acc = inr false.
Proof.
  induction entries as [|acc rest IH]; intros i idx H; [discriminate|].
  cbn [findIndex] in H.
  destruct (matchesAccount w acc) as [e|[|]] eqn:M; [discriminate| |].
  - injection H as <-. rewrite Nat.sub_diag. split; [lia|]. split.
    + destruct acc as [a|]; [exists a; split; [reflexivity | exact M]|].
      exfalso. unfold matchesAccount in M.
      destruct (truthyOpt (accountUser w)); [discriminate|].
      destruct (truthyOpt (label w)); discriminate.
    + intros j acc' Hj. lia.
  - destruct (IH _ _ H) as (Hi & (a & Ha & Hm) & Hb).
    split; [lia|].
    replace (idx - i)%nat with (S (idx - S i)) by lia. split.
    + exists a. split; assumption.
    + intros [|j] acc' Hj Hn.
      * injection Hn as <-. exact M.
      * apply (Hb j); [lia | exact Hn].
Qed.

Lemma findIndex_found w entries :
  forall i k a,
    nth_error entries k = Some (Some a) ->
    matchesAccount w (Some a) = inr true ->
    (forall j acc, (j < k)%nat -> nth_error entries j = Some acc ->
                   exists r, matchesAccount w acc = inr r) ->
    exists idx, findIndex w entries i = inr (Some idx)
                /\ (idx <= i + k)%nat.
Proof.
  induction entries as [|acc rest IH]; intros i k a Hk Hm Hb.
  - destruct k; discriminate.
  - cbn [findIndex]. destruct k as [|k].
    + injection Hk as ->. rewrite Hm. exists i. split; [reflexivity | lia].
    + destruct (Hb 0%nat acc) as [[|] Hr]; [lia | reflexivity | |];
        rewrite Hr.
      * exists i. split; [reflexivity | lia].
      * destruct (IH (S i) k a Hk Hm) as [idx [Hi Hl]].
        { intros j acc' Hj Hn. apply (Hb (S j)); [lia | exact Hn]. }
        exists idx. split; [exact Hi | lia].
Qed.

Lemma setAnalyzedUntil_frame entries :
  forall idx iso,
    length (setAnalyzedUntil entries idx iso) = length entries
    /\ (forall j, j <> idx ->
                  nth_error (setAnalyzedUntil entries idx iso) j
                  = nth_error entries j)
    /\ (forall a, nth_error entries idx = Some (Some a) ->
                  nth_error (setAnalyzedUntil entries idx iso) idx
                  = Some (Some {| acc_user := acc_user a;
                                  acc_label := acc_label a;
                                  acc_emailsAnalyzedUntil := Some iso |})).
Proof.
  induction entries as [|acc rest IH]; intros idx iso.
  - simpl. repeat split; auto. intros a H. destruct idx; discriminate.
  - destruct idx as [|n]; cbn [setAnalyzedUntil].
    + split; [reflexivity|]. split.
      * intros [|j] Hj; [congruence | reflexivity].
      * intros a H. injection H as ->. reflexivity.
    + destruct (IH n iso) as (L & F & S). split; [simpl; congruence|]. split.
      * intros [|j] Hj; [reflexivity|]. apply F. congruence.
      * intros a H. apply S. exact H.
Qed.

(** X16.  When [updateAnalyzedUntil] persists the watermark it reads the
    file, finds the first entry with the watcher's user or label, and
    writes the file back once with only that entry changed: the entry keeps
    its user and label and gets the new instant, every other entry and the
    number of entries are as they were read.  Only after the write
    succeeded does the watermark in memory move. *)
Theorem watermark_update_rewrites_one_entry :
  forall (env : Env) (w : Watcher) (iso : Z) (path raw : str)
         (entries : list (option Account)) (idx : nat),
    configPath w = Some path ->
    truthy path = true ->
    answerSync env (ReadFile path) = inr raw ->
    answerSync env (JsonParse raw) = inr (Accounts entries) ->
    findIndex w entries 0 = inr (Some idx) ->
    let r := run env (updateAnalyzedUntil (Some iso)) w in
    let written := setAnalyzedUntil entries idx iso in
    (exists rest,
        trace r = [Did (ReadFile path); Did (JsonParse raw);
                   Did (WriteFile path (Accounts written))] ++ rest
        /\ forall s, ~ In (Did s) rest)
    /\ length written = length entries
    /\ (forall j, j <> idx -> nth_error written j = nth_error entries j)
    /\ (exists a,
           nth_error entries idx = Some (Some a)
           /\ matchesAccount w (Some a) = inr true
           /\ nth_error written idx
              = Some (Some {| acc_user := acc_user a;
                              acc_label := acc_label a;
                              acc_emailsAnalyzedUntil := Some iso |}))
    /\ (forall j acc, (j < idx)%nat -> nth_error entries j = Some acc ->
                      matchesAccount w acc = inr false)
    /\ (answerSync env (WriteFile path (Accounts written)) = inr tt ->
        final r = set_emailsAnalyzedUntil (Some (Some iso)) w)
    /\ (forall e,
           answerSync env (WriteFile path (Accounts written)) = inl e ->
           final r = w).
Proof.
  intros env w iso path raw entries idx Hp Ht Hr Hj Hi r written.
  destruct (findIndex_first w entries 0 idx Hi) as (_ & (a & Ha & Hm) & Hb).
  rewrite Nat.sub_0_r in Ha, Hb.
  destruct (setAnalyzedUntil_frame entries idx iso) as (L & F & S).
  fold written in L, F, S.
  assert (R : r = match answerSync env (WriteFile path (Accounts written))
                  with
                  | inr _ =>
                      {| final := set_emailsAnalyzedUntil (Some (Some iso)) w;
                         trace := [Did (ReadFile path); Did (JsonParse raw);
                                   Did (WriteFile path (Accounts written))];
                         outcome := inr tt |}
                  | inl e =>
                      {| final := w;
                         trace := [Did (ReadFile path); Did (JsonParse raw);
                                   Did (WriteFile path (Accounts written));
                                   Out (Log StdErr (PersistFailed e))];
                         outcome := inr tt |}
                  end).
  { subst r written. unfold updateAnalyzedUntil.
    rewrite run_tryCatch, run_Get.
    unfold truthyOpt, orElse. rewrite Hp, Ht.
    runs. rewrite Hr. runs. rewrite Hj. runs. rewrite Hi.
    unfold toISOString. runs.
    destruct (answerSync env (WriteFile path _)) as [e|[]]; runs;
      reflexivity. }
  split; [|split; [exact L|split; [exact F|split; [|split; [exact Hb|]]]]].
  - rewrite R.
    destruct (answerSync env (WriteFile path (Accounts written))) as [e|[]];
      cbn [trace]; eexists; (split; [reflexivity|]);
      intros s F'; simpl in F';
      repeat (destruct F' as [F'|F']; try discriminate); destruct F'.
  - exists a. repeat split; auto.
  - split.
    + intros Hw. rewrite R, Hw. reflexivity.
    + intros e Hw. rewrite R, Hw. reflexivity.
Qed.

Lemma firstMissing_none acc :
  firstMissing acc required = None
  <-> truthyOpt (acc_user (identity acc)) = true
      /\ truthyOpt (password acc) = true
      /\ truthyOpt (host acc) = true.
Proof.
  unfold required. cbn [firstMissing].
  destruct (truthyOpt (acc_user (identity acc)));
    destruct (truthyOpt (password acc));
    destruct (truthyOpt (host acc)); split;
    try discriminate; try tauto; intros (A & B & C); discriminate.
Qed.

Lemma firstMissing_some acc key :
  firstMissing acc required = Some key ->
  exists before field after,
    required = before ++ (key, field) :: after
    /\ truthyOpt (field acc) = false
    /\ Forall (fun kf => truthyOpt (snd kf acc) = true) before.
Proof.
  unfold required. cbn [firstMissing].
  destruct (truthyOpt (acc_user (identity acc))) eqn:U.
  - destruct (truthyOpt (password acc)) eqn:P.
    + destruct (truthyOpt (host acc)) eqn:H; [discriminate|].
      intros E. injection E as <-.
      exists [(lit "user", fun acc => acc_user (identity acc));
              (lit "password", password)], host, [].
      repeat split; auto.
    + intros E. injection E as <-.
      exists [(lit "user", fun acc => acc_user (identity acc))], password,
             [(lit "host", host)].
      repeat split; auto.
  - intros E. injection E as <-.
    exists [], (fun acc => acc_user (identity acc)),
           [(lit "password", password); (lit "host", host)].
    repeat split; auto.
Qed.

Lemma map_Some_inj {X} (l l' : list X) : map Some l = map Some l' -> l = l'.
Proof.
  revert l'. induction l as [|x r IH]; intros [|y r'] H; try discriminate;
    [reflexivity|].
  injection H as -> H. f_equal. apply IH, H.
Qed.

Lemma validateFrom_ok data :
  forall idx accounts,
    validateFrom data idx = inr accounts
    <-> data = map Some accounts /\ Forall complete accounts.
Proof.
  induction data as [|acc rest IH]; intros idx accounts; cbn [validateFrom].
  - split.
    + intros E. injection E as <-. split; [reflexivity | constructor].
    + intros [E _]. destruct accounts; [reflexivity | discriminate].
  - destruct acc as [a|].
    2: { split; [discriminate|]. intros [E _].
         destruct accounts; discriminate. }
    destruct (firstMissing a required) as [key|] eqn:M.
    + split; [discriminate|]. intros [E F].
      destruct accounts as [|a' l]; [discriminate|].
      injection E as <- _. inversion F as [|? ? C _]; subst.
      apply firstMissing_none in C. congruence.
    + apply firstMissing_none in M.
      destruct (validateFrom rest (S idx)) as [err|l] eqn:V.
      * split; [discriminate|]. intros [E F].
        destruct accounts as [|a' l]; [discriminate|].
        injection E as <- E. inversion F as [|? ? _ F']; subst.
        assert (X : validateFrom (map Some l) (S idx) = inr l)
          by (apply IH; split; [reflexivity | exact F']).
        congruence.
      * apply IH in V. destruct V as [-> F]. split.
        -- intros E. injection E as <-.
           split; [reflexivity | constructor; assumption].
        -- intros [E F']. destruct accounts as [|a' l']; [discriminate|].
           injection E as <- E. apply map_Some_inj in E. congruence.
Qed.

Lemma validateFrom_missing data :
  forall idx i key,
    validateFrom data idx = inl (MissingRequiredField i key) ->
    (idx <= i)%nat
    /\ (exists a, nth_error data (i - idx) = Some (Some a)
                  /\ firstMissing a required = Some key)
    /\ forall j, (j < i - idx)%nat ->
                 exists b, nth_error data j = Some (Some b) /\ complete b.
Proof.
  induction data as [|acc rest IH]; intros idx i key; cbn [validateFrom];
    [discriminate|].
  destruct acc as [a|]; [|discriminate].
  destruct (firstMissing a required) as [k|] eqn:M.
  - intros E. injection E as <- <-. rewrite Nat.sub_diag.
    split; [lia|]. split; [exists a; split; [reflexivity | exact M]|].
    intros j Hj. lia.
  - destruct (validateFrom rest (S idx)) as [err|l] eqn:V; [|discriminate].
    intros E. injection E as ->.
    destruct (IH _ _ _ V) as (Hi & (b & Hb & Hm) & Hc).
    split; [lia|]. replace (i - idx)%nat with (S (i - S idx)) by lia. split.
    + exists b. split; assumption.
    + intros [|j] Hj.
      * exists a. split; [reflexivity | apply firstMissing_none; exact M].
      * apply Hc. lia.
Qed.

(** X17.  [loadAccountsFromFile] returns the parsed array exactly when
    every entry has a non-empty [user], [password] and [host].  Otherwise
    it throws: for a value that is no array; and for the first entry that
    lacks a required field, naming the index of that entry and the first
    field it lacks in the order [user], [password], [host]. *)
Theorem loadAccountsFromFile_accepts_complete_accounts_only :
  forall (data : list (option AccountConfig)),
    (forall accounts,
        loadAccountsFromFile (inr (ConfigArray data)) = inr accounts
        <-> data = map Some accounts
            /\ Forall (fun acc =>
                         truthyOpt (acc_user (identity acc)) = true
                         /\ truthyOpt (password acc) = true
                         /\ truthyOpt (host acc) = true) accounts)
    /\ (forall idx key,
           loadAccountsFromFile (inr (ConfigArray data))
           = inl (MissingRequiredField idx key) ->
           (exists a before field after,
               nth_error data idx = Some (Some a)
               /\ required = before ++ (key, field) :: after
               /\ truthyOpt (field a) = false
               /\ Forall (fun kf => truthyOpt (snd kf a) = true) before)
           /\ forall j, (j < idx)%nat ->
                exists b, nth_error data j = Some (Some b)
                          /\ truthyOpt (acc_user (identity b)) = true
                          /\ truthyOpt (password b) = true
                          /\ truthyOpt (host b) = true)
    /\ loadAccountsFromFile (inr ConfigNotAnArray) = inl MustBeAnArray
    /\ forall e, loadAccountsFromFile (inl e) = inl (ReadOrParseFailed e).
Proof.
  intros data. split; [|split; [|split; [reflexivity | reflexivity]]].
  - intros accounts. unfold loadAccountsFromFile.
    exact (validateFrom_ok data 0 accounts).
  - intros idx key H. unfold loadAccountsFromFile in H.
    destruct (validateFrom_missing data 0 idx key H)
      as (_ & (a & Ha & Hm) & Hc).
    rewrite Nat.sub_0_r in Ha, Hc. split; [|exact Hc].
    destruct (firstMissing_some a key Hm) as (before & field & after & E).
    exists a, before, field, after. tauto.
Qed.

(** X18.  A watcher started from the accounts file always finds an entry
    to write its watermark to: the first entry of the file that has its
    user, or has its label.  That entry is never after the watcher's own,
    and it is the watcher's own whenever no earlier account has the same
    user or carries the watcher's label. *)
Theorem watcher_of_an_account_finds_its_entry :
  forall (parsed : Exn + ConfigJson) (accounts : list AccountConfig)
         (envThreshold : Q) (bodyMax : Z) (pathToUse : str)
         (i : nat) (acc : AccountConfig),
    loadAccountsFromFile parsed = inr accounts ->
    nth_error accounts i = Some acc ->
    let w := watcherOfAccount envThreshold bodyMax pathToUse acc in
    exists idx,
      findIndex w (entriesOf accounts) 0 = inr (Some idx)
      /\ (idx <= i)%nat
      /\ ((forall j other,
              (j < i)%nat -> nth_error accounts j = Some other ->
              acc_user (identity other) <> acc_user (identity acc)
              /\ (acc_label (identity other) = None
                  \/ acc_label (identity other) <> label w)) ->
          idx = i).
Proof.
  intros parsed accounts envThreshold bodyMax pathToUse i acc Hl Hn w.
  assert (C : Forall complete accounts).
  { destruct parsed as [e|[|data]]; try discriminate.
    unfold loadAccountsFromFile in Hl. apply validateFrom_ok in Hl.
    tauto. }
  assert (Cacc : complete acc).
  { rewrite Forall_forall in C. apply C. eapply nth_error_In. exact Hn. }
  destruct Cacc as (Hu & _ & _).
  assert (U : truthyOpt (accountUser w) = true) by exact Hu.
  assert (M : forall a, matchesAccount w (Some a)
                        = inr ((match acc_user a, accountUser w with
                                | Some u, Some v => JS.eqb u v
                                | _, _ => false
                                end)
                               || (truthyOpt (label w)
                                   && match acc_label a, label w with
                                      | Some u, Some v => JS.eqb u v
                                      | _, _ => false
                                      end))).
  { intros a. unfold matchesAccount. rewrite U.
    destruct (match acc_user a, accountUser w with
              | Some u, Some v => JS.eqb u v
              | _, _ => false
              end); [reflexivity|].
    destruct (truthyOpt (label w)); reflexivity. }
  assert (Own : matchesAccount w (Some (identity acc)) = inr true).
  { rewrite M. change (accountUser w) with (acc_user (identity acc)).
    destruct (acc_user (identity acc)) as [u|]; [|discriminate].
    rewrite eqb_refl. reflexivity. }
  assert (Hk : nth_error (entriesOf accounts) i = Some (Some (identity acc))).
  { unfold entriesOf. rewrite nth_error_map, Hn. reflexivity. }
  destruct (findIndex_found w (entriesOf accounts) 0 i (identity acc) Hk Own)
    as [idx [Hi Hle]].
  { intros j e Hj He. unfold entriesOf in He. rewrite nth_error_map in He.
    destruct (nth_error accounts j) as [o|]; [|discriminate].
    injection He as <-. rewrite M. eexists. reflexivity. }
  exists idx. split; [exact Hi|]. split; [lia|].
  intros Hd.
  destruct (findIndex_first w (entriesOf accounts) 0 idx Hi)
    as (_ & (a & Ha & Hm) & _).
  rewrite Nat.sub_0_r in Ha.
  destruct (Nat.eq_dec idx i) as [E|E]; [exact E|]. exfalso.
  unfold entriesOf in Ha. rewrite nth_error_map in Ha.
  destruct (nth_error accounts idx) as [other|] eqn:Ho; [|discriminate].
  injection Ha as <-.
  destruct (Hd idx other) as [Du Dl]; [lia | exact Ho|].
  rewrite M in Hm. injection Hm as Hm. apply orb_true_iff in Hm.
  destruct Hm as [Hm|Hm].
  - change (accountUser w) with (acc_user (identity acc)) in Hm.
    destruct (acc_user (identity other)) as [u|]; [|discriminate].
    destruct (acc_user (identity acc)) as [v|]; [|discriminate].
    apply eqb_eq in Hm. congruence.
  - apply andb_true_iff in Hm. destruct Hm as [_ Hm].
    change (if truthyOpt (acc_label (identity acc))
            then acc_label (identity acc)
            else acc_user (identity acc)) with (label w) in Hm.
    destruct (acc_label (identity other)) as [u|] eqn:Lo; [|discriminate].
    destruct (label w) as [v|]; [|discriminate].
    apply eqb_eq in Hm. destruct Dl as [Dl|Dl]; congruence.
Qed.

End AccountsFile.

Lemma watermark_update_witness :
  let entries := [Some {| Imap.acc_user := Some (JS.lit "me");
                          Imap.acc_label := None;
                          Imap.acc_emailsAnalyzedUntil := None |}] in
  State.configPath watcher = Some (JS.lit "accounts.json")
  /\ findIndex watcher entries 0 = inr (Some 0%nat)
  /\ (exists rest,
         Semantics.trace
           (Semantics.run (envOf calm) (updateAnalyzedUntil (Some 5000%Z))
                          watcher)
         = [Semantics.Did (Imap.ReadFile (JS.lit "accounts.json"));
            Semantics.Did (Imap.JsonParse (JS.lit "[]"));
            Semantics.Did
              (Imap.WriteFile (JS.lit "accounts.json")
                 (Imap.Accounts (setAnalyzedUntil entries 0 5000)))] ++ rest
         /\ forall s, ~ In (Semantics.Did s) rest)
  /\ Semantics.final
       (Semantics.run (envOf calm) (updateAnalyzedUntil (Some 5000%Z)) watcher)
     = State.set_emailsAnalyzedUntil (Some (Some 5000%Z)) watcher.
Proof.
  intros entries.
  destruct (watermark_update_rewrites_one_entry (envOf calm) watcher 5000%Z
              (JS.lit "accounts.json") (JS.lit "[]") entries 0%nat
              eq_refl eq_refl eq_refl eq_refl eq_refl)
    as (T & _ & _ & _ & _ & W & _).
  split; [reflexivity|]. split; [reflexivity|]. split; [exact T|].
  exact (W eq_refl).
Defined.

Lemma loadAccountsFromFile_witness :
  Forall complete twoAccounts
  /\ loadAccountsFromFile (inr (ConfigArray (map Some twoAccounts)))
     = inr twoAccounts.
Proof.
  assert (C : Forall complete twoAccounts)
    by (repeat constructor; reflexivity).
  split; [exact C|].
  apply (proj1 (loadAccountsFromFile_accepts_complete_accounts_only
                  (map Some twoAccounts))).
  split; [reflexivity | exact C].
Defined.

Lemma watcher_of_an_account_witness :
  loadAccountsFromFile (inr (ConfigArray (map Some twoAccounts)))
  = inr twoAccounts
  /\ nth_error twoAccounts 1 = Some homeAccount
  /\ findIndex (watcherOfAccount 80 3000 (JS.lit "accounts.json") homeAccount)
       (entriesOf twoAccounts) 0
     = inr (Some 1%nat).
Proof.
  assert (L : loadAccountsFromFile (inr (ConfigArray (map Some twoAccounts)))
              = inr twoAccounts) by reflexivity.
  split; [exact L|]. split; [reflexivity|].
  destruct (watcher_of_an_account_finds_its_entry
              (inr (ConfigArray (map Some twoAccounts))) twoAccounts 80
              3000%Z (JS.lit "accounts.json") 1%nat homeAccount L eq_refl)
    as (idx & Hi & _ & He).
  rewrite He in Hi; [exact Hi|].
  intros [|j] other Hj Hn; [|lia].
  injection Hn as <-. split; [discriminate | right; discriminate].
Defined.

(** ** The search date *)

Section SearchDate.
Import JS.
Local Open Scope Z_scope.

Lemma unlit_lit s : unlit (lit s) = s.
Proof.
  unfold unlit, lit. rewrite map_map.
  rewrite (map_ext _ (fun a => a)) by apply ascii_N_embedding.
  rewrite map_id. apply string_of_list_ascii_of_string.
Qed.

Lemma readNumber_numberToString n : readNumber (numberToString n) = Some n.
Proof.
  unfold readNumber, numberToString. rewrite unlit_lit, NilZero.isi.
  - simpl. rewrite DecimalZ.of_to. reflexivity.
  - destruct n; simpl; try discriminate.
    intros E. injection E as E. exact (Unsigned.to_uint_nonnil _ E).
  - destruct n; simpl; try discriminate.
    intros E. injection E as E. exact (Unsigned.to_uint_nonnil _ E).
Qed.

(** A check of every integer of a range. *)
Lemma checked_range (f : Z -> bool) (lo hi : Z) :
  forallb (fun k => f (lo + Z.of_nat k)) (seq 0 (Z.to_nat (hi - lo + 1)))
  = true ->
  forall z, lo <= z <= hi -> f z = true.
Proof.
  intros H z Hz. rewrite forallb_forall in H.
  replace z with (lo + Z.of_nat (Z.to_nat (z - lo))) by lia.
  apply H. apply in_seq. lia.
Qed.

Lemma days_read_back d : 0 <= d <= 99 -> dayReadsBack d = true.
Proof. apply (checked_range dayReadsBack 0 99). vm_compute. reflexivity. Qed.

Lemma months_read_back m : 0 <= m <= 11 -> monthReadsBack m = true.
Proof. apply (checked_range monthReadsBack 0 11). vm_compute. reflexivity. Qed.

Lemma years_have_four_digits y : 1000 <= y <= 9999 -> hasFourDigits y = true.
Proof.
  apply (checked_range hasFourDigits 1000 9999). vm_compute. reflexivity.
Qed.

(** X19.  For a calendar day (day of month 1 to 31, month index 0 to 11,
    any year) [formatImapDate] writes two digits for the day, a hyphen, the
    three-letter English month, a hyphen and the year in decimal; the date
    can be read back from the text, so different days give different
    texts; and for a four-digit year the text has 11 code units. *)
Theorem formatImapDate_reads_back :
  forall (date : JsDate),
    1 <= getDate date <= 31 ->
    0 <= getMonth date <= 11 ->
    parseImapDate (formatImapDate date) = Some date
    /\ (exists d1 d2 m1 m2 m3,
           formatImapDate date
           = d1 :: d2 :: 45%N :: m1 :: m2 :: m3 :: 45%N
               :: numberToString (getFullYear date)
           /\ In [m1; m2; m3] months)
    /\ (1000 <= getFullYear date <= 9999 ->
        length (formatImapDate date) = 11%nat)
    /\ forall date',
        1 <= getDate date' <= 31 ->
        0 <= getMonth date' <= 11 ->
        formatImapDate date' = formatImapDate date -> date' = date.
Proof.
  assert (Shape : forall date,
             1 <= getDate date <= 31 -> 0 <= getMonth date <= 11 ->
             exists d1 d2 m1 m2 m3,
               formatImapDate date
               = d1 :: d2 :: 45%N :: m1 :: m2 :: m3 :: 45%N
                   :: numberToString (getFullYear date)
               /\ readNumber [d1; d2] = Some (getDate date)
               /\ indexOf [m1; m2; m3] months 0 = Some (getMonth date)
               /\ In [m1; m2; m3] months).
  { intros [d m y] Hd Hm. cbn [getDate getMonth getFullYear] in *.
    pose proof (days_read_back d ltac:(lia)) as D.
    pose proof (months_read_back m Hm) as M.
    unfold formatImapDate. cbn [getDate getMonth getFullYear]. cbv zeta.
    unfold dayReadsBack in D. unfold monthReadsBack in M.
    assert (Min : In (monthName m) months).
    { unfold monthName.
      replace ((0 <=? m) && (m <? 12)) with true
        by (symmetry; apply andb_true_iff; split;
            [apply Z.leb_le | apply Z.ltb_lt]; lia).
      apply nth_In. change (length months) with 12%nat. lia. }
    destruct (padStart (numberToString d) 2 48%N)
      as [|d1 [|d2 [|]]]; try discriminate.
    destruct (monthName m) as [|m1 [|m2 [|m3 [|]]]]; try discriminate.
    destruct (readNumber [d1; d2]) as [d'|] eqn:RD; [|discriminate].
    destruct (indexOf [m1; m2; m3] months 0) as [m'|] eqn:IM; [|discriminate].
    apply Z.eqb_eq in D, M. subst d' m'.
    exists d1, d2, m1, m2, m3.
    split; [reflexivity|]. split; [exact RD|]. split; [exact IM | exact Min]. }
  assert (Back : forall date,
             1 <= getDate date <= 31 -> 0 <= getMonth date <= 11 ->
             parseImapDate (formatImapDate date) = Some date).
  { intros date Hd Hm.
    destruct (Shape date Hd Hm) as (d1 & d2 & m1 & m2 & m3 & E & D & M & _).
    rewrite E. cbn [parseImapDate]. rewrite D, M, readNumber_numberToString.
    destruct date; reflexivity. }
  intros date Hd Hm. split; [exact (Back date Hd Hm)|]. split; [|split].
  - destruct (Shape date Hd Hm) as (d1 & d2 & m1 & m2 & m3 & E & _ & _ & I).
    exists d1, d2, m1, m2, m3. split; assumption.
  - intros Hy.
    destruct (Shape date Hd Hm) as (d1 & d2 & m1 & m2 & m3 & E & _).
    rewrite E. pose proof (years_have_four_digits _ Hy) as Y.
    unfold hasFourDigits in Y. apply Nat.eqb_eq in Y.
    cbn [length]. rewrite Y. reflexivity.
  - intros date' Hd' Hm' E.
    pose proof (Back date' Hd' Hm') as B'. rewrite E, (Back date Hd Hm) in B'.
    congruence.
Qed.

End SearchDate.

Lemma formatImapDate_witness :
  let date := {| getDate := 5; getMonth := 10; getFullYear := 2025 |} in
  (1 <= getDate date <= 31)%Z
  /\ (0 <= getMonth date <= 11)%Z
  /\ formatImapDate date = JS.lit "05-Nov-2025"
  /\ parseImapDate (JS.lit "05-Nov-2025") = Some date.
Proof.
  intros date.
  assert (Hd : (1 <= getDate date <= 31)%Z) by (simpl; lia).
  assert (Hm : (0 <= getMonth date <= 11)%Z) by (simpl; lia).
  assert (E : formatImapDate date = JS.lit "05-Nov-2025") by reflexivity.
  split; [exact Hd|]. split; [exact Hm|]. split; [exact E|].
  rewrite <- E. exact (proj1 (formatImapDate_reads_back date Hd Hm)).
Defined.

(** ** One keepalive interval *)

Section HoldsLemmas.
Import Imap State Async Semantics.
Local Open Scope Z_scope.

Variable Inv : Watcher -> Z -> Prop.

Lemma holds_bind {A B} (p : Prog A) (f : A -> Prog B) :
  (forall a, Restores Inv (f a)) ->
  forall w g, holds Inv p w g -> holds Inv (bind p f) w g.
Proof.
  intros Hf. induction p as [a|e|k IH|w' k IH|o k IH|s k IH|o k IH];
    intros w g H; cbn [holds bind] in *; auto.
  - apply Hf. exact H.
  - destruct H as [H1 H2]. split; auto.
Qed.

Lemma holds_tryCatch {A} (p : Prog A) h :
  (forall e, Restores Inv (h e)) ->
  forall w g, holds Inv p w g -> holds Inv (tryCatch p h) w g.
Proof.
  intros Hh. induction p as [a|e|k IH|w' k IH|o k IH|s k IH|o k IH];
    intros w g H; cbn [holds tryCatch] in *; auto.
  - apply Hh. exact H.
  - destruct H as [H1 H2]. split; auto.
Qed.

Lemma restores_bind {A B} (p : Prog A) (f : A -> Prog B) :
  Restores Inv p -> (forall a, Restores Inv (f a)) -> Restores Inv (bind p f).
Proof. intros Hp Hf w g H. apply holds_bind; auto. Qed.

Lemma restores_tryCatch {A} (p : Prog A) h :
  Restores Inv p -> (forall e, Restores Inv (h e)) ->
  Restores Inv (tryCatch p h).
Proof. intros Hp Hh w g H. apply holds_tryCatch; auto. Qed.

Lemma restores_Ret {A} (a : A) : Restores Inv (Ret a).
Proof. intros w g H. exact H. Qed.

Lemma restores_Raise {A} e : Restores Inv (@Raise A e).
Proof. intros w g H. exact H. Qed.

Lemma restores_tryFinally {A} (p : Prog A) fin :
  Restores Inv p -> Restores Inv fin -> Restores Inv (tryFinally p fin).
Proof.
  intros Hp Hf w g H. specialize (Hp w g H). clear H. revert w g Hp.
  induction p as [a|e|k IH|w' k IH|o k IH|s k IH|o k IH];
    intros w g H; cbn [holds tryFinally] in *; auto.
  - apply holds_bind; [intros _; apply restores_Ret | apply Hf, H].
  - apply holds_bind; [intros _; apply restores_Raise | apply Hf, H].
  - destruct H as [H1 H2]. split; auto.
Qed.

Lemma restores_forEach {X} (l : list X) body :
  (forall x, Restores Inv (body x)) -> Restores Inv (forEach l body).
Proof.
  intros Hb. induction l as [|x r IH]; cbn [forEach];
    [apply restores_Ret | apply restores_bind; auto].
Qed.

Lemma restores_await o : Restores Inv (await o).
Proof.
  intros w g H. cbn [holds await]. split; [exact H|].
  intros [e|x] w' g' H'; exact H'.
Qed.

Lemma restores_call s : Restores Inv (call s).
Proof. intros w g H. cbn [holds call]. intros [e|x]; exact H. Qed.

Lemma restores_emit o : intervalChange o = 0 -> Restores Inv (emit o).
Proof.
  intros Ho w g H. cbn [holds emit]. rewrite Ho, Z.add_0_r. exact H.
Qed.

Lemma restores_modify f :
  (forall w g, Inv w g -> Inv (f w) g) -> Restores Inv (modify f).
Proof. intros Hf w g H. cbn [holds modify]. auto. Qed.

Lemma restores_Get {A} (k : Watcher -> Prog A) :
  (forall w0, Restores Inv (k w0)) -> Restores Inv (Get k).
Proof. intros Hk w g H. cbn [holds]. apply Hk, H. Qed.

Lemma activeIntervals_app a b :
  activeIntervals (a ++ b) = activeIntervals a + activeIntervals b.
Proof.
  induction a as [|[o|s|o] r IH]; cbn [app activeIntervals]; lia.
Qed.

(** Up to the next suspension point. *)
Lemma advance_holds {A} (p : Prog A) sync :
  forall w g,
    holds Inv p w g ->
    Inv (reached (advance sync p w))
        (g + activeIntervals (emitted (advance sync p w)))
    /\ match next (advance sync p w) with
       | Suspended o k => forall r, Restores Inv (k r)
       | Finished _ => True
       end.
Proof.
  induction p as [a|e|k IH|w' k IH|o k IH|s k IH|o k IH];
    intros w g H; cbn [holds advance] in *.
  - cbn. rewrite Z.add_0_r. auto.
  - cbn. rewrite Z.add_0_r. auto.
  - apply IH, H.
  - apply IH, H.
  - destruct (IH _ _ H) as [H1 H2].
    cbn [afterSlice reached emitted next activeIntervals].
    rewrite Z.add_assoc. auto.
  - destruct (IH _ _ _ (H (sync s))) as [H1 H2].
    cbn [afterSlice reached emitted next activeIntervals]. auto.
  - destruct H as [H1 H2]. cbn. rewrite Z.add_0_r. split; [exact H1|].
    intros r w' g' H'. apply H2, H'.
Qed.

End HoldsLemmas.

(** Decomposes a [Restores] goal along the structure of the program. *)
Ltac restores_step :=
  match goal with
  | |- Restores _ (Async.bind _ _) => apply restores_bind; [|intro]
  | |- Restores _ (Async.tryCatch _ _) => apply restores_tryCatch; [|intro]
  | |- Restores _ (Async.tryFinally _ _) => apply restores_tryFinally
  | |- Restores _ (Async.forEach _ _) => apply restores_forEach; intro
  | |- Restores _ (Async.await _) => apply restores_await
  | |- Restores _ (Async.call _) => apply restores_call
  | |- Restores _ (Async.emit _) => apply restores_emit; reflexivity
  | |- Restores _ (Async.log _) => apply restores_emit; reflexivity
  | |- Restores _ (Async.logError _) => apply restores_emit; reflexivity
  | |- Restores _ (Async.modify _) => apply restores_modify; intros ? ? ?
  | |- Restores _ (Async.Get _) => apply restores_Get; intro
  | |- Restores _ (Async.Ret _) => apply restores_Ret
  | |- Restores _ (Async.Raise _) => apply restores_Raise
  | |- Restores _ (match ?x with _ => _ end) => destruct x eqn:?
  end.

Ltac restores := repeat restores_step.

(** Runs a program that does not suspend, step by step. *)
Ltac holds_step :=
  first
    [ progress cbn [holds Async.bind Async.tryCatch Async.call Async.orThrow
                    Async.modify Async.emit Async.log Async.logError]
    | match goal with
      | |- forall _, _ => intro
      | |- holds _ ?p _ _ =>
          match p with
          | context [Async.orThrow _ ?r] => is_var r; destruct r
          | context [match ?x with _ => _ end] => destruct x eqn:?
          end
      end ].

Ltac keepAlive_side :=
  unfold keepAliveInv in *;
  cbn [State.connection State.keepAliveTimer State.set_connection
       State.set_isWatching State.set_isReconnecting
       State.set_reconnectAttempts State.set_reconnectTimer
       State.set_keepAliveTimer State.set_emailsAnalyzedUntil
       State.set_isBackfilling intervalChange] in *;
  repeat match goal with
         | H : _ /\ _ |- _ => destruct H
         | H : State.keepAliveTimer ?w = _ |- _ => rewrite H in *
         end;
  split; [lia | try congruence; try discriminate; auto].

Section KeepAlive.
Import JS Analyzer Imap State Async Semantics.
Local Open Scope Z_scope.

Variable toLowerCase : str -> str.

Lemma restores_stopKeepAlive : Restores keepAliveInv stopKeepAlive.
Proof.
  intros w g H. unfold stopKeepAlive. repeat holds_step; keepAlive_side.
Qed.

Lemma restores_startKeepAlive : Restores keepAliveInv startKeepAlive.
Proof.
  intros w g H. unfold startKeepAlive, stopKeepAlive.
  repeat holds_step; keepAlive_side.
Qed.

Lemma restores_cleanupConnection : Restores keepAliveInv cleanupConnection.
Proof.
  intros w g H. unfold cleanupConnection, stopKeepAlive.
  repeat holds_step; keepAlive_side.
Qed.

Lemma restores_scheduleReconnection :
  Restores keepAliveInv scheduleReconnection.
Proof.
  intros w g H. unfold scheduleReconnection.
  repeat holds_step; keepAlive_side.
Qed.

Lemma restores_handleConnectionError :
  Restores keepAliveInv handleConnectionError.
Proof.
  unfold handleConnectionError. restores.
  - apply restores_cleanupConnection.
  - apply restores_scheduleReconnection.
Qed.

Lemma restores_connect : Restores keepAliveInv connect.
Proof.
  unfold connect, setupConnectionHandlers. restores;
    try apply restores_startKeepAlive; keepAlive_side.
Qed.

Lemma restores_stopWatching : Restores keepAliveInv stopWatching.
Proof.
  unfold stopWatching. restores;
    try apply restores_cleanupConnection; keepAlive_side.
Qed.

Lemma restores_parseBatch messages :
  forall emails, Restores keepAliveInv (parseBatch messages emails).
Proof.
  induction messages as [|m rest IH]; intros emails;
    [apply restores_Ret|].
  rewrite parseBatch_cons. unfold emailDateOf. restores. apply IH.
Qed.

(** Whatever the event loop starts restores the invariant of the keepalive
    interval at each of its suspension points and at its end. *)
Lemma restores_entry e : Restores keepAliveInv (entryProg toLowerCase e).
Proof.
  destruct e; unfold entryProg.
  - unfold onMail, getTotalMessages, onNewMails, fetchEmailsBatch,
      processHistoricalEmails, processHistoricalEmails_each,
      onNewMails_each, isScamEmail, moveToSpamFolder, updateAnalyzedUntil,
      toISOString, emailDateOf.
    restores; try apply restores_parseBatch; keepAlive_side.
  - unfold onError. restores. apply restores_handleConnectionError.
  - unfold onClose. restores. apply restores_handleConnectionError.
  - unfold reconnectCallback. restores;
      try apply restores_connect; try apply restores_scheduleReconnection;
      keepAlive_side.
  - unfold keepAliveCallback. restores.
    apply restores_handleConnectionError.
  - unfold startWatching. restores;
      try apply restores_connect; try apply restores_stopWatching;
      try apply restores_scheduleReconnection; keepAlive_side.
  - apply restores_stopWatching.
Qed.

Lemma suspendedTask_restores (n : Next unit) :
  match n with
  | Suspended o k => forall r, Restores keepAliveInv (k r)
  | Finished _ => True
  end ->
  Forall (fun t => forall r, Restores keepAliveInv (resume t r))
         (suspendedTask n).
Proof.
  destruct n as [r|o k]; intros H; simpl; constructor; [exact H|constructor].
Qed.

Lemma turn_keepsAlive W t :
  worldKeepsAlive W -> worldKeepsAlive (turn toLowerCase W t).
Proof.
  intros [Hw Ht]. destruct t as [e env|i env]; simpl.
  - destruct (advance_holds keepAliveInv (entryProg toLowerCase e)
                (answerSync env) _ _ (restores_entry e _ _ Hw)) as [H1 H2].
    split.
    + cbn [this history]. rewrite activeIntervals_app. exact H1.
    + cbn [tasks]. apply Forall_app. split; [exact Ht|].
      apply suspendedTask_restores. exact H2.
  - destruct (nth_error (tasks W) i) as [t|] eqn:E; [|split; assumption].
    assert (Kt : forall r, Restores keepAliveInv (resume t r)).
    { apply nth_error_In in E. rewrite Forall_forall in Ht. exact (Ht t E). }
    destruct (advance_holds keepAliveInv (resume t (answer env (pending t)))
                (answerSync env) _ _ (Kt _ _ _ Hw)) as [H1 H2].
    split.
    + cbn [this history]. rewrite activeIntervals_app. exact H1.
    + cbn [tasks]. apply Forall_app. split.
      * rewrite Forall_forall in *. intros x Hx. apply Ht.
        rewrite <- (firstn_skipn i (tasks W)). apply in_or_app. left.
        exact Hx.
      * apply Forall_app. split; [apply suspendedTask_restores; exact H2|].
        rewrite Forall_forall in *. intros x Hx. apply Ht.
        rewrite <- (firstn_skipn (S i) (tasks W)). apply in_or_app. right.
        exact Hx.
Qed.

Lemma exec_keepsAlive turns :
  forall W, worldKeepsAlive W -> worldKeepsAlive (exec toLowerCase W turns).
Proof.
  unfold exec. induction turns as [|t rest IH]; intros W H; simpl;
    [exact H|]. apply IH. apply turn_keepsAlive. exact H.
Qed.

(** X20.  Along every sequence of listener and timer activations, calls
    of the interface and answers of the collaborators, whenever control is
    back at the event loop the number of keepalive intervals armed and not
    cleared is one if the watcher holds an interval handle and zero
    otherwise: never two, and none is cleared that was not armed.  A handle
    is held only while a connection handle is. *)
Theorem at_most_one_keepalive_interval :
  forall lbl path user threshold analyzedUntil bodyMax turns,
    let W := exec toLowerCase
               (start (newWatcher lbl path user threshold analyzedUntil
                                  bodyMax)) turns in
    activeIntervals (history W) = (if keepAliveTimer (this W) then 1 else 0)
    /\ 0 <= activeIntervals (history W) <= 1
    /\ (keepAliveTimer (this W) = true -> connection (this W) <> None).
Proof.
  intros lbl path user threshold analyzedUntil bodyMax turns W.
  assert (H0 : worldKeepsAlive
                 (start (newWatcher lbl path user threshold analyzedUntil
                                    bodyMax))).
  { split; [|constructor]. split; [reflexivity | discriminate]. }
  destruct (exec_keepsAlive turns _ H0) as [[H1 H2] _]. fold W in H1, H2.
  split; [exact H1|]. split; [|exact H2].
  rewrite H1. destruct (keepAliveTimer (this W)); lia.
Qed.

End KeepAlive.

(** ** A cancelled reconnection *)

(** Closes the side conditions of a [Keeps] goal about [isReconnecting]. *)
Ltac reconnecting_side :=
  match goal with
  | |- anyOp _ => exact I
  | |- _ => idtac
  end;
  unfold reconnecting in *;
  cbn [State.isReconnecting State.set_connection State.set_isWatching
       State.set_isReconnecting State.set_reconnectAttempts
       State.set_reconnectTimer State.set_keepAliveTimer
       State.set_emailsAnalyzedUntil State.set_isBackfilling notTimeout] in *;
  repeat match goal with
         | H : State.isReconnecting ?w = true,
           H' : context [State.isReconnecting ?w] |- _ =>
             rewrite H in H'; cbn [orb] in H'
         end;
  try exact I; try assumption; try discriminate; try congruence.

Section Stuck.
Import JS Analyzer Imap State Async Semantics.

Variable toLowerCase : str -> str.

Lemma keeps_scheduleReconnection_stuck :
  Keeps reconnecting anyOp notTimeout scheduleReconnection.
Proof. unfold scheduleReconnection. keeps; reconnecting_side. Qed.

Lemma keeps_cleanupConnection_stuck :
  Keeps reconnecting anyOp notTimeout cleanupConnection.
Proof.
  unfold cleanupConnection, stopKeepAlive. keeps; reconnecting_side.
Qed.

Lemma keeps_connect_stuck : Keeps reconnecting anyOp notTimeout connect.
Proof.
  unfold connect, setupConnectionHandlers, startKeepAlive, stopKeepAlive.
  keeps; reconnecting_side.
Qed.

Lemma keeps_stopWatching_stuck :
  Keeps reconnecting anyOp notTimeout stopWatching.
Proof.
  unfold stopWatching. keeps;
    try apply keeps_cleanupConnection_stuck; reconnecting_side.
Qed.

Lemma keeps_handleConnectionError_stuck :
  Keeps reconnecting anyOp notTimeout handleConnectionError.
Proof.
  unfold handleConnectionError. keeps;
    try apply keeps_cleanupConnection_stuck;
    try apply keeps_scheduleReconnection_stuck; reconnecting_side.
Qed.

(** While the watcher is marked as reconnecting, whatever the event loop
    starts, but the timer callback, leaves the mark and arms no timer. *)
Lemma keeps_entry_stuck e :
  e <> ReconnectTimer ->
  Keeps reconnecting anyOp notTimeout (entryProg toLowerCase e).
Proof.
  intros He. destruct e; unfold entryProg; try congruence.
  - unfold onMail, getTotalMessages, onNewMails, fetchEmailsBatch,
      processHistoricalEmails, processHistoricalEmails_each,
      onNewMails_each, isScamEmail, moveToSpamFolder, updateAnalyzedUntil,
      toISOString, emailDateOf.
    keeps; reconnecting_side.
    match goal with |- Keeps _ _ _ (parseBatch ?l ?acc) =>
      generalize acc; induction l as [|m rest IH]; intros acc';
      [constructor | rewrite parseBatch_cons; unfold emailDateOf;
                     keeps; reconnecting_side; apply IH]
    end.
  - unfold onError. keeps;
      try apply keeps_handleConnectionError_stuck; reconnecting_side.
  - unfold onClose. keeps;
      try apply keeps_handleConnectionError_stuck; reconnecting_side.
  - unfold keepAliveCallback. keeps;
      try apply keeps_handleConnectionError_stuck; reconnecting_side.
  - unfold startWatching. keeps;
      try apply keeps_connect_stuck; try apply keeps_stopWatching_stuck;
      try apply keeps_scheduleReconnection_stuck; reconnecting_side.
  - apply keeps_stopWatching_stuck.
Qed.

(** What a program emits up to its next suspension point. *)
Lemma advance_outputs (I : Watcher -> Prop) P Q {A} (p : Prog A) sync :
  Keeps I P Q p ->
  forall w, I w ->
    forall o, In (Out o) (emitted (advance sync p w)) -> Q o.
Proof.
  induction 1 as [a|e|k _ IH|w' k Hw' _ IH|o k Ho _ IH|s k _ IH|o k Ho Hk _];
    intros w Hw o' Hin; simpl in Hin.
  - destruct Hin.
  - destruct Hin.
  - exact (IH w Hw w Hw o' Hin).
  - exact (IH w' Hw' o' Hin).
  - destruct Hin as [F|Hin]; [injection F as <-; exact Ho|].
    exact (IH w Hw o' Hin).
  - destruct Hin as [F|Hin]; [discriminate|]. exact (IH _ w Hw o' Hin).
  - destruct Hin as [F|[]]. discriminate.
Qed.

Lemma suspendedTask_stuck (n : Next unit) :
  match n with
  | Suspended o k => forall r, Keeps reconnecting anyOp notTimeout (k r)
  | Finished _ => True
  end ->
  Forall (fun t => forall r,
            Keeps reconnecting anyOp notTimeout (resume t r))
         (suspendedTask n).
Proof.
  destruct n as [r|o k]; intros H; simpl; constructor; [exact H|constructor].
Qed.

Lemma turn_stuck W t :
  notReconnectTimer t -> worldStuck W -> worldStuck (turn toLowerCase W t).
Proof.
  intros Hn (Hw & Ht & Hh). destruct t as [e env|i env]; simpl.
  - assert (K : Keeps reconnecting anyOp notTimeout (entryProg toLowerCase e)).
    { apply keeps_entry_stuck. intros ->. exact Hn. }
    destruct (advance_keeps _ _ _ _ (answerSync env) K (this W) Hw)
      as [H1 H2].
    split; [exact H1|]. split.
    + apply Forall_app. split; [exact Ht|].
      apply suspendedTask_stuck. exact H2.
    + cbn [history]. rewrite timeouts_app, Hh. apply no_timeouts.
      intros o Ho. exact (advance_outputs _ _ _ _ _ K (this W) Hw o Ho).
  - destruct (nth_error (tasks W) i) as [t|] eqn:E;
      [|split; [|split]; assumption].
    assert (Kt : forall r, Keeps reconnecting anyOp notTimeout (resume t r)).
    { apply nth_error_In in E. rewrite Forall_forall in Ht. exact (Ht t E). }
    destruct (advance_keeps _ _ _ _ (answerSync env)
                (Kt (answer env (pending t))) (this W) Hw) as [H1 H2].
    split; [exact H1|]. split.
    + cbn [tasks]. apply Forall_app. split.
      * rewrite Forall_forall in *. intros x Hx. apply Ht.
        rewrite <- (firstn_skipn i (tasks W)). apply in_or_app. left.
        exact Hx.
      * apply Forall_app. split; [apply suspendedTask_stuck; exact H2|].
        rewrite Forall_forall in *. intros x Hx. apply Ht.
        rewrite <- (firstn_skipn (S i) (tasks W)). apply in_or_app. right.
        exact Hx.
    + cbn [history]. rewrite timeouts_app, Hh. apply no_timeouts.
      intros o Ho.
      exact (advance_outputs _ _ _ _ _ (Kt (answer env (pending t)))
               (this W) Hw o Ho).
Qed.

Lemma exec_stuck turns :
  Forall notReconnectTimer turns ->
  forall W, worldStuck W -> worldStuck (exec toLowerCase W turns).
Proof.
  unfold exec. induction 1 as [|t rest Ht _ IH]; intros W H; simpl;
    [exact H|]. apply IH. apply turn_stuck; assumption.
Qed.

(** X21.  [stopWatching] cancels a pending reconnection timer but leaves
    [isReconnecting] set, and only the callback of that timer clears it.
    So from then on, whatever is started or answered (a new
    [startWatching] whose [connect] fails, ["error"] and ["close"] events,
    keepalive failures, notifications) no reconnection is ever scheduled
    again and the mark stays. *)
Theorem cancelled_reconnection_is_never_rescheduled :
  forall (w : Watcher) (turns : list Turn),
    isReconnecting w = true ->
    Forall notReconnectTimer turns ->
    (forall env,
        let r := run env stopWatching w in
        isReconnecting (final r) = true
        /\ reconnectTimer (final r) = None
        /\ timeouts (trace r) = []
        /\ (reconnectTimer w <> None -> In (Out ClearTimeout) (trace r)))
    /\ let W := exec toLowerCase (start w) turns in
       isReconnecting (this W) = true /\ timeouts (history W) = [].
Proof.
  intros w turns Hr Ht. split.
  - intros env r. subst r.
    destruct (run_stopWatching env w)
      as (_ & _ & _ & H4 & _ & H6 & _ & H8 & _).
    split; [congruence|]. split; [exact H4|]. split; [exact H8|].
    intros Hn. unfold stopWatching.
    rewrite run_bind, run_modify, thenR_ok, run_bind, run_Get.
    cbn [reconnectTimer set_isWatching].
    destruct (reconnectTimer w) as [d|]; [|congruence].
    runs. unfold afterAll. cbn [trace]. simpl. auto.
  - intros W.
    assert (H0 : worldStuck (start w)).
    { split; [exact Hr|]. split; [constructor | reflexivity]. }
    destruct (exec_stuck turns Ht _ H0) as (H1 & _ & H3).
    split; assumption.
Qed.

End Stuck.

Lemma cancelled_reconnection_witness :
  State.isReconnecting reconnectingWatcher = true
  /\ Forall notReconnectTimer restartOffline
  /\ In (Semantics.Out Imap.ClearTimeout)
        (Semantics.trace
           (Semantics.run (envOf calm) stopWatching reconnectingWatcher))
  /\ timeouts
       (history
          (exec JS.asciiLower
             (start (Semantics.final
                       (Semantics.run (envOf calm) stopWatching
                                      reconnectingWatcher)))
             restartOffline)) = [].
Proof.
  assert (F : Forall notReconnectTimer restartOffline)
    by (repeat constructor).
  split; [reflexivity|]. split; [exact F|]. split.
  - destruct (cancelled_reconnection_is_never_rescheduled JS.asciiLower
                reconnectingWatcher restartOffline eq_refl F) as [H _].
    apply (H (envOf calm)). discriminate.
  - destruct (cancelled_reconnection_is_never_rescheduled JS.asciiLower
                (Semantics.final
                   (Semantics.run (envOf calm) stopWatching
                                  reconnectingWatcher))
                restartOffline eq_refl F) as [_ H].
    exact (proj2 H).
Defined.

(** ** The keepalive callback *)

Section KeepAliveCallback.
Import JS Analyzer Imap State Async Semantics.
Local Open Scope Z_scope.

(** X22.  The keepalive callback touches the mailbox only when the
    connection is authenticated: without a handle it does nothing, in any
    other state it only reads the state, and when authenticated it
    re-opens [INBOX] once.  If that fails, the failure is logged and
    handled like a connection error: the connection is released and, when
    none is pending and the bound is not reached, one reconnection is
    scheduled. *)
Theorem keepalive_failure_starts_reconnection :
  forall (env : Env) (w : Watcher),
    (connection w = None ->
     run env keepAliveCallback w
     = {| final := w; trace := []; outcome := inr tt |})
    /\ forall c, connection w = Some c ->
        (forall state,
            answerSync env (GetState c) = inr state ->
            state <> Authenticated ->
            run env keepAliveCallback w
            = {| final := w; trace := [Did (GetState c)];
                 outcome := inr tt |})
        /\ (answerSync env (GetState c) = inr Authenticated ->
            (forall box,
                answer env (OpenBox c INBOX) = inr box ->
                run env keepAliveCallback w
                = {| final := w;
                     trace := [Did (GetState c); Awaited (OpenBox c INBOX)];
                     outcome := inr tt |})
            /\ (forall e random,
                   answer env (OpenBox c INBOX) = inl e ->
                   isReconnecting w = false ->
                   reconnectAttempts w < maxReconnectAttempts ->
                   answerSync env MathRandom = inr random ->
                   let r := run env keepAliveCallback w in
                   outcome r = inr tt
                   /\ In (Out (Log StdErr (KeepaliveFailed e))) (trace r)
                   /\ timeouts (trace r)
                      = [reconnectDelay (reconnectAttempts w + 1) random]
                   /\ connection (final r) = None
                   /\ keepAliveTimer (final r) = false
                   /\ isReconnecting (final r) = true)).
Proof.
  intros env w. split.
  - intros C. unfold keepAliveCallback. rewrite run_tryCatch, run_Get, C.
    reflexivity.
  - intros c C. split.
    + intros state Hs Hn. unfold keepAliveCallback.
      rewrite run_tryCatch, run_Get, C, run_bind, run_call, Hs, thenR_ok.
      cbn [SyncReply] in *. destruct state; try congruence; reflexivity.
    + intros Hs. split.
      * intros box Hb. unfold keepAliveCallback.
        rewrite run_tryCatch, run_Get, C, run_bind, run_call, Hs, thenR_ok.
        cbv beta iota. rewrite run_bind, run_await, Hb. reflexivity.
      * intros e random Hb Hr Ha Hrand r. subst r.
        unfold keepAliveCallback.
        rewrite run_tryCatch, run_Get, C, run_bind, run_call, Hs, thenR_ok.
        cbv beta iota. rewrite run_bind, run_await, Hb.
        rewrite thenR_err, afterAll_lit, catchR_err, run_bind, run_emit,
          thenR_ok.
        destruct (run_handleConnectionError_arms env w random Hr Ha Hrand)
          as (H1 & H2 & H3 & H4 & H5 & _).
        destruct (run env handleConnectionError w) as [w1 t1 o1].
        cbn [outcome final trace afterAll] in *.
        rewrite !timeouts_app, H2.
        repeat split; auto. rewrite !in_app_iff. simpl. auto.
Qed.

End KeepAliveCallback.

(** ** What a program calls *)

Section CallsLemmas.
Import Imap State Async Semantics.

Variable S : SyncOp -> Prop.

Lemma calls_bind {A B} (p : Prog A) (f : A -> Prog B) :
  Calls S p -> (forall a, Calls S (f a)) -> Calls S (bind p f).
Proof.
  intros Hp Hf. induction Hp; simpl; try (constructor; auto); auto.
Qed.

Lemma calls_tryCatch {A} (p : Prog A) h :
  Calls S p -> (forall e, Calls S (h e)) -> Calls S (tryCatch p h).
Proof.
  intros Hp Hh. induction Hp; simpl; try (constructor; auto); auto.
Qed.

Lemma calls_tryFinally {A} (p : Prog A) fin :
  Calls S p -> Calls S fin -> Calls S (tryFinally p fin).
Proof.
  intros Hp Hf. induction Hp; simpl; try (constructor; auto).
  - apply calls_bind; [exact Hf | constructor].
  - apply calls_bind; [exact Hf | constructor].
Qed.

Lemma calls_forEach {X} (l : list X) body :
  (forall x, Calls S (body x)) -> Calls S (forEach l body).
Proof.
  intros Hb. induction l as [|x r IH]; simpl; [constructor|].
  apply calls_bind; auto.
Qed.

Lemma calls_await o : Calls S (await o).
Proof. constructor. intros [e|x]; constructor. Qed.

Lemma calls_call s : S s -> Calls S (call s).
Proof. intros H. constructor; [exact H|]. intros [e|x]; constructor. Qed.

Lemma calls_emit o : Calls S (emit o).
Proof. repeat constructor. Qed.

Lemma calls_modify f : Calls S (modify f).
Proof. repeat constructor. Qed.

Lemma run_calls env {A} (p : Prog A) :
  Calls S p ->
  forall w s, In (Did s) (trace (run env p w)) -> S s.
Proof.
  induction 1 as [a|e|k _ IH|w' k _ IH|o k _ IH|s k Hs _ IH|o k _ IH];
    intros w s' Hin; simpl in Hin.
  - destruct Hin.
  - destruct Hin.
  - exact (IH w w s' Hin).
  - exact (IH w' s' Hin).
  - destruct Hin as [F|Hin]; [discriminate | exact (IH w s' Hin)].
  - destruct Hin as [F|Hin]; [injection F as <-; exact Hs|].
    exact (IH _ w s' Hin).
  - destruct Hin as [F|Hin]; [discriminate | exact (IH _ w s' Hin)].
Qed.

End CallsLemmas.

(** Decomposes a [Calls] goal along the structure of the program. *)
Ltac calls_step :=
  match goal with
  | |- Calls _ (Async.bind _ _) => apply calls_bind; [|intro]
  | |- Calls _ (Async.tryCatch _ _) => apply calls_tryCatch; [|intro]
  | |- Calls _ (Async.tryFinally _ _) => apply calls_tryFinally
  | |- Calls _ (Async.forEach _ _) => apply calls_forEach; intro
  | |- Calls _ (Async.await _) =>
      first [ apply calls_await
            | unfold Async.await; apply CallsAwait; intros [?|?]; constructor ]
  | |- Calls _ (Async.call _) =>
      first [ apply calls_call
            | unfold Async.call; apply CallsCall;
              [|intros [?|?]; constructor] ]
  | |- Calls _ (Async.emit _) => apply calls_emit
  | |- Calls _ (Async.log _) => apply calls_emit
  | |- Calls _ (Async.logError _) => apply calls_emit
  | |- Calls _ (Async.modify _) => apply calls_modify
  | |- Calls _ (Async.Get _) => apply CallsGet; intro
  | |- Calls _ (Async.Put _ _) => apply CallsPut
  | |- Calls _ (Async.Ret _) => apply CallsRet
  | |- Calls _ (Async.Raise _) => apply CallsRaise
  | |- Calls _ (match ?x with _ => _ end) => destruct x eqn:?
  end.

Ltac calls := repeat calls_step.

(** ** A live batch *)

Section LiveBatch.
Import JS Analyzer Imap State Async Semantics.
Local Open Scope Z_scope.

Variable toLowerCase : str -> str.
Variable env : Env.

(** A loop whose body leaves the state alone stops at the first item
    whose body throws. *)
Lemma run_forEach_stops {X} (body : X -> Prog unit) w :
  (forall x, final (run env (body x) w) = w) ->
  forall (before : list X) (x : X) (after : list X) (e : Exn),
    (forall y, In y before -> outcome (run env (body y) w) = inr tt) ->
    outcome (run env (body x) w) = inl e ->
    run env (forEach (before ++ x :: after) body) w
    = {| final := w;
         trace := flat_map (fun y => trace (run env (body y) w))
                           (before ++ [x]);
         outcome := inl e |}.
Proof.
  intros Hf before x after e. induction before as [|y rest IH];
    intros Hb Hx; cbn [app forEach flat_map]; rewrite run_bind.
  - specialize (Hf x). destruct (run env (body x) w) as [w1 t1 o1].
    cbn [final outcome trace] in *. subst w1 o1.
    rewrite thenR_err, app_nil_r. reflexivity.
  - pose proof (Hf y) as Hy.
    pose proof (Hb y (or_introl eq_refl)) as Ho.
    destruct (run env (body y) w) as [w1 t1 o1] eqn:E.
    cbn [final outcome trace] in *. subst w1 o1.
    rewrite thenR_ok, IH by (auto; intros z Hz; apply Hb; right; exact Hz).
    rewrite afterAll_lit. reflexivity.
Qed.

Lemma calls_parseBatch messages :
  forall emails, Calls clockOnly (parseBatch messages emails).
Proof.
  induction messages as [|m rest IH]; intros emails; [constructor|].
  rewrite parseBatch_cons. unfold emailDateOf. calls;
    try reflexivity. apply IH.
Qed.

(** The batch reads the clock (for a message without a date) and calls
    nothing else: it touches neither the accounts file nor the state of
    the connection. *)
Lemma calls_onNewMails total count :
  Calls clockOnly (onNewMails toLowerCase total count).
Proof.
  unfold onNewMails, fetchEmailsBatch, onNewMails_each, isScamEmail,
    moveToSpamFolder.
  calls; try apply calls_parseBatch; reflexivity.
Qed.

(** X23.  On the live path a relocation that throws ends the batch: the
    messages before the failing one were classified, the failing one too,
    none after it is; the failure is logged by the listener, the accounts
    file is neither read nor written and the watcher, its watermark
    included, is as before. *)
Theorem failed_relocation_ends_the_live_batch :
  forall (w : Watcher) (c : Conn) (count : Z) (box : Box)
         (messages : list RawMessage)
         (before after : list EmailContent) (email : EmailContent) (e : Exn),
    connection w = Some c ->
    answer env (OpenBox c INBOX) = inr box ->
    let total := match messages_total box with Some t => t | None => 0 end in
    count <> total ->
    answer env (Search c (SeqRange (total - count + 1) total)) = inr messages ->
    emailsOf env messages = (before ++ email :: after)%list ->
    (forall x, In x before ->
               outcome (run env (onNewMails_each toLowerCase x) w) = inr tt) ->
    outcome (run env (onNewMails_each toLowerCase email) w) = inl e ->
    let r := run env (onMail toLowerCase count) w in
    outcome r = inr tt
    /\ final r = w
    /\ classifierCalls (trace r)
       = map (promptFor (emailAnalyzer w)) (before ++ [email])
    /\ In (Out (Log StdErr (NewMailError e))) (trace r)
    /\ forall s, In (Did s) (trace r) -> s = DateNow.
Proof.
  intros w c count box messages before after email e Hc Hb total Hne Hs He
         Hok Hfail r.
  pose proof (run_onMail_total toLowerCase env w c count box Hc Hb) as R.
  cbv zeta in R. fold total r in R.
  assert (E : (total =? count) = false) by (apply Z.eqb_neq; congruence).
  rewrite E in R. clear E.
  destruct (run_fetchEmailsBatch env w c _ _ box messages Hb Hs)
    as (F1 & F2 & _ & F4).
  assert (L : run env (onNewMails toLowerCase total count) w
              = afterAll (trace (run env (fetchEmailsBatch c
                                            (total - count + 1) total) w))
                  {| final := w;
                     trace := flat_map
                                (fun y => trace (run env (onNewMails_each
                                                            toLowerCase y) w))
                                (before ++ [email]);
                     outcome := inl e |}).
  { unfold onNewMails. rewrite run_Get, Hc, run_bind.
    destruct (run env (fetchEmailsBatch c _ _) w) as [w1 t1 o1].
    cbn [final trace outcome] in F1, F2. subst w1 o1.
    rewrite thenR_ok, He. cbn [trace].
    rewrite (run_forEach_stops (onNewMails_each toLowerCase) w
               (fun x => proj1 (onNewMails_each_calls toLowerCase env w x))
               before email after e Hok Hfail).
    reflexivity. }
  pose proof (run_calls clockOnly env _ (calls_onNewMails total count) w)
    as Kc.
  assert (Lc : classifierCalls
                 (trace (run env (onNewMails toLowerCase total count) w))
               = map (promptFor (emailAnalyzer w)) (before ++ [email])).
  { rewrite L. cbn [afterAll trace].
    rewrite classifierCalls_app, F4, (forEach_calls toLowerCase env w).
    reflexivity. }
  assert (Lo : outcome (run env (onNewMails toLowerCase total count) w)
               = inl e) by (rewrite L; reflexivity).
  assert (Lf : final (run env (onNewMails toLowerCase total count) w) = w)
    by (rewrite L; reflexivity).
  clear L.
  rewrite R, run_bind, run_log, thenR_ok, run_tryCatch, run_bind.
  destruct (run env (onNewMails toLowerCase total count) w) as [w1 t1 o1].
  cbn [final trace outcome] in Kc, Lc, Lo, Lf. subst w1 o1.
  rewrite thenR_err, catchR_err, run_logError.
  rewrite !afterAll_lit. cbn [outcome final trace].
  split; [reflexivity|]. split; [reflexivity|]. split; [|split].
  - rewrite !classifierCalls_app, Lc. cbn [app].
    change (classifierCalls [Awaited (OpenBox c INBOX)]) with
      (@nil Analyzer.Prompt).
    change (classifierCalls [Out (Log StdOut (NewEmails count))]) with
      (@nil Analyzer.Prompt).
    change (classifierCalls [Out (Log StdErr (NewMailError e))]) with
      (@nil Analyzer.Prompt).
    rewrite app_nil_r. reflexivity.
  - rewrite !in_app_iff. simpl. auto.
  - intros s F. rewrite !in_app_iff in F. simpl in F.
    destruct F as [[F|[]]|[[F|[]]|[F|[F|[]]]]]; try discriminate.
    exact (Kc s F).
Qed.

End LiveBatch.

Lemma failed_relocation_witness :
  State.connection watcher = Some 1%nat
  /\ (2 <> 5)%Z
  /\ emailsOf (envOf firstMoveFails) (sc_messages calm)
     = [newEmail; oldEmail]
  /\ Semantics.outcome
       (Semantics.run (envOf firstMoveFails)
          (onNewMails_each JS.asciiLower newEmail) watcher) = inl failure
  /\ classifierCalls
       (Semantics.trace
          (Semantics.run (envOf firstMoveFails) (onMail JS.asciiLower 2)
                         watcher))
     = [promptFor (State.emailAnalyzer watcher) newEmail]
  /\ Semantics.final
       (Semantics.run (envOf firstMoveFails) (onMail JS.asciiLower 2) watcher)
     = watcher.
Proof.
  assert (Hne : (2 <> 5)%Z) by discriminate.
  assert (Hfail : Semantics.outcome
                    (Semantics.run (envOf firstMoveFails)
                       (onNewMails_each JS.asciiLower newEmail) watcher)
                  = inl failure) by reflexivity.
  destruct (failed_relocation_ends_the_live_batch JS.asciiLower
              (envOf firstMoveFails) watcher 1%nat 2%Z
              {| Imap.messages_total := Some 5%Z |} (sc_messages calm)
              [] [oldEmail] newEmail failure eq_refl eq_refl Hne eq_refl
              eq_refl (fun x (F : In x []) => match F with end) Hfail)
    as (_ & Hf & Hc & _).
  split; [reflexivity|]. split; [exact Hne|]. split; [reflexivity|].
  split; [exact Hfail|]. split; [exact Hc | exact Hf].
Defined.

(** ** The watermark after processing *)

Section Advance.
Import JS Analyzer Imap State Async Semantics.
Local Open Scope Z_scope.

Variable toLowerCase : str -> str.
Variable env : Env.

Lemma findIndex_ext w w' entries :
  accountUser w' = accountUser w -> label w' = label w ->
  forall i, findIndex w' entries i = findIndex w entries i.
Proof.
  intros Hu Hl. induction entries as [|acc rest IH]; intros i;
    [reflexivity|].
  cbn [findIndex]. unfold matchesAccount. rewrite Hu, Hl, IH. reflexivity.
Qed.

Lemma afterBatch_alike w w' now path raw entries idx :
  sameHandle w w' ->
  configPath w = Some path ->
  truthy path = true ->
  answerSync env DateNow = inr now ->
  answerSync env (ReadFile path) = inr raw ->
  answerSync env (JsonParse raw) = inr (Accounts entries) ->
  findIndex w entries 0 = inr (Some idx) ->
  answerSync env
    (WriteFile path (Accounts (setAnalyzedUntil entries idx now))) = inr tt ->
  run env afterBatch w'
  = {| final := set_emailsAnalyzedUntil (Some (Some now)) w';
       trace := [Did DateNow; Did (ReadFile path); Did (JsonParse raw);
                 Did (WriteFile path
                        (Accounts (setAnalyzedUntil entries idx now)))];
       outcome := inr tt |}.
Proof.
  intros (_ & _ & _ & Hl & Hp' & Hu) Hp Ht Hnow Hr Hj Hi Hw.
  apply (run_afterBatch_ok env w' now path raw entries idx); try assumption.
  - congruence.
  - rewrite (findIndex_ext w w' entries Hu Hl). exact Hi.
Qed.

(** X24.  The listener of ["mail"], amid whatever else runs at its awaits,
    with a clock, a file and a parser that answer and an account that is
    found.  The watermark is written last: the clock is read, the file
    read, parsed and written after everything else the listener does, and
    the watermark in memory ends at the instant read from the clock.  This
    is so on the live path once every message of the batch went through
    and on the backfill path once the scan returned, the backfill flag
    being clear then; and it is so as well when the connection handle was
    released while the total was awaited, although nothing was searched or
    classified then. *)
Theorem processed_mail_advances_the_watermark :
  forall (amid : nat -> Watcher -> Watcher) (w : Watcher) (c : Conn)
         (count : Z) (box : Box) (now : Z) (path raw : str)
         (entries : list (option Account)) (idx : nat),
    connection w = Some c ->
    answer env (OpenBox c INBOX) = inr box ->
    let total := match messages_total box with Some t => t | None => 0 end in
    let w1 := amid 0%nat w in
    configPath w1 = Some path ->
    truthy path = true ->
    answerSync env DateNow = inr now ->
    answerSync env (ReadFile path) = inr raw ->
    answerSync env (JsonParse raw) = inr (Accounts entries) ->
    findIndex w1 entries 0 = inr (Some idx) ->
    answerSync env
      (WriteFile path (Accounts (setAnalyzedUntil entries idx now))) = inr tt ->
    let r := runAmid env amid 0 (onMail toLowerCase count) w in
    let written :=
      [Did DateNow; Did (ReadFile path); Did (JsonParse raw);
       Did (WriteFile path (Accounts (setAnalyzedUntil entries idx now)))] in
    (connection w1 = None ->
     count <> total \/ isBackfilling w1 = false ->
     emailsAnalyzedUntil (final r) = Some (Some now)
     /\ searches (trace r) = []
     /\ classifierCalls (trace r) = []
     /\ exists before, trace r = before ++ written)
    /\ forall (c1 : Conn) (box1 : Box) (messages : list RawMessage),
        connection w1 = Some c1 ->
        keepsHandle amid ->
        answer env (OpenBox c1 INBOX) = inr box1 ->
        (count <> total ->
         answer env (Search c1 (SeqRange (total - count + 1) total))
         = inr messages ->
         (forall email, In email (emailsOf env messages) ->
            outcome (run env (onNewMails_each toLowerCase email) w1)
            = inr tt) ->
         emailsAnalyzedUntil (final r) = Some (Some now)
         /\ exists before,
             trace r = before ++ written
             /\ searches before = [SeqRange (total - count + 1) total]
             /\ classifierCalls before
                = map (promptFor (emailAnalyzer w1)) (emailsOf env messages))
        /\ (count = total ->
            isBackfilling w1 = false ->
            answer env (Search c1 (AllSince match emailsAnalyzedUntil w1 with
                                            | Some d => d
                                            | None => Some 0
                                            end)) = inr messages ->
            emailsAnalyzedUntil (final r) = Some (Some now)
            /\ isBackfilling (final r) = false
            /\ exists before,
                trace r = before ++ written
                /\ searches before
                   = [AllSince match emailsAnalyzedUntil w1 with
                               | Some d => d
                               | None => Some 0
                               end]).
Proof.
  intros amid w c count box now path raw entries idx Hc Hb total w1 Hp Ht
         Hnow Hr Hj Hi Hw r written.
  pose proof (runAmid_onMail_total toLowerCase env amid 0%nat w c count box
                Hc Hb) as R.
  cbv zeta in R. fold total w1 r in R.
  assert (AB : forall w', sameHandle w1 w' ->
                 run env afterBatch w'
                 = {| final := set_emailsAnalyzedUntil (Some (Some now)) w';
                      trace := written; outcome := inr tt |})
    by (intros w' Hs;
        exact (afterBatch_alike w1 w' now path raw entries idx Hs Hp Ht Hnow
                 Hr Hj Hi Hw)).
  assert (Sb : sameHandle w1 (set_isBackfilling true w1))
    by (repeat split).
  split.
  - (* the handle was released while the total was awaited *)
    intros Hn Hor. destruct (total =? count) eqn:E.
    + destruct Hor as [Hne|Hf]; [apply Z.eqb_eq in E; congruence|].
      rewrite R, (runAmid_afterTotal_backfill toLowerCase env amid 1 w1
                    total count E).
      rewrite (runAmid_backfillBlock toLowerCase env amid 1 w1 Hf).
      assert (N : forall lowerBound,
                 runAmid env amid 1
                   (processHistoricalEmails toLowerCase lowerBound)
                   (set_isBackfilling true w1)
                 = {| final := set_isBackfilling true w1; trace := [];
                      outcome := inr tt |}).
      { intros lowerBound. unfold processHistoricalEmails. cbn [runAmid].
        change (connection (set_isBackfilling true w1))
          with (connection w1).
        rewrite Hn. reflexivity. }
      rewrite N, thenR_ok, (AB _ Sb).
      rewrite !afterAll_lit, catchR_ok. unfold finallyR.
      rewrite run_modify, thenR_ok. cbn [afterAll final trace outcome app].
      repeat split. eexists. rewrite app_nil_r.
      change (?a :: ?b :: ?c :: written) with ([a; b; c] ++ written).
      reflexivity.
    + rewrite R, (runAmid_afterTotal_live toLowerCase env amid 1 w1
                    total count E).
      rewrite (runAmid_bind_then_sync env amid _ _ _ _
                 (fun _ => keeps_afterBatch)).
      assert (N : runAmid env amid 1 (onNewMails toLowerCase total count) w1
                  = {| final := w1; trace := []; outcome := inr tt |}).
      { unfold onNewMails. cbn [runAmid]. rewrite Hn. reflexivity. }
      rewrite N, thenR_ok, (AB _ (sameHandle_refl _)).
      rewrite !afterAll_lit, catchR_ok.
      cbn [afterAll final trace outcome app].
      repeat split. eexists.
      change (?a :: ?b :: written) with ([a; b] ++ written).
      reflexivity.
  - intros c1 box1 messages Hc1 Hk Hb1. split.
    + (* the live path *)
      intros Hne Hs Hok.
      assert (E : (total =? count) = false)
        by (apply Z.eqb_neq; congruence).
      rewrite R, (runAmid_afterTotal_live toLowerCase env amid 1 w1
                    total count E).
      rewrite (runAmid_bind_then_sync env amid _ _ _ _
                 (fun _ => keeps_afterBatch)).
      destruct (runAmid_alike env amid sameHandle sameHandle_trans Hk _ _
                  (alike_onNewMails toLowerCase total count)
                  1 w1 w1 (sameHandle_refl _)) as (A1 & A2 & A3).
      destruct (run_onNewMails toLowerCase env w1 c1 total count box1
                  messages Hc1 Hb1 Hs) as (N1 & N2 & N3).
      destruct (N3 Hok) as [N4 N5].
      rewrite N1 in A3. rewrite N4 in A2.
      destruct (runAmid env amid 1 (onNewMails toLowerCase total count) w1)
        as [w2 t2 o2].
      cbn [final trace outcome] in A1, A2, A3. subst o2.
      rewrite thenR_ok, (AB _ A3). rewrite !afterAll_lit, catchR_ok.
      cbn [afterAll final trace outcome app]. split; [reflexivity|].
      exists (Awaited (OpenBox c INBOX)
              :: Out (Log StdOut (NewEmails count)) :: t2).
      split; [reflexivity|]. rewrite A1.
      cbn [searches classifierCalls flat_map app]. split; assumption.
    + (* the backfill path *)
      intros -> Hf Hs. assert (E : (total =? total) = true)
        by apply Z.eqb_refl.
      rewrite R, (runAmid_afterTotal_backfill toLowerCase env amid 1 w1
                    total total E).
      rewrite (runAmid_backfillBlock toLowerCase env amid 1 w1 Hf).
      set (lowerBound := match emailsAnalyzedUntil w1 with
                         | Some d => d
                         | None => Some 0
                         end) in *.
      destruct (runAmid_alike env amid sameHandle sameHandle_trans Hk _ _
                  (alike_processHistoricalEmails toLowerCase lowerBound)
                  1 (set_isBackfilling true w1) (set_isBackfilling true w1)
                  (sameHandle_refl _)) as (A1 & A2 & A3).
      rewrite (run_processHistoricalEmails toLowerCase env
                 (set_isBackfilling true w1) c1 lowerBound box1 messages
                 Hc1 Hb1 Hs) in A1, A2, A3.
      cbn [final trace outcome] in A1, A2, A3.
      destruct (runAmid env amid 1
                  (processHistoricalEmails toLowerCase lowerBound)
                  (set_isBackfilling true w1)) as [w2 t2 o2].
      cbn [final trace outcome] in A1, A2, A3. subst o2.
      rewrite thenR_ok, (AB _ (sameHandle_trans _ _ _ Sb A3)).
      rewrite !afterAll_lit, catchR_ok. unfold finallyR.
      rewrite run_modify, thenR_ok. cbn [afterAll final trace outcome app].
      split; [reflexivity|]. split; [reflexivity|].
      exists (Awaited (OpenBox c INBOX)
              :: Out (Log StdOut (InitialCount total))
              :: Out (Log StdOut (BackfillLowerBound lowerBound)) :: t2).
      split; [rewrite app_nil_r; reflexivity|]. rewrite A1.
      cbn [searches flat_map app].
      change (flat_map _ (flat_map ?f messages))
        with (searches (flat_map f messages)).
      rewrite searches_flat_map; [reflexivity|].
      intros m.
      exact (proj2 (proj2 (proj2
               (processHistoricalEmails_each_calls toLowerCase env
                  (set_isBackfilling true w1) lowerBound m)))).
Qed.

End Advance.

Lemma watermark_advance_witness :
  State.connection watcher = Some 1%nat
  /\ (2 <> 5)%Z
  /\ findIndex watcher
       [Some {| Imap.acc_user := Some (JS.lit "me"); Imap.acc_label := None;
                Imap.acc_emailsAnalyzedUntil := None |}] 0 = inr (Some 0%nat)
  /\ keepsHandle alone
  /\ State.emailsAnalyzedUntil
       (Semantics.final
          (Semantics.runAmid (envOf calm) alone 0
             (onMail JS.asciiLower 2) watcher))
     = Some (Some 5000%Z)
  /\ State.emailsAnalyzedUntil
       (Semantics.final
          (Semantics.runAmid (envOf calm) alone 0
             (onMail JS.asciiLower 5) watcher))
     = Some (Some 5000%Z)
  /\ State.connection (stoppedAt 0 0%nat watcher) = None
  /\ State.emailsAnalyzedUntil
       (Semantics.final
          (Semantics.runAmid (envOf calm) (stoppedAt 0) 0
             (onMail JS.asciiLower 2) watcher))
     = Some (Some 5000%Z)
  /\ classifierCalls
       (Semantics.trace
          (Semantics.runAmid (envOf calm) (stoppedAt 0) 0
             (onMail JS.asciiLower 2) watcher))
     = [].
Proof.
  assert (Hne : (2 <> 5)%Z) by discriminate.
  assert (Hk : keepsHandle alone) by (intros n w; repeat split).
  assert (Hok : forall email,
             In email (emailsOf (envOf calm) (sc_messages calm)) ->
             Semantics.outcome
               (Semantics.run (envOf calm)
                  (onNewMails_each JS.asciiLower email) watcher) = inr tt).
  { intros email [<-|[<-|[]]]; vm_compute; reflexivity. }
  destruct (processed_mail_advances_the_watermark JS.asciiLower (envOf calm)
              alone watcher 1%nat 2%Z {| Imap.messages_total := Some 5%Z |}
              5000%Z (JS.lit "accounts.json") (JS.lit "[]") _ 0%nat
              eq_refl eq_refl eq_refl eq_refl eq_refl eq_refl eq_refl
              eq_refl eq_refl) as [_ Live].
  destruct (Live 1%nat {| Imap.messages_total := Some 5%Z |}
              (sc_messages calm) eq_refl Hk eq_refl) as [Live2 _].
  destruct (processed_mail_advances_the_watermark JS.asciiLower (envOf calm)
              alone watcher 1%nat 5%Z {| Imap.messages_total := Some 5%Z |}
              5000%Z (JS.lit "accounts.json") (JS.lit "[]") _ 0%nat
              eq_refl eq_refl eq_refl eq_refl eq_refl eq_refl eq_refl
              eq_refl eq_refl) as [_ Back].
  destruct (Back 1%nat {| Imap.messages_total := Some 5%Z |}
              (sc_messages calm) eq_refl Hk eq_refl) as [_ Back2].
  destruct (processed_mail_advances_the_watermark JS.asciiLower (envOf calm)
              (stoppedAt 0) watcher 1%nat 2%Z
              {| Imap.messages_total := Some 5%Z |}
              5000%Z (JS.lit "accounts.json") (JS.lit "[]") _ 0%nat
              eq_refl eq_refl eq_refl eq_refl eq_refl eq_refl eq_refl
              eq_refl eq_refl) as [Gone _].
  destruct (Gone eq_refl (or_introl Hne)) as (G1 & _ & G3 & _).
  split; [reflexivity|]. split; [exact Hne|]. split; [reflexivity|].
  split; [exact Hk|].
  split; [exact (proj1 (Live2 Hne eq_refl Hok))|].
  split; [exact (proj1 (Back2 eq_refl eq_refl eq_refl))|].
  split; [reflexivity|]. split; [exact G1 | exact G3].
Defined.

(** ** Mail handling and connection management keep apart *)

(** Closes the side conditions of the two frame properties. *)
Ltac frame_side :=
  match goal with
  | |- anyOp _ => exact I
  | |- anyOutput _ => exact I
  | |- logOnly _ => exact I
  | |- linkOp _ => exact I
  | |- clockOrFile _ => exact I
  | |- transportOrRandom _ => exact I
  | |- _ => idtac
  end;
  unfold sameLink, sameProgress in *;
  cbn [State.connection State.isWatching State.isReconnecting
       State.reconnectAttempts State.reconnectTimer State.keepAliveTimer
       State.emailsAnalyzedUntil State.isBackfilling
       State.set_connection State.set_isWatching State.set_isReconnecting
       State.set_reconnectAttempts State.set_reconnectTimer
       State.set_keepAliveTimer State.set_emailsAnalyzedUntil
       State.set_isBackfilling] in *;
  try tauto.

Section Frame.
Import JS Analyzer Imap State Async Semantics.

Variable toLowerCase : str -> str.

Lemma keeps_parseBatch_logs (Inv : Watcher -> Prop) messages :
  forall emails, Keeps Inv anyOp logOnly (parseBatch messages emails).
Proof.
  induction messages as [|m rest IH]; intros emails; [constructor|].
  rewrite parseBatch_cons. unfold emailDateOf.
  keeps; try exact I. apply IH.
Qed.

Lemma calls_parseBatch_clock messages :
  forall emails, Calls clockOrFile (parseBatch messages emails).
Proof.
  induction messages as [|m rest IH]; intros emails; [constructor|].
  rewrite parseBatch_cons. unfold emailDateOf.
  calls; try exact I. apply IH.
Qed.

Lemma keeps_onMail_link w0 count :
  Keeps (sameLink w0) anyOp logOnly (onMail toLowerCase count).
Proof.
  unfold onMail, getTotalMessages, onNewMails, fetchEmailsBatch,
    processHistoricalEmails, processHistoricalEmails_each,
    onNewMails_each, isScamEmail, moveToSpamFolder, updateAnalyzedUntil,
    toISOString, emailDateOf.
  keeps; try apply keeps_parseBatch_logs; frame_side.
Qed.

Lemma calls_onMail count : Calls clockOrFile (onMail toLowerCase count).
Proof.
  unfold onMail, getTotalMessages, onNewMails, fetchEmailsBatch,
    processHistoricalEmails, processHistoricalEmails_each,
    onNewMails_each, isScamEmail, moveToSpamFolder, updateAnalyzedUntil,
    toISOString, emailDateOf.
  calls; try apply calls_parseBatch_clock; frame_side.
Qed.

Lemma keeps_link_progress w0 e :
  ~ isMailEvent e ->
  Keeps (sameProgress w0) linkOp anyOutput (entryProg toLowerCase e).
Proof.
  intros He. destruct e; try (exfalso; apply He; exact I);
    unfold entryProg, onError, onClose, reconnectCallback, keepAliveCallback,
      startWatching, stopWatching, handleConnectionError, connect,
      setupConnectionHandlers, startKeepAlive, cleanupConnection,
      stopKeepAlive, scheduleReconnection;
    keeps; frame_side.
Qed.

Lemma calls_link e :
  ~ isMailEvent e ->
  Calls transportOrRandom (entryProg toLowerCase e).
Proof.
  intros He. destruct e; try (exfalso; apply He; exact I);
    unfold entryProg, onError, onClose, reconnectCallback, keepAliveCallback,
      startWatching, stopWatching, handleConnectionError, connect,
      setupConnectionHandlers, startKeepAlive, cleanupConnection,
      stopKeepAlive, scheduleReconnection;
    calls; frame_side.
Qed.

(** X25.  Handling a mail notification never touches the connection
    management: the handle, [isWatching], [isReconnecting], the attempt
    counter and both timers are as before, whatever happens to the
    messages; it arms and clears no timer and registers no listener, and
    its only synchronous calls are the clock and the accounts file: it
    never ends the connection, never removes its listeners and draws no
    random number. *)
Theorem mail_handling_leaves_the_connection_alone :
  forall (env : Env) (w : Watcher) (count : Z),
    let r := run env (onMail toLowerCase count) w in
    sameLink w (final r)
    /\ (forall o, In (Out o) (trace r) -> exists stream m, o = Log stream m)
    /\ timeouts (trace r) = []
    /\ activeIntervals (trace r) = 0%Z
    /\ (forall s, In (Did s) (trace r) -> clockOrFile s).
Proof.
  intros env w count r. subst r.
  assert (W0 : sameLink w w) by (unfold sameLink; tauto).
  destruct (run_keeps env _ _ _ _ (keeps_onMail_link w count) w W0)
    as (H1 & _ & H3).
  assert (L : forall o, In (Out o) (trace (run env (onMail toLowerCase count)
                                               w)) ->
                        exists stream m, o = Log stream m).
  { intros o Ho. specialize (H3 o Ho). destruct o; try contradiction.
    eauto. }
  split; [exact H1|]. split; [exact L|]. split; [|split].
  - apply no_timeouts. intros o Ho. destruct (L o Ho) as (s & m & ->).
    exact I.
  - generalize L. generalize (trace (run env (onMail toLowerCase count) w)).
    induction l as [|[o|s|o] t IH]; intros Hl; cbn [activeIntervals];
      try (apply IH; intros o' Ho'; apply Hl; right; exact Ho');
      [reflexivity|].
    destruct (Hl o (or_introl eq_refl)) as (st & m & ->).
    cbn [intervalChange]. rewrite IH; [reflexivity|].
    intros o' Ho'. apply Hl. right. exact Ho'.
  - exact (run_calls clockOrFile env _ (calls_onMail count) w).
Qed.

(** X26.  Connection management never touches the progress through the
    mail: whatever [startWatching], [stopWatching], the ["error"] and
    ["close"] listeners and the two timer callbacks do, the watermark and
    [isBackfilling] are as before; they await only the connection and the
    opening of a mailbox (no search, no parser, no classifier, no move),
    and they never read or write the accounts file. *)
Theorem connection_management_leaves_the_progress_alone :
  forall (env : Env) (w : Watcher) (e : Entry),
    ~ isMailEvent e ->
    let r := run env (entryProg toLowerCase e) w in
    sameProgress w (final r)
    /\ (forall o, In (Awaited o) (trace r) -> linkOp o)
    /\ searches (trace r) = []
    /\ classifierCalls (trace r) = []
    /\ moves (trace r) = []
    /\ (forall s, In (Did s) (trace r) -> transportOrRandom s).
Proof.
  intros env w e He r. subst r.
  assert (W0 : sameProgress w w) by (unfold sameProgress; tauto).
  destruct (run_keeps env _ _ _ _ (keeps_link_progress w e He) w W0)
    as (H1 & H2 & _).
  split; [exact H1|]. split; [exact H2|].
  split; [|split; [|split]].
  - apply no_searches. intros o Ho c crit ->. exact (H2 _ Ho).
  - apply no_classifierCalls. intros o Ho p ->. exact (H2 _ Ho).
  - generalize H2. generalize (trace (run env (entryProg toLowerCase e) w)).
    induction l as [|[o|s|o] t IH]; intros Hl; cbn [moves flat_map];
      try (apply IH; intros o' Ho'; apply Hl; right; exact Ho');
      [reflexivity|].
    pose proof (Hl o (or_introl eq_refl)) as Ho.
    destruct o; try contradiction; cbn [app];
      apply IH; intros o' Ho'; apply Hl; right; exact Ho'.
  - exact (run_calls transportOrRandom env _ (calls_link e He) w).
Qed.

End Frame.

Lemma connection_management_witness :
  ~ isMailEvent StopWatching
  /\ State.emailsAnalyzedUntil
       (Semantics.final
          (Semantics.run (envOf calm) (entryProg JS.asciiLower StopWatching)
             (State.set_isBackfilling true
                (State.set_emailsAnalyzedUntil (Some (Some 900%Z)) watcher))))
     = Some (Some 900%Z)
  /\ State.isBackfilling
       (Semantics.final
          (Semantics.run (envOf calm) (entryProg JS.asciiLower StopWatching)
             (State.set_isBackfilling true
                (State.set_emailsAnalyzedUntil (Some (Some 900%Z)) watcher))))
     = true.
Proof.
  assert (He : ~ isMailEvent StopWatching) by (intros F; exact F).
  split; [exact He|].
  exact (proj1 (connection_management_leaves_the_progress_alone JS.asciiLower
                  (envOf calm)
                  (State.set_isBackfilling true
                     (State.set_emailsAnalyzedUntil (Some (Some 900%Z))
                                                    watcher))
                  StopWatching He)).
Defined.
